(** * GTRI rule inference: the lattice-search core

    A shallow embedding of the Python package [GTRI] (label algebra of
    [rule_graph.py], [morphism.py], [embedding.py], [rule_lattice.py],
    [rule_builder.py], the [networkx] view of [networkx_interface.py], the
    label database of [canonicalisation.py], the minimal rules of
    [iterated_map.py] and the collections of [ilp_model.py]) together with
    the properties stated about it.

    Conventions.
    - A Python [str] is a [string]; [Optional[str]] is [option string];
      Python truthiness of a string is "non-empty".
    - A [mod.Graph.Vertex] is identified with its integer [id] (a [nat]).
    - An exception raised by the Python code ([KeyError], [StopIteration],
      [AttributeError] on [None]) is the value [None] of an [option].
    - A [dict] is an association list in insertion order, with keys compared
      by the [==] of their class; a [set] is a list without [==]-duplicates,
      iterated in insertion order.
    - Recursion that Python leaves unbounded takes a [fuel] argument. *)

From Stdlib Require Import List String Ascii Bool Arith PeanoNat Lia.
From Stdlib Require Import Permutation Sorted ZArith DecimalString.
From Stdlib Require Import RelationClasses OrdersEx DecimalNat.
From Equations Require Import Equations.
Import ListNotations.
Set Warnings "-register-all".
Open Scope string_scope.
Open Scope list_scope.


(** ** Python strings and optional strings *)

Module PyStr.

(** [bool(s)] for a string. *)
Definition truthy (s : string) : bool :=
  match s with
  | EmptyString => false
  | String _ _ => true
  end.

(** [bool(s)] for an [Optional[str]]: [None] and [""] are falsy. *)
Definition otruthy (s : option string) : bool :=
  match s with
  | None => false
  | Some s => truthy s
  end.

(** [s.find(c) >= 0]. *)
Fixpoint contains (c : ascii) (s : string) : bool :=
  match s with
  | EmptyString => false
  | String d rest => if Ascii.eqb d c then true else contains c rest
  end.

(** [s.split(c)]: never empty, one more piece than occurrences of [c]. *)
Fixpoint split (c : ascii) (s : string) : list string :=
  match s with
  | EmptyString => [EmptyString]
  | String d rest =>
      if Ascii.eqb d c then EmptyString :: split c rest
      else match split c rest with
           | [] => [String d EmptyString]
           | piece :: pieces => String d piece :: pieces
           end
  end.

(** [a == b] on [Optional[str]]. *)
Definition oeqb (a b : option string) : bool :=
  match a, b with
  | None, None => true
  | Some a, Some b => String.eqb a b
  | _, _ => false
  end.

Definition olength (s : option string) : nat :=
  match s with
  | None => 0
  | Some s => String.length s
  end.

End PyStr.

(** ** Combined labels ([rule_graph.py], lines 17-74) *)

Module Labels.
Import PyStr.

Definition semicolon : ascii := ";"%char.
Definition star : ascii := "*"%char.

Definition _is_combined (label : string) : bool := contains semicolon label.

Definition _has_abstract_string (label : string) : bool := contains star label.

(** [labels[0] if labels[0] else None], [labels[1] if len(labels) > 1 and
    labels[1] else None]. *)
Definition _split_label (label : string) : option string * option string :=
  let labels := split semicolon label in
  let left_label :=
    match labels with
    | l0 :: _ => if truthy l0 then Some l0 else None
    | [] => None
    end in
  let right_label :=
    match labels with
    | _ :: l1 :: _ => if truthy l1 then Some l1 else None
    | _ => None
    end in
  (left_label, right_label).

Definition _combine_labels (left_label right_label : option string) : string :=
  let left_string_label := if otruthy left_label then
                             match left_label with Some l => l | None => "" end
                           else "" in
  let right_string_label := if otruthy right_label then
                              match right_label with Some r => r | None => "" end
                            else "" in
  if negb (String.eqb left_string_label right_string_label)
  then left_string_label ++ ";" ++ right_string_label
  else left_string_label.

(** The guard of the recursive branch of [_compare_labels]. *)
Definition both_combined (supergraph_label subgraph_label : option string) : bool :=
  match subgraph_label, supergraph_label with
  | Some sub, Some sup =>
      truthy sub && truthy sup && _is_combined sub && _is_combined sup
  | _, _ => false
  end.

Definition split_of (label : option string) : option string * option string :=
  match label with
  | Some l => _split_label l
  | None => (None, None)
  end.

(** The non-recursive tail of [_compare_labels] (lines 68-74). *)
Definition compare_plain (supergraph_label subgraph_label : option string) : bool :=
  if negb (otruthy supergraph_label) then negb (otruthy subgraph_label)
  else if oeqb subgraph_label (Some "*") then true
  else oeqb subgraph_label supergraph_label.

(** Every piece of [s.split(c)] is shorter than [s] once [c] occurs in [s];
    this is what makes the recursion of [_compare_labels] terminate. *)
Lemma split_nonempty c s : split c s <> [].
Proof.
  destruct s as [|d r]; simpl; [discriminate|].
  destruct (Ascii.eqb d c); [discriminate|].
  destruct (split c r); discriminate.
Qed.

Lemma split_length c s :
  list_sum (map String.length (split c s)) + (List.length (split c s) - 1)
  = String.length s.
Proof.
  induction s as [|d r IH]; simpl; [reflexivity|].
  pose proof (split_nonempty c r) as Hne.
  destruct (Ascii.eqb d c); destruct (split c r); try congruence; simpl in *; lia.
Qed.

Lemma split_contains c s : contains c s = true -> 2 <= List.length (split c s).
Proof.
  induction s as [|d r IH]; simpl; [discriminate|].
  pose proof (split_nonempty c r) as Hne.
  destruct (Ascii.eqb d c).
  - intros _. destruct (split c r); [congruence|]. simpl. lia.
  - intros H. specialize (IH H). destruct (split c r); simpl in *; lia.
Qed.

Lemma split_halves_shorter l :
  _is_combined l = true ->
  olength (fst (_split_label l)) < String.length l /\
  olength (snd (_split_label l)) < String.length l.
Proof.
  intros H. unfold _is_combined in H.
  pose proof (split_contains _ _ H) as H2.
  pose proof (split_length semicolon l) as HL.
  unfold _split_label.
  destruct (split semicolon l) as [|p0 [|p1 ps]]; simpl in *; try lia.
  split; [destruct (truthy p0) | destruct (truthy p1)]; simpl; lia.
Qed.

Definition inspect {A} (a : A) : {b | a = b} := exist _ a eq_refl.

(** [_compare_labels(supergraph_label, subgraph_label)]: component-wise on
    combined labels, otherwise absent-matches-absent, then wildcard, then
    equality.  The recursion is on the halves of the sub-pattern label. *)
Equations? _compare_labels (supergraph_label subgraph_label : option string) : bool
  by wf (olength subgraph_label) lt :=
  _compare_labels sup sub with inspect (both_combined sup sub) := {
    | exist _ true _ =>
        _compare_labels (fst (split_of sup)) (fst (split_of sub))
        && _compare_labels (snd (split_of sup)) (snd (split_of sub));
    | exist _ false _ => compare_plain sup sub }.
Proof.
  all: unfold both_combined in *; destruct sub as [sub|]; [|discriminate];
    destruct sup as [sup|]; [|discriminate];
    apply andb_prop in e as [e Hc]; apply andb_prop in e as [e Hd];
    simpl; apply (split_halves_shorter _ Hd).
Qed.

End Labels.

(** ** Python dictionaries, tuples and [sorted] over vertex pairs *)

Module PyData.

(** A [mod.Graph.Vertex], identified by its [id]. *)
Definition Vertex := nat.

(** One [(range_vertex, image_vertex)] item of a vertex map. *)
Definition Item := (Vertex * Vertex)%type.

Definition item_eqb (a b : Item) : bool :=
  Nat.eqb (fst a) (fst b) && Nat.eqb (snd a) (snd b).

(** [a < b] on pairs: first components, then second components. *)
Definition item_ltb (a b : Item) : bool :=
  if Nat.eqb (fst a) (fst b) then Nat.ltb (snd a) (snd b)
  else Nat.ltb (fst a) (fst b).

(** [a == b] on tuples of pairs. *)
Fixpoint tuple_eqb (a b : list Item) : bool :=
  match a, b with
  | [], [] => true
  | x :: a', y :: b' => item_eqb x y && tuple_eqb a' b'
  | _, _ => false
  end.

(** [a < b] on tuples: the first differing position decides, a proper
    prefix is smaller. *)
Fixpoint tuple_ltb (a b : list Item) : bool :=
  match a, b with
  | [], [] => false
  | [], _ :: _ => true
  | _ :: _, [] => false
  | x :: a', y :: b' => if item_eqb x y then tuple_ltb a' b' else item_ltb x y
  end.

(** [a <= b] on tuples. *)
Fixpoint tuple_leb (a b : list Item) : bool :=
  match a, b with
  | [], _ => true
  | _ :: _, [] => false
  | x :: a', y :: b' => if item_eqb x y then tuple_leb a' b' else item_ltb x y
  end.

(** [a > b] and [a >= b] on pairs. *)
Definition item_gtb (a b : Item) : bool :=
  if Nat.eqb (fst a) (fst b) then Nat.ltb (snd b) (snd a)
  else Nat.ltb (fst b) (fst a).

Definition item_geb (a b : Item) : bool :=
  if Nat.eqb (fst a) (fst b) then Nat.leb (snd b) (snd a)
  else Nat.leb (fst b) (fst a).

(** [a > b] on tuples: the first differing position decides, a proper
    extension is greater. *)
Fixpoint tuple_gtb (a b : list Item) : bool :=
  match a, b with
  | [], _ => false
  | _ :: _, [] => true
  | x :: a', y :: b' => if item_eqb x y then tuple_gtb a' b' else item_gtb x y
  end.

(** [a >= b] on tuples. *)
Fixpoint tuple_geb (a b : list Item) : bool :=
  match a, b with
  | _, [] => true
  | [], _ :: _ => false
  | x :: a', y :: b' => if item_eqb x y then tuple_geb a' b' else item_geb x y
  end.

(** [sorted(items)]: a stable sort by [<]. *)
Fixpoint insert_sorted (x : Item) (l : list Item) : list Item :=
  match l with
  | [] => [x]
  | y :: l' => if item_ltb y x then y :: insert_sorted x l' else x :: y :: l'
  end.

Definition sorted (items : list Item) : list Item :=
  fold_right insert_sorted [] items.

(** [d[k]], [None] standing for [KeyError]. *)
Fixpoint dict_get (d : list Item) (k : Vertex) : option Vertex :=
  match d with
  | [] => None
  | (k', v) :: d' => if Nat.eqb k' k then Some v else dict_get d' k
  end.

(** [d[k] = v]: an existing key keeps its position. *)
Fixpoint dict_set (d : list Item) (k v : Vertex) : list Item :=
  match d with
  | [] => [(k, v)]
  | (k', v') :: d' =>
      if Nat.eqb k' k then (k, v) :: d' else (k', v') :: dict_set d' k v
  end.

(** [{k: v for k, v in items}]. *)
Definition dict_of (items : list Item) : list Item :=
  fold_left (fun d kv => dict_set d (fst kv) (snd kv)) items [].

Definition keys (d : list Item) : list Vertex := map fst d.
Definition values (d : list Item) : list Vertex := map snd d.

(** Sequencing of computations that may raise. *)
Definition bind {A B} (x : option A) (f : A -> option B) : option B :=
  match x with
  | Some a => f a
  | None => None
  end.

(** [[f(x) for x in l]] where [f] may raise. *)
Fixpoint mapM {A B} (f : A -> option B) (l : list A) : option (list B) :=
  match l with
  | [] => Some []
  | x :: l' => bind (f x) (fun y => bind (mapM f l') (fun ys => Some (y :: ys)))
  end.

End PyData.

(** ** [mod.Graph] and the canonical-identity oracle ([canonicalisation.py]) *)

Module Mod.
Import PyData.

(** [mod.Graph.Vertex]: [id] and [stringLabel]. *)
Record GVertex := mkVertex { vid : Vertex; vlabel : string }.

(** [mod.Graph.Edge]: [source.id], [target.id] and [stringLabel]. *)
Record GEdge := mkEdge { source : Vertex; target : Vertex; elabel : string }.

(** [mod.Graph]: [vertices] and [edges]. *)
Record Graph := mkGraph { vertices : list GVertex; edges : list GEdge }.

(** [mod.Graph.Aut]: [automorphism[vertex]]. *)
Definition Aut := Vertex -> Vertex.

(** What the core asks of the external graph library: the canonical SMILES
    string behind [GraphCanonicaliser.graph_canonical_smiles] and the
    generators of [graph.aut()].  Both are pure functions of the graph. *)
Class Oracle := {
  graph_canonical_smiles : Graph -> string;
  aut_gens : Graph -> list Aut
}.

Definition vertex_ids (g : Graph) : list Vertex := map vid (vertices g).

End Mod.

Module CanonicalGraph.
Import PyData Mod.

Record t := mk {
  graph : Graph;
  canonical_smiles : string;
  automorphism_generators : list Aut
}.

(** [CanonicalGraph(graph, canonicaliser)]. *)
Definition init `{Oracle} (g : Graph) : t :=
  {| graph := g;
     canonical_smiles := graph_canonical_smiles g;
     automorphism_generators := aut_gens g |}.

Definition eqb (a b : t) : bool := String.eqb (canonical_smiles a) (canonical_smiles b).
Definition ltb (a b : t) : bool := String.ltb (canonical_smiles a) (canonical_smiles b).
Definition leb (a b : t) : bool := String.leb (canonical_smiles a) (canonical_smiles b).

(** [__ge__] is [not self < other], [__gt__] is [not self <= other]. *)
Definition geb (a b : t) : bool := negb (ltb a b).
Definition gtb (a b : t) : bool := negb (leb a b).

Definition number_of_vertices (a : t) : nat := List.length (vertices (graph a)).
Definition number_of_edges (a : t) : nat := List.length (edges (graph a)).

End CanonicalGraph.

(** ** Morphisms ([morphism.py]) *)

Module Morphism.
Import PyData Mod.

Record t := mk {
  _vertex_map : list Item;
  _fingerprint : list Item
}.

(** [Morphism(vertex_map)]: the fingerprint is the sorted tuple of items. *)
Definition init (vertex_map : list Item) : t :=
  {| _vertex_map := vertex_map; _fingerprint := sorted vertex_map |}.

Definition eqb (a b : t) : bool := tuple_eqb (_fingerprint a) (_fingerprint b).
Definition ltb (a b : t) : bool := tuple_ltb (_fingerprint a) (_fingerprint b).
Definition leb (a b : t) : bool := tuple_leb (_fingerprint a) (_fingerprint b).

Definition geb (a b : t) : bool := tuple_geb (_fingerprint a) (_fingerprint b).
Definition gtb (a b : t) : bool := tuple_gtb (_fingerprint a) (_fingerprint b).

Definition items (m : t) : list Item := _vertex_map m.
Definition getitem (m : t) (v : Vertex) : option Vertex := dict_get (_vertex_map m) v.
Definition len (m : t) : nat := List.length (_fingerprint m).

(** [-self]. *)
Definition neg (m : t) : t :=
  init (dict_of (map (fun ri => (snd ri, fst ri)) (items m))).

(** [self + other]: [{r: other[i] for r, i in self.items()}]; raises when an
    image vertex of [self] is no key of [other]. *)
Definition add (self other : t) : option t :=
  bind (mapM (fun ri => bind (getitem other (snd ri)) (fun j => Some (fst ri, j)))
             (items self))
       (fun its => Some (init (dict_of its))).

Definition _identity (g : Graph) : t :=
  init (dict_of (map (fun v => (vid v, vid v)) (vertices g))).

Definition _from_automorphism (g : Graph) (automorphism : Aut) : t :=
  init (dict_of (map (fun v => (vid v, automorphism (vid v))) (vertices g))).

(** The generator morphisms followed by the identity. *)
Definition _from_automorphism_generators (g : CanonicalGraph.t) : list t :=
  map (_from_automorphism (CanonicalGraph.graph g))
      (CanonicalGraph.automorphism_generators g)
  ++ [_identity (CanonicalGraph.graph g)].

(** The inner loop of [canonicalise]: one [partial_candidate] against every
    image automorphism. *)
Fixpoint canonicalise_inner (partial_candidate : t) (image_automorphisms : list t)
    (smallest_candidate : t) : option t :=
  match image_automorphisms with
  | [] => Some smallest_candidate
  | image_automorphism :: rest =>
      bind (add partial_candidate image_automorphism) (fun candidate =>
        canonicalise_inner partial_candidate rest
          (if ltb candidate smallest_candidate then candidate
           else smallest_candidate))
  end.

(** The outer loop of [canonicalise]. *)
Fixpoint canonicalise_outer (self : t) (range_automorphisms image_automorphisms : list t)
    (smallest_candidate : t) : option t :=
  match range_automorphisms with
  | [] => Some smallest_candidate
  | range_automorphism :: rest =>
      bind (add range_automorphism self) (fun partial_candidate =>
        bind (canonicalise_inner partial_candidate image_automorphisms
                smallest_candidate)
             (canonicalise_outer self rest image_automorphisms))
  end.

Definition canonicalise (self : t) (range image : CanonicalGraph.t) : option t :=
  canonicalise_outer self (_from_automorphism_generators range)
    (_from_automorphism_generators image) self.

End Morphism.

(** ** The [networkx] graphs the patterns are edited in

    A [networkx.Graph] whose nodes are vertex ids carrying a ["label"]
    attribute and whose undirected edges carry a ["label"] attribute.  Nodes
    and edges are kept in insertion order.  Every call of [add_edge] in the
    source joins two nodes that already exist, so [add_edge] adds no node
    here. *)

Module NX.
Import PyData.

Record Graph := mk {
  nodes : list (Vertex * string);
  edges : list (Vertex * Vertex * string)
}.

Definition empty : Graph := mk [] [].

Definition node_ids (g : Graph) : list Vertex := map fst (nodes g).

Definition has_node (g : Graph) (n : Vertex) : bool :=
  existsb (Nat.eqb n) (node_ids g).

(** [u, v] and [v, u] name the same undirected edge. *)
Definition joins (u v : Vertex) (e : Vertex * Vertex * string) : bool :=
  let '(a, b, _) := e in
  (Nat.eqb a u && Nat.eqb b v) || (Nat.eqb a v && Nat.eqb b u).

Definition has_edge (g : Graph) (u v : Vertex) : bool := existsb (joins u v) (edges g).

(** [g.nodes[n]["label"]]. *)
Fixpoint node_label_in (l : list (Vertex * string)) (n : Vertex) : option string :=
  match l with
  | [] => None
  | (m, label) :: l' => if Nat.eqb m n then Some label else node_label_in l' n
  end.

Definition node_label (g : Graph) (n : Vertex) : option string := node_label_in (nodes g) n.

(** [g.edges[u, v]["label"]]. *)
Definition edge_label (g : Graph) (u v : Vertex) : option string :=
  match find (joins u v) (edges g) with
  | Some (_, _, label) => Some label
  | None => None
  end.

Fixpoint set_node_in (l : list (Vertex * string)) (n : Vertex) (label : string)
  : list (Vertex * string) :=
  match l with
  | [] => [(n, label)]
  | (m, old) :: l' =>
      if Nat.eqb m n then (m, label) :: l' else (m, old) :: set_node_in l' n label
  end.

(** [g.add_node(n, label=label)]: a new node, or a new label for an old one. *)
Definition add_node (g : Graph) (n : Vertex) (label : string) : Graph :=
  mk (set_node_in (nodes g) n label) (edges g).

Fixpoint set_edge_in (l : list (Vertex * Vertex * string)) (u v : Vertex) (label : string)
  : list (Vertex * Vertex * string) :=
  match l with
  | [] => [(u, v, label)]
  | e :: l' =>
      if joins u v e then (fst (fst e), snd (fst e), label) :: l'
      else e :: set_edge_in l' u v label
  end.

(** [g.add_edge(u, v, label=label)]. *)
Definition add_edge (g : Graph) (u v : Vertex) (label : string) : Graph :=
  mk (nodes g) (set_edge_in (edges g) u v label).

(** [g.nodes[n]["label"] = label]; raises on a missing node. *)
Definition relabel_node (g : Graph) (n : Vertex) (label : string) : option Graph :=
  if has_node g n then Some (add_node g n label) else None.

(** [g.edges[u, v]["label"] = label]; raises on a missing edge. *)
Definition relabel_edge (g : Graph) (u v : Vertex) (label : string) : option Graph :=
  if has_edge g u v then Some (add_edge g u v label) else None.

(** [g.edges(n)]: the edges at [n]. *)
Definition edges_at (g : Graph) (n : Vertex) : list (Vertex * Vertex * string) :=
  filter (fun e => Nat.eqb (fst (fst e)) n || Nat.eqb (snd (fst e)) n) (edges g).

(** *** [networkx.connected_components] *)

Definition mem (n : Vertex) (l : list Vertex) : bool := existsb (Nat.eqb n) l.

Definition adjacent_to (g : Graph) (seen : list Vertex) (n : Vertex) : bool :=
  existsb (fun e => let '(a, b, _) := e in
                    (Nat.eqb a n && mem b seen) || (Nat.eqb b n && mem a seen))
          (edges g).

(** One round of the search: the nodes already reached and their neighbours,
    in node order. *)
Definition expand (g : Graph) (seen : list Vertex) : list Vertex :=
  filter (fun n => mem n seen || adjacent_to g seen n) (node_ids g).

Fixpoint closure (g : Graph) (rounds : nat) (seen : list Vertex) : list Vertex :=
  match rounds with
  | 0 => seen
  | S rounds' => closure g rounds' (expand g seen)
  end.

(** The component of [n]; as many rounds as there are nodes reach all of it. *)
Definition component_of (g : Graph) (n : Vertex) : list Vertex :=
  closure g (List.length (nodes g)) [n].

Fixpoint components_from (g : Graph) (todo seen : list Vertex) : list (list Vertex) :=
  match todo with
  | [] => []
  | n :: todo' =>
      if mem n seen then components_from g todo' seen
      else let c := component_of g n in
           c :: components_from g todo' (c ++ seen)
  end.

(** The components in the order of their first node, each in node order. *)
Definition connected_components (g : Graph) : list (list Vertex) :=
  components_from g (node_ids g) [].

(** *** [networkx.algorithms.isomorphism.GraphMatcher]

    The matcher is modelled by exhaustive enumeration; the order in which
    [networkx] yields the matches is not modelled by it. *)

Fixpoint remove_one (c : Vertex) (l : list Vertex) : list Vertex :=
  match l with
  | [] => []
  | d :: l' => if Nat.eqb d c then l' else d :: remove_one c l'
  end.

(** All injective maps from [dom] into [cod], as item lists. *)
Fixpoint injections (dom cod : list Vertex) : list (list Item) :=
  match dom with
  | [] => [[]]
  | d :: dom' =>
      flat_map (fun c => map (cons (d, c)) (injections dom' (remove_one c cod))) cod
  end.

Definition image_of (f : list Item) (n : Vertex) : Vertex :=
  match dict_get f n with
  | Some m => m
  | None => n
  end.

(** [node_match(G1.nodes[n1], G2.nodes[n2])] on every matched pair. *)
Definition nodes_match (node_match : string -> string -> bool) (G1 G2 : Graph)
    (pairs : list Item) : bool :=
  forallb (fun p => match node_label G1 (fst p), node_label G2 (snd p) with
                    | Some l1, Some l2 => node_match l1 l2
                    | _, _ => false
                    end) pairs.

(** [GraphMatcher(G1, G2, node_match, edge_match).isomorphisms_iter()]:
    the dictionaries from the nodes of [G1] to the nodes of [G2]. *)
Definition isomorphisms_iter (node_match edge_match : string -> string -> bool)
    (G1 G2 : Graph) : list (list Item) :=
  if negb (Nat.eqb (List.length (nodes G1)) (List.length (nodes G2))
           && Nat.eqb (List.length (edges G1)) (List.length (edges G2)))
  then []
  else filter (fun f =>
                 nodes_match node_match G1 G2 f
                 && forallb (fun e => let '(a, b, l1) := e in
                                      match edge_label G2 (image_of f a) (image_of f b) with
                                      | Some l2 => edge_match l1 l2
                                      | None => false
                                      end) (edges G1))
              (injections (node_ids G1) (node_ids G2)).

(** [GraphMatcher(G1, G2, node_match, edge_match).subgraph_monomorphisms_iter()]:
    the dictionaries from nodes of [G1] to the nodes of [G2], one for each
    injective placement of [G2] in [G1] that keeps every edge of [G2]. *)
Definition subgraph_monomorphisms_iter (node_match edge_match : string -> string -> bool)
    (G1 G2 : Graph) : list (list Item) :=
  map (map (fun p => (snd p, fst p)))
      (filter (fun f =>
                 nodes_match node_match G1 G2 (map (fun p => (snd p, fst p)) f)
                 && forallb (fun e => let '(a, b, l2) := e in
                                      match edge_label G1 (image_of f a) (image_of f b) with
                                      | Some l1 => edge_match l1 l2
                                      | None => false
                                      end) (edges G2))
              (injections (node_ids G2) (node_ids G1))).

End NX.

(** ** [mod.Rule] as the core reads it

    A rule element exists on the left side, on the right side, or on both;
    [left.isNull()] is [rleft = None].  Loading the GML text of a
    [RuleBuilder] keeps the vertex ids (the source relies on it when it looks
    vertices up by the ids it wrote) and lists the vertices by id. *)

Module ModRule.
Import PyData.

Record RVertex := mkRVertex {
  rid : Vertex;
  rleft : option string;
  rright : option string
}.

Record REdge := mkREdge {
  rsource : Vertex;
  rtarget : Vertex;
  eleft : option string;
  eright : option string
}.

Record Rule := mkRule {
  name : string;
  vertices : list RVertex;
  edges : list REdge
}.

End ModRule.

(** ** [rule_builder.py] *)

Module RuleBuilder.
Import PyData.

(** A key of [RuleSideGraph._elements]: a vertex id or an [EdgeTuple]. *)
Inductive Element :=
| Node (id : Vertex)
| Edge (a b : Vertex).

(** [EdgeTuple((source, target))]: the sorted pair. *)
Definition EdgeTuple (source target : Vertex) : Element :=
  if Nat.ltb target source then Edge target source else Edge source target.

Definition element_eqb (x y : Element) : bool :=
  match x, y with
  | Node a, Node b => Nat.eqb a b
  | Edge a b, Edge c d => Nat.eqb a c && Nat.eqb b d
  | _, _ => false
  end.

Definition is_node (x : Element) : bool :=
  match x with
  | Node _ => true
  | Edge _ _ => false
  end.

(** [RuleSideGraph._elements], in insertion order. *)
Definition RuleSideGraph := list (Element * string).

(** [side.label(element)] when [side.has_element(element)]. *)
Fixpoint find_label (side : RuleSideGraph) (element : Element) : option string :=
  match side with
  | [] => None
  | (x, label) :: side' =>
      if element_eqb x element then Some label else find_label side' element
  end.

Definition has_element (side : RuleSideGraph) (element : Element) : bool :=
  match find_label side element with
  | Some _ => true
  | None => false
  end.

Fixpoint add_element (side : RuleSideGraph) (element : Element) (label : string)
  : RuleSideGraph :=
  match side with
  | [] => [(element, label)]
  | (x, old) :: side' =>
      if element_eqb x element then (x, label) :: side'
      else (x, old) :: add_element side' element label
  end.

Definition remove_element (side : RuleSideGraph) (element : Element) : RuleSideGraph :=
  filter (fun xl => negb (element_eqb (fst xl) element)) side.

Definition side_vertices (side : RuleSideGraph) : list Vertex :=
  flat_map (fun xl => match fst xl with Node id => [id] | Edge _ _ => [] end) side.

Definition side_edges (side : RuleSideGraph) : list (Vertex * Vertex) :=
  flat_map (fun xl => match fst xl with Node _ => [] | Edge a b => [(a, b)] end) side.

Record t := mk {
  _id : string;
  _left : RuleSideGraph;
  _context : RuleSideGraph;
  _right : RuleSideGraph
}.

Definition init (rule_id : string) : t := mk rule_id [] [] [].

(** Union of sets of ids, first occurrences kept. *)
Fixpoint union (seen more : list Vertex) : list Vertex :=
  match more with
  | [] => seen
  | n :: more' => if NX.mem n seen then union seen more' else union (seen ++ [n]) more'
  end.

(** [builder.vertices]: the ids present on any of the three sides. *)
Definition vertices (b : t) : list Vertex :=
  union (union (union [] (side_vertices (_left b))) (side_vertices (_context b)))
        (side_vertices (_right b)).

(** [_add_edge_vertices(edge, target_graph, alternative_graphs)], returning
    the new target graph. *)
Definition _add_edge_vertices (edge : Element) (target_graph : RuleSideGraph)
    (alternative_graphs : list RuleSideGraph) : RuleSideGraph :=
  let ends := match edge with Edge a b => [a; b] | Node _ => [] end in
  fold_left (fun target vertex =>
               if negb (has_element target (Node vertex))
                  && (Nat.eqb (List.length alternative_graphs) 0
                      || existsb (fun g => negb (has_element g (Node vertex)))
                                 alternative_graphs)
               then add_element target (Node vertex) "*"
               else target)
            ends target_graph.

(** [_add_side_element(element, label, side, opposite_side)], returning the
    new [(context, side, opposite_side)]. *)
Definition _add_side_element (element : Element) (label : string)
    (context side opposite_side : RuleSideGraph)
  : RuleSideGraph * RuleSideGraph * RuleSideGraph :=
  match find_label context element with
  | Some context_label =>
      if String.eqb context_label label then (context, side, opposite_side)
      else (remove_element context element,
            add_element side element label,
            add_element opposite_side element context_label)
  | None =>
      match find_label opposite_side element with
      | Some opposite_label =>
          if String.eqb opposite_label label
          then (add_element context element label,
                (if has_element side element then remove_element side element else side),
                remove_element opposite_side element)
          else (context, add_element side element label, opposite_side)
      | None => (context, add_element side element label, opposite_side)
      end
  end.

Definition _add_left_element (b : t) (element : Element) (label : string) : t :=
  let '(context, side, opposite_side) :=
    _add_side_element element label (_context b) (_left b) (_right b) in
  mk (_id b) side context opposite_side.

Definition _add_right_element (b : t) (element : Element) (label : string) : t :=
  let '(context, side, opposite_side) :=
    _add_side_element element label (_context b) (_right b) (_left b) in
  mk (_id b) opposite_side context side.

Definition _add_context_element (b : t) (element : Element) (label : string) : t :=
  let left := if has_element (_left b) element
              then remove_element (_left b) element else _left b in
  let right := if has_element (_right b) element
               then remove_element (_right b) element else _right b in
  mk (_id b) left (add_element (_context b) element label) right.

Definition add_left_vertex (b : t) (id : Vertex) (label : string) : t :=
  _add_left_element b (Node id) label.

Definition add_context_vertex (b : t) (id : Vertex) (label : string) : t :=
  _add_context_element b (Node id) label.

Definition add_right_vertex (b : t) (id : Vertex) (label : string) : t :=
  _add_right_element b (Node id) label.

Definition add_left_edge (b : t) (source target : Vertex) (label : string) : t :=
  let edge := EdgeTuple source target in
  let b' := mk (_id b) (_add_edge_vertices edge (_left b) [_context b])
               (_context b) (_right b) in
  _add_left_element b' edge label.

Definition add_context_edge (b : t) (source target : Vertex) (label : string) : t :=
  let edge := EdgeTuple source target in
  let b' := mk (_id b) (_left b)
               (_add_edge_vertices edge (_context b) [_left b; _right b])
               (_right b) in
  _add_context_element b' edge label.

Definition add_right_edge (b : t) (source target : Vertex) (label : string) : t :=
  let edge := EdgeTuple source target in
  let b' := mk (_id b) (_left b) (_context b)
               (_add_edge_vertices edge (_right b) [_context b]) in
  _add_right_element b' edge label.

(** The label an element has on the left (resp. right) side of the loaded
    rule: its label in the [left] (resp. [right]) section, else in the
    [context] section. *)
Definition left_label (b : t) (element : Element) : option string :=
  match find_label (_left b) element with
  | Some l => Some l
  | None => find_label (_context b) element
  end.

Definition right_label (b : t) (element : Element) : option string :=
  match find_label (_right b) element with
  | Some l => Some l
  | None => find_label (_context b) element
  end.

Fixpoint insert_id (n : Vertex) (l : list Vertex) : list Vertex :=
  match l with
  | [] => [n]
  | m :: l' => if Nat.ltb m n then m :: insert_id n l' else n :: m :: l'
  end.

Definition sort_ids (l : list Vertex) : list Vertex := fold_right insert_id [] l.

Fixpoint union_edges (seen more : list (Vertex * Vertex)) : list (Vertex * Vertex) :=
  match more with
  | [] => seen
  | e :: more' =>
      if existsb (fun e' => Nat.eqb (fst e') (fst e) && Nat.eqb (snd e') (snd e)) seen
      then union_edges seen more'
      else union_edges (seen ++ [e]) more'
  end.

(** [builder.edges]. *)
Definition edges (b : t) : list (Vertex * Vertex) :=
  union_edges (union_edges (union_edges [] (side_edges (_left b)))
                           (side_edges (_context b)))
              (side_edges (_right b)).

(** [builder.to_mod_rule()]: the rule [mod] loads from [builder.to_gml()]. *)
Definition to_mod_rule (b : t) : ModRule.Rule :=
  ModRule.mkRule (_id b)
    (map (fun id => ModRule.mkRVertex id (left_label b (Node id)) (right_label b (Node id)))
         (sort_ids (vertices b)))
    (map (fun e => ModRule.mkREdge (fst e) (snd e)
                     (left_label b (Edge (fst e) (snd e)))
                     (right_label b (Edge (fst e) (snd e))))
         (edges b)).

End RuleBuilder.

(** ** Rule patterns ([rule_graph.py]) *)

Module RuleGraph.
Import PyData Mod Labels.

(** [str(n)]. *)
Definition str (n : nat) : string := DecimalString.NilZero.string_of_uint (Nat.to_uint n).

(** A pattern element: a [mod.Graph.Vertex] or a [mod.Graph.Edge]. *)
Inductive Element :=
| VertexElement (v : GVertex)
| EdgeElement (e : GEdge).

Definition stringLabel (x : Element) : string :=
  match x with
  | VertexElement v => vlabel v
  | EdgeElement e => elabel e
  end.

Definition is_relabeled (element : Element) : bool := _is_combined (stringLabel element).

Definition _has_abstract_label (element : Element) : bool :=
  _has_abstract_string (stringLabel element).

Definition split_element_label (element : Element) : option string * option string :=
  _split_label (stringLabel element).

(** [_combine_element_labels]: a null side contributes [None]. *)
Definition _combine_element_labels (left_label right_label : option string) : string :=
  _combine_labels left_label right_label.

Definition _compare_elements (supergraph_label subgraph_label : string) : bool :=
  _compare_labels (Some supergraph_label) (Some subgraph_label).

Definition _equal_elements (graph1_label graph2_label : string) : bool :=
  String.eqb graph1_label graph2_label.

(** [graph_to_nx_graph(graph, use_indices=True)]: the edges labelled
    ["no_edge"] are left out. *)
Definition graph_to_nx_graph (g : Graph) : NX.Graph :=
  fold_left (fun nx e => if String.eqb (elabel e) "no_edge" then nx
                         else NX.add_edge nx (source e) (target e) (elabel e))
            (edges g)
            (fold_left (fun nx v => NX.add_node nx (vid v) (vlabel v)) (vertices g) NX.empty).

(** [mod.Graph.fromGMLString(nx_graph_to_gml(nx_graph))]: the nodes and edges
    of the [networkx] graph under their ids, in order. *)
Definition graph_from_nx (nx : NX.Graph) : Graph :=
  mkGraph (map (fun nl => mkVertex (fst nl) (snd nl)) (NX.nodes nx))
          (map (fun e => mkEdge (fst (fst e)) (snd (fst e)) (snd e)) (NX.edges nx)).

Definition _find_modified_nodes (nx : NX.Graph) (component : list Vertex) : list Vertex :=
  filter (fun node =>
            match NX.node_label nx node with
            | Some label => _is_combined label
            | None => false
            end
            || existsb (fun e => _is_combined (snd e)) (NX.edges_at nx node))
         component.

(** The loop over the components of [_nx_graph_to_mod_graph]: every modified
    node of a component is tied to the principal nodes of the components
    before it by a ["no_edge"] edge; a component without a modified node makes
    the result [None]. *)
Fixpoint link_components (nx : NX.Graph) (components : list (list Vertex))
    (principal_nodes : list Vertex) : option NX.Graph :=
  match components with
  | [] => Some nx
  | component :: rest =>
      let new_principal_nodes := _find_modified_nodes nx component in
      let nx' :=
        fold_left (fun g modified_node =>
                     fold_left (fun g principal_node =>
                                  NX.add_edge g principal_node modified_node "no_edge")
                               principal_nodes g)
                  new_principal_nodes nx in
      if Nat.eqb (List.length new_principal_nodes) 0 then None
      else link_components nx' rest (principal_nodes ++ new_principal_nodes)
  end.

Definition _nx_graph_to_mod_graph `{Oracle} (nx : NX.Graph) : option CanonicalGraph.t :=
  let components := NX.connected_components nx in
  bind (if Nat.ltb 1 (List.length components) then link_components nx components []
        else Some nx)
       (fun nx' => Some (CanonicalGraph.init (graph_from_nx nx'))).

Definition _rule_to_nx_graph (rule : ModRule.Rule) : NX.Graph :=
  fold_left (fun nx e =>
               NX.add_edge nx (ModRule.rsource e) (ModRule.rtarget e)
                 (_combine_element_labels (ModRule.eleft e) (ModRule.eright e)))
            (ModRule.edges rule)
            (fold_left (fun nx v =>
                          NX.add_node nx (ModRule.rid v)
                            (_combine_element_labels (ModRule.rleft v) (ModRule.rright v)))
                       (ModRule.vertices rule) NX.empty).

Record t := mk {
  _name : string;
  _graph : CanonicalGraph.t
}.

Definition name (self : t) : string := _name self.
Definition graph (self : t) : CanonicalGraph.t := _graph self.

(** [self._nx_graph], set once by [__init__] from the graph. *)
Definition _nx_graph (self : t) : NX.Graph :=
  graph_to_nx_graph (CanonicalGraph.graph (_graph self)).

Definition eqb (a b : t) : bool := CanonicalGraph.eqb (_graph a) (_graph b).
Definition ltb (a b : t) : bool := CanonicalGraph.ltb (_graph a) (_graph b).

(** [__le__] is [self == other or self < other], [__ge__] is
    [not self < other], [__gt__] is [not self <= other]. *)
Definition leb (a b : t) : bool := eqb a b || ltb a b.
Definition geb (a b : t) : bool := negb (ltb a b).
Definition gtb (a b : t) : bool := negb (leb a b).

(** [hash(self)], over a hash of strings. *)
Definition hash (hash_str : string -> Z) (self : t) : Z :=
  (19 * (41 * hash_str (CanonicalGraph.canonical_smiles (_graph self))))%Z.

Definition vertices (self : t) : list GVertex := Mod.vertices (CanonicalGraph.graph (_graph self)).
Definition edges (self : t) : list GEdge := Mod.edges (CanonicalGraph.graph (_graph self)).

Definition abstract_vertices (self : t) : list GVertex :=
  filter (fun v => _has_abstract_label (VertexElement v)) (vertices self).

Definition abstract_edges (self : t) : list GEdge :=
  filter (fun e => _has_abstract_label (EdgeElement e)) (edges self).

Definition abstract_elements (self : t) : list Element :=
  map VertexElement (abstract_vertices self) ++ map EdgeElement (abstract_edges self).

(** [RuleGraph.from_rule(rule, canonicaliser)]. *)
Definition from_rule `{Oracle} (rule : ModRule.Rule) : option t :=
  match _nx_graph_to_mod_graph (_rule_to_nx_graph rule) with
  | Some g => Some (mk (ModRule.name rule) g)
  | None => None
  end.

(** [next(vertex for vertex in self.graph.vertices if vertex.id == vertex_id)]. *)
Definition get_vertex (self : t) (vertex_id : Vertex) : option GVertex :=
  find (fun v => Nat.eqb (vid v) vertex_id) (vertices self).

Definition get_edge (self : t) (source_ target_ : Vertex) : option GEdge :=
  find (fun e => (Nat.eqb (source e) source_ && Nat.eqb (target e) target_)
                 || (Nat.eqb (source e) target_ && Nat.eqb (target e) source_))
       (edges self).

Definition get_adjacent_edges (self : t) (vertex : Vertex) : list GEdge :=
  filter (fun e => negb (String.eqb (elabel e) "no_edge")
                   && (Nat.eqb (source e) vertex || Nat.eqb (target e) vertex))
         (edges self).

(** The morphism from the new pattern back to [self] that every growth
    operation returns. *)
Definition back_morphism (self new_rule_graph : t) : option Morphism.t :=
  bind (mapM (fun v => bind (get_vertex new_rule_graph (vid v))
                            (fun nv => Some (vid nv, vid v)))
             (vertices self))
       (fun its => Some (Morphism.init (dict_of its))).

Definition relabel_element `{Oracle} (self : t) (element : Element) (new_label : string)
  : option (t * Morphism.t) :=
  let element_id :=
    match element with
    | VertexElement v => str (vid v)
    | EdgeElement e => (str (source e) ++ "-" ++ str (target e))%string
    end in
  bind (match element with
        | VertexElement v => NX.relabel_node (_nx_graph self) (vid v) new_label
        | EdgeElement e => NX.relabel_edge (_nx_graph self) (source e) (target e) new_label
        end) (fun new_nx_graph =>
  bind (_nx_graph_to_mod_graph new_nx_graph) (fun g =>
  let new_rule_graph := mk (name self ++ "_L" ++ element_id)%string g in
  bind (back_morphism self new_rule_graph) (fun m => Some (new_rule_graph, m)))).

Definition relabel_element_left `{Oracle} (self : t) (element : Element)
    (new_label : option string) : option (t * Morphism.t) :=
  let '(left_label, right_label) := split_element_label element in
  relabel_element self element (_combine_labels new_label right_label).

Definition relabel_element_right `{Oracle} (self : t) (element : Element)
    (new_label : option string) : option (t * Morphism.t) :=
  let '(left_label, right_label) := split_element_label element in
  relabel_element self element (_combine_labels left_label new_label).

(** [add_edge(source, target)]: [target = None] asks for a new wildcard
    vertex, numbered by the current number of vertices. *)
Definition add_edge `{Oracle} (self : t) (source_ : Vertex) (target_ : option Vertex)
  : option (t * Morphism.t) :=
  let target_id :=
    match target_ with
    | Some v => v
    | None => CanonicalGraph.number_of_vertices (graph self)
    end in
  let with_node :=
    match target_ with
    | Some _ => _nx_graph self
    | None => NX.add_node (_nx_graph self) target_id "*"
    end in
  let new_nx_graph := NX.add_edge with_node source_ target_id "*" in
  bind (_nx_graph_to_mod_graph new_nx_graph) (fun g =>
  let new_rule_graph :=
    mk (name self ++ "_A" ++ str source_ ++ "-" ++ str target_id)%string g in
  bind (back_morphism self new_rule_graph) (fun m => Some (new_rule_graph, m))).

(** [_match_to_morphism(range, image, match)]; the nodes of [_nx_graph] are
    the vertices of [graph], under the same ids. *)
Definition _match_to_morphism (range image : t) (match_ : list Item) : Morphism.t :=
  Morphism.init (dict_of match_).

(** [self.isomorphisms(other)]: morphisms from [other] to [self], labels
    compared by equality. *)
Definition isomorphisms (self other : t) : list Morphism.t :=
  map (_match_to_morphism other self)
      (NX.isomorphisms_iter _equal_elements _equal_elements (_nx_graph other) (_nx_graph self)).

(** [self.embed(subgraph)]: morphisms from [subgraph] into [self], labels
    compared by [_compare_labels]. *)
Definition embed (self subgraph : t) : list Morphism.t :=
  map (fun monomorphism => Morphism.neg (_match_to_morphism self subgraph monomorphism))
      (NX.subgraph_monomorphisms_iter _compare_elements _compare_elements
         (_nx_graph self) (_nx_graph subgraph)).

(** The two loops of [get_minimal_subrule] thread the builder and the
    [vertex_id_map]. *)
Definition minimal_vertex_step (state : RuleBuilder.t * list Item) (vertex : GVertex)
  : RuleBuilder.t * list Item :=
  let '(builder, vertex_id_map) := state in
  if negb (is_relabeled (VertexElement vertex)) then state
  else
    let '(left_label, right_label) := split_element_label (VertexElement vertex) in
    let subgraph_vertex_id := List.length (RuleBuilder.vertices builder) in
    let vertex_id_map := dict_set vertex_id_map (vid vertex) subgraph_vertex_id in
    let builder := if PyStr.otruthy left_label
                   then RuleBuilder.add_left_vertex builder subgraph_vertex_id "*"
                   else builder in
    let builder := match right_label with
                   | Some r => if PyStr.truthy r
                               then RuleBuilder.add_right_vertex builder subgraph_vertex_id r
                               else builder
                   | None => builder
                   end in
    (builder, vertex_id_map).

(** [if id not in vertex_id_map: ... add_context_vertex(..., "*")]. *)
Definition minimal_endpoint (state : RuleBuilder.t * list Item) (id : Vertex)
  : RuleBuilder.t * list Item :=
  let '(builder, vertex_id_map) := state in
  match dict_get vertex_id_map id with
  | Some _ => state
  | None =>
      let subgraph_vertex_id := List.length (RuleBuilder.vertices builder) in
      (RuleBuilder.add_context_vertex builder subgraph_vertex_id "*",
       dict_set vertex_id_map id subgraph_vertex_id)
  end.

Definition minimal_edge_step (state : RuleBuilder.t * list Item) (edge : GEdge)
  : option (RuleBuilder.t * list Item) :=
  if negb (is_relabeled (EdgeElement edge)) then Some state
  else
    let state := minimal_endpoint state (source edge) in
    let '(builder, vertex_id_map) := minimal_endpoint state (target edge) in
    let '(left_label, right_label) := split_element_label (EdgeElement edge) in
    bind (dict_get vertex_id_map (source edge)) (fun s =>
    bind (dict_get vertex_id_map (target edge)) (fun t_ =>
    let builder := if PyStr.otruthy left_label
                   then RuleBuilder.add_left_edge builder s t_ "*"
                   else builder in
    let builder := match right_label with
                   | Some r => if PyStr.truthy r
                               then RuleBuilder.add_right_edge builder s t_ r
                               else builder
                   | None => builder
                   end in
    Some (builder, vertex_id_map))).

Fixpoint foldM {A B} (f : A -> B -> option A) (l : list B) (a : A) : option A :=
  match l with
  | [] => Some a
  | x :: l' => bind (f a x) (foldM f l')
  end.

(** [self.get_minimal_subrule()]. *)
Definition get_minimal_subrule `{Oracle} (self : t) : option (t * Morphism.t) :=
  let builder := RuleBuilder.init ("min_" ++ _name self)%string in
  let state := fold_left minimal_vertex_step (vertices self) (builder, []) in
  bind (foldM minimal_edge_step (edges self) state) (fun state =>
  let '(builder, vertex_id_map) := state in
  bind (from_rule (RuleBuilder.to_mod_rule builder)) (fun subrule =>
  bind (mapM (fun kv =>
                bind (get_vertex self (fst kv)) (fun vertex =>
                bind (get_vertex subrule (snd kv)) (fun subgraph_vertex =>
                Some (vid subgraph_vertex, vid vertex))))
             vertex_id_map) (fun its =>
  Some (subrule, Morphism.init (dict_of its))))).

End RuleGraph.

(** ** Transitions ([transition.py]) *)

Module Transition.
Import PyData Mod.

(** The lazily computed minimal subrule and its anchor are functions of the
    maximal subrule, so the two cache fields are not kept. *)
Record t := mk { _maximal_subrule : RuleGraph.t }.

Definition maximal_subrule (self : t) : RuleGraph.t := _maximal_subrule self.

Definition eqb (a b : t) : bool := RuleGraph.eqb (_maximal_subrule a) (_maximal_subrule b).
Definition ltb (a b : t) : bool := RuleGraph.ltb (_maximal_subrule a) (_maximal_subrule b).

(** [__le__] is [self == other or self < other], [__ge__] is
    [not self < other], [__gt__] is [not self <= other]. *)
Definition leb (a b : t) : bool := eqb a b || ltb a b.
Definition geb (a b : t) : bool := negb (ltb a b).
Definition gtb (a b : t) : bool := negb (leb a b).

Definition name (self : t) : string := RuleGraph.name (_maximal_subrule self).

Definition hash (hash_str : string -> Z) (self : t) : Z :=
  (17 * RuleGraph.hash hash_str (_maximal_subrule self))%Z.

Definition minimal_subrule `{Oracle} (self : t) : option RuleGraph.t :=
  bind (RuleGraph.get_minimal_subrule (_maximal_subrule self)) (fun r => Some (fst r)).

Definition minimal_subrule_anchor `{Oracle} (self : t) : option Morphism.t :=
  bind (RuleGraph.get_minimal_subrule (_maximal_subrule self)) (fun r => Some (snd r)).

(** [any(self.maximal_subrule.embed(pattern))]: a morphism is truthy when
    its length is not zero. *)
Definition can_embed (self : t) (pattern : RuleGraph.t) : bool :=
  existsb (fun m => negb (Nat.eqb (Morphism.len m) 0))
          (RuleGraph.embed (_maximal_subrule self) pattern).

End Transition.

(** ** Embeddings and their extensions ([embedding.py]) *)

Module Embedding.
Import PyData Mod Labels.

Record t := mk {
  _host_transition : Transition.t;
  _pattern : RuleGraph.t;
  _morphism : Morphism.t
}.

Definition host_transition (self : t) : Transition.t := _host_transition self.
Definition pattern (self : t) : RuleGraph.t := _pattern self.

Definition eqb (a b : t) : bool :=
  Transition.eqb (_host_transition a) (_host_transition b)
  && RuleGraph.eqb (_pattern a) (_pattern b)
  && Morphism.eqb (_morphism a) (_morphism b).

(** [__lt__]: by host transition, then by pattern, then by morphism. *)
Definition ltb (a b : t) : bool :=
  if Transition.gtb (_host_transition a) (_host_transition b) then false
  else if Transition.ltb (_host_transition a) (_host_transition b) then true
  else if RuleGraph.gtb (_pattern a) (_pattern b) then false
  else if RuleGraph.ltb (_pattern a) (_pattern b) then true
  else Morphism.ltb (_morphism a) (_morphism b).

(** [__le__] is [self == other or self < other], [__ge__] is
    [not self < other], [__gt__] is [not self <= other]. *)
Definition leb (a b : t) : bool := eqb a b || ltb a b.
Definition geb (a b : t) : bool := negb (ltb a b).
Definition gtb (a b : t) : bool := negb (leb a b).

(** [tuple(sorted([edge.source, edge.target]))]. *)
Definition _edge_to_hashable (edge : GEdge) : Vertex * Vertex :=
  if Nat.ltb (target edge) (source edge) then (target edge, source edge)
  else (source edge, target edge).

Definition host (self : t) : RuleGraph.t := Transition.maximal_subrule (_host_transition self).

(** The host edge under a pattern edge; the callers read the result at once,
    so a missing host edge raises like a missing key. *)
Definition _pattern_edge_to_host (self : t) (edge : GEdge) : option GEdge :=
  bind (Morphism.getitem (_morphism self) (source edge)) (fun s =>
  bind (Morphism.getitem (_morphism self) (target edge)) (fun t_ =>
  RuleGraph.get_edge (host self) s t_)).

Definition pair_eqb (a b : Vertex * Vertex) : bool :=
  Nat.eqb (fst a) (fst b) && Nat.eqb (snd a) (snd b).

(** The first range vertex mapped onto [other_endpoint], if any. *)
Definition other_endpoint_range_of (self : t) (other_endpoint : Vertex) : option Vertex :=
  match find (fun ri => Nat.eqb (snd ri) other_endpoint) (Morphism.items (_morphism self)) with
  | Some ri => Some (fst ri)
  | None => None
  end.

(** The body of the inner loop of [_edge_additions] for a host edge that is
    not represented yet. *)
Definition edge_addition `{Oracle} (self : t) (pattern_vertex image : Vertex) (host_edge : GEdge)
  : option (RuleGraph.t * Morphism.t) :=
  let other_endpoint :=
    if Nat.eqb (source host_edge) image then target host_edge else source host_edge in
  let other_endpoint_range := other_endpoint_range_of self other_endpoint in
  bind (RuleGraph.add_edge (pattern self) pattern_vertex other_endpoint_range)
       (fun addition =>
  let '(addition_pattern, addition_morphism) := addition in
  bind (Morphism.add addition_morphism (_morphism self)) (fun composed =>
  let vertex_map := dict_of (Morphism.items composed) in
  match other_endpoint_range with
  | Some _ => Some (addition_pattern, Morphism.init vertex_map)
  | None =>
      bind (RuleGraph.get_vertex addition_pattern
              (CanonicalGraph.number_of_vertices (RuleGraph.graph (pattern self))))
           (fun new_vertex =>
      Some (addition_pattern,
            Morphism.init (dict_set vertex_map (vid new_vertex) other_endpoint)))
  end)).

Definition _edge_additions `{Oracle} (self : t) : option (list (RuleGraph.t * Morphism.t)) :=
  bind (mapM (fun pattern_vertex =>
          bind (mapM (fun pattern_edge =>
                        bind (_pattern_edge_to_host self pattern_edge)
                             (fun e => Some (_edge_to_hashable e)))
                     (RuleGraph.get_adjacent_edges (pattern self) (vid pattern_vertex)))
               (fun existing_edges =>
          bind (Morphism.getitem (_morphism self) (vid pattern_vertex)) (fun image =>
          mapM (edge_addition self (vid pattern_vertex) image)
               (filter (fun host_edge =>
                          negb (existsb (pair_eqb (_edge_to_hashable host_edge))
                                        existing_edges))
                       (RuleGraph.get_adjacent_edges (host self) image)))))
        (RuleGraph.vertices (pattern self)))
       (fun per_vertex => Some (List.concat per_vertex)).

(** The host element under a pattern element, as a labelled element. *)
Definition host_element_of (self : t) (pattern_element : RuleGraph.Element)
  : option RuleGraph.Element :=
  match pattern_element with
  | RuleGraph.VertexElement v =>
      bind (Morphism.getitem (_morphism self) (vid v)) (fun image =>
      bind (RuleGraph.get_vertex (host self) image) (fun hv =>
      Some (RuleGraph.VertexElement hv)))
  | RuleGraph.EdgeElement e =>
      bind (_pattern_edge_to_host self e) (fun he => Some (RuleGraph.EdgeElement he))
  end.

Definition is_star (label : option string) : bool :=
  PyStr.otruthy label && PyStr.oeqb label (Some "*").

(** The body of the loop of [_label_specifications]; a combined label without
    a wildcard half leaves [relabel_morphism] at [None], and the sum raises. *)
Definition label_specification `{Oracle} (self : t) (pattern_element : RuleGraph.Element)
  : option (RuleGraph.t * Morphism.t) :=
  bind (host_element_of self pattern_element) (fun host_element =>
  bind (if RuleGraph.is_relabeled pattern_element then
          let '(left_pattern_label, right_pattern_label) :=
            RuleGraph.split_element_label pattern_element in
          let '(left_host_label, right_host_label) :=
            RuleGraph.split_element_label host_element in
          if is_star left_pattern_label
          then RuleGraph.relabel_element_left (pattern self) pattern_element left_host_label
          else if is_star right_pattern_label
          then RuleGraph.relabel_element_right (pattern self) pattern_element right_host_label
          else None
        else RuleGraph.relabel_element (pattern self) pattern_element
               (RuleGraph.stringLabel host_element))
       (fun relabel =>
  let '(relabel_pattern, relabel_morphism) := relabel in
  bind (Morphism.add relabel_morphism (_morphism self)) (fun m =>
  Some (relabel_pattern, m)))).

Definition _label_specifications `{Oracle} (self : t) : option (list (RuleGraph.t * Morphism.t)) :=
  mapM (label_specification self) (RuleGraph.abstract_elements (pattern self)).

(** [set.add]: a set of morphisms is a list without [==]-duplicates. *)
Definition set_add (s : list Morphism.t) (m : Morphism.t) : list Morphism.t :=
  if existsb (Morphism.eqb m) s then s else s ++ [m].

(** One round of the first loop of [_build_embeddings] on the dictionary
    [patterns], kept in insertion order. *)
Fixpoint build_step (patterns : list (RuleGraph.t * list Morphism.t))
    (pattern_ : RuleGraph.t) (pattern_morphism : Morphism.t)
  : option (list (RuleGraph.t * list Morphism.t)) :=
  match patterns with
  | [] => Some [(pattern_, [pattern_morphism])]
  | (original_pattern, morphisms) :: rest =>
      if RuleGraph.eqb original_pattern pattern_ then
        bind (mapM (fun isomorphism => Morphism.add isomorphism pattern_morphism)
                   (RuleGraph.isomorphisms pattern_ original_pattern))
             (fun news => Some ((original_pattern, fold_left set_add news morphisms) :: rest))
      else
        bind (build_step rest pattern_ pattern_morphism)
             (fun rest' => Some ((original_pattern, morphisms) :: rest'))
  end.

Definition build_patterns (extension_generator : list (RuleGraph.t * Morphism.t))
  : option (list (RuleGraph.t * list Morphism.t)) :=
  RuleGraph.foldM (fun patterns pm => build_step patterns (fst pm) (snd pm))
                  extension_generator [].

Definition _build_embeddings (self : t)
    (extension_generator : list (RuleGraph.t * Morphism.t)) : option (list t) :=
  bind (build_patterns extension_generator) (fun patterns =>
  Some (flat_map (fun pms => map (mk (_host_transition self) (fst pms)) (snd pms))
                 patterns)).

Definition extension_generator `{Oracle} (self : t) : option (list (RuleGraph.t * Morphism.t)) :=
  bind (_label_specifications self) (fun specifications =>
  if Nat.ltb (CanonicalGraph.number_of_edges (RuleGraph.graph (pattern self)))
             (CanonicalGraph.number_of_edges (RuleGraph.graph (host self)))
  then bind (_edge_additions self) (fun additions => Some (specifications ++ additions))
  else Some specifications).

Definition extensions `{Oracle} (self : t) : option (list t) :=
  bind (extension_generator self) (_build_embeddings self).

End Embedding.

(** ** Lattice nodes ([rule_lattice.py], lines 28-106) *)

Module LatticeNode.
Import PyData Mod.

(** [_embeddings], [_pattern], and the two caches [_coverage] and
    [_successors] ([None] until first filled). *)
Inductive t :=
| mk (embeddings : list Embedding.t) (pattern_ : option RuleGraph.t)
     (coverage_ : option (list Transition.t)) (successors_ : option (list t)).

Definition _embeddings (n : t) : list Embedding.t := let '(mk e _ _ _) := n in e.
Definition _pattern (n : t) : option RuleGraph.t := let '(mk _ p _ _) := n in p.
Definition _coverage (n : t) : option (list Transition.t) := let '(mk _ _ c _) := n in c.
Definition _successors (n : t) : option (list t) := let '(mk _ _ _ s) := n in s.

(** [set(...)] over patterns: one representative for each [==]-class, the
    first one met. *)
Fixpoint distinct_patterns (seen : list RuleGraph.t) (more : list RuleGraph.t)
  : list RuleGraph.t :=
  match more with
  | [] => seen
  | p :: more' =>
      if existsb (RuleGraph.eqb p) seen then distinct_patterns seen more'
      else distinct_patterns (seen ++ [p]) more'
  end.

(** [LatticeNode(embeddings)]: the pattern is defined when the embeddings
    have exactly one pattern between them. *)
Definition init (embeddings : list Embedding.t) : t :=
  let patterns := distinct_patterns [] (map Embedding.pattern embeddings) in
  mk embeddings
     (match patterns with
      | [p] => Some p
      | _ => None
      end)
     None None.

Definition pattern (n : t) : option RuleGraph.t := _pattern n.

(** [self == other]: [None == None] holds, two patterns are compared by
    their canonical form, and [RuleGraph.__eq__] raises on [None]. *)
Definition eq (a b : t) : option bool :=
  match _pattern a, _pattern b with
  | None, None => Some true
  | Some p, Some q => Some (RuleGraph.eqb p q)
  | _, _ => None
  end.

(** [hash(self)]: [37 * hash(self._pattern)]. *)
Definition hash (hash_str : string -> Z) (hash_None : Z) (n : t) : Z :=
  (37 * match _pattern n with
        | Some p => RuleGraph.hash hash_str p
        | None => hash_None
        end)%Z.

Fixpoint distinct_transitions (seen : list Transition.t) (more : list Transition.t)
  : list Transition.t :=
  match more with
  | [] => seen
  | x :: more' =>
      if existsb (Transition.eqb x) seen then distinct_transitions seen more'
      else distinct_transitions (seen ++ [x]) more'
  end.

(** [set(embedding.host_transition for embedding in self._embeddings)]. *)
Definition host_transitions (n : t) : list Transition.t :=
  distinct_transitions [] (map Embedding.host_transition (_embeddings n)).

Fixpoint insert_transition (x : Transition.t) (l : list Transition.t) : list Transition.t :=
  match l with
  | [] => [x]
  | y :: l' => if Transition.ltb y x then y :: insert_transition x l' else x :: y :: l'
  end.

Definition sorted_transitions (l : list Transition.t) : list Transition.t :=
  fold_right insert_transition [] l.

(** The value of the property [coverage]: the cache when it is filled and
    not empty, else the sorted host transitions. *)
Definition coverage (n : t) : list Transition.t :=
  match _coverage n with
  | Some (x :: c) => x :: c
  | _ => sorted_transitions (host_transitions n)
  end.

(** The node after its property [coverage] has been read. *)
Definition coverage_read (n : t) : t :=
  mk (_embeddings n) (_pattern n) (Some (coverage n)) (_successors n).

(** [a == b] on tuples of transitions. *)
Fixpoint coverage_eqb (a b : list Transition.t) : bool :=
  match a, b with
  | [], [] => true
  | x :: a', y :: b' => Transition.eqb x y && coverage_eqb a' b'
  | _, _ => false
  end.

(** [extensions[extension.pattern].add(extension)] on the dictionary of
    embedding sets, kept in insertion order. *)
Definition set_add (s : list Embedding.t) (e : Embedding.t) : list Embedding.t :=
  if existsb (Embedding.eqb e) s then s else s ++ [e].

Fixpoint group_add (extensions : list (RuleGraph.t * list Embedding.t))
    (extension : Embedding.t) : list (RuleGraph.t * list Embedding.t) :=
  match extensions with
  | [] => [(Embedding.pattern extension, [extension])]
  | (p, s) :: rest =>
      if RuleGraph.eqb p (Embedding.pattern extension)
      then (p, set_add s extension) :: rest
      else (p, s) :: group_add rest extension
  end.

(** The successors computed afresh: a node for each pattern among the
    extensions of the embeddings. *)
Definition fresh_successors `{Oracle} (n : t) : option (list t) :=
  bind (mapM Embedding.extensions (_embeddings n)) (fun per_embedding =>
  Some (map (fun ps => init (snd ps))
            (fold_left group_add (List.concat per_embedding) []))).

(** [self.successors()], drained: nothing without a pattern, the cached list
    when it is not empty, else the fresh successors. *)
Definition successors `{Oracle} (n : t) : option (list t) :=
  match _pattern n with
  | None => Some []
  | Some _ =>
      match _successors n with
      | Some (c :: cs) => Some (c :: cs)
      | _ => fresh_successors n
      end
  end.

(** The loop of [get_maximum_common_subrule] over the children: the first
    child with the coverage of [self] is descended into by [recurse];
    the others are collected, and become the cached successors of [self]
    when no child keeps the coverage.  Reading [coverage] fills the cache of
    the child and of [self]. *)
Fixpoint scan_children (recurse : t -> option t) (self : t) (children : list t)
    (successors_ : list t) : option t :=
  match children with
  | [] => Some (mk (_embeddings self) (_pattern self) (_coverage self) (Some successors_))
  | child :: rest =>
      if coverage_eqb (coverage child) (coverage self)
      then recurse (coverage_read child)
      else scan_children recurse (coverage_read self) rest
             (successors_ ++ [coverage_read child])
  end.

(** [self.get_maximum_common_subrule()].  [fuel] bounds the depth of the
    recursion; [None] is an exception or a recursion deeper than [fuel]. *)
Fixpoint get_maximum_common_subrule `{Oracle} (fuel : nat) (self : t) : option t :=
  match fuel with
  | 0 => None
  | S fuel' =>
      match _successors self with
      | Some (_ :: _) => Some self
      | _ =>
          bind (successors self) (fun children =>
          scan_children (get_maximum_common_subrule fuel') self children [])
      end
  end.

End LatticeNode.

(** ** Candidate rules and the rule lattice ([rule_lattice.py], lines 109-199) *)

Module CandidateRule.

Record t := mk {
  _coverage : list Transition.t;
  _distortion : list Transition.t;
  _rule : option RuleGraph.t
}.

(** [CandidateRule(node, distortion)]. *)
Definition init (node : LatticeNode.t) (distortion : list Transition.t) : t :=
  mk (LatticeNode.host_transitions node) distortion (LatticeNode.pattern node).

Definition coverage (c : t) : list Transition.t := _coverage c.
Definition distortion (c : t) : list Transition.t := _distortion c.
Definition rule (c : t) : option RuleGraph.t := _rule c.
Definition amount_of_distortion (c : t) : nat := List.length (_distortion c).

End CandidateRule.

Module RuleLattice.
Import PyData Mod.

(** Two nodes are the same dictionary key or set member when they are [==];
    a node with a pattern and a node without one are told apart by their
    hashes before [==] is asked. *)
Definition same_key (a b : LatticeNode.t) : bool :=
  match LatticeNode.eq a b with
  | Some r => r
  | None => false
  end.

Record t := mk {
  _roots : list LatticeNode.t;
  _nodes : list (LatticeNode.t * list LatticeNode.t);
  _candidates : list (LatticeNode.t * CandidateRule.t);
  _node_queue : list LatticeNode.t;
  _seen_nodes : list LatticeNode.t
}.

Definition member (n : LatticeNode.t) (s : list LatticeNode.t) : bool :=
  existsb (same_key n) s.

(** [s.add(n)]. *)
Definition set_add (s : list LatticeNode.t) (n : LatticeNode.t) : list LatticeNode.t :=
  if member n s then s else s ++ [n].

(** [d[k]], raising on a missing key. *)
Fixpoint lookup {V} (d : list (LatticeNode.t * V)) (k : LatticeNode.t) : option V :=
  match d with
  | [] => None
  | (k', v) :: d' => if same_key k' k then Some v else lookup d' k
  end.

(** [d[k] = v]. *)
Fixpoint store {V} (d : list (LatticeNode.t * V)) (k : LatticeNode.t) (v : V)
  : list (LatticeNode.t * V) :=
  match d with
  | [] => [(k, v)]
  | (k', v') :: d' => if same_key k' k then (k', v) :: d' else (k', v') :: store d' k v
  end.

Definition has_key {V} (d : list (LatticeNode.t * V)) (k : LatticeNode.t) : bool :=
  match lookup d k with
  | Some _ => true
  | None => false
  end.

(** [(transition for transition in transitions if
    transition.can_embed(pattern))], drained: asking whether a transition
    embeds the pattern [None] raises. *)
Definition embeddable (pattern_ : option RuleGraph.t) (transitions : list Transition.t)
  : option (list Transition.t) :=
  match pattern_ with
  | Some p => Some (filter (fun transition => Transition.can_embed transition p) transitions)
  | None =>
      match transitions with
      | [] => Some []
      | _ :: _ => None
      end
  end.

(** [RuleLattice(root, spurious_transitions)]. *)
Definition init (root : LatticeNode.t) (spurious_transitions : list Transition.t) : t :=
  let candidate := CandidateRule.init root spurious_transitions in
  mk [root] [(root, [])] [(root, candidate)]
     (if Nat.ltb 0 (CandidateRule.amount_of_distortion candidate) then [root] else [])
     [root].

Definition queue_length (self : t) : nat := List.length (_node_queue self).

Definition active_node (self : t) : option LatticeNode.t :=
  match _node_queue self with
  | [] => None
  | n :: _ => Some n
  end.

(** [self._add_node(node, parent)]: the lattice afterwards and the returned
    node. *)
Definition _add_node `{Oracle} (fuel : nat) (self : t) (node parent : LatticeNode.t)
  : option (t * option LatticeNode.t) :=
  if member node (_seen_nodes self) then Some (self, None)
  else
    let seen := set_add (_seen_nodes self) node in
    bind (LatticeNode.get_maximum_common_subrule fuel node) (fun maximal_common_subrule =>
    bind (lookup (_nodes self) parent) (fun children =>
    if has_key (_candidates self) maximal_common_subrule then
      Some (mk (_roots self)
               (store (_nodes self) parent (set_add children maximal_common_subrule))
               (_candidates self) (_node_queue self) seen,
            None)
    else
      let nodes := store (store (_nodes self) parent
                                (set_add children maximal_common_subrule))
                         maximal_common_subrule [] in
      bind (lookup (_candidates self) parent) (fun parent_candidate =>
      bind (embeddable (LatticeNode.pattern maximal_common_subrule)
                       (CandidateRule.distortion parent_candidate)) (fun distortion =>
      let candidate := CandidateRule.init maximal_common_subrule distortion in
      Some (mk (_roots self) nodes
               (store (_candidates self) maximal_common_subrule candidate)
               (if Nat.ltb 0 (CandidateRule.amount_of_distortion candidate)
                then _node_queue self ++ [maximal_common_subrule]
                else _node_queue self)
               seen,
            Some maximal_common_subrule))))).

(** The loop of [resolve_node] over the children of the active node. *)
Fixpoint add_children `{Oracle} (fuel : nat) (self : t) (children : list LatticeNode.t)
    (active : LatticeNode.t) : option t :=
  match children with
  | [] => Some self
  | child :: rest =>
      bind (_add_node fuel self child active) (fun r =>
      add_children fuel (fst r) rest active)
  end.

(** [self.resolve_node()]. *)
Definition resolve_node `{Oracle} (fuel : nat) (self : t) : option t :=
  let popped := mk (_roots self) (_nodes self) (_candidates self)
                   (tl (_node_queue self)) (_seen_nodes self) in
  match active_node self with
  | None => Some popped
  | Some active =>
      bind (LatticeNode.successors active) (fun children =>
      add_children fuel popped children active)
  end.

(** The loop [while rule_lattice.active_node: rule_lattice.resolve_node()],
    for at most [rounds] rounds. *)
Fixpoint resolve_all `{Oracle} (rounds fuel : nat) (self : t) : option t :=
  match active_node self with
  | None => Some self
  | Some _ =>
      match rounds with
      | 0 => None
      | S rounds' => bind (resolve_node fuel self) (resolve_all rounds' fuel)
      end
  end.

(** [build_minimal_rule_lattice(reference_transitions, spurious_transitions)]. *)
Definition build_minimal_rule_lattice `{Oracle} (rounds fuel : nat)
    (reference_transitions spurious_transitions : list Transition.t) : option t :=
  bind (mapM (fun transition =>
                bind (Transition.minimal_subrule transition) (fun minimal =>
                bind (Transition.minimal_subrule_anchor transition) (fun anchor =>
                Some (Embedding.mk transition minimal anchor))))
             reference_transitions) (fun minimal_rule_embeddings =>
  bind (LatticeNode.get_maximum_common_subrule fuel
          (LatticeNode.init minimal_rule_embeddings)) (fun root =>
  bind (embeddable (LatticeNode.pattern root) spurious_transitions) (fun spurious =>
  resolve_all rounds fuel (init root spurious)))).





End RuleLattice.


(** ** Dictionaries of lists

    The idiom [if key not in d: d[key] = []] followed by
    [d[key].append(value)], for a key class with its own [==]. *)

Module PyDict.

Fixpoint get {K V} (key_eqb : K -> K -> bool) (d : list (K * V)) (key : K) : option V :=
  match d with
  | [] => None
  | (k, v) :: d' => if key_eqb k key then Some v else get key_eqb d' key
  end.

Fixpoint append_to {K V} (key_eqb : K -> K -> bool) (d : list (K * list V)) (key : K)
    (value : V) : list (K * list V) :=
  match d with
  | [] => [(key, [value])]
  | (k, values) :: d' =>
      if key_eqb k key then (k, values ++ [value]) :: d'
      else (k, values) :: append_to key_eqb d' key value
  end.

End PyDict.

(** ** The label database of the canonicaliser ([canonicalisation.py],
    lines 136-144) *)

Module GraphCanonicaliser.

(** [self._label_db]. *)
Definition t := list (string * string).

(** [GraphCanonicaliser()]. *)
Definition init : t := [].

(** [self._relabel_via_database(label)]: the code returned, and the
    database after the call. *)
Definition _relabel_via_database (self : t) (label : string) : string * t :=
  match PyDict.get String.eqb self label with
  | Some code => (code, self)
  | None =>
      let code := (RuleGraph.str (List.length self + 1) ++ "C")%string in
      (code, self ++ [(label, code)])
  end.

End GraphCanonicaliser.

(** ** The reference transitions grouped by minimal rule ([iterated_map.py],
    lines 58-103) *)

Module IteratedMap.
Import PyData Mod.

Record t := mk {
  _input_graphs : list CanonicalGraph.t;
  _transitions : list Transition.t;
  _minimal_rules : list (RuleGraph.t * list Transition.t)
}.

(** [IteratedMap(input_graphs, transitions, canonicaliser)]; the transition
    system of [mod] is not modelled. *)
Definition init `{Oracle} (input_graphs : list CanonicalGraph.t)
    (transitions : list Transition.t) : option t :=
  let transitions_set := LatticeNode.distinct_transitions [] transitions in
  bind (RuleGraph.foldM
          (fun minimal_rules transition =>
             bind (Transition.minimal_subrule transition) (fun minimal_subrule =>
             Some (PyDict.append_to RuleGraph.eqb minimal_rules minimal_subrule transition)))
          transitions_set [])
       (fun minimal_rules => Some (mk input_graphs transitions_set minimal_rules)).

Definition minimal_rules (self : t) : list (RuleGraph.t * list Transition.t) :=
  _minimal_rules self.

Definition number_of_minimal_rules (self : t) : nat := List.length (_minimal_rules self).

Definition has_transition (self : t) (transition : Transition.t) : bool :=
  existsb (Transition.eqb transition) (_transitions self).

End IteratedMap.

(** ** The collections of the ILP model ([ilp_model.py], lines 138-159) *)

Module ILPModel.
Import PyData Mod.

Definition Rules := list (option RuleGraph.t).
Definition Index := list (Transition.t * Rules).

(** [from_candidates(candidates, spurious_scalar)] up to the call of the
    constructor: the three collections handed to [ILPModel], that is
    [candidate_rules], [reference_transitions] and [spurious_transitions].
    The rule of a candidate is [None] when its node has no pattern. *)
Definition from_candidates (candidates : list CandidateRule.t) : Rules * Index * Index :=
  fold_left
    (fun state candidate =>
       let '(candidate_rules, reference_transitions, spurious_transitions) := state in
       (candidate_rules ++ [CandidateRule.rule candidate],
        fold_left (fun d transition =>
                     PyDict.append_to Transition.eqb d transition (CandidateRule.rule candidate))
                  (CandidateRule.coverage candidate) reference_transitions,
        fold_left (fun d transition =>
                     PyDict.append_to Transition.eqb d transition (CandidateRule.rule candidate))
                  (CandidateRule.distortion candidate) spurious_transitions))
    candidates ([], [], []).

End ILPModel.
(** ** An executable oracle

    A canonical form by exhaustive search: the least encoding of the graph
    over all numberings of its vertices.  Two graphs get the same string
    exactly when they are isomorphic as labelled graphs (for graphs of at
    most ten vertices, whose positions are single digits).  The generators
    are all automorphisms but the identity.  The examples run on it. *)

Module Exhaustive.
Import PyData Mod.

Fixpoint insert_string (s : string) (l : list string) : list string :=
  match l with
  | [] => [s]
  | t :: l' => if String.ltb t s then t :: insert_string s l' else s :: t :: l'
  end.

Definition sort_strings (l : list string) : list string := fold_right insert_string [] l.

Definition digit (n : nat) : string := String (ascii_of_nat (48 + n)) EmptyString.

Definition join (l : list string) : string :=
  fold_right (fun s acc => (s ++ "," ++ acc)%string) EmptyString l.

(** The encoding of [g] when vertex [v] takes position [numbering v]. *)
Definition encode (g : Graph) (numbering : list Item) : string :=
  let position v := NX.image_of numbering v in
  let vertex_strings :=
    sort_strings (map (fun v => (digit (position (vid v)) ++ ":" ++ vlabel v)%string)
                      (vertices g)) in
  let edge_strings :=
    sort_strings (map (fun e =>
                         let a := position (source e) in
                         let b := position (target e) in
                         (digit (Nat.min a b) ++ "-" ++ digit (Nat.max a b)
                          ++ ":" ++ elabel e)%string)
                      (edges g)) in
  (join vertex_strings ++ "|" ++ join edge_strings)%string.

Definition least (l : list string) : string :=
  match l with
  | [] => EmptyString
  | s :: l' => fold_left (fun m t => if String.ltb t m then t else m) l' s
  end.

Definition canonical_string (g : Graph) : string :=
  least (map (encode g)
             (NX.injections (vertex_ids g) (seq 0 (List.length (vertices g))))).

(** The graph with all its edges, as the matcher takes it. *)
Definition as_nx (g : Graph) : NX.Graph :=
  NX.mk (map (fun v => (vid v, vlabel v)) (vertices g))
        (map (fun e => (source e, target e, elabel e)) (edges g)).

Definition is_identity (f : list Item) : bool :=
  forallb (fun p => Nat.eqb (fst p) (snd p)) f.

Definition automorphisms (g : Graph) : list Aut :=
  map NX.image_of
      (filter (fun f => negb (is_identity f))
              (NX.isomorphisms_iter String.eqb String.eqb (as_nx g) (as_nx g))).

#[export] Instance oracle : Oracle := {
  graph_canonical_smiles := canonical_string;
  aut_gens := automorphisms
}.

End Exhaustive.

(** ** Example data

    Small graphs, transitions and nodes on which the model is run. *)

Module Examples.
Import PyData Mod.

(** The automorphism exchanging [a] and [b]. *)
Definition transposition (a b : Vertex) : Aut :=
  fun v => if Nat.eqb v a then b else if Nat.eqb v b then a else v.

Definition triangle (l0 l1 l2 e : string) : Graph :=
  mkGraph [mkVertex 0 l0; mkVertex 1 l1; mkVertex 2 l2]
          [mkEdge 0 1 e; mkEdge 1 2 e; mkEdge 0 2 e].

(** A triangle of wildcards, with the transpositions (0 1) and (1 2) as the
    generators of its automorphism group. *)
Definition wildcard_triangle : CanonicalGraph.t :=
  CanonicalGraph.mk (triangle "*" "*" "*" "*")
                    (Exhaustive.canonical_string (triangle "*" "*" "*" "*"))
                    [transposition 0 1; transposition 1 2].

(** A triangle without symmetry. *)
Definition host_triangle : CanonicalGraph.t :=
  CanonicalGraph.mk (triangle "C" "N" "O" "-")
                    (Exhaustive.canonical_string (triangle "C" "N" "O" "-")) [].

Definition edge_graph (l0 l1 e : string) : Graph :=
  mkGraph [mkVertex 0 l0; mkVertex 1 l1] [mkEdge 0 1 e].

(** An edge between two wildcards; its only generator is an involution. *)
Definition wildcard_edge : CanonicalGraph.t :=
  CanonicalGraph.mk (edge_graph "*" "*" "*")
                    (Exhaustive.canonical_string (edge_graph "*" "*" "*"))
                    [transposition 0 1].

Definition host_edge : CanonicalGraph.t :=
  CanonicalGraph.mk (edge_graph "C" "N" "-")
                    (Exhaustive.canonical_string (edge_graph "C" "N" "-")) [].

Definition pattern_of (name : string) (g : Graph) : RuleGraph.t :=
  RuleGraph.mk name (@CanonicalGraph.init Exhaustive.oracle g).

(** A relabelled centre [a;b] with three neighbours [C], and a pattern that
    covers the centre and its first neighbour. *)
Definition star_host : Transition.t :=
  Transition.mk
    (pattern_of "star"
       (mkGraph [mkVertex 0 "a;b"; mkVertex 1 "C"; mkVertex 2 "C"; mkVertex 3 "C"]
                [mkEdge 0 1 "-"; mkEdge 0 2 "-"; mkEdge 0 3 "-"])).

Definition star_embedding : Embedding.t :=
  Embedding.mk star_host
    (pattern_of "p" (mkGraph [mkVertex 0 "*;b"; mkVertex 1 "*"] [mkEdge 0 1 "*"]))
    (Morphism.init [(0, 0); (1, 1)]).

(** The pattern with both extra edges of the centre: a centre and two
    wildcard leaves, which the automorphism (1 2) exchanges. *)
Definition star_pattern : RuleGraph.t :=
  pattern_of "p_A0-2"
    (mkGraph [mkVertex 0 "*;b"; mkVertex 1 "*"; mkVertex 2 "*"]
             [mkEdge 0 1 "*"; mkEdge 0 2 "*"]).

Definition star_generator : list (RuleGraph.t * Morphism.t) :=
  match @Embedding.extension_generator Exhaustive.oracle star_embedding with
  | Some generator => generator
  | None => []
  end.

(** The two steps of the generator that add the second edge of the centre. *)
Definition star_first : RuleGraph.t * Morphism.t :=
  nth 3 star_generator (star_pattern, Morphism.init []).

Definition star_second : RuleGraph.t * Morphism.t :=
  nth 4 star_generator (star_pattern, Morphism.init []).

Definition star_extensions : list Embedding.t :=
  match @Embedding.extensions Exhaustive.oracle star_embedding with
  | Some extensions => extensions
  | None => []
  end.

(** Two reference transitions [A-B] and [A-C] that relabel [A], and the
    spurious transition [A-D]. *)
Definition reference_AB : Transition.t :=
  Transition.mk (pattern_of "AB" (edge_graph "a;x" "B" "-")).

Definition reference_AC : Transition.t :=
  Transition.mk (pattern_of "AC" (edge_graph "a;x" "C" "-")).

Definition spurious_AD : Transition.t :=
  Transition.mk (pattern_of "AD" (edge_graph "a;x" "D" "-")).

(** The embedding of the minimal subrule of a transition in the transition. *)
Definition minimal_embedding (transition : Transition.t) : list Embedding.t :=
  match @RuleGraph.get_minimal_subrule Exhaustive.oracle
          (Transition.maximal_subrule transition) with
  | Some (minimal, anchor) => [Embedding.mk transition minimal anchor]
  | None => []
  end.

Definition start_node : LatticeNode.t :=
  LatticeNode.init (minimal_embedding reference_AB ++ minimal_embedding reference_AC).

Definition start_children : list LatticeNode.t :=
  match @LatticeNode.fresh_successors Exhaustive.oracle start_node with
  | Some children => children
  | None => []
  end.

Definition root_node : LatticeNode.t :=
  match @LatticeNode.get_maximum_common_subrule Exhaustive.oracle 4 start_node with
  | Some root => root
  | None => start_node
  end.

Definition root_lattice : RuleLattice.t := RuleLattice.init root_node [spurious_AD].

Definition first_child : LatticeNode.t :=
  match @LatticeNode.successors Exhaustive.oracle root_node with
  | Some (child :: _) => child
  | _ => root_node
  end.

Definition first_registration : RuleLattice.t * option LatticeNode.t :=
  match @RuleLattice._add_node Exhaustive.oracle 4 root_lattice first_child root_node with
  | Some r => r
  | None => (root_lattice, None)
  end.

Definition first_candidate : LatticeNode.t :=
  match snd first_registration with
  | Some node => node
  | None => root_node
  end.

(** A pattern with a relabelled vertex and a relabelled edge that ends in a
    context vertex, and its minimal subrule. *)
Definition bond_pattern : RuleGraph.t := pattern_of "bond" (edge_graph "C" "O;N" "-;=").

Definition bond_minimal : RuleGraph.t * Morphism.t :=
  match @RuleGraph.get_minimal_subrule Exhaustive.oracle bond_pattern with
  | Some r => r
  | None => (bond_pattern, Morphism.init [])
  end.

(** A pattern whose only relabelled element is its edge. *)
Definition bond_only : RuleGraph.t := pattern_of "bond" (edge_graph "C" "O" "-;=").

(** A host that is one vertex labelled with the wildcard, and the one-vertex
    wildcard pattern embedded in it: the node of this embedding, for any
    name of the pattern and any state of the coverage cache. *)
Definition loop_host : Transition.t :=
  Transition.mk (pattern_of "host" (mkGraph [mkVertex 0 "*"] [])).

Definition loop_embedding (name : string) : Embedding.t :=
  Embedding.mk loop_host (pattern_of name (mkGraph [mkVertex 0 "*"] []))
               (Morphism.init [(0, 0)]).

Definition loop_node (name : string) (cache : option (list Transition.t)) : LatticeNode.t :=
  LatticeNode.mk [loop_embedding name]
                 (Some (pattern_of name (mkGraph [mkVertex 0 "*"] []))) cache None.










End Examples.


(** * Vocabulary of the statements

    Predicates and auxiliary functions in which the properties of the
    program are stated and proved. *)

Section Vocabulary.
Import PyStr Labels PyData Mod.
Context {O : Oracle}.

(** A half of a combined label: [None] when it is the empty string. *)
Definition half (s : string) : option string := if truthy s then Some s else None.

(** A label that takes the recursive branch of [_compare_labels]: present
    and combined. *)
Definition comb (o : option string) : bool :=
  match o with
  | Some s => truthy s && _is_combined s
  | None => false
  end.

(** A value [_split_label] can return for a half: [None], or a non-empty
    string without [;]. *)
Definition is_half (h : option string) : Prop :=
  match h with
  | None => True
  | Some s => truthy s = true /\ _is_combined s = false
  end.

(** A morphism as [Morphism(...)] builds it: distinct keys, and the
    fingerprint is the sorted tuple of the items. *)
Definition morphism_wf (m : Morphism.t) : Prop :=
  Morphism._fingerprint m = sorted (Morphism._vertex_map m)
  /\ NoDup (keys (Morphism._vertex_map m)).

(** [m] is a morphism from the vertices of [R] to vertices of [I], and the
    automorphism generators of [R] permute the vertices of [R]. *)
Definition morphism_between (m : Morphism.t) (R I : CanonicalGraph.t) : Prop :=
  morphism_wf m
  /\ NoDup (vertex_ids (CanonicalGraph.graph R))
  /\ NoDup (vertex_ids (CanonicalGraph.graph I))
  /\ (forall v, In v (keys (Morphism.items m)) <-> In v (vertex_ids (CanonicalGraph.graph R)))
  /\ (forall v, In v (values (Morphism.items m)) -> In v (vertex_ids (CanonicalGraph.graph I)))
  /\ (forall g v, In g (CanonicalGraph.automorphism_generators R) ->
                  In v (vertex_ids (CanonicalGraph.graph R)) ->
                  In (g v) (vertex_ids (CanonicalGraph.graph R))).

(** The composition [r + m + i]. *)
Definition composite (r m i : Morphism.t) : option Morphism.t :=
  bind (Morphism.add r m) (fun rm => Morphism.add rm i).

(** The morphism [{v: f(v) for v in l}]. *)
Definition graph_of (f : Vertex -> Vertex) (l : list Vertex) : Morphism.t :=
  Morphism.init (map (fun v => (v, f v)) l).

(** Total reading of [m[v]]. *)
Definition apply (m : Morphism.t) (v : Vertex) : Vertex :=
  match Morphism.getitem m v with
  | Some w => w
  | None => v
  end.

(** One comparison of the loops of [canonicalise]: keep the smaller. *)
Definition step (s c : Morphism.t) : Morphism.t := if Morphism.ltb c s then c else s.

(** The candidates of the double loop, range automorphisms outermost. *)
Definition candidates (m : Morphism.t) (R I : CanonicalGraph.t) : list (list Morphism.t) :=
  map (fun a =>
         map (fun h => graph_of (fun v => h (apply m (a v)))
                                (vertex_ids (CanonicalGraph.graph R)))
             (CanonicalGraph.automorphism_generators I ++ [fun v => v]))
      (CanonicalGraph.automorphism_generators R ++ [fun v => v]).

(** Composition with [g] maps the range loop's automorphisms (generators and
    identity, as maps on the vertices of [R]) onto themselves. *)
Definition generator_closed (g : Aut) (R : CanonicalGraph.t) : Prop :=
  let autos := CanonicalGraph.automorphism_generators R ++ [fun v => v] in
  let VR := vertex_ids (CanonicalGraph.graph R) in
  (forall a, In a autos -> exists a', In a' autos /\ forall v, In v VR -> a' v = g (a v))
  /\ (forall a', In a' autos -> exists a, In a autos /\ forall v, In v VR -> a' v = g (a v)).

(** The [patterns] dictionary of [_build_embeddings]. *)
Definition dictionary : Type := list (RuleGraph.t * list Morphism.t).

(** No key of the dictionary is [==] to [p]. *)
Definition absent (p : RuleGraph.t) (D : dictionary) : Prop :=
  forall q, In q D -> RuleGraph.eqb (fst q) p = false.

(** The keys of the dictionary are pairwise different under [==]. *)
Fixpoint distinct_keys (D : dictionary) : Prop :=
  match D with
  | [] => True
  | (p, _) :: D' => absent p D' /\ distinct_keys D'
  end.

(** The morphisms [iota + phi] for the isomorphisms [iota] from the first
    seen pattern [P0] to the new pattern [P]. *)
Definition transported (P P0 : RuleGraph.t) (phi : Morphism.t) : option (list Morphism.t) :=
  mapM (fun isomorphism => Morphism.add isomorphism phi) (RuleGraph.isomorphisms P P0).

(** What the later steps [rest] add to the entry of [P0]. *)
Definition later_morphism (P0 : RuleGraph.t) (rest : list (RuleGraph.t * Morphism.t))
    (m : Morphism.t) : Prop :=
  exists Pk phik news,
    In (Pk, phik) rest /\ RuleGraph.eqb P0 Pk = true
    /\ transported Pk P0 phik = Some news /\ In m news.

(** The string by which a transition is compared: the canonical form of its
    maximal subrule. *)
Definition key (t : Transition.t) : string :=
  CanonicalGraph.canonical_smiles (RuleGraph.graph (Transition.maximal_subrule t)).

(** Insertion sort on the keys, as [LatticeNode.insert_transition] does it
    on the transitions. *)
Fixpoint insert_key (x : string) (l : list string) : list string :=
  match l with
  | [] => [x]
  | y :: l' => if String.ltb y x then y :: insert_key x l' else x :: y :: l'
  end.

Definition sort_keys (l : list string) : list string := fold_right insert_key [] l.

(** No two edges of the list join the same pair of nodes. *)
Fixpoint edges_simple (es : list (Vertex * Vertex * string)) : Prop :=
  match es with
  | [] => True
  | e :: es' =>
      (forall e', In e' es' -> NX.joins (fst (fst e)) (snd (fst e)) e' = false)
      /\ edges_simple es'
  end.

(** The lattice with the front of its queue taken off. *)
Definition popped (L : RuleLattice.t) : RuleLattice.t :=
  RuleLattice.mk (RuleLattice._roots L) (RuleLattice._nodes L) (RuleLattice._candidates L)
                 (tl (RuleLattice._node_queue L)) (RuleLattice._seen_nodes L).

(** The lattices a search goes through, with the log of its registrations:
    the pair [(M, P)] records that [_add_node] registered the candidate of
    [M] under the parent [P]. *)
Inductive built : RuleLattice.t -> list (LatticeNode.t * LatticeNode.t) -> Prop :=
| built_init root spurious : built (RuleLattice.init root spurious) []
| built_pop L log : built L log -> built (popped L) log
| built_add L log fuel node parent L' r :
    built L log ->
    RuleLattice._add_node fuel L node parent = Some (L', r) ->
    built L' (match r with
              | Some M => (M, parent) :: log
              | None => log
              end).




(** The lattice has the one root [root], with the candidate made for it
    from [spurious], and no candidate with a distortion outside
    [spurious]. *)
Definition rooted (root : LatticeNode.t) (spurious : list Transition.t)
    (L : RuleLattice.t) : Prop :=
  RuleLattice._roots L = [root]
  /\ RuleLattice.lookup (RuleLattice._candidates L) root
     = Some (CandidateRule.init root spurious)
  /\ forall k c, RuleLattice.lookup (RuleLattice._candidates L) k = Some c ->
                 incl (CandidateRule.distortion c) spurious.

(** The lattices a search that starts with [RuleLattice(root, spurious)]
    goes through: the lattice it starts with, and every lattice obtained from
    one of them by taking the front off the queue, by a call of [_add_node]
    or by a call of [resolve_node]. *)
Inductive searched (root : LatticeNode.t) (spurious : list Transition.t)
  : RuleLattice.t -> Prop :=
| searched_init : searched root spurious (RuleLattice.init root spurious)
| searched_pop L : searched root spurious L -> searched root spurious (popped L)
| searched_add L fuel node parent L' r :
    searched root spurious L ->
    RuleLattice._add_node fuel L node parent = Some (L', r) ->
    searched root spurious L'
| searched_resolve L fuel L' :
    searched root spurious L ->
    RuleLattice.resolve_node fuel L = Some L' ->
    searched root spurious L'.

(** What a search keeps of the lattice it started with: the root and its
    candidate, distortions within [spurious], a queue of nodes whose
    candidates have a distortion, and the root among the seen nodes. *)
Definition kept (root : LatticeNode.t) (spurious : list Transition.t)
    (L : RuleLattice.t) : Prop :=
  rooted root spurious L
  /\ (forall n, In n (RuleLattice._node_queue L) ->
        exists c, RuleLattice.lookup (RuleLattice._candidates L) n = Some c
                  /\ 0 < CandidateRule.amount_of_distortion c)
  /\ RuleLattice.member root (RuleLattice._seen_nodes L) = true.



(** A label with a non-empty half. *)
Definition nondegenerate (label : string) : Prop :=
  Labels._split_label label <> (None, None).

(** An item of the [vertex_id_map], turned into an item of the anchor. *)
Definition swap_item (kv : Item) : Item := (snd kv, fst kv).

End Vocabulary.

Section BuilderVocabulary.
Import PyData Mod.
Import RuleBuilder.

(** An element is present in a builder when one of the three sides has it. *)
Definition present (b : t) (x : Element) : bool :=
  has_element (_left b) x || has_element (_context b) x || has_element (_right b) x.

(** No element is in the context section and in a side section at once. *)
Definition separated (b : t) : Prop :=
  forall x, has_element (_context b) x = true ->
            has_element (_left b) x = false /\ has_element (_right b) x = false.

(** One round of the loop of [_add_edge_vertices]. *)
Definition edge_vertex_step (alternatives : list RuleSideGraph) (target : RuleSideGraph)
    (vertex : Vertex) : RuleSideGraph :=
  if negb (has_element target (Node vertex))
     && (Nat.eqb (List.length alternatives) 0
         || existsb (fun g => negb (has_element g (Node vertex))) alternatives)
  then add_element target (Node vertex) "*"
  else target.

(** The state of the two loops of [get_minimal_subrule]: the new ids handed
    out so far are [0 .. k-1], each to a different vertex of the pattern, and
    they are the vertices of the builder. *)
Record map_ok (b : RuleBuilder.t) (m : list Item) : Prop := {
  ok_values : map snd m = seq 0 (List.length m);
  ok_keys : NoDup (keys m);
  ok_present : forall n, present b (Node n) = true <-> n < List.length m
}.

End BuilderVocabulary.


Section ComponentVocabulary.
Import PyData.

(** [x] and [y] are joined by one of the edges. *)
Definition adjacent (es : list (Vertex * Vertex * string)) (x y : Vertex) : Prop :=
  exists l, In (x, y, l) es \/ In (y, x, l) es.

(** A set of nodes that no edge of [g] leaves. *)
Definition closed (g : NX.Graph) (nodes : list Vertex) : Prop :=
  forall x y, In x nodes -> In y (NX.node_ids g) -> adjacent (NX.edges g) x y -> In y nodes.

(** No edge of [g] joins a node of one of the sets to a node of a later
    one. *)
Fixpoint apart (g : NX.Graph) (cs : list (list Vertex)) : Prop :=
  match cs with
  | [] => True
  | c :: rest =>
      (forall p c' n, In p c -> In c' rest -> In n c' -> ~ adjacent (NX.edges g) p n)
      /\ apart g rest
  end.

(** The graph [g'] is [g] with further edges, all labelled ["no_edge"]. *)
Definition linked (g g' : NX.Graph) : Prop :=
  NX.nodes g' = NX.nodes g
  /\ (forall e, In e (NX.edges g) -> In e (NX.edges g'))
  /\ (forall e, In e (NX.edges g') -> In e (NX.edges g) \/ snd e = "no_edge"%string).

End ComponentVocabulary.

Section MinimalVocabulary.
Import PyStr Labels PyData Mod.

(** The wildcard, or no label. *)
Definition wildcard_if (b : bool) : option string := if b then Some "*"%string else None.

(** [v] is an end of an edge of [es] with a combined label whose half
    [side] (the left half [fst], the right half [snd]) is not empty. *)
Definition touches (side : option string * option string -> option string)
    (es : list GEdge) (v : Vertex) : bool :=
  existsb (fun e => RuleGraph.is_relabeled (RuleGraph.EdgeElement e)
                    && otruthy (side (_split_label (elabel e)))
                    && (Nat.eqb (source e) v || Nat.eqb (target e) v))
          es.

(** The label that the vertex [x] of a pattern with the edges [es] has in
    the minimal subrule.  A vertex with a combined label keeps its right
    half; its left half becomes the wildcard; and a missing half becomes the
    wildcard when the vertex is an end of a relabelled edge that has this
    half.  A vertex without a combined label is labelled with the
    wildcard. *)
Definition minimal_vertex_label (es : list GEdge) (x : GVertex) : string :=
  if RuleGraph.is_relabeled (RuleGraph.VertexElement x) then
    _combine_labels
      (wildcard_if (otruthy (fst (_split_label (vlabel x))) || touches fst es (vid x)))
      (match snd (_split_label (vlabel x)) with
       | Some r => Some r
       | None => wildcard_if (touches snd es (vid x))
       end)
  else "*"%string.

(** The label that a relabelled edge has in the minimal subrule: its right
    half is kept, its left half becomes the wildcard. *)
Definition minimal_edge_label (e : GEdge) : string :=
  _combine_labels (wildcard_if (otruthy (fst (_split_label (elabel e)))))
                  (snd (_split_label (elabel e))).

(** The edges [e] and [e'] join the same two vertices. *)
Definition same_ends (e e' : GEdge) : bool :=
  (Nat.eqb (source e) (source e') && Nat.eqb (target e) (target e'))
  || (Nat.eqb (source e) (target e') && Nat.eqb (target e) (source e')).

(** No two of the edges join the same two vertices, as in a [mod.Graph]. *)
Fixpoint simple_edges (es : list GEdge) : Prop :=
  match es with
  | [] => True
  | e :: es' => (forall e', In e' es' -> same_ends e e' = false) /\ simple_edges es'
  end.

(** The edge [e'] of the minimal subrule stands for the edge [e] of the
    pattern: the anchor maps its ends to the ends of [e]. *)
Definition stands_for (anchor : Morphism.t) (e' e : GEdge) : Prop :=
  (Morphism.getitem anchor (source e') = Some (source e)
   /\ Morphism.getitem anchor (target e') = Some (target e))
  \/ (Morphism.getitem anchor (source e') = Some (target e)
      /\ Morphism.getitem anchor (target e') = Some (source e)).

(** The state of the second loop of [get_minimal_subrule] after the edges
    [earlier], for a first loop that left the labels [L0 v] and [R0 v] on
    the vertex that stands for [v]: the new ids are handed out as in
    [map_ok]; the sections of the builder are separate; a vertex of the
    pattern that has no new id yet will enter as a wildcard; the ends of the
    relabelled edges have new ids; a vertex has the labels of the first
    loop, and the wildcard for a missing one when it is an end of a
    relabelled edge with that half; a relabelled edge has the wildcard for
    its left half and keeps its right half; and the builder has no other
    edges. *)
Record labels_ok (L0 R0 : Vertex -> option string) (earlier : list GEdge)
    (b : RuleBuilder.t) (m : list Item) : Prop := {
  lo_map : map_ok b m;
  lo_separated : separated b;
  lo_fresh : forall v, ~ In v (keys m) -> L0 v = Some "*"%string /\ R0 v = Some "*"%string;
  lo_ends : forall e, In e earlier ->
      RuleGraph.is_relabeled (RuleGraph.EdgeElement e) = true ->
      In (source e) (keys m) /\ In (target e) (keys m);
  lo_vertices : forall v s, dict_get m v = Some s ->
      RuleBuilder.left_label b (RuleBuilder.Node s)
      = match L0 v with
        | Some l => Some l
        | None => wildcard_if (touches fst earlier v)
        end
      /\ RuleBuilder.right_label b (RuleBuilder.Node s)
         = match R0 v with
           | Some r => Some r
           | None => wildcard_if (touches snd earlier v)
           end;
  lo_edges : forall e s t_, In e earlier ->
      RuleGraph.is_relabeled (RuleGraph.EdgeElement e) = true ->
      dict_get m (source e) = Some s -> dict_get m (target e) = Some t_ ->
      RuleBuilder.left_label b (RuleBuilder.EdgeTuple s t_)
      = wildcard_if (otruthy (fst (_split_label (elabel e))))
      /\ RuleBuilder.right_label b (RuleBuilder.EdgeTuple s t_)
         = snd (_split_label (elabel e));
  lo_present : forall a c, present b (RuleBuilder.Edge a c) = true ->
      exists e s t_,
        In e earlier /\ RuleGraph.is_relabeled (RuleGraph.EdgeElement e) = true
        /\ dict_get m (source e) = Some s /\ dict_get m (target e) = Some t_
        /\ RuleBuilder.Edge a c = RuleBuilder.EdgeTuple s t_
}.

End MinimalVocabulary.

Section MatchVocabulary.
Import PyData Mod.

(** [f] places [pattern] in [host]: a dictionary whose keys are the nodes
    of [pattern], which maps them injectively to nodes of [host] and under
    which [compare host_label pattern_label] holds on every node and on
    every edge of [pattern], the images of whose ends are joined by an edge
    of [host]. *)
Definition placement (compare : string -> string -> bool) (f : list Item)
    (pattern host : NX.Graph) : Prop :=
  NoDup (map fst f)
  /\ (forall n, In n (map fst f) <-> In n (NX.node_ids pattern))
  /\ NoDup (map snd f)
  /\ incl (map snd f) (NX.node_ids host)
  /\ (forall p h, In (p, h) f ->
        exists lp lh, NX.node_label pattern p = Some lp
                      /\ NX.node_label host h = Some lh
                      /\ compare lh lp = true)
  /\ (forall a b l, In (a, b, l) (NX.edges pattern) ->
        exists l', NX.edge_label host (NX.image_of f a) (NX.image_of f b) = Some l'
                   /\ compare l' l = true).

(** Every edge of [g] joins two vertices of [g], as in a [mod.Graph]. *)
Definition ends_are_vertices (g : Graph) : Prop :=
  forall e, In e (edges g) -> In (source e) (vertex_ids g) /\ In (target e) (vertex_ids g).

End MatchVocabulary.

Section CanonicaliserVocabulary.

(** The codes returned by successive calls of [_relabel_via_database], and
    the database after them. *)
Fixpoint relabel_all (db : GraphCanonicaliser.t) (labels : list string)
  : list string * GraphCanonicaliser.t :=
  match labels with
  | [] => ([], db)
  | label :: labels' =>
      let (code, db1) := GraphCanonicaliser._relabel_via_database db label in
      let (codes, db2) := relabel_all db1 labels' in
      (code :: codes, db2)
  end.

(** The database numbers its labels: it holds the codes [1C], [2C], ... in
    this order, each for a different label. *)
Definition numbered (db : GraphCanonicaliser.t) : Prop :=
  map snd db = map (fun k => (RuleGraph.str k ++ "C")%string) (seq 1 (List.length db))
  /\ NoDup (map fst db).

(** The labels of a list, each once, in the order of their first
    occurrence. *)
Fixpoint first_uses (labels : list string) : list string :=
  match labels with
  | [] => []
  | label :: labels' =>
      label :: filter (fun l => negb (String.eqb l label)) (first_uses labels')
  end.

(** The values filed under a key: those of the pairs whose key is [==]. *)
Definition filed {K V} (key_eqb : K -> K -> bool) (pairs : list (K * V)) (key : K)
  : list V :=
  map snd (filter (fun kv => key_eqb (fst kv) key) pairs).

(** A dictionary entry: missing when nothing is filed. *)
Definition entry {V} (values : list V) : option (list V) :=
  match values with
  | [] => None
  | _ => Some values
  end.

(** The rules of the candidates that have [transition] on the given side,
    in candidate order, once for each occurrence. *)
Definition rules_with (side : CandidateRule.t -> list Transition.t)
    (candidates : list CandidateRule.t) (transition : Transition.t)
  : list (option RuleGraph.t) :=
  flat_map (fun candidate =>
              map (fun _ => CandidateRule.rule candidate)
                  (filter (fun t => Transition.eqb t transition) (side candidate)))
           candidates.

End CanonicaliserVocabulary.
(** * Properties of the label algebra *)

Section LabelFacts.
Import PyStr Labels.

Lemma split_no_separator c s : contains c s = false -> split c s = [s].
Proof.
  induction s as [|d r IH]; simpl; [reflexivity|].
  destruct (Ascii.eqb d c); [discriminate|].
  intros H. rewrite (IH H). reflexivity.
Qed.

Lemma split_app_separator c x y :
  contains c x = false -> split c (x ++ String c y)%string = x :: split c y.
Proof.
  induction x as [|d r IH]; simpl.
  - intros _. rewrite Ascii.eqb_refl. reflexivity.
  - destruct (Ascii.eqb d c); [discriminate|].
    intros H. rewrite (IH H). reflexivity.
Qed.

Lemma contains_app_separator c x y : contains c (x ++ String c y)%string = true.
Proof.
  induction x as [|d r IH]; simpl.
  - now rewrite Ascii.eqb_refl.
  - now destruct (Ascii.eqb d c).
Qed.

Lemma truthy_app_separator c x y : truthy (x ++ String c y)%string = true.
Proof. destruct x; reflexivity. Qed.

Lemma split_label_pair x y :
  _is_combined x = false -> _is_combined y = false ->
  _split_label (x ++ ";" ++ y)%string = (half x, half y).
Proof.
  intros Hx Hy. unfold _split_label, half.
  change (x ++ ";" ++ y)%string with (x ++ String semicolon y)%string.
  rewrite (split_app_separator _ _ _ Hx), (split_no_separator _ _ Hy).
  reflexivity.
Qed.

Lemma otruthy_half s : otruthy (half s) = truthy s.
Proof. unfold half. destruct s; reflexivity. Qed.

Lemma both_combined_half_r sup s : _is_combined s = false -> both_combined sup (half s) = false.
Proof.
  intros H. unfold both_combined, half.
  destruct (truthy s); [|reflexivity]. destruct sup; [|reflexivity].
  rewrite H. now rewrite andb_false_r.
Qed.

Lemma compare_labels_plain sup sub :
  both_combined sup sub = false -> _compare_labels sup sub = compare_plain sup sub.
Proof.
  intros H. rewrite _compare_labels_equation_1.
  destruct (inspect (both_combined sup sub)) as [b e].
  destruct b; [congruence|].
  now rewrite _compare_labels_clause_1_equation_2.
Qed.

Lemma compare_labels_combined sup sub :
  both_combined sup sub = true ->
  _compare_labels sup sub =
    _compare_labels (fst (split_of sup)) (fst (split_of sub))
    && _compare_labels (snd (split_of sup)) (snd (split_of sub)).
Proof.
  intros H. rewrite _compare_labels_equation_1.
  destruct (inspect (both_combined sup sub)) as [b e].
  destruct b; [|congruence].
  now rewrite _compare_labels_clause_1_equation_1.
Qed.

Lemma oeqb_refl a : oeqb a a = true.
Proof. destruct a; simpl; [apply String.eqb_refl|reflexivity]. Qed.

Lemma compare_half_same x : _is_combined x = false -> _compare_labels (half x) (half x) = true.
Proof.
  intros H. rewrite compare_labels_plain by now apply both_combined_half_r.
  unfold compare_plain. rewrite otruthy_half.
  destruct (truthy x); simpl; [|reflexivity].
  destruct (oeqb (half x) (Some "*")); [reflexivity|apply oeqb_refl].
Qed.

Lemma compare_absent_half y : _compare_labels None (half y) = negb (truthy y).
Proof.
  rewrite compare_labels_plain
    by (unfold both_combined, half; destruct (truthy y); reflexivity).
  unfold compare_plain. simpl. now rewrite otruthy_half.
Qed.

(** C7, the counterexample: against the super-pattern label ["X;"] the
    sub-pattern label ["X;*"] (wildcard right half) is rejected, although the
    claim lists it as compatible. *)
Lemma compare_labels_wildcard_vs_absent_half :
  _compare_labels (Some "X;") (Some "X;*") = false
  /\ _compare_labels (snd (_split_label "X;")) (snd (_split_label "X;*")) = false.
Proof. split; reflexivity. Qed.

(** C7, as the code has it: for halves [X] and [Y] free of [;], comparing
    the super-pattern label [X;] with the sub-pattern label [X;Y] succeeds on
    the left half, and succeeds on the right half (hence as a whole) exactly
    when [Y] is empty; a wildcard [Y] is rejected like any other non-empty
    right half. *)
Theorem compare_labels_empty_right_half (X Y : string) :
  _is_combined X = false -> _is_combined Y = false ->
  (_compare_labels (fst (_split_label (X ++ ";"))) (fst (_split_label (X ++ ";" ++ Y))) = true
   /\ _compare_labels (snd (_split_label (X ++ ";"))) (snd (_split_label (X ++ ";" ++ Y)))
      = negb (truthy Y)
   /\ _compare_labels (Some (X ++ ";")) (Some (X ++ ";" ++ Y)) = negb (truthy Y))%string.
Proof.
  intros HX HY.
  assert (HE : _is_combined "" = false) by reflexivity.
  pose proof (split_label_pair X "" HX HE) as Hsup.
  pose proof (split_label_pair X Y HX HY) as Hsub.
  change (X ++ ";" ++ "")%string with (X ++ ";")%string in Hsup.
  rewrite Hsup, Hsub. simpl fst. simpl snd.
  change (half "") with (@None string).
  rewrite (compare_half_same _ HX), compare_absent_half.
  split; [reflexivity|split; [reflexivity|]].
  rewrite compare_labels_combined.
  - unfold split_of. rewrite Hsup, Hsub. simpl fst. simpl snd.
    change (half "") with (@None string).
    now rewrite (compare_half_same _ HX), compare_absent_half.
  - unfold both_combined, _is_combined.
    change (X ++ ";" ++ Y)%string with (X ++ String semicolon Y)%string.
    change (X ++ ";")%string with (X ++ String semicolon "")%string.
    now rewrite !truthy_app_separator, !contains_app_separator.
Qed.

(** The labels ["X;"] and ["X;Y"]. *)
Lemma compare_labels_empty_right_half_witness :
  _is_combined "X" = false /\ _is_combined "Y" = false
  /\ (_compare_labels (Some ("X" ++ ";")) (Some ("X" ++ ";" ++ "Y")) = negb (truthy "Y"))%string.
Proof.
  split; [reflexivity|split; [reflexivity|]].
  apply (compare_labels_empty_right_half "X" "Y"); reflexivity.
Defined.

End LabelFacts.

(** * Properties of the morphism algebra *)

Section OrderFacts.
Import PyData.

Lemma item_eqb_eq a b : item_eqb a b = true <-> a = b.
Proof.
  destruct a as [a1 a2], b as [b1 b2]. unfold item_eqb. simpl.
  rewrite andb_true_iff, !Nat.eqb_eq. split; [intros [-> ->]|intros [= -> ->]]; auto.
Qed.

Lemma item_eqb_refl a : item_eqb a a = true.
Proof. now apply item_eqb_eq. Qed.

Lemma item_eqb_sym a b : item_eqb a b = item_eqb b a.
Proof. unfold item_eqb. now rewrite (Nat.eqb_sym (fst a)), (Nat.eqb_sym (snd a)). Qed.

Lemma item_ltb_spec a b :
  item_ltb a b = true <-> (fst a < fst b \/ (fst a = fst b /\ snd a < snd b)).
Proof.
  unfold item_ltb. destruct (Nat.eqb_spec (fst a) (fst b)) as [E|E];
    rewrite Nat.ltb_lt; lia.
Qed.

Lemma item_ltb_irrefl a : item_ltb a a = false.
Proof. apply not_true_is_false. rewrite item_ltb_spec. lia. Qed.

Lemma item_ltb_trans a b c :
  item_ltb a b = true -> item_ltb b c = true -> item_ltb a c = true.
Proof. rewrite !item_ltb_spec. lia. Qed.

Lemma item_total a b : item_ltb a b = false -> item_eqb a b = false -> item_ltb b a = true.
Proof.
  intros H1 H2. apply item_ltb_spec.
  assert (N1 : ~ (fst a < fst b \/ (fst a = fst b /\ snd a < snd b)))
    by (rewrite <- item_ltb_spec; congruence).
  assert (N2 : a <> b) by (rewrite <- item_eqb_eq; congruence).
  destruct a, b; simpl in *.
  assert (~ (v = v1 /\ v0 = v2)) by (intros [-> ->]; now apply N2).
  lia.
Qed.

Lemma item_ltb_asym a b : item_ltb a b = true -> item_ltb b a = false.
Proof. intros H. apply not_true_is_false. revert H. rewrite !item_ltb_spec. lia. Qed.

Lemma tuple_eqb_eq a b : tuple_eqb a b = true <-> a = b.
Proof.
  revert b. induction a as [|x a IH]; intros [|y b]; simpl; try (split; congruence).
  rewrite andb_true_iff, item_eqb_eq, IH. split; [intros [-> ->]|intros [= -> ->]]; auto.
Qed.

Lemma tuple_eqb_refl a : tuple_eqb a a = true.
Proof. now apply tuple_eqb_eq. Qed.

Lemma tuple_ltb_irrefl a : tuple_ltb a a = false.
Proof. induction a as [|x a IH]; simpl; [reflexivity|]. now rewrite item_eqb_refl. Qed.

Lemma tuple_ltb_trans a b c :
  tuple_ltb a b = true -> tuple_ltb b c = true -> tuple_ltb a c = true.
Proof.
  revert b c. induction a as [|x a IH]; intros [|y b] [|z c]; simpl; try congruence.
  destruct (item_eqb x y) eqn:Exy.
  - apply item_eqb_eq in Exy. subst y.
    destruct (item_eqb x z); [apply IH|auto].
  - destruct (item_eqb y z) eqn:Eyz.
    + apply item_eqb_eq in Eyz. subst z. rewrite Exy. auto.
    + intros Hxy Hyz. pose proof (item_ltb_trans _ _ _ Hxy Hyz) as Hxz.
      destruct (item_eqb x z) eqn:Exz; [|exact Hxz].
      apply item_eqb_eq in Exz. subst z.
      now rewrite item_ltb_irrefl in Hxz.
Qed.

(** [a <= b] is [not (b < a)]. *)
Lemma tuple_leb_ltb a b : tuple_leb a b = negb (tuple_ltb b a).
Proof.
  revert b. induction a as [|x a IH]; intros [|y b]; simpl; try reflexivity.
  rewrite (item_eqb_sym y x). destruct (item_eqb x y) eqn:E; [apply IH|].
  destruct (item_ltb x y) eqn:L.
  - now rewrite (item_ltb_asym _ _ L).
  - now rewrite (item_total _ _ L E).
Qed.

Lemma tuple_leb_refl a : tuple_leb a a = true.
Proof. now rewrite tuple_leb_ltb, tuple_ltb_irrefl. Qed.

Lemma tuple_ltb_leb a b : tuple_ltb a b = true -> tuple_leb a b = true.
Proof.
  intros H. rewrite tuple_leb_ltb. apply negb_true_iff, not_true_is_false.
  intros H'. pose proof (tuple_ltb_trans _ _ _ H H') as C.
  now rewrite tuple_ltb_irrefl in C.
Qed.

Lemma tuple_total a b : tuple_ltb a b = false -> tuple_ltb b a = false -> a = b.
Proof.
  revert b. induction a as [|x a IH]; intros [|y b]; simpl; try congruence.
  rewrite (item_eqb_sym y x). destruct (item_eqb x y) eqn:E.
  - apply item_eqb_eq in E. subst y. intros H1 H2. f_equal. now apply IH.
  - intros H1 H2. now rewrite (item_total _ _ H1 E) in H2.
Qed.

Lemma tuple_leb_trans a b c :
  tuple_leb a b = true -> tuple_leb b c = true -> tuple_leb a c = true.
Proof.
  rewrite !tuple_leb_ltb, !negb_true_iff. intros Hba Hcb.
  destruct (tuple_ltb c a) eqn:Hca; [|reflexivity].
  destruct (tuple_ltb a b) eqn:Hab.
  - now rewrite (tuple_ltb_trans _ _ _ Hca Hab) in Hcb.
  - pose proof (tuple_total _ _ Hab Hba). subst b. congruence.
Qed.

Lemma tuple_leb_antisym a b : tuple_leb a b = true -> tuple_leb b a = true -> a = b.
Proof. rewrite !tuple_leb_ltb, !negb_true_iff. intros H1 H2. now apply tuple_total. Qed.

(** [sorted] returns a permutation of its argument, and two permutations of
    one another are sorted to the same tuple. *)
Lemma insert_sorted_perm x l : Permutation (x :: l) (insert_sorted x l).
Proof.
  induction l as [|y l IH]; simpl; [reflexivity|].
  destruct (item_ltb y x); [|reflexivity].
  rewrite perm_swap. now constructor.
Qed.

Lemma sorted_perm l : Permutation l (sorted l).
Proof.
  induction l as [|x l IH]; simpl; [constructor|].
  rewrite <- insert_sorted_perm. now constructor.
Qed.

Lemma item_ltb_false a b :
  item_ltb a b = false <-> ~ (fst a < fst b \/ (fst a = fst b /\ snd a < snd b)).
Proof. rewrite <- item_ltb_spec. destruct (item_ltb a b); split; congruence. Qed.

Ltac item_arith :=
  repeat match goal with
         | H : item_ltb _ _ = true |- _ => apply item_ltb_spec in H
         | H : item_ltb _ _ = false |- _ => apply item_ltb_false in H
         | x : Item |- _ => destruct x
         end;
  simpl in *; solve [lia | f_equal; lia].

Lemma insert_sorted_comm x y l :
  insert_sorted x (insert_sorted y l) = insert_sorted y (insert_sorted x l).
Proof.
  induction l as [|z l IH]; simpl.
  - destruct (item_ltb y x) eqn:A, (item_ltb x y) eqn:B; try reflexivity.
    + exfalso. item_arith.
    + assert (x = y) by item_arith. now subst.
  - destruct (item_ltb z y) eqn:Zy, (item_ltb z x) eqn:Zx; simpl;
      rewrite ?Zy, ?Zx; try (now rewrite IH);
      destruct (item_ltb y x) eqn:A, (item_ltb x y) eqn:B; simpl;
      rewrite ?Zy, ?Zx; try reflexivity;
      try (exfalso; item_arith);
      try (assert (x = y) by item_arith; now subst).
Qed.

Lemma sorted_permutation l1 l2 : Permutation l1 l2 -> sorted l1 = sorted l2.
Proof.
  induction 1; simpl; try congruence.
  apply insert_sorted_comm.
Qed.

End OrderFacts.


Section DictFacts.
Import PyData.

Lemma dict_set_fresh d k v : ~ In k (keys d) -> dict_set d k v = d ++ [(k, v)].
Proof.
  induction d as [|[k' v'] d IH]; simpl; [reflexivity|].
  intros H. destruct (Nat.eqb_spec k' k) as [->|N]; [tauto|].
  rewrite IH; tauto.
Qed.

Lemma dict_of_acc l : forall acc,
  NoDup (keys (acc ++ l)) ->
  fold_left (fun d kv => dict_set d (fst kv) (snd kv)) l acc = acc ++ l.
Proof.
  induction l as [|[k v] l IH]; intros acc H; simpl.
  - now rewrite app_nil_r.
  - assert (Hk : ~ In k (keys acc)).
    { unfold keys in *. rewrite map_app in H. simpl in H.
      apply NoDup_remove_2 in H. rewrite in_app_iff in H. tauto. }
    rewrite (dict_set_fresh _ _ _ Hk), IH; rewrite <- app_assoc; [reflexivity|exact H].
Qed.

(** A comprehension over distinct keys is the list of its items. *)
Lemma dict_of_nodup l : NoDup (keys l) -> dict_of l = l.
Proof. intros H. unfold dict_of. now rewrite dict_of_acc. Qed.

Lemma dict_get_graph (f : Vertex -> Vertex) l k :
  In k l -> dict_get (map (fun v => (v, f v)) l) k = Some (f k).
Proof.
  induction l as [|x l IH]; simpl; [tauto|].
  intros H. destruct (Nat.eqb_spec x k) as [->|N]; [reflexivity|].
  apply IH. destruct H; congruence.
Qed.

Lemma dict_get_some d k : In k (keys d) -> exists v, dict_get d k = Some v /\ In (k, v) d.
Proof.
  induction d as [|[k' v'] d IH]; simpl; [tauto|].
  intros H. destruct (Nat.eqb_spec k' k) as [->|N].
  - eauto.
  - destruct H as [H|H]; [congruence|]. destruct (IH H) as (v & E & I). eauto.
Qed.

Lemma dict_get_in d k v : NoDup (keys d) -> In (k, v) d -> dict_get d k = Some v.
Proof.
  induction d as [|[k' v'] d IH]; simpl; [tauto|].
  intros ND H. inversion ND as [|? ? Hn ND']; subst.
  destruct H as [[= -> ->]|H].
  - now rewrite Nat.eqb_refl.
  - destruct (Nat.eqb_spec k' k) as [->|N]; [|now apply IH].
    exfalso. apply Hn. unfold keys. change k with (fst (k, v)). now apply in_map.
Qed.

Lemma mapM_total {A B} (f : A -> option B) l :
  (forall x, In x l -> exists y, f x = Some y) -> exists ys, mapM f l = Some ys.
Proof.
  induction l as [|x l IH]; intros H; simpl; [eauto|].
  destruct (H x (or_introl eq_refl)) as [y ->].
  destruct IH as [ys ->]; [intros; apply H; now right|]. simpl. eauto.
Qed.

Lemma mapM_Forall2 {A B} (f : A -> option B) l ys :
  mapM f l = Some ys -> Forall2 (fun x y => f x = Some y) l ys.
Proof.
  revert ys. induction l as [|x l IH]; simpl; intros ys H.
  - injection H as <-. constructor.
  - destruct (f x) eqn:E; [|discriminate]. simpl in H.
    destruct (mapM f l); [|discriminate]. simpl in H. injection H as <-.
    constructor; auto.
Qed.

Lemma mapM_In {A B} (f : A -> option B) l ys x :
  mapM f l = Some ys -> In x l -> exists y, f x = Some y /\ In y ys.
Proof.
  intros H. apply mapM_Forall2 in H. induction H; simpl; [tauto|].
  intros [->|Hx]; [eauto|]. destruct (IHForall2 Hx) as (z & ? & ?). eauto.
Qed.

Lemma mapM_In_inv {A B} (f : A -> option B) l ys y :
  mapM f l = Some ys -> In y ys -> exists x, f x = Some y /\ In x l.
Proof.
  intros H. apply mapM_Forall2 in H. induction H; simpl; [tauto|].
  intros [->|Hy]; [eauto|]. destruct (IHForall2 Hy) as (z & ? & ?). eauto.
Qed.

Lemma mapM_map {A B} (f : A -> option B) (g : A -> B) l :
  (forall x, In x l -> f x = Some (g x)) -> mapM f l = Some (map g l).
Proof.
  induction l as [|x l IH]; intros H; simpl; [reflexivity|].
  rewrite (H x (or_introl eq_refl)). simpl.
  rewrite IH; [reflexivity|]. intros; apply H; now right.
Qed.

End DictFacts.


Section CanonicaliseFacts.
Import PyData Mod.

Lemma keys_graph f l : keys (map (fun v => (v, f v)) l) = l.
Proof. unfold keys. rewrite map_map. simpl. apply map_id. Qed.

Lemma from_automorphism_graph g a :
  NoDup (vertex_ids g) -> Morphism._from_automorphism g a = graph_of a (vertex_ids g).
Proof.
  intros ND. unfold Morphism._from_automorphism, graph_of, vertex_ids.
  rewrite map_map. f_equal. apply dict_of_nodup.
  unfold vertex_ids in ND. unfold keys. now rewrite map_map.
Qed.

Lemma from_generators_graph G :
  NoDup (vertex_ids (CanonicalGraph.graph G)) ->
  Morphism._from_automorphism_generators G
  = map (fun a => graph_of a (vertex_ids (CanonicalGraph.graph G)))
        (CanonicalGraph.automorphism_generators G ++ [fun v => v]).
Proof.
  intros ND. unfold Morphism._from_automorphism_generators.
  rewrite map_app. simpl. f_equal.
  - apply map_ext. intros a. now apply from_automorphism_graph.
  - f_equal. now apply (from_automorphism_graph _ (fun v => v)).
Qed.

Lemma add_graph f l b g :
  NoDup l ->
  (forall v, In v l -> Morphism.getitem b (f v) = Some (g (f v))) ->
  Morphism.add (graph_of f l) b = Some (graph_of (fun v => g (f v)) l).
Proof.
  intros ND H. unfold Morphism.add, graph_of at 1. simpl.
  rewrite (mapM_map _ (fun ri => (fst ri, g (snd ri)))).
  - simpl. rewrite map_map. simpl. unfold graph_of. do 2 f_equal.
    apply dict_of_nodup. now rewrite keys_graph.
  - intros [r i] Hin. apply in_map_iff in Hin as (v & [= <- <-] & Hv).
    simpl. now rewrite H.
Qed.

Lemma getitem_graph f l v : In v l -> Morphism.getitem (graph_of f l) v = Some (f v).
Proof. intros H. unfold Morphism.getitem, graph_of. simpl. now apply dict_get_graph. Qed.

Lemma getitem_apply m v :
  In v (keys (Morphism.items m)) -> Morphism.getitem m v = Some (apply m v).
Proof.
  intros H. unfold apply. destruct (dict_get_some _ _ H) as (w & E & _).
  unfold Morphism.getitem, Morphism.items in *. now rewrite E.
Qed.

Lemma apply_in_values m v :
  In v (keys (Morphism.items m)) -> In (apply m v) (values (Morphism.items m)).
Proof.
  intros H. unfold apply. destruct (dict_get_some _ _ H) as (w & E & Hin).
  unfold Morphism.getitem, Morphism.items in *. rewrite E.
  unfold values. change w with (snd (v, w)). now apply in_map.
Qed.

(** Every candidate of the double loop is defined, and is the pointwise
    composition of the three maps. *)
Lemma composite_graph m R I a h :
  morphism_between m R I ->
  (forall v, In v (vertex_ids (CanonicalGraph.graph R)) ->
             In (a v) (vertex_ids (CanonicalGraph.graph R))) ->
  let VR := vertex_ids (CanonicalGraph.graph R) in
  let VI := vertex_ids (CanonicalGraph.graph I) in
  Morphism.add (graph_of a VR) m = Some (graph_of (fun v => apply m (a v)) VR)
  /\ Morphism.add (graph_of (fun v => apply m (a v)) VR) (graph_of h VI)
     = Some (graph_of (fun v => h (apply m (a v))) VR).
Proof.
  intros (Hwf & NR & NI & Hk & Hv & Hg) Ha VR VI. split.
  - apply (add_graph a VR m (apply m)); [exact NR|].
    intros v Hin. apply getitem_apply. apply Hk. now apply Ha.
  - apply (add_graph (fun v => apply m (a v)) VR (graph_of h VI) h); [exact NR|].
    intros v Hin. apply getitem_graph. apply Hv, apply_in_values, Hk. now apply Ha.
Qed.

Lemma inner_fold p autos : forall s xs,
  mapM (Morphism.add p) autos = Some xs ->
  Morphism.canonicalise_inner p autos s = Some (fold_left step xs s).
Proof.
  induction autos as [|i autos IH]; simpl; intros s xs H.
  - now injection H as <-.
  - destruct (Morphism.add p i) as [c|]; [|discriminate]. simpl in *.
    destruct (mapM (Morphism.add p) autos) as [ys|] eqn:E; [|discriminate].
    simpl in H. injection H as <-. simpl. now apply IH.
Qed.

Lemma outer_fold self rs is_ : forall s xss,
  mapM (fun r => bind (Morphism.add r self) (fun p => mapM (Morphism.add p) is_)) rs
    = Some xss ->
  Morphism.canonicalise_outer self rs is_ s = Some (fold_left step (List.concat xss) s).
Proof.
  induction rs as [|r rs IH]; simpl; intros s xss H.
  - now injection H as <-.
  - destruct (Morphism.add r self) as [p|]; [|discriminate]. simpl in *.
    destruct (mapM (Morphism.add p) is_) as [xs|] eqn:E; [|discriminate]. simpl in H.
    destruct (mapM _ rs) as [yss|] eqn:E2; [|discriminate]. simpl in H.
    injection H as <-. rewrite (inner_fold _ _ _ _ E). simpl.
    rewrite fold_left_app. now apply IH.
Qed.

Lemma morphism_leb_refl a : Morphism.leb a a = true.
Proof. apply tuple_leb_refl. Qed.

Lemma morphism_leb_trans a b c :
  Morphism.leb a b = true -> Morphism.leb b c = true -> Morphism.leb a c = true.
Proof. apply tuple_leb_trans. Qed.

Lemma step_leb s c :
  Morphism.leb (step s c) s = true /\ Morphism.leb (step s c) c = true
  /\ (step s c = s \/ step s c = c).
Proof.
  unfold step. destruct (Morphism.ltb c s) eqn:E.
  - split; [now apply tuple_ltb_leb|]. split; [apply morphism_leb_refl|now right].
  - split; [apply morphism_leb_refl|]. split; [|now left].
    unfold Morphism.leb. rewrite tuple_leb_ltb. unfold Morphism.ltb in E. now rewrite E.
Qed.

(** The running minimum of the loop: it is the start value or one of the
    candidates, and it is below the start value and below every candidate. *)
Lemma fold_step_spec xs : forall s,
  let c := fold_left step xs s in
  (c = s \/ In c xs) /\ Morphism.leb c s = true
  /\ (forall x, In x xs -> Morphism.leb c x = true).
Proof.
  induction xs as [|x xs IH]; intros s; simpl.
  - split; [now left|]. split; [apply morphism_leb_refl|tauto].
  - destruct (IH (step s x)) as (Hin & Hle & Hall).
    destruct (step_leb s x) as (L1 & L2 & Hor).
    split; [|split].
    + destruct Hin as [E|Hin]; [|tauto]. rewrite E. destruct Hor as [->| ->]; tauto.
    + eapply morphism_leb_trans; eauto.
    + intros y [<-|Hy]; [eapply morphism_leb_trans; eauto|auto].
Qed.

End CanonicaliseFacts.


Section CanonicaliseMain.
Import PyData Mod.

Lemma mapM_map_pre {A B C} (f : B -> option C) (g : A -> B) (k : A -> C) l :
  (forall x, In x l -> f (g x) = Some (k x)) -> mapM f (map g l) = Some (map k l).
Proof.
  induction l as [|x l IH]; intros H; simpl; [reflexivity|].
  rewrite (H x (or_introl eq_refl)). simpl.
  rewrite IH; [reflexivity|]. intros; apply H; now right.
Qed.

Lemma items_as_graph m :
  NoDup (keys (Morphism.items m)) ->
  Morphism.items m = map (fun k => (k, apply m k)) (keys (Morphism.items m)).
Proof.
  intros ND. unfold keys. rewrite map_map.
  rewrite <- (map_id (Morphism.items m)) at 1.
  apply map_ext_in. intros [k v] Hin. simpl. f_equal.
  unfold apply, Morphism.getitem. fold (Morphism.items m).
  now rewrite (dict_get_in _ _ _ ND Hin).
Qed.

(** Composing with both identities gives back the morphism itself. *)
Lemma identity_candidate m R I :
  morphism_between m R I ->
  Morphism.eqb m (graph_of (fun v => apply m v) (vertex_ids (CanonicalGraph.graph R))) = true.
Proof.
  intros ((Hfp & ND) & NR & NI & Hk & Hv & Hg).
  unfold Morphism.eqb. rewrite Hfp. simpl. apply tuple_eqb_eq.
  apply sorted_permutation.
  change (Morphism._vertex_map m) with (Morphism.items m).
  rewrite (items_as_graph m ND) at 1.
  apply Permutation_map. apply NoDup_Permutation; auto.
Qed.

Lemma generators_preserve m R I a :
  morphism_between m R I ->
  In a (CanonicalGraph.automorphism_generators R ++ [fun v => v]) ->
  forall v, In v (vertex_ids (CanonicalGraph.graph R)) ->
            In (a v) (vertex_ids (CanonicalGraph.graph R)).
Proof.
  intros (_ & _ & _ & _ & _ & Hg) Ha v Hv.
  apply in_app_iff in Ha as [Ha|[<-|[]]]; [now apply Hg|exact Hv].
Qed.

Lemma canonicalise_fold m R I :
  morphism_between m R I ->
  Morphism.canonicalise m R I = Some (fold_left step (List.concat (candidates m R I)) m).
Proof.
  intros Hb. pose proof Hb as (Hwf & NR & NI & Hk & Hv & Hg).
  unfold Morphism.canonicalise.
  rewrite (from_generators_graph R NR), (from_generators_graph I NI).
  apply outer_fold. unfold candidates.
  apply mapM_map_pre. intros a Ha.
  destruct (composite_graph m R I a (fun v => v) Hb (generators_preserve m R I a Hb Ha))
    as [E1 _].
  rewrite E1. simpl.
  apply mapM_map_pre. intros h Hh.
  now destruct (composite_graph m R I a h Hb (generators_preserve m R I a Hb Ha)).
Qed.

Lemma composite_candidate m R I a h :
  morphism_between m R I ->
  In a (CanonicalGraph.automorphism_generators R ++ [fun v => v]) ->
  composite (graph_of a (vertex_ids (CanonicalGraph.graph R))) m
            (graph_of h (vertex_ids (CanonicalGraph.graph I)))
  = Some (graph_of (fun v => h (apply m (a v))) (vertex_ids (CanonicalGraph.graph R))).
Proof.
  intros Hb Ha.
  destruct (composite_graph m R I a h Hb (generators_preserve m R I a Hb Ha)) as [E1 E2].
  unfold composite. now rewrite E1.
Qed.

Lemma in_candidates m R I x :
  In x (List.concat (candidates m R I)) <->
  exists a h, In a (CanonicalGraph.automorphism_generators R ++ [fun v => v])
              /\ In h (CanonicalGraph.automorphism_generators I ++ [fun v => v])
              /\ x = graph_of (fun v => h (apply m (a v)))
                              (vertex_ids (CanonicalGraph.graph R)).
Proof.
  rewrite in_concat. unfold candidates. split.
  - intros (xs & Hxs & Hx). apply in_map_iff in Hxs as (a & <- & Ha).
    apply in_map_iff in Hx as (h & <- & Hh). eauto.
  - intros (a & h & Ha & Hh & ->). eexists. split.
    + apply in_map_iff. exists a. split; [reflexivity|exact Ha].
    + apply in_map_iff. exists h. split; [reflexivity|exact Hh].
Qed.

(** C3: for a morphism [m] from the range graph [R] to the image graph [I],
    [m.canonicalise(R, I)] returns a morphism [c] that is one of the
    compositions [r + m + i], that is below every such composition in the
    order on sorted item tuples, and that is below [m] itself.  Here [r]
    ranges over the morphisms [{v: a[v]}] on the vertices of [R], for [a] an
    automorphism generator of [R] or the identity, and [i] over the morphisms
    [{v: h[v]}] on the vertices of [I], for [h] an automorphism generator of
    [I] or the identity; the composition is defined for each of them, has
    the vertices of [R] as keys and maps [v] to [h[m[a[v]]]]. *)
Theorem canonicalise_smallest (m : Morphism.t) (R I : CanonicalGraph.t) :
  morphism_between m R I ->
  exists c,
    Morphism.canonicalise m R I = Some c
    /\ (exists a h x,
          In a (CanonicalGraph.automorphism_generators R ++ [fun v => v])
          /\ In h (CanonicalGraph.automorphism_generators I ++ [fun v => v])
          /\ composite (graph_of a (vertex_ids (CanonicalGraph.graph R))) m
                       (graph_of h (vertex_ids (CanonicalGraph.graph I))) = Some x
          /\ Morphism.eqb c x = true)
    /\ (forall a h,
          In a (CanonicalGraph.automorphism_generators R ++ [fun v => v]) ->
          In h (CanonicalGraph.automorphism_generators I ++ [fun v => v]) ->
          exists x,
            composite (graph_of a (vertex_ids (CanonicalGraph.graph R))) m
                      (graph_of h (vertex_ids (CanonicalGraph.graph I))) = Some x
            /\ keys (Morphism.items x) = vertex_ids (CanonicalGraph.graph R)
            /\ (forall v, In v (vertex_ids (CanonicalGraph.graph R)) ->
                          Morphism.getitem x v = option_map h (Morphism.getitem m (a v)))
            /\ Morphism.leb c x = true)
    /\ Morphism.leb c m = true.
Proof.
  intros Hb. pose proof Hb as (Hwf & NR & NI & Hk & Hv & Hg).
  rewrite (canonicalise_fold m R I Hb).
  destruct (fold_step_spec (List.concat (candidates m R I)) m) as (Hin & Hle & Hall).
  eexists. split; [reflexivity|]. split; [|split; [|exact Hle]].
  - assert (Hid : forall G, In (fun v : Vertex => v)
                               (CanonicalGraph.automorphism_generators G ++ [fun v => v]))
      by (intros G; apply in_app_iff; right; now left).
    destruct Hin as [E|Hin].
    + exists (fun v => v), (fun v => v). eexists.
      split; [apply Hid|]. split; [apply Hid|].
      split; [apply (composite_candidate m R I _ _ Hb (Hid R))|].
      rewrite E. now apply identity_candidate with (I := I).
    + apply in_candidates in Hin as (a & h & Ha & Hh & E).
      exists a, h. eexists. split; [exact Ha|]. split; [exact Hh|].
      split; [apply (composite_candidate m R I _ _ Hb Ha)|].
      rewrite E. apply tuple_eqb_refl.
  - intros a h Ha Hh.
    eexists. split; [apply (composite_candidate m R I _ _ Hb Ha)|].
    split; [apply keys_graph|]. split.
    + intros v Hin'. rewrite getitem_graph by exact Hin'.
      rewrite getitem_apply; [reflexivity|].
      apply Hk. now apply (generators_preserve m R I a Hb Ha).
    + apply Hall. apply in_candidates. eauto.
Qed.

End CanonicaliseMain.


Section CanonicaliseGenerators.
Import PyData Mod Examples.

Lemma graph_of_ext f f' l : (forall v, In v l -> f v = f' v) -> graph_of f l = graph_of f' l.
Proof.
  intros H. unfold graph_of. f_equal. apply map_ext_in. intros v Hv. now rewrite H.
Qed.

Lemma apply_graph f l v : In v l -> apply (graph_of f l) v = f v.
Proof. intros H. unfold apply. now rewrite getitem_graph. Qed.

Lemma values_graph f l w : In w (values (map (fun v => (v, f v)) l)) -> exists v, In v l /\ w = f v.
Proof.
  unfold values. rewrite map_map. simpl. intros H.
  apply in_map_iff in H as (v & <- & Hv). eauto.
Qed.

Lemma between_generator m R I g :
  morphism_between m R I ->
  In g (CanonicalGraph.automorphism_generators R) ->
  morphism_between (graph_of (fun v => apply m (g v)) (vertex_ids (CanonicalGraph.graph R))) R I.
Proof.
  intros (Hwf & NR & NI & Hk & Hv & Hg) Hin.
  split; [|split; [exact NR|split; [exact NI|split; [|split; [|exact Hg]]]]].
  - split; [reflexivity|]. simpl. now rewrite keys_graph.
  - intros v. unfold Morphism.items. simpl. rewrite keys_graph. tauto.
  - intros w Hw. unfold Morphism.items in Hw. simpl in Hw.
    apply values_graph in Hw as (v & Hv' & ->).
    apply Hv, apply_in_values, Hk. now apply Hg.
Qed.

Lemma morphism_leb_antisym a b :
  Morphism.leb a b = true -> Morphism.leb b a = true -> Morphism.eqb a b = true.
Proof.
  intros H1 H2. unfold Morphism.eqb. apply tuple_eqb_eq. now apply tuple_leb_antisym.
Qed.

Lemma morphism_eqb_leb a b : Morphism.eqb a b = true -> Morphism.leb b a = true.
Proof.
  unfold Morphism.eqb, Morphism.leb. intros H. apply tuple_eqb_eq in H. rewrite H.
  apply tuple_leb_refl.
Qed.

(** C4, the counterexample: the wildcard triangle [R] has the generators
    (0 1) and (1 2); for [m = {0: 2, 1: 1, 2: 0}] into a triangle [I] without
    symmetry and [g = (1 2)], canonicalising [g + m] gives
    [{0: 0, 1: 2, 2: 1}] while canonicalising [m] gives [{0: 1, 1: 2, 2: 0}]. *)
Lemma canonicalise_not_generator_invariant :
  In (transposition 1 2) (CanonicalGraph.automorphism_generators wildcard_triangle)
  /\ Morphism.add (Morphism._from_automorphism (CanonicalGraph.graph wildcard_triangle)
                                               (transposition 1 2))
                  (Morphism.init [(0, 2); (1, 1); (2, 0)])
     = Some (Morphism.init [(0, 2); (1, 0); (2, 1)])
  /\ Morphism.canonicalise (Morphism.init [(0, 2); (1, 0); (2, 1)])
                           wildcard_triangle host_triangle
     = Some (Morphism.init [(0, 0); (1, 2); (2, 1)])
  /\ Morphism.canonicalise (Morphism.init [(0, 2); (1, 1); (2, 0)])
                           wildcard_triangle host_triangle
     = Some (Morphism.init [(0, 1); (1, 2); (2, 0)])
  /\ Morphism.eqb (Morphism.init [(0, 0); (1, 2); (2, 1)])
                  (Morphism.init [(0, 1); (1, 2); (2, 0)]) = false.
Proof. repeat split; try reflexivity. simpl. auto. Qed.

(** C4, as the code has it: for a morphism [m] from [R] to [I] and a
    generator [g] of [R] such that composing with [g] maps the set made of
    the generators of [R] and the identity onto itself (as for a graph whose
    only generator is an involution), [g + m] and [m] canonicalise to equal
    morphisms. *)
Theorem canonicalise_generator_invariant (m : Morphism.t) (R I : CanonicalGraph.t) (g : Aut) :
  morphism_between m R I ->
  In g (CanonicalGraph.automorphism_generators R) ->
  generator_closed g R ->
  exists gm c1 c2,
    Morphism.add (Morphism._from_automorphism (CanonicalGraph.graph R) g) m = Some gm
    /\ Morphism.canonicalise gm R I = Some c1
    /\ Morphism.canonicalise m R I = Some c2
    /\ Morphism.eqb c1 c2 = true.
Proof.
  intros Hb Hg [Hc1 Hc2]. pose proof Hb as (Hwf & NR & NI & Hk & Hv & Hgen).
  set (VR := vertex_ids (CanonicalGraph.graph R)) in *.
  set (gm := graph_of (fun v => apply m (g v)) VR).
  assert (Hbg : morphism_between gm R I) by now apply between_generator.
  assert (Hg' : In g (CanonicalGraph.automorphism_generators R ++ [fun v => v]))
    by (apply in_app_iff; now left).
  assert (Hid : forall G, In (fun v : Vertex => v)
                             (CanonicalGraph.automorphism_generators G ++ [fun v => v]))
    by (intros G; apply in_app_iff; right; now left).
  exists gm. do 2 eexists.
  split.
  { rewrite (from_automorphism_graph _ g NR).
    now destruct (composite_graph m R I g (fun v => v) Hb
                    (generators_preserve m R I g Hb Hg')). }
  split; [apply (canonicalise_fold gm R I Hbg)|].
  split; [apply (canonicalise_fold m R I Hb)|].
  destruct (fold_step_spec (List.concat (candidates gm R I)) gm) as (Hin1 & Hle1 & Hall1).
  destruct (fold_step_spec (List.concat (candidates m R I)) m) as (Hin2 & Hle2 & Hall2).
  (* every candidate for [gm] is a candidate for [m], and conversely *)
  assert (Sub1 : forall x, In x (List.concat (candidates gm R I)) ->
                           In x (List.concat (candidates m R I))).
  { intros x Hx. apply in_candidates in Hx as (a & h & Ha & Hh & ->).
    destruct (Hc1 a Ha) as (a' & Ha' & Heq).
    apply in_candidates. exists a', h. split; [exact Ha'|split; [exact Hh|]].
    apply graph_of_ext. intros v Hvin. unfold gm.
    rewrite apply_graph by (apply (generators_preserve m R I a Hb Ha); exact Hvin).
    now rewrite Heq. }
  assert (Sub2 : forall x, In x (List.concat (candidates m R I)) ->
                           In x (List.concat (candidates gm R I))).
  { intros x Hx. apply in_candidates in Hx as (a' & h & Ha' & Hh & ->).
    destruct (Hc2 a' Ha') as (a & Ha & Heq).
    apply in_candidates. exists a, h. split; [exact Ha|split; [exact Hh|]].
    apply graph_of_ext. intros v Hvin. unfold gm.
    rewrite apply_graph by (apply (generators_preserve m R I a Hb Ha); exact Hvin).
    now rewrite Heq. }
  assert (Self1 : In gm (List.concat (candidates m R I))).
  { apply in_candidates. exists g, (fun v => v). auto. }
  assert (Self2 : exists y, In y (List.concat (candidates m R I)) /\ Morphism.eqb m y = true).
  { exists (graph_of (fun v => apply m v) VR). split.
    - apply in_candidates. exists (fun v => v), (fun v => v). auto.
    - now apply identity_candidate with (I := I). }
  apply morphism_leb_antisym.
  - destruct Hin2 as [E|Hin2].
    + rewrite E. destruct Self2 as (y & Hy & Ey).
      eapply morphism_leb_trans; [apply Hall1, Sub2, Hy|now apply morphism_eqb_leb].
    + apply Hall1, Sub2, Hin2.
  - destruct Hin1 as [E|Hin1].
    + rewrite E. apply Hall2, Self1.
    + apply Hall2, Sub1, Hin1.
Qed.

End CanonicaliseGenerators.


(** * Properties of the embedding engine *)

Section EmbeddingFacts.
Import PyData Mod.
Context {O : Oracle}.

Lemma rulegraph_eqb_refl p : RuleGraph.eqb p p = true.
Proof. apply String.eqb_refl. Qed.

Lemma rulegraph_eqb_sym p q : RuleGraph.eqb p q = RuleGraph.eqb q p.
Proof. apply String.eqb_sym. Qed.

Lemma rulegraph_eqb_trans p q r :
  RuleGraph.eqb p q = true -> RuleGraph.eqb q r = true -> RuleGraph.eqb p r = true.
Proof.
  unfold RuleGraph.eqb, CanonicalGraph.eqb. rewrite !String.eqb_eq. congruence.
Qed.

Lemma transition_eqb_refl x : Transition.eqb x x = true.
Proof. apply rulegraph_eqb_refl. Qed.

Lemma transition_eqb_sym x y : Transition.eqb x y = Transition.eqb y x.
Proof. apply rulegraph_eqb_sym. Qed.

Lemma transition_eqb_trans x y z :
  Transition.eqb x y = true -> Transition.eqb y z = true -> Transition.eqb x z = true.
Proof. apply rulegraph_eqb_trans. Qed.

Lemma build_embeddings_host self generator out e :
  Embedding._build_embeddings self generator = Some out ->
  In e out -> Embedding.host_transition e = Embedding.host_transition self.
Proof.
  unfold Embedding._build_embeddings. destruct (Embedding.build_patterns generator); [|discriminate].
  simpl. intros [= <-] Hin. apply in_flat_map in Hin as (pms & _ & Hin).
  apply in_map_iff in Hin as (m & <- & _). reflexivity.
Qed.

Lemma extensions_host e exts e' :
  Embedding.extensions e = Some exts -> In e' exts ->
  Embedding.host_transition e' = Embedding.host_transition e.
Proof.
  unfold Embedding.extensions. destruct (Embedding.extension_generator e); [|discriminate].
  simpl. apply build_embeddings_host.
Qed.

(** Membership in the sets and groups built by [successors]. *)
Lemma lattice_set_add_in s x e : In e (LatticeNode.set_add s x) -> In e s \/ e = x.
Proof.
  unfold LatticeNode.set_add. destruct (existsb _ s); [tauto|].
  rewrite in_app_iff. simpl. intuition.
Qed.

Lemma group_add_in G x p s e :
  In (p, s) (LatticeNode.group_add G x) -> In e s ->
  e = x \/ exists p' s', In (p', s') G /\ In e s'.
Proof.
  induction G as [|[q r] G IH]; simpl.
  - intros [[= <- <-]|[]] [<-|[]]. now left.
  - destruct (RuleGraph.eqb q (Embedding.pattern x)).
    + intros [[= <- <-]|Hin] He.
      * apply lattice_set_add_in in He as [He|He]; [right|now left]. eauto.
      * right. eauto.
    + intros [[= <- <-]|Hin] He.
      * right. eauto.
      * destruct (IH Hin He) as [E|(p' & s' & Hp & Hs)]; [now left|right]. eauto.
Qed.

Lemma groups_in xs : forall G p s e,
  In (p, s) (fold_left LatticeNode.group_add xs G) -> In e s ->
  In e xs \/ exists p' s', In (p', s') G /\ In e s'.
Proof.
  induction xs as [|x xs IH]; simpl; intros G p s e Hin He.
  - right. eauto.
  - destruct (IH _ _ _ _ Hin He) as [H|(p' & s' & Hp & Hs)]; [tauto|].
    destruct (group_add_in _ _ _ _ _ Hp Hs) as [E|H]; [left; now left|now right].
Qed.

Lemma distinct_transitions_subset more : forall seen t,
  In t (LatticeNode.distinct_transitions seen more) -> In t seen \/ In t more.
Proof.
  induction more as [|x more IH]; simpl; intros seen t H; [tauto|].
  destruct (existsb (Transition.eqb x) seen).
  - destruct (IH _ _ H); tauto.
  - destruct (IH _ _ H) as [H'|H']; [|tauto].
    apply in_app_iff in H' as [H'|[<-|[]]]; tauto.
Qed.

Lemma existsb_eqb_In t l : In t l -> existsb (Transition.eqb t) l = true.
Proof.
  intros H. apply existsb_exists. exists t. split; [exact H|apply transition_eqb_refl].
Qed.

Lemma distinct_transitions_covers more : forall seen t,
  existsb (Transition.eqb t) seen = true \/ In t more ->
  existsb (Transition.eqb t) (LatticeNode.distinct_transitions seen more) = true.
Proof.
  induction more as [|x more IH]; simpl; intros seen t H.
  - destruct H as [H|[]]. exact H.
  - destruct (existsb (Transition.eqb x) seen) eqn:E.
    + apply IH. destruct H as [H|[<-|H]]; auto.
    + apply IH. rewrite existsb_app. destruct H as [H|[<-|H]]; auto.
      * left. now rewrite H.
      * left. simpl. now rewrite transition_eqb_refl, orb_true_r.
Qed.

(** C9: an embedding yielded by [e.extensions()] has the host transition of
    [e]; hence every embedding of a successor of a node extends an embedding
    of the node on the same host, and every host transition of the successor
    is ([==] to) a host transition of the node. *)
Theorem extensions_keep_host (e : Embedding.t) (exts : list Embedding.t)
    (n : LatticeNode.t) (children : list LatticeNode.t) :
  Embedding.extensions e = Some exts ->
  LatticeNode.fresh_successors n = Some children ->
  (forall e', In e' exts -> Embedding.host_transition e' = Embedding.host_transition e)
  /\ (forall child e', In child children -> In e' (LatticeNode._embeddings child) ->
        exists e0, In e0 (LatticeNode._embeddings n)
                   /\ Embedding.host_transition e' = Embedding.host_transition e0)
  /\ (forall child t, In child children -> In t (LatticeNode.host_transitions child) ->
        existsb (Transition.eqb t) (LatticeNode.host_transitions n) = true).
Proof.
  intros Hext Hsucc. split; [intros e'; now apply extensions_host|].
  assert (Hemb : forall child e', In child children -> In e' (LatticeNode._embeddings child) ->
            exists e0, In e0 (LatticeNode._embeddings n)
                       /\ Embedding.host_transition e' = Embedding.host_transition e0).
  { unfold LatticeNode.fresh_successors in Hsucc.
    destruct (mapM Embedding.extensions (LatticeNode._embeddings n)) as [per|] eqn:E;
      [|discriminate].
    simpl in Hsucc. injection Hsucc as <-.
    intros child e' Hc He. apply in_map_iff in Hc as ([p s] & <- & Hps). simpl in He.
    destruct (groups_in _ _ _ _ _ Hps He) as [Hin|(? & ? & [] & _)].
    apply in_concat in Hin as (xs & Hxs & Hin).
    destruct (mapM_In_inv _ _ _ _ E Hxs) as (e0 & He0 & Hin0).
    exists e0. split; [exact Hin0|]. now apply (extensions_host e0 xs). }
  split; [exact Hemb|].
  intros child t Hc Ht. unfold LatticeNode.host_transitions in *.
  apply distinct_transitions_subset in Ht as [[]|Ht].
  apply in_map_iff in Ht as (e' & <- & He').
  destruct (Hemb child e' Hc He') as (e0 & Hin0 & ->).
  apply distinct_transitions_covers. right. now apply in_map.
Qed.

End EmbeddingFacts.


Section OrbitFacts.
Import PyData Mod.

Lemma absent_cons p q s (D : dictionary) :
  absent p ((q, s) :: D) <-> RuleGraph.eqb q p = false /\ absent p D.
Proof.
  unfold absent. split.
  - intros H. split; [apply (H (q, s)); now left|intros x Hx; apply H; now right].
  - intros [H1 H2] x [<-|Hx]; auto.
Qed.

Lemma build_step_absent D P phi :
  absent P D -> Embedding.build_step D P phi = Some (D ++ [(P, [phi])]).
Proof.
  induction D as [|[q s] D IH]; simpl; intros H; [reflexivity|].
  apply absent_cons in H as [H1 H2]. rewrite H1.
  now rewrite IH.
Qed.

Lemma build_step_present D1 P0 S D2 P phi :
  absent P D1 -> RuleGraph.eqb P0 P = true ->
  Embedding.build_step (D1 ++ (P0, S) :: D2) P phi
  = bind (transported P P0 phi)
         (fun news => Some (D1 ++ (P0, fold_left Embedding.set_add news S) :: D2)).
Proof.
  induction D1 as [|[q s] D1 IH]; simpl; intros H E.
  - now rewrite E.
  - apply absent_cons in H as [H1 H2]. rewrite H1.
    rewrite IH; [|exact H2|exact E].
    now destruct (transported P P0 phi).
Qed.

Lemma build_step_other D1 P0 S D2 P phi D' :
  RuleGraph.eqb P0 P = false ->
  Embedding.build_step (D1 ++ (P0, S) :: D2) P phi = Some D' ->
  exists D1' D2', D' = D1' ++ (P0, S) :: D2'.
Proof.
  intros E. revert D'. induction D1 as [|[q s] D1 IH]; simpl; intros D'.
  - rewrite E. destruct (Embedding.build_step D2 P phi) as [D2'|]; [|discriminate].
    simpl. intros [= <-]. exists [], D2'. reflexivity.
  - destruct (RuleGraph.eqb q P).
    + destruct (mapM _ _) as [news|]; [|discriminate]. simpl. intros [= <-].
      exists ((q, fold_left Embedding.set_add news s) :: D1), D2. reflexivity.
    + destruct (Embedding.build_step (D1 ++ (P0, S) :: D2) P phi) as [D''|]; [|discriminate].
      simpl. intros [= <-]. destruct (IH D'' eq_refl) as (D1' & D2' & ->).
      exists ((q, s) :: D1'), D2'. reflexivity.
Qed.

Lemma absent_dec P (D : dictionary) :
  absent P D \/ exists D1 P0 S D2, D = D1 ++ (P0, S) :: D2
                                  /\ absent P D1 /\ RuleGraph.eqb P0 P = true.
Proof.
  induction D as [|[q s] D IH].
  - left. intros x [].
  - destruct (RuleGraph.eqb q P) eqn:E.
    + right. exists [], q, s, D. split; [reflexivity|]. split; [intros x []|exact E].
    + destruct IH as [H|(D1 & P0 & S & D2 & -> & H & E')].
      * left. intros x [<-|Hx]; [exact E|now apply H].
      * right. exists ((q, s) :: D1), P0, S, D2. split; [reflexivity|].
        split; [|exact E']. intros x [<-|Hx]; [exact E|now apply H].
Qed.

Lemma absent_app p (D1 D2 : dictionary) : absent p (D1 ++ D2) <-> absent p D1 /\ absent p D2.
Proof.
  unfold absent. split.
  - intros H. split; intros q Hq; apply H; apply in_app_iff; tauto.
  - intros [H1 H2] q Hq. apply in_app_iff in Hq as [Hq|Hq]; auto.
Qed.

Lemma distinct_keys_app (D1 D2 : dictionary) :
  distinct_keys (D1 ++ D2) <->
  distinct_keys D1 /\ distinct_keys D2 /\ (forall q, In q D1 -> absent (fst q) D2).
Proof.
  induction D1 as [|[p s] D1 IH]; simpl.
  - split; [intros H; repeat split; [exact H|intros q []]|tauto].
  - rewrite absent_app, IH. split.
    + intros [[A1 A2] (K1 & K2 & K3)]. repeat split; auto.
      intros q [<-|Hq]; [exact A2|now apply K3].
    + intros [[A1 K1] [K2 K3]].
      split; [split; [exact A1|apply (K3 (p, s)); now left]|].
      split; [exact K1|]. split; [exact K2|].
      intros q Hq. apply K3. now right.
Qed.

Lemma absent_eqb p q (D : dictionary) :
  RuleGraph.eqb p q = true -> absent p D -> absent q D.
Proof.
  intros E H x Hx. specialize (H x Hx).
  destruct (RuleGraph.eqb (fst x) q) eqn:E'; [|reflexivity].
  rewrite rulegraph_eqb_sym in E.
  now rewrite (rulegraph_eqb_trans _ _ _ E' E) in H.
Qed.

Lemma build_step_distinct D P phi D' :
  distinct_keys D -> Embedding.build_step D P phi = Some D' -> distinct_keys D'.
Proof.
  intros HD. destruct (absent_dec P D) as [H|(D1 & P0 & S & D2 & -> & H & E)].
  - rewrite (build_step_absent _ _ _ H). intros [= <-].
    apply distinct_keys_app. split; [exact HD|]. split; [simpl; split; [intros x []|exact I]|].
    intros q Hq x [<-|[]]. simpl. rewrite rulegraph_eqb_sym. now apply H.
  - rewrite (build_step_present _ _ _ _ _ _ H E).
    destruct (transported P P0 phi); [|discriminate]. simpl. intros [= <-].
    apply distinct_keys_app in HD as (K1 & K2 & K3).
    apply distinct_keys_app. split; [exact K1|]. split; [exact K2|].
    intros q Hq x [<-|Hx]; [apply (K3 q Hq (P0, S)); now left|].
    apply (K3 q Hq). now right.
Qed.

Lemma embedding_set_add_in s x m : In m (Embedding.set_add s x) -> In m s \/ m = x.
Proof.
  unfold Embedding.set_add. destruct (existsb _ s); [tauto|].
  rewrite in_app_iff. simpl. intuition.
Qed.

Lemma embedding_set_add_keeps s x m : In m s -> In m (Embedding.set_add s x).
Proof.
  unfold Embedding.set_add. destruct (existsb _ s); [tauto|].
  rewrite in_app_iff. tauto.
Qed.

Lemma embedding_set_add_has s x :
  exists m, In m (Embedding.set_add s x) /\ Morphism.eqb m x = true.
Proof.
  unfold Embedding.set_add. destruct (existsb (Morphism.eqb x) s) eqn:E.
  - apply existsb_exists in E as (m & Hm & E). exists m. split; [exact Hm|].
    unfold Morphism.eqb in *. apply tuple_eqb_eq in E. rewrite E. apply tuple_eqb_refl.
  - exists x. split; [apply in_app_iff; right; now left|apply tuple_eqb_refl].
Qed.

Lemma set_adds_in news : forall s m,
  In m (fold_left Embedding.set_add news s) -> In m s \/ In m news.
Proof.
  induction news as [|x news IH]; simpl; intros s m H; [tauto|].
  destruct (IH _ _ H) as [H'|H']; [|tauto].
  apply embedding_set_add_in in H' as [H'|H']; [tauto|subst; tauto].
Qed.

Lemma set_adds_keeps news : forall s m, In m s -> In m (fold_left Embedding.set_add news s).
Proof.
  induction news as [|x news IH]; simpl; intros s m H; [exact H|].
  apply IH. now apply embedding_set_add_keeps.
Qed.

Lemma set_adds_has news : forall s x,
  In x news -> exists m, In m (fold_left Embedding.set_add news s) /\ Morphism.eqb m x = true.
Proof.
  induction news as [|y news IH]; simpl; intros s x H; [tauto|].
  destruct H as [<-|H]; [|now apply IH].
  destruct (embedding_set_add_has s y) as (m & Hm & E).
  exists m. split; [now apply set_adds_keeps|exact E].
Qed.

(** The entry of a key through the rest of the loop: it keeps its place and
    its morphisms, and gains exactly the transported later morphisms. *)
Lemma entry_through rest : forall D1 P0 S D2 D',
  distinct_keys (D1 ++ (P0, S) :: D2) ->
  RuleGraph.foldM (fun patterns pm => Embedding.build_step patterns (fst pm) (snd pm))
                  rest (D1 ++ (P0, S) :: D2) = Some D' ->
  exists D1' S' D2',
    D' = D1' ++ (P0, S') :: D2' /\ distinct_keys D'
    /\ (forall m, In m S -> In m S')
    /\ (forall m, In m S' -> In m S \/ later_morphism P0 rest m)
    /\ (forall m, later_morphism P0 rest m -> exists m', In m' S' /\ Morphism.eqb m' m = true)
    /\ (forall Pk phik, In (Pk, phik) rest -> RuleGraph.eqb P0 Pk = true ->
          exists news, transported Pk P0 phik = Some news).
Proof.
  induction rest as [|[P phi] rest IH]; simpl; intros D1 P0 S D2 D' HD H.
  - injection H as <-. exists D1, S, D2. repeat split; auto.
    + intros m (? & ? & ? & [] & _).
    + intros ? ? [].
  - destruct (Embedding.build_step (D1 ++ (P0, S) :: D2) P phi) as [D''|] eqn:Estep;
      [|discriminate].
    simpl in H. pose proof (build_step_distinct _ _ _ _ HD Estep) as HD''.
    destruct (RuleGraph.eqb P0 P) eqn:E.
    + assert (HA : absent P D1).
      { apply distinct_keys_app in HD as (_ & _ & K3).
        intros q Hq. specialize (K3 q Hq (P0, S) (or_introl eq_refl)).
        change (RuleGraph.eqb P0 (fst q) = false) in K3.
        destruct (RuleGraph.eqb (fst q) P) eqn:E'; [|reflexivity].
        rewrite rulegraph_eqb_sym in E'.
        now rewrite (rulegraph_eqb_trans _ _ _ E E') in K3. }
      rewrite (build_step_present _ _ _ _ _ _ HA E) in Estep.
      destruct (transported P P0 phi) as [news|] eqn:Enews; [|discriminate].
      simpl in Estep. injection Estep as <-.
      destruct (IH _ _ _ _ _ HD'' H) as (D1' & S' & D2' & -> & K & In1 & In2 & In3 & In4).
      exists D1', S', D2'. split; [reflexivity|]. split; [exact K|]. split; [|split; [|split]].
      * intros m Hm. apply In1. now apply set_adds_keeps.
      * intros m Hm. destruct (In2 m Hm) as [Hm'|(Pk & phik & nk & Hk & Ek & Tk & Ink)].
        -- apply set_adds_in in Hm' as [Hm'|Hm']; [now left|right].
           exists P, phi, news. repeat split; auto. now left.
        -- right. exists Pk, phik, nk. repeat split; auto. now right.
      * intros m (Pk & phik & nk & [[= <- <-]|Hk] & Ek & Tk & Ink).
        -- rewrite Enews in Tk. injection Tk as <-.
           destruct (set_adds_has news S m Ink) as (m' & Hm' & Em').
           exists m'. split; [now apply In1|exact Em'].
        -- apply In3. exists Pk, phik, nk. repeat split; auto.
      * intros Pk phik [[= <- <-]|Hk] Ek; [eauto|now apply (In4 Pk phik)].
    + destruct (build_step_other _ _ _ _ _ _ _ E Estep) as (D1'' & D2'' & ->).
      destruct (IH _ _ _ _ _ HD'' H) as (D1' & S' & D2' & -> & K & In1 & In2 & In3 & In4).
      exists D1', S', D2'. split; [reflexivity|]. split; [exact K|].
      split; [exact In1|split; [|split]].
      * intros m Hm. destruct (In2 m Hm) as [Hm'|(Pk & phik & nk & Hk & Ek & Tk & Ink)];
          [now left|right].
        exists Pk, phik, nk. repeat split; auto. now right.
      * intros m (Pk & phik & nk & [[= <- <-]|Hk] & Ek & Tk & Ink); [congruence|].
        apply In3. exists Pk, phik, nk. repeat split; auto.
      * intros Pk phik [[= <- <-]|Hk] Ek; [congruence|now apply (In4 Pk phik)].
Qed.

Lemma foldM_app {A B} (f : A -> B -> option A) l1 l2 a :
  RuleGraph.foldM f (l1 ++ l2) a = bind (RuleGraph.foldM f l1 a) (RuleGraph.foldM f l2).
Proof.
  revert a. induction l1 as [|x l1 IH]; simpl; intros a; [reflexivity|].
  destruct (f a x); simpl; [apply IH|reflexivity].
Qed.

(** Through a prefix whose patterns all differ from [P0], no key [==] to
    [P0] enters the dictionary. *)
Lemma prefix_absent pre P0 : forall D D',
  (forall q, In q pre -> RuleGraph.eqb (fst q) P0 = false) ->
  absent P0 D -> distinct_keys D ->
  RuleGraph.foldM (fun patterns pm => Embedding.build_step patterns (fst pm) (snd pm)) pre D
    = Some D' ->
  absent P0 D' /\ distinct_keys D'.
Proof.
  induction pre as [|[P phi] pre IH]; simpl; intros D D' Hpre HA HD H.
  - injection H as <-. tauto.
  - destruct (Embedding.build_step D P phi) as [D''|] eqn:Estep; [|discriminate].
    simpl in H. apply (IH D'' D'); auto.
    + pose proof (Hpre (P, phi) (or_introl eq_refl)) as EP. simpl in EP.
      destruct (absent_dec P D) as [HP|(D1 & Q & S & D2 & -> & HP & E)].
      * rewrite (build_step_absent _ _ _ HP) in Estep. injection Estep as <-.
        apply absent_app. split; [exact HA|]. intros q [<-|[]]. exact EP.
      * rewrite (build_step_present _ _ _ _ _ _ HP E) in Estep.
        destruct (transported P Q phi); [|discriminate]. simpl in Estep.
        injection Estep as <-.
        apply absent_app in HA as [A1 A2]. apply absent_app. split; [exact A1|].
        intros q [<-|Hq]; [apply (A2 (Q, S)); now left|apply A2; now right].
    + now apply (build_step_distinct D P phi).
Qed.

(** C6, as the code has it: when a pattern [P0] is first produced with the
    morphism [phi0] and a later step produces an equal pattern [Pk] with the
    morphism [phik], the embeddings yielded for that pattern all carry the
    first pattern [P0]; they hold [phi0] as it was produced and, for every
    isomorphism [iota] of [Pk.isomorphisms(P0)], the morphism [iota + phik]
    (up to [==], the morphisms being kept in a set); and every yielded
    morphism is [phi0] or such a composition for some later step.  Nothing
    composes [phi0] itself with the automorphisms of [P0]. *)
Theorem extensions_transport_later_morphisms {O : Oracle} (self : Embedding.t)
    (pre mid post : list (RuleGraph.t * Morphism.t))
    (P0 Pk : RuleGraph.t) (phi0 phik : Morphism.t) (out : list Embedding.t) :
  Embedding.extension_generator self = Some (pre ++ (P0, phi0) :: mid ++ (Pk, phik) :: post) ->
  Embedding.extensions self = Some out ->
  (forall q, In q pre -> RuleGraph.eqb (fst q) P0 = false) ->
  RuleGraph.eqb P0 Pk = true ->
  In (Embedding.mk (Embedding.host_transition self) P0 phi0) out
  /\ (exists news,
        transported Pk P0 phik = Some news
        /\ forall m, In m news ->
             exists m', Morphism.eqb m' m = true
                        /\ In (Embedding.mk (Embedding.host_transition self) P0 m') out)
  /\ (forall e, In e out -> RuleGraph.eqb (Embedding.pattern e) P0 = true ->
        Embedding.pattern e = P0
        /\ Embedding.host_transition e = Embedding.host_transition self
        /\ (Embedding._morphism e = phi0
            \/ later_morphism P0 (mid ++ (Pk, phik) :: post) (Embedding._morphism e))).
Proof.
  intros Hgen Hext Hpre Heq.
  unfold Embedding.extensions in Hext. rewrite Hgen in Hext. simpl in Hext.
  unfold Embedding._build_embeddings, Embedding.build_patterns in Hext.
  rewrite foldM_app in Hext.
  destruct (RuleGraph.foldM _ pre []) as [Dpre|] eqn:Epre; [|discriminate].
  simpl in Hext.
  destruct (prefix_absent pre P0 [] Dpre Hpre) as [HA HD]; auto;
    [intros q []|exact I|].
  rewrite (build_step_absent _ _ _ HA) in Hext. simpl in Hext.
  destruct (RuleGraph.foldM _ (mid ++ (Pk, phik) :: post) _) as [D'|] eqn:Erest;
    [|discriminate].
  simpl in Hext. injection Hext as <-.
  assert (HD1 : distinct_keys (Dpre ++ [(P0, [phi0])])).
  { apply distinct_keys_app. split; [exact HD|]. split; [simpl; split; [intros x []|exact I]|].
    intros q Hq x [<-|[]]. simpl. rewrite rulegraph_eqb_sym. now apply HA. }
  destruct (entry_through _ _ _ _ _ _ HD1 Erest)
    as (D1' & S' & D2' & -> & K & In1 & In2 & In3 & In4).
  assert (Hentry : forall m, In m S' ->
            In (Embedding.mk (Embedding.host_transition self) P0 m)
               (flat_map (fun pms => map (Embedding.mk (Embedding._host_transition self) (fst pms))
                                         (snd pms))
                         (D1' ++ (P0, S') :: D2'))).
  { intros m Hm. apply in_flat_map. exists (P0, S'). split.
    - apply in_app_iff. right. now left.
    - simpl. now apply in_map. }
  split; [apply Hentry, In1; now left|]. split.
  - destruct (In4 Pk phik) as [news Hnews]; [apply in_app_iff; right; now left|exact Heq|].
    exists news. split; [exact Hnews|]. intros m Hm.
    destruct (In3 m) as (m' & Hm' & Em').
    { exists Pk, phik, news. repeat split; auto. apply in_app_iff. right. now left. }
    exists m'. split; [exact Em'|now apply Hentry].
  - intros e He Ee. apply in_flat_map in He as ([p s] & Hps & He).
    apply in_map_iff in He as (m & <- & Hm). simpl in *.
    apply distinct_keys_app in K as (K1 & K2 & K3). simpl in K2. destruct K2 as [A2 K2].
    apply in_app_iff in Hps as [Hps|[[= <- <-]|Hps]].
    + specialize (K3 (p, s) Hps (P0, S') (or_introl eq_refl)).
      change (RuleGraph.eqb P0 p = false) in K3. rewrite rulegraph_eqb_sym in K3. congruence.
    + split; [reflexivity|]. split; [reflexivity|].
      destruct (In2 m Hm) as [[<-|[]]|Hl]; [now left|now right].
    + specialize (A2 (p, s) Hps). change (RuleGraph.eqb p P0 = false) in A2. congruence.
Qed.

End OrbitFacts.


(** * Properties of the lattice nodes *)

Section LatticeNodeFacts.
Import PyData Mod.
Context {O : Oracle}.

Lemma coverage_eqb_refl a : LatticeNode.coverage_eqb a a = true.
Proof. induction a as [|x a IH]; simpl; [reflexivity|]. now rewrite transition_eqb_refl. Qed.

Lemma coverage_eqb_trans a : forall b c,
  LatticeNode.coverage_eqb a b = true -> LatticeNode.coverage_eqb b c = true ->
  LatticeNode.coverage_eqb a c = true.
Proof.
  induction a as [|x a IH]; intros [|y b] [|z c]; simpl; try congruence.
  rewrite !andb_true_iff. intros [E1 H1] [E2 H2]. split.
  - eapply transition_eqb_trans; eauto.
  - eapply IH; eauto.
Qed.

(** Reading [coverage] changes no later reading of it. *)
Lemma coverage_read_coverage n :
  LatticeNode.coverage (LatticeNode.coverage_read n) = LatticeNode.coverage n.
Proof.
  destruct n as [e p c s]. unfold LatticeNode.coverage_read, LatticeNode.coverage. simpl.
  destruct c as [[|x c]|]; simpl; try reflexivity;
    now destruct (LatticeNode.sorted_transitions _).
Qed.

Lemma coverage_read_twice n :
  LatticeNode.coverage_read (LatticeNode.coverage_read n) = LatticeNode.coverage_read n.
Proof.
  unfold LatticeNode.coverage_read at 1. rewrite coverage_read_coverage.
  now destruct n.
Qed.

Lemma coverage_with_successors n s :
  LatticeNode.coverage (LatticeNode.mk (LatticeNode._embeddings n) (LatticeNode._pattern n)
                                       (LatticeNode._coverage n) s)
  = LatticeNode.coverage n.
Proof. now destruct n. Qed.

Lemma coverage_of_collected n (children : list LatticeNode.t) s :
  LatticeNode.coverage
    (LatticeNode.mk (LatticeNode._embeddings n) (LatticeNode._pattern n)
       (match children with
        | [] => LatticeNode._coverage n
        | _ :: _ => Some (LatticeNode.coverage n)
        end) s)
  = LatticeNode.coverage n.
Proof.
  destruct children.
  - apply coverage_with_successors.
  - rewrite <- (coverage_read_coverage n) at 2.
    now rewrite <- (coverage_with_successors (LatticeNode.coverage_read n) s).
Qed.

(** What the loop over the children returns: the result of descending into
    a child with the coverage of [self], or [self] with the remaining
    children as cached successors. *)
Lemma scan_children_cases recurse children : forall self acc X,
  LatticeNode.scan_children recurse self children acc = Some X ->
  (exists c, In c children
             /\ LatticeNode.coverage_eqb (LatticeNode.coverage c) (LatticeNode.coverage self) = true
             /\ recurse (LatticeNode.coverage_read c) = Some X)
  \/ ((forall c, In c children ->
         LatticeNode.coverage_eqb (LatticeNode.coverage c) (LatticeNode.coverage self) = false)
      /\ X = LatticeNode.mk (LatticeNode._embeddings self) (LatticeNode._pattern self)
               (match children with
                | [] => LatticeNode._coverage self
                | _ :: _ => Some (LatticeNode.coverage self)
                end)
               (Some (acc ++ map LatticeNode.coverage_read children))).
Proof.
  induction children as [|child rest IH]; simpl; intros self acc X H.
  - right. split; [tauto|]. injection H as <-. now rewrite app_nil_r.
  - destruct (LatticeNode.coverage_eqb (LatticeNode.coverage child) (LatticeNode.coverage self))
      eqn:E.
    + left. exists child. auto.
    + destruct (IH _ _ _ H) as [(c & Hc & Ec & Hr)|[Hall ->]].
      * left. exists c. rewrite coverage_read_coverage in Ec. auto.
      * right. split.
        -- intros c [<-|Hc]; [exact E|].
           specialize (Hall c Hc). now rewrite coverage_read_coverage in Hall.
        -- rewrite <- app_assoc. simpl. f_equal.
           destruct rest; simpl; [reflexivity|now rewrite coverage_read_coverage].
Qed.

(** The loop over the children as one case distinction: on the first child
    with the coverage of [self] the loop hands over to [recurse]; without
    such a child it returns [self] with all children cached. *)
Lemma scan_children_find recurse children : forall self acc,
  LatticeNode.scan_children recurse self children acc
  = match find (fun c => LatticeNode.coverage_eqb (LatticeNode.coverage c)
                                                  (LatticeNode.coverage self)) children with
    | Some c => recurse (LatticeNode.coverage_read c)
    | None =>
        Some (LatticeNode.mk (LatticeNode._embeddings self) (LatticeNode._pattern self)
                (match children with
                 | [] => LatticeNode._coverage self
                 | _ :: _ => Some (LatticeNode.coverage self)
                 end)
                (Some (acc ++ map LatticeNode.coverage_read children)))
    end.
Proof.
  induction children as [|child rest IH]; simpl; intros self acc.
  - now rewrite app_nil_r.
  - destruct (LatticeNode.coverage_eqb (LatticeNode.coverage child) (LatticeNode.coverage self));
      [reflexivity|].
    rewrite IH, coverage_read_coverage.
    destruct (find _ rest); [reflexivity|].
    rewrite <- app_assoc. destruct rest; reflexivity.
Qed.

Lemma find_first {A} (f : A -> bool) before c after :
  (forall x, In x before -> f x = false) -> f c = true ->
  find f (before ++ c :: after) = Some c.
Proof.
  intros Hb Hc. induction before as [|x before IH]; simpl; [now rewrite Hc|].
  rewrite (Hb x (or_introl eq_refl)). apply IH. intros y Hy. apply Hb. now right.
Qed.

Lemma find_none_all {A} (f : A -> bool) l :
  (forall x, In x l -> f x = false) -> find f l = None.
Proof.
  intros H. induction l as [|x l IH]; simpl; [reflexivity|].
  rewrite (H x (or_introl eq_refl)). apply IH. intros y Hy. apply H. now right.
Qed.

End LatticeNodeFacts.


Section LatticeNodeFixedPoint.
Import PyData Mod.
Context {O : Oracle}.

(** The recursion bound does not change a result: a run that returns
    within [fuel] returns the same node within any larger bound. *)
Lemma scan_children_monotone (recurse recurse' : LatticeNode.t -> option LatticeNode.t) :
  (forall n x, recurse n = Some x -> recurse' n = Some x) ->
  forall children self acc X,
    LatticeNode.scan_children recurse self children acc = Some X ->
    LatticeNode.scan_children recurse' self children acc = Some X.
Proof.
  intros Hrec. induction children as [|child rest IH]; simpl; intros self acc X H.
  - exact H.
  - destruct (LatticeNode.coverage_eqb _ _); [now apply Hrec|now apply IH].
Qed.

Lemma maximum_common_subrule_fuel_step fuel : forall N X,
  LatticeNode.get_maximum_common_subrule fuel N = Some X ->
  LatticeNode.get_maximum_common_subrule (S fuel) N = Some X.
Proof.
  induction fuel as [|fuel IH]; intros N X H; [discriminate|].
  cbn [LatticeNode.get_maximum_common_subrule] in H |- *.
  destruct (LatticeNode._successors N) as [[|c cs]|]; try exact H;
    (destruct (LatticeNode.successors N) as [children|]; [|discriminate];
     cbn [bind] in H |- *; revert H; apply scan_children_monotone; exact IH).
Qed.

Lemma maximum_common_subrule_fuel_monotone fuel fuel' N X :
  fuel <= fuel' ->
  LatticeNode.get_maximum_common_subrule fuel N = Some X ->
  LatticeNode.get_maximum_common_subrule fuel' N = Some X.
Proof.
  induction 1 as [|fuel' _ IH]; intros H; [exact H|].
  now apply maximum_common_subrule_fuel_step, IH.
Qed.


(** The fresh successors are computed from the embeddings alone. *)
Lemma fresh_successors_embeddings a b :
  LatticeNode._embeddings a = LatticeNode._embeddings b ->
  LatticeNode.fresh_successors a = LatticeNode.fresh_successors b.
Proof. unfold LatticeNode.fresh_successors. now intros ->. Qed.

Lemma successors_uncached e p c :
  LatticeNode.successors (LatticeNode.mk e p c (Some []))
  = LatticeNode.successors (LatticeNode.mk e p c None).
Proof. reflexivity. Qed.

(** A node whose cache of successors is filled and not empty is returned
    as it is. *)
Lemma cached_node_fixed fuel e p c x xs :
  LatticeNode.get_maximum_common_subrule (S fuel) (LatticeNode.mk e p c (Some (x :: xs)))
  = Some (LatticeNode.mk e p c (Some (x :: xs))).
Proof. reflexivity. Qed.

(** A node without successors is returned as it is: the empty cache is
    computed again, to the same empty list. *)
Lemma childless_node_fixed fuel e p c :
  LatticeNode.successors (LatticeNode.mk e p c (Some [])) = Some [] ->
  LatticeNode.get_maximum_common_subrule (S fuel) (LatticeNode.mk e p c (Some []))
  = Some (LatticeNode.mk e p c (Some [])).
Proof.
  intros H. cbn -[LatticeNode.successors]. rewrite H. reflexivity.
Qed.

(** C8: [get_maximum_common_subrule()] called on the node that
    [N.get_maximum_common_subrule()] returned returns that node, unchanged
    (same embeddings, pattern and caches), whatever the recursion depth
    allowed. *)
Theorem maximum_common_subrule_idempotent (fuel : nat) (N X : LatticeNode.t) :
  LatticeNode.get_maximum_common_subrule fuel N = Some X ->
  forall fuel', LatticeNode.get_maximum_common_subrule (S fuel') X = Some X.
Proof.
  revert N X. induction fuel as [|fuel IH]; intros N X H fuel'; [discriminate|].
  simpl in H.
  assert (Hscan : forall children,
            (LatticeNode._successors N = None \/ LatticeNode._successors N = Some []) ->
            LatticeNode.successors N = Some children ->
            LatticeNode.scan_children (LatticeNode.get_maximum_common_subrule fuel)
              N children [] = Some X ->
            LatticeNode.get_maximum_common_subrule (S fuel') X = Some X).
  { intros children Hcache Hsucc Hs.
    destruct (scan_children_cases _ _ _ _ _ Hs) as [(c & Hc & Ec & Hr)|[_ ->]].
    - now apply (IH _ _ Hr).
    - destruct children as [|c cs]; [|reflexivity].
      destruct N as [e p cv s]. simpl in Hcache.
      apply childless_node_fixed.
      destruct Hcache as [E|E]; rewrite E in Hsucc; exact Hsucc. }
  destruct (LatticeNode._successors N) as [[|c cs]|] eqn:Es.
  - destruct (LatticeNode.successors N) as [children|] eqn:Hsucc; [|discriminate].
    simpl in H. apply (Hscan children); auto.
  - injection H as <-. destruct N as [e p cv s]. simpl in Es. subst s. reflexivity.
  - destruct (LatticeNode.successors N) as [children|] eqn:Hsucc; [|discriminate].
    simpl in H. apply (Hscan children); auto.
Qed.

Lemma distinct_patterns_covers more : forall seen p,
  existsb (RuleGraph.eqb p) seen = true \/ In p more ->
  existsb (RuleGraph.eqb p) (LatticeNode.distinct_patterns seen more) = true.
Proof.
  induction more as [|x more IH]; simpl; intros seen p H.
  - destruct H as [H|[]]. exact H.
  - destruct (existsb (RuleGraph.eqb x) seen) eqn:E.
    + apply IH. destruct H as [H|[<-|H]]; auto.
    + apply IH. rewrite existsb_app. destruct H as [H|[<-|H]]; auto.
      * left. now rewrite H.
      * left. simpl. now rewrite rulegraph_eqb_refl, orb_true_r.
Qed.

(** Two patterns that are not [==] among the embeddings leave the pattern
    of the node undefined. *)
Lemma mixed_node_pattern es e1 e2 :
  In e1 es -> In e2 es ->
  RuleGraph.eqb (Embedding.pattern e1) (Embedding.pattern e2) = false ->
  LatticeNode.pattern (LatticeNode.init es) = None.
Proof.
  intros H1 H2 Hne. unfold LatticeNode.init, LatticeNode.pattern. simpl.
  pose proof (distinct_patterns_covers (map Embedding.pattern es) []
                (Embedding.pattern e1) (or_intror (in_map _ _ _ H1))) as C1.
  pose proof (distinct_patterns_covers (map Embedding.pattern es) []
                (Embedding.pattern e2) (or_intror (in_map _ _ _ H2))) as C2.
  destruct (LatticeNode.distinct_patterns [] (map Embedding.pattern es)) as [|p [|q l]];
    try reflexivity.
  simpl in C1, C2. rewrite orb_false_r in C1, C2.
  rewrite rulegraph_eqb_sym in C2.
  now rewrite (rulegraph_eqb_trans _ _ _ C1 C2) in Hne.
Qed.

(** C10: two nodes whose embeddings each show two different patterns have
    an undefined pattern, compare equal and have the same hash, whatever
    their embeddings; in general [==] and [hash] of two nodes are decided by
    their patterns alone. *)
Theorem mixed_nodes_equal (es1 es2 : list Embedding.t) (a1 b1 a2 b2 : Embedding.t)
    (hash_str : string -> Z) (hash_None : Z) :
  In a1 es1 -> In b1 es1 ->
  RuleGraph.eqb (Embedding.pattern a1) (Embedding.pattern b1) = false ->
  In a2 es2 -> In b2 es2 ->
  RuleGraph.eqb (Embedding.pattern a2) (Embedding.pattern b2) = false ->
  LatticeNode.pattern (LatticeNode.init es1) = None
  /\ LatticeNode.pattern (LatticeNode.init es2) = None
  /\ LatticeNode.eq (LatticeNode.init es1) (LatticeNode.init es2) = Some true
  /\ LatticeNode.hash hash_str hash_None (LatticeNode.init es1)
     = LatticeNode.hash hash_str hash_None (LatticeNode.init es2)
  /\ (forall n n' m m' : LatticeNode.t,
        LatticeNode.pattern n = LatticeNode.pattern n' ->
        LatticeNode.pattern m = LatticeNode.pattern m' ->
        LatticeNode.eq n m = LatticeNode.eq n' m'
        /\ LatticeNode.hash hash_str hash_None n = LatticeNode.hash hash_str hash_None n').
Proof.
  intros Ha1 Hb1 N1 Ha2 Hb2 N2.
  pose proof (mixed_node_pattern es1 a1 b1 Ha1 Hb1 N1) as P1.
  pose proof (mixed_node_pattern es2 a2 b2 Ha2 Hb2 N2) as P2.
  unfold LatticeNode.pattern in *.
  split; [exact P1|]. split; [exact P2|]. split; [|split].
  - unfold LatticeNode.eq. now rewrite P1, P2.
  - unfold LatticeNode.hash. now rewrite P1, P2.
  - intros n n' m m' En Em. unfold LatticeNode.eq, LatticeNode.hash.
    now rewrite En, Em.
Qed.

End LatticeNodeFixedPoint.

Section MaximumCommonSubrule.
Import PyData Mod.
Context {O : Oracle}.

(** C1, as the code has it: a node that [N.get_maximum_common_subrule()]
    returns has the coverage of [N] (as tuples are compared, element by
    element with [==]), whether the pattern of [N] is defined or not.  A
    node with a non-empty cache of successors is returned at once.  On any
    other node the call goes through the successors in order: when none of
    them has the coverage of [N] it returns [N] itself, with the successors
    cached; else it returns what the call on the first successor with the
    coverage of [N] returns, and nothing if that call returns nothing.  A
    larger recursion bound changes no result. *)
Theorem maximum_common_subrule_keeps_coverage (N : LatticeNode.t) :
  (forall fuel X,
      LatticeNode.get_maximum_common_subrule fuel N = Some X ->
      LatticeNode.coverage_eqb (LatticeNode.coverage X) (LatticeNode.coverage N) = true)
  /\ (forall fuel c cs,
        LatticeNode._successors N = Some (c :: cs) ->
        LatticeNode.get_maximum_common_subrule (S fuel) N = Some N)
  /\ (forall fuel children,
        LatticeNode._successors N = None \/ LatticeNode._successors N = Some [] ->
        LatticeNode.successors N = Some children ->
        (forall c, In c children ->
           LatticeNode.coverage_eqb (LatticeNode.coverage c) (LatticeNode.coverage N) = false) ->
        LatticeNode.get_maximum_common_subrule (S fuel) N
        = Some (LatticeNode.mk (LatticeNode._embeddings N) (LatticeNode._pattern N)
                  (match children with
                   | [] => LatticeNode._coverage N
                   | _ :: _ => Some (LatticeNode.coverage N)
                   end)
                  (Some (map LatticeNode.coverage_read children))))
  /\ (forall fuel before c after,
        LatticeNode._successors N = None \/ LatticeNode._successors N = Some [] ->
        LatticeNode.successors N = Some (before ++ c :: after) ->
        (forall c', In c' before ->
           LatticeNode.coverage_eqb (LatticeNode.coverage c') (LatticeNode.coverage N) = false) ->
        LatticeNode.coverage_eqb (LatticeNode.coverage c) (LatticeNode.coverage N) = true ->
        LatticeNode.get_maximum_common_subrule (S fuel) N
        = LatticeNode.get_maximum_common_subrule fuel (LatticeNode.coverage_read c))
  /\ (forall fuel fuel' X,
        fuel <= fuel' ->
        LatticeNode.get_maximum_common_subrule fuel N = Some X ->
        LatticeNode.get_maximum_common_subrule fuel' N = Some X).
Proof.
  assert (Hstep : forall fuel children,
            LatticeNode._successors N = None \/ LatticeNode._successors N = Some [] ->
            LatticeNode.successors N = Some children ->
            LatticeNode.get_maximum_common_subrule (S fuel) N
            = LatticeNode.scan_children (LatticeNode.get_maximum_common_subrule fuel)
                N children []).
  { intros fuel children Hcache Hsucc. cbn [LatticeNode.get_maximum_common_subrule].
    destruct Hcache as [E|E]; rewrite E, Hsucc; reflexivity. }
  split; [|split; [|split; [|split]]].
  - clear Hstep. intros fuel. revert N.
    induction fuel as [|fuel IH]; intros N X H; [discriminate|].
    cbn [LatticeNode.get_maximum_common_subrule] in H.
    assert (Hscan : forall children,
              LatticeNode.scan_children (LatticeNode.get_maximum_common_subrule fuel)
                N children [] = Some X ->
              LatticeNode.coverage_eqb (LatticeNode.coverage X) (LatticeNode.coverage N) = true).
    { intros children Hs.
      destruct (scan_children_cases _ _ _ _ _ Hs) as [(c & Hc & Ec & Hr)|[_ ->]].
      - apply IH in Hr. rewrite coverage_read_coverage in Hr.
        eapply coverage_eqb_trans; eauto.
      - rewrite coverage_of_collected. apply coverage_eqb_refl. }
    destruct (LatticeNode._successors N) as [[|c cs]|] eqn:Es.
    + destruct (LatticeNode.successors N); [|discriminate]. simpl in H. eauto.
    + injection H as <-. apply coverage_eqb_refl.
    + destruct (LatticeNode.successors N); [|discriminate]. simpl in H. eauto.
  - intros fuel c cs E. cbn [LatticeNode.get_maximum_common_subrule]. now rewrite E.
  - intros fuel children Hcache Hsucc Hall.
    rewrite (Hstep fuel children Hcache Hsucc), scan_children_find.
    now rewrite (find_none_all _ _ Hall).
  - intros fuel before c after Hcache Hsucc Hbefore Hc.
    rewrite (Hstep fuel _ Hcache Hsucc), scan_children_find.
    now rewrite (find_first _ before c after Hbefore Hc).
  - intros fuel fuel'. apply maximum_common_subrule_fuel_monotone.
Qed.

End MaximumCommonSubrule.

Section EndlessDescent.
Import PyData Mod Examples.
#[local] Existing Instance Exhaustive.oracle.

(** The only successor of a node of the wildcard vertex on the wildcard host
    is the node of the same pattern under a longer name. *)
Lemma loop_successors name cache :
  LatticeNode.successors (loop_node name cache)
  = Some [LatticeNode.init [loop_embedding (name ++ "_L0")]].
Proof. vm_compute. reflexivity. Qed.

Lemma loop_coverage name cache :
  cache = None \/ cache = Some [loop_host] ->
  LatticeNode.coverage (loop_node name cache) = [loop_host].
Proof. intros [-> | ->]; reflexivity. Qed.

Lemma loop_step fuel name cache :
  cache = None \/ cache = Some [loop_host] ->
  LatticeNode.get_maximum_common_subrule (S fuel) (loop_node name cache)
  = LatticeNode.get_maximum_common_subrule fuel (loop_node (name ++ "_L0") (Some [loop_host])).
Proof.
  intros Hc. cbn [LatticeNode.get_maximum_common_subrule].
  change (LatticeNode._successors (loop_node name cache)) with (@None (list LatticeNode.t)).
  rewrite loop_successors. cbn [bind LatticeNode.scan_children].
  rewrite (loop_coverage name cache Hc).
  change (LatticeNode.coverage (LatticeNode.init [loop_embedding (name ++ "_L0")]))
    with [loop_host].
  change (LatticeNode.coverage_eqb [loop_host] [loop_host]) with true.
  reflexivity.
Qed.

Lemma loop_forever fuel : forall name cache,
  cache = None \/ cache = Some [loop_host] ->
  LatticeNode.get_maximum_common_subrule fuel (loop_node name cache) = None.
Proof.
  induction fuel as [|fuel IH]; intros name cache Hc; [reflexivity|].
  rewrite (loop_step fuel name cache Hc). apply IH. now right.
Qed.

(** C1, the counterexample: the node of the one-vertex wildcard pattern
    embedded in a host vertex that is itself labelled with the wildcard has a
    defined pattern; its only successor is a node equal to it (the label of
    the host is the wildcard again), with the same coverage; every node
    reached in this way is of the same kind; and the call returns within no
    recursion bound. *)
Lemma maximum_common_subrule_descends_forever :
  LatticeNode.init [loop_embedding "p"] = loop_node "p" None
  /\ LatticeNode.pattern (loop_node "p" None) <> None
  /\ (forall name cache,
        cache = None \/ cache = Some [loop_host] ->
        exists child,
          LatticeNode.successors (loop_node name cache) = Some [child]
          /\ LatticeNode.eq child (loop_node name cache) = Some true
          /\ LatticeNode.coverage_eqb (LatticeNode.coverage child)
                                      (LatticeNode.coverage (loop_node name cache)) = true
          /\ LatticeNode.coverage_read child = loop_node (name ++ "_L0") (Some [loop_host]))
  /\ forall fuel, LatticeNode.get_maximum_common_subrule fuel (loop_node "p" None) = None.
Proof.
  split; [reflexivity|]. split; [discriminate|]. split.
  - intros name cache Hc. eexists. split; [apply loop_successors|].
    rewrite (loop_coverage name cache Hc). repeat split.
  - intros fuel. apply loop_forever. now left.
Qed.

End EndlessDescent.

(** * Properties of the rule lattice *)

Section RuleLatticeFacts.
Import PyData Mod.
Context {O : Oracle}.

Lemma same_key_refl a : RuleLattice.same_key a a = true.
Proof.
  unfold RuleLattice.same_key, LatticeNode.eq.
  destruct (LatticeNode._pattern a); [apply rulegraph_eqb_refl|reflexivity].
Qed.

Lemma same_key_sym a b : RuleLattice.same_key a b = RuleLattice.same_key b a.
Proof.
  unfold RuleLattice.same_key, LatticeNode.eq.
  destruct (LatticeNode._pattern a), (LatticeNode._pattern b); try reflexivity.
  apply rulegraph_eqb_sym.
Qed.

Lemma same_key_trans a b c :
  RuleLattice.same_key a b = true -> RuleLattice.same_key b c = true ->
  RuleLattice.same_key a c = true.
Proof.
  unfold RuleLattice.same_key, LatticeNode.eq.
  destruct (LatticeNode._pattern a), (LatticeNode._pattern b), (LatticeNode._pattern c);
    try congruence.
  apply rulegraph_eqb_trans.
Qed.

Lemma same_key_rewrite a b c :
  RuleLattice.same_key a b = true -> RuleLattice.same_key a c = RuleLattice.same_key b c.
Proof.
  intros H. destruct (RuleLattice.same_key b c) eqn:E.
  - eapply same_key_trans; eauto.
  - destruct (RuleLattice.same_key a c) eqn:E'; [|reflexivity].
    rewrite same_key_sym in H. now rewrite (same_key_trans _ _ _ H E') in E.
Qed.

Lemma lookup_same_key {V} (d : list (LatticeNode.t * V)) k k' :
  RuleLattice.same_key k k' = true -> RuleLattice.lookup d k = RuleLattice.lookup d k'.
Proof.
  intros H. induction d as [|[q v] d IH]; simpl; [reflexivity|].
  rewrite (same_key_sym q k), (same_key_sym q k'), (same_key_rewrite _ _ _ H).
  now rewrite IH.
Qed.

Lemma lookup_store {V} (d : list (LatticeNode.t * V)) k v k' :
  RuleLattice.lookup (RuleLattice.store d k v) k'
  = if RuleLattice.same_key k k' then Some v else RuleLattice.lookup d k'.
Proof.
  induction d as [|[q w] d IH]; simpl; [reflexivity|].
  destruct (RuleLattice.same_key q k) eqn:E; simpl.
  - rewrite (same_key_rewrite _ _ _ E). now destruct (RuleLattice.same_key k k').
  - rewrite IH. destruct (RuleLattice.same_key q k') eqn:E'; [|reflexivity].
    destruct (RuleLattice.same_key k k') eqn:E''; [|reflexivity].
    rewrite same_key_sym in E''. now rewrite (same_key_trans _ _ _ E' E'') in E.
Qed.

Lemma member_set_add s n m :
  RuleLattice.member m (RuleLattice.set_add s n)
  = RuleLattice.member m s || RuleLattice.same_key m n.
Proof.
  unfold RuleLattice.set_add. destruct (RuleLattice.member n s) eqn:E.
  - destruct (RuleLattice.same_key m n) eqn:E'; [|now rewrite orb_false_r].
    rewrite orb_true_r. unfold RuleLattice.member in *.
    apply existsb_exists in E as (x & Hx & Ex). apply existsb_exists.
    exists x. split; [exact Hx|]. eapply same_key_trans; eauto.
  - unfold RuleLattice.member. rewrite existsb_app. simpl. now rewrite orb_false_r.
Qed.


Lemma has_key_lookup {V} (d : list (LatticeNode.t * V)) k :
  RuleLattice.has_key d k = true <-> exists v, RuleLattice.lookup d k = Some v.
Proof.
  unfold RuleLattice.has_key. destruct (RuleLattice.lookup d k).
  - split; eauto.
  - split; [discriminate|intros [? ?]; discriminate].
Qed.


End RuleLatticeFacts.


Section RuleLatticeInvariant.
Import PyData Mod.
Context {O : Oracle}.

Lemma lookup_none_not_same_key {V} (d : list (LatticeNode.t * V)) k k' v :
  RuleLattice.has_key d k = false -> RuleLattice.lookup d k' = Some v ->
  RuleLattice.same_key k k' = false.
Proof.
  intros Hk Hl. destruct (RuleLattice.same_key k k') eqn:E; [|reflexivity].
  unfold RuleLattice.has_key in Hk. rewrite (lookup_same_key d k k' E), Hl in Hk.
  discriminate.
Qed.





(** The driver stays within the built lattices. *)
Lemma add_children_built fuel children active : forall L log L',
  built L log -> RuleLattice.add_children fuel L children active = Some L' ->
  exists log', built L' log'.
Proof.
  induction children as [|child rest IH]; simpl; intros L log L' HB H.
  - injection H as <-. eauto.
  - destruct (RuleLattice._add_node fuel L child active) as [[L1 r]|] eqn:E; [|discriminate].
    simpl in H. eapply IH; [|exact H]. eapply built_add; eauto.
Qed.

Lemma resolve_node_built fuel L log L' :
  built L log -> RuleLattice.resolve_node fuel L = Some L' -> exists log', built L' log'.
Proof.
  intros HB. unfold RuleLattice.resolve_node.
  destruct (RuleLattice.active_node L) as [active|].
  - destruct (LatticeNode.successors active) as [children|]; [|discriminate]. simpl.
    apply add_children_built with (log := log). now apply built_pop.
  - intros [= <-]. exists log. now apply built_pop.
Qed.

Lemma resolve_all_built rounds fuel : forall L log L',
  built L log -> RuleLattice.resolve_all rounds fuel L = Some L' -> exists log', built L' log'.
Proof.
  induction rounds as [|rounds IH]; simpl; intros L log L' HB H.
  - destruct (RuleLattice.active_node L); [discriminate|]. injection H as <-. eauto.
  - destruct (RuleLattice.active_node L).
    + destruct (RuleLattice.resolve_node fuel L) as [L1|] eqn:E; [|discriminate].
      simpl in H. destruct (resolve_node_built _ _ _ _ HB E) as [log1 HB1]. eauto.
    + injection H as <-. eauto.
Qed.

Lemma build_minimal_rule_lattice_built rounds fuel reference spurious L :
  RuleLattice.build_minimal_rule_lattice rounds fuel reference spurious = Some L ->
  exists log, built L log.
Proof.
  unfold RuleLattice.build_minimal_rule_lattice.
  destruct (mapM _ reference); [|discriminate]. simpl.
  destruct (LatticeNode.get_maximum_common_subrule fuel _) as [root|]; [|discriminate]. simpl.
  destruct (RuleLattice.embeddable _ spurious) as [sp|]; [|discriminate]. simpl.
  apply resolve_all_built with (log := []). constructor.
Qed.

Lemma embeddable_filter pattern_ d d' :
  RuleLattice.embeddable pattern_ d = Some d' ->
  incl d' d
  /\ forall p, pattern_ = Some p ->
               d' = filter (fun transition => Transition.can_embed transition p) d.
Proof.
  destruct pattern_ as [q|]; simpl.
  - intros [= <-]. split; [|now intros p [= <-]].
    intros t Ht. now apply filter_In in Ht.
  - destruct d; [|discriminate]. intros [= <-]. split; [intros t []|discriminate].
Qed.


End RuleLatticeInvariant.

Section SharedChild.
Import PyData Mod Examples.
#[local] Existing Instance Exhaustive.oracle.


End SharedChild.

(** * Properties of the rule builder and of the minimal subrule *)

Section BuilderFacts.
Import PyData.
Import RuleBuilder.

Lemma element_eqb_eq x y : element_eqb x y = true <-> x = y.
Proof.
  destruct x as [a|a b], y as [c|c d]; simpl; try (split; congruence).
  - rewrite Nat.eqb_eq. split; congruence.
  - rewrite andb_true_iff, !Nat.eqb_eq. split; [intros [-> ->]|intros [= -> ->]]; auto.
Qed.

Lemma element_eqb_refl x : element_eqb x x = true.
Proof. now apply element_eqb_eq. Qed.

Lemma element_eqb_neq x y : element_eqb x y = false <-> x <> y.
Proof.
  rewrite <- element_eqb_eq. destruct (element_eqb x y); split; congruence.
Qed.

Lemma find_label_add s e l x :
  find_label (add_element s e l) x = if element_eqb e x then Some l else find_label s x.
Proof.
  induction s as [|[y old] s IH]; simpl; [reflexivity|].
  destruct (element_eqb y e) eqn:E; simpl.
  - apply element_eqb_eq in E. subst y. now destruct (element_eqb e x).
  - rewrite IH. destruct (element_eqb y x) eqn:E1, (element_eqb e x) eqn:E2; try reflexivity.
    apply element_eqb_eq in E1, E2. subst. now rewrite element_eqb_refl in E.
Qed.

Lemma find_label_remove s e x :
  find_label (remove_element s e) x = if element_eqb e x then None else find_label s x.
Proof.
  induction s as [|[y old] s IH]; simpl; [now destruct (element_eqb e x)|].
  destruct (element_eqb y e) eqn:E; simpl.
  - rewrite IH. apply element_eqb_eq in E. subst y. now destruct (element_eqb e x).
  - rewrite IH. destruct (element_eqb y x) eqn:E1, (element_eqb e x) eqn:E2; try reflexivity.
    apply element_eqb_eq in E1, E2. subst. now rewrite element_eqb_refl in E.
Qed.

Lemma has_add s e l x : has_element (add_element s e l) x = element_eqb e x || has_element s x.
Proof. unfold has_element. rewrite find_label_add. now destruct (element_eqb e x). Qed.

Lemma has_remove s e x :
  has_element (remove_element s e) x = negb (element_eqb e x) && has_element s x.
Proof. unfold has_element. rewrite find_label_remove. now destruct (element_eqb e x). Qed.

Lemma has_find s e l : find_label s e = Some l -> has_element s e = true.
Proof. unfold has_element. now intros ->. Qed.

Lemma has_eqb s e x : element_eqb e x = true -> has_element s e = has_element s x.
Proof. intros E. apply element_eqb_eq in E. now subst. Qed.

(** [_add_side_element] makes its element present and changes the presence
    of no other element. *)
Lemma add_side_element_present e l c s o x :
  let '(c', s', o') := _add_side_element e l c s o in
  has_element c' x || has_element s' x || has_element o' x
  = element_eqb e x || (has_element c x || has_element s x || has_element o x).
Proof.
  unfold _add_side_element.
  destruct (find_label c e) as [cl|] eqn:Ec.
  - destruct (String.eqb cl l).
    + destruct (element_eqb e x) eqn:E; [|reflexivity].
      now rewrite <- (has_eqb c e x E), (has_find _ _ _ Ec).
    + rewrite has_remove, !has_add.
      destruct (element_eqb e x), (has_element c x), (has_element s x), (has_element o x);
        reflexivity.
  - destruct (find_label o e) as [ol|] eqn:Eo.
    + destruct (String.eqb ol l).
      * rewrite has_add, has_remove.
        assert (Hs : has_element (if has_element s e then remove_element s e else s) x
                     = negb (element_eqb e x) && has_element s x).
        { destruct (has_element s e) eqn:Hse; [apply has_remove|].
          destruct (element_eqb e x) eqn:E; [|reflexivity].
          now rewrite <- (has_eqb s e x E), Hse. }
        rewrite Hs.
        destruct (element_eqb e x), (has_element c x), (has_element s x), (has_element o x);
          reflexivity.
      * rewrite has_add.
        destruct (element_eqb e x), (has_element c x), (has_element s x), (has_element o x);
          reflexivity.
    + rewrite has_add.
      destruct (element_eqb e x), (has_element c x), (has_element s x), (has_element o x);
        reflexivity.
Qed.

Lemma present_add_left_element b e l x :
  present (_add_left_element b e l) x = element_eqb e x || present b x.
Proof.
  unfold _add_left_element, present.
  pose proof (add_side_element_present e l (_context b) (_left b) (_right b) x) as H.
  destruct (_add_side_element e l (_context b) (_left b) (_right b)) as [[c' s'] o'].
  simpl. rewrite <- (orb_comm (has_element c' x)), H.
  destruct (element_eqb e x), (has_element (_context b) x), (has_element (_left b) x);
    reflexivity.
Qed.

Lemma present_add_right_element b e l x :
  present (_add_right_element b e l) x = element_eqb e x || present b x.
Proof.
  unfold _add_right_element, present.
  pose proof (add_side_element_present e l (_context b) (_right b) (_left b) x) as H.
  destruct (_add_side_element e l (_context b) (_right b) (_left b)) as [[c' s'] o'].
  simpl.
  assert (E : has_element o' x || has_element c' x || has_element s' x
              = has_element c' x || has_element s' x || has_element o' x)
    by (destruct (has_element o' x), (has_element c' x), (has_element s' x); reflexivity).
  rewrite E, H.
  destruct (element_eqb e x), (has_element (_context b) x), (has_element (_left b) x),
    (has_element (_right b) x); reflexivity.
Qed.

Lemma present_add_context_element b e l x :
  present (_add_context_element b e l) x = element_eqb e x || present b x.
Proof.
  unfold _add_context_element, present. simpl.
  assert (H : forall s, has_element (if has_element s e then remove_element s e else s) x
                        = negb (element_eqb e x) && has_element s x).
  { intros s. destruct (has_element s e) eqn:Hse; [apply has_remove|].
    destruct (element_eqb e x) eqn:E; [|reflexivity].
    now rewrite <- (has_eqb s e x E), Hse. }
  rewrite !H, has_add.
  destruct (element_eqb e x), (has_element (_context b) x), (has_element (_left b) x),
    (has_element (_right b) x); reflexivity.
Qed.

Lemma add_edge_vertices_steps a b target alternatives :
  _add_edge_vertices (Edge a b) target alternatives
  = edge_vertex_step alternatives (edge_vertex_step alternatives target a) b.
Proof. reflexivity. Qed.

Lemma edge_vertex_step_has alternatives tg v y :
  has_element (edge_vertex_step alternatives tg v) y = true ->
  has_element tg y = true \/ y = Node v.
Proof.
  unfold edge_vertex_step. destruct (negb (has_element tg (Node v)) && _); [|tauto].
  rewrite has_add. intros H. apply orb_true_iff in H as [H|H]; [|tauto].
  right. symmetry. now apply element_eqb_eq.
Qed.

Lemma edge_vertex_step_keeps alternatives tg v y :
  has_element tg y = true -> has_element (edge_vertex_step alternatives tg v) y = true.
Proof.
  intros H. unfold edge_vertex_step.
  destruct (negb (has_element tg (Node v)) && _); [|exact H].
  rewrite has_add, H. apply orb_true_r.
Qed.

(** Adding the end vertices of an edge to a side only adds end vertices. *)
Lemma has_add_edge_vertices a b target alternatives x :
  has_element (_add_edge_vertices (Edge a b) target alternatives) x = true ->
  has_element target x = true \/ x = Node a \/ x = Node b.
Proof.
  rewrite add_edge_vertices_steps. intros H.
  apply edge_vertex_step_has in H as [H|H]; [|tauto].
  apply edge_vertex_step_has in H as [H|H]; tauto.
Qed.

Lemma has_add_edge_vertices_keeps a b target alternatives x :
  has_element target x = true ->
  has_element (_add_edge_vertices (Edge a b) target alternatives) x = true.
Proof.
  rewrite add_edge_vertices_steps. intros H. now apply edge_vertex_step_keeps, edge_vertex_step_keeps.
Qed.

End BuilderFacts.


Section BuilderVertices.
Import PyData.
Import RuleBuilder.

Lemma mem_In n l : NX.mem n l = true <-> In n l.
Proof.
  unfold NX.mem. rewrite existsb_exists. split.
  - intros (x & Hx & E). apply Nat.eqb_eq in E. now subst.
  - intros H. exists n. split; [exact H|apply Nat.eqb_refl].
Qed.

Lemma union_in more : forall seen n, In n (union seen more) <-> In n seen \/ In n more.
Proof.
  induction more as [|m more IH]; simpl; intros seen n; [tauto|].
  destruct (NX.mem m seen) eqn:E.
  - rewrite IH. apply mem_In in E. split; [tauto|]. intros [H|[<-|H]]; tauto.
  - rewrite IH, in_app_iff. simpl. tauto.
Qed.

Lemma union_nodup more : forall seen, NoDup seen -> NoDup (union seen more).
Proof.
  induction more as [|m more IH]; simpl; intros seen H; [exact H|].
  destruct (NX.mem m seen) eqn:E; [now apply IH|].
  apply IH. apply NoDup_app; auto.
  - constructor; [intros []|constructor].
  - intros x Hx [<-|[]]. apply mem_In in Hx. congruence.
Qed.

Lemma side_vertices_in s n : In n (side_vertices s) <-> has_element s (Node n) = true.
Proof.
  unfold side_vertices, has_element. induction s as [|[x l] s IH]; simpl.
  - split; [tauto|discriminate].
  - rewrite in_app_iff, IH. destruct x as [m|a b]; simpl.
    + destruct (Nat.eqb_spec m n) as [->|N]; [tauto|].
      split; [intros [[E|[]]|H]; [congruence|exact H]|tauto].
    + tauto.
Qed.

Lemma vertices_in b n : In n (vertices b) <-> present b (Node n) = true.
Proof.
  unfold vertices, present. rewrite !union_in, !side_vertices_in, !orb_true_iff.
  simpl. tauto.
Qed.

Lemma vertices_nodup b : NoDup (vertices b).
Proof. unfold vertices. do 3 apply union_nodup. constructor. Qed.

(** A builder whose vertices are [0 .. k-1] has [k] vertices. *)
Lemma vertices_length b k :
  (forall n, present b (Node n) = true <-> n < k) -> List.length (vertices b) = k.
Proof.
  intros H. transitivity (List.length (seq 0 k)); [|apply length_seq].
  apply Permutation_length.
  apply NoDup_Permutation; [apply vertices_nodup|apply seq_NoDup|].
  intros n. rewrite vertices_in, H, in_seq. lia.
Qed.

Lemma present_add_left_vertex b i l x :
  present (add_left_vertex b i l) x = element_eqb (Node i) x || present b x.
Proof. apply present_add_left_element. Qed.

Lemma present_add_right_vertex b i l x :
  present (add_right_vertex b i l) x = element_eqb (Node i) x || present b x.
Proof. apply present_add_right_element. Qed.

Lemma present_add_context_vertex b i l x :
  present (add_context_vertex b i l) x = element_eqb (Node i) x || present b x.
Proof. apply present_add_context_element. Qed.

Lemma EdgeTuple_ends s t_ : exists a c, EdgeTuple s t_ = Edge a c
                                        /\ ((a = s /\ c = t_) \/ (a = t_ /\ c = s)).
Proof.
  unfold EdgeTuple. destruct (Nat.ltb t_ s); eauto 6.
Qed.

Lemma present_add_left_edge b s t_ l x :
  present b (Node s) = true -> present b (Node t_) = true ->
  (present (add_left_edge b s t_ l) x = true <-> x = EdgeTuple s t_ \/ present b x = true).
Proof.
  intros Hs Ht. unfold add_left_edge. rewrite present_add_left_element.
  rewrite orb_true_iff, element_eqb_eq.
  destruct (EdgeTuple_ends s t_) as (a & c & -> & Hends).
  assert (Ha : present b (Node a) = true) by (destruct Hends as [[-> ->]|[-> ->]]; auto).
  assert (Hc : present b (Node c) = true) by (destruct Hends as [[-> ->]|[-> ->]]; auto).
  unfold present at 1. simpl. rewrite !orb_true_iff.
  split; (intros [H|H]; [left; congruence|right]).
  - destruct H as [[H|H]|H]; [|unfold present; rewrite H; now rewrite ?orb_true_r
                              |unfold present; rewrite H; now rewrite ?orb_true_r].
    apply has_add_edge_vertices in H as [H|[->| ->]]; auto.
    unfold present. now rewrite H.
  - unfold present in H. rewrite !orb_true_iff in H.
    destruct H as [[H|H]|H]; auto. left. left. now apply has_add_edge_vertices_keeps.
Qed.

Lemma present_add_right_edge b s t_ l x :
  present b (Node s) = true -> present b (Node t_) = true ->
  (present (add_right_edge b s t_ l) x = true <-> x = EdgeTuple s t_ \/ present b x = true).
Proof.
  intros Hs Ht. unfold add_right_edge. rewrite present_add_right_element.
  rewrite orb_true_iff, element_eqb_eq.
  destruct (EdgeTuple_ends s t_) as (a & c & -> & Hends).
  assert (Ha : present b (Node a) = true) by (destruct Hends as [[-> ->]|[-> ->]]; auto).
  assert (Hc : present b (Node c) = true) by (destruct Hends as [[-> ->]|[-> ->]]; auto).
  unfold present at 1. simpl. rewrite !orb_true_iff.
  split; (intros [H|H]; [left; congruence|right]).
  - destruct H as [[H|H]|H]; [unfold present; rewrite H; now rewrite ?orb_true_r
                             |unfold present; rewrite H; now rewrite ?orb_true_r|].
    apply has_add_edge_vertices in H as [H|[->| ->]]; auto.
    unfold present. rewrite H. now rewrite ?orb_true_r.
  - unfold present in H. rewrite !orb_true_iff in H.
    destruct H as [[H|H]|H]; auto. right. now apply has_add_edge_vertices_keeps.
Qed.

End BuilderVertices.


Section MinimalSubruleLoops.
Import PyData Mod.
Import RuleBuilder.

Lemma map_ok_next b m : map_ok b m -> List.length (vertices b) = List.length m.
Proof. intros H. apply vertices_length, (ok_present _ _ H). Qed.

Lemma dict_get_none d k : dict_get d k = None <-> ~ In k (keys d).
Proof.
  induction d as [|[k' v] d IH]; simpl; [tauto|].
  destruct (Nat.eqb_spec k' k) as [->|N].
  - split; [discriminate|tauto].
  - rewrite IH. tauto.
Qed.

Lemma dict_get_bound b m v s : map_ok b m -> dict_get m v = Some s -> s < List.length m.
Proof.
  intros H Hg. assert (Hin : In s (map snd m)).
  { clear H. induction m as [|[k w] m IH]; simpl in *; [discriminate|].
    destruct (Nat.eqb k v); [injection Hg as <-; now left|right; auto]. }
  rewrite (ok_values _ _ H), in_seq in Hin. lia.
Qed.

(** Handing out the next id to a new key, for a builder that gains the
    vertex of that id. *)
Lemma map_ok_extend b b' m v :
  map_ok b m -> ~ In v (keys m) ->
  (forall n, present b' (Node n) = true <-> n = List.length m \/ present b (Node n) = true) ->
  map_ok b' (dict_set m v (List.length m))
  /\ keys (dict_set m v (List.length m)) = keys m ++ [v].
Proof.
  intros [Hv Hk Hp] Hfresh Hb'. rewrite (dict_set_fresh _ _ _ Hfresh).
  split; [|unfold keys; now rewrite map_app].
  split.
  - rewrite map_app, length_app. simpl. rewrite Nat.add_1_r, seq_S. simpl.
    f_equal. exact Hv.
  - unfold keys in *. rewrite map_app. simpl. apply NoDup_app; auto.
    + constructor; [intros []|constructor].
    + intros x Hx [<-|[]]. contradiction.
  - intros n. rewrite Hb', Hp, length_app. simpl. lia.
Qed.

Lemma map_ok_same_vertices b b' m :
  map_ok b m -> (forall n, present b' (Node n) = true <-> present b (Node n) = true) ->
  map_ok b' m.
Proof.
  intros [Hv Hk Hp] H. split; auto. intros n. now rewrite H.
Qed.

(** The halves [_split_label] returns are never empty strings. *)
Lemma split_label_halves label l r :
  Labels._split_label label = (l, r) ->
  (forall x, l = Some x -> PyStr.otruthy l = true)
  /\ (forall x, r = Some x -> PyStr.otruthy r = true).
Proof.
  unfold Labels._split_label.
  destruct (PyStr.split Labels.semicolon label) as [|l0 [|l1 ls]]; intros [= <- <-];
    (split; intros x;
     [try (destruct (PyStr.truthy l0) eqn:T; [simpl; intros _; exact T|discriminate]);
      discriminate
     |try (destruct (PyStr.truthy l1) eqn:T; [simpl; intros _; exact T|discriminate]);
      discriminate]).
Qed.

Lemma vertex_step_spec b m v :
  map_ok b m -> ~ In (vid v) (keys m) ->
  (RuleGraph.is_relabeled (RuleGraph.VertexElement v) = true -> nondegenerate (vlabel v)) ->
  let '(b', m') := RuleGraph.minimal_vertex_step (b, m) v in
  map_ok b' m'
  /\ keys m' = keys m ++ (if RuleGraph.is_relabeled (RuleGraph.VertexElement v)
                          then [vid v] else [])
  /\ (forall a c, present b' (Edge a c) = present b (Edge a c)).
Proof.
  intros Hok Hfresh Hnd. unfold RuleGraph.minimal_vertex_step.
  destruct (RuleGraph.is_relabeled (RuleGraph.VertexElement v)) eqn:Erel; cbn [negb];
    [|rewrite app_nil_r; auto].
  specialize (Hnd eq_refl). unfold nondegenerate in Hnd.
  unfold RuleGraph.split_element_label. cbn [RuleGraph.stringLabel].
  destruct (Labels._split_label (vlabel v)) as [left_label right_label] eqn:Esplit.
  rewrite (map_ok_next _ _ Hok).
  set (k := List.length m).
  set (b1 := if PyStr.otruthy left_label then add_left_vertex b k "*" else b).
  set (b2 := match right_label with
             | Some r => if PyStr.truthy r then add_right_vertex b1 k r else b1
             | None => b1
             end).
  assert (H1 : forall x, present b1 x = (PyStr.otruthy left_label && element_eqb (Node k) x)
                                        || present b x).
  { intros x. unfold b1. destruct (PyStr.otruthy left_label); simpl; [|reflexivity].
    apply present_add_left_vertex. }
  assert (H2 : forall x, present b2 x = (PyStr.otruthy right_label && element_eqb (Node k) x)
                                        || present b1 x).
  { intros x. unfold b2. destruct right_label as [r|]; simpl; [|reflexivity].
    destruct (PyStr.truthy r); simpl; [|reflexivity]. apply present_add_right_vertex. }
  assert (Hsome : PyStr.otruthy left_label || PyStr.otruthy right_label = true).
  { destruct (split_label_halves _ _ _ Esplit) as [Hl Hr].
    destruct left_label as [l|]; [now rewrite (Hl l eq_refl)|].
    destruct right_label as [r|]; [now rewrite (Hr r eq_refl)|].
    now destruct Hnd. }
  destruct (map_ok_extend b b2 m (vid v) Hok Hfresh) as [Hok' Hkeys].
  { intros n. rewrite H2, H1. fold k.
    replace (element_eqb (Node k) (Node n)) with (Nat.eqb k n) by reflexivity.
    destruct (Nat.eqb_spec k n) as [->|N].
    - rewrite !andb_true_r. apply orb_true_iff in Hsome.
      destruct (PyStr.otruthy left_label), (PyStr.otruthy right_label); simpl;
        try tauto. destruct Hsome; discriminate.
    - rewrite !andb_false_r. simpl. split; [tauto|]. intros [E|H]; [congruence|exact H]. }
  split; [exact Hok'|]. split; [exact Hkeys|].
  intros a c. rewrite H2, H1. simpl. now rewrite !andb_false_r.
Qed.

End MinimalSubruleLoops.


Section MinimalSubruleEdges.
Import PyData Mod.
Import RuleBuilder.

Lemma vertex_loop_spec vs : forall b m,
  map_ok b m -> NoDup (keys m ++ map vid vs) ->
  (forall v, In v vs -> RuleGraph.is_relabeled (RuleGraph.VertexElement v) = true ->
             nondegenerate (vlabel v)) ->
  let '(b', m') := fold_left RuleGraph.minimal_vertex_step vs (b, m) in
  map_ok b' m'
  /\ keys m' = keys m ++ map vid (filter (fun v => RuleGraph.is_relabeled (RuleGraph.VertexElement v)) vs)
  /\ (forall a c, present b' (Edge a c) = present b (Edge a c)).
Proof.
  induction vs as [|v vs IH]; cbn [fold_left map filter]; intros b m Hok Hnd Hdeg.
  - rewrite app_nil_r. auto.
  - assert (Hfresh : ~ In (vid v) (keys m)).
    { intros Hin. apply NoDup_remove_2 in Hnd. apply Hnd. apply in_app_iff. now left. }
    pose proof (vertex_step_spec b m v Hok Hfresh (Hdeg v (or_introl eq_refl))) as Hstep.
    destruct (RuleGraph.minimal_vertex_step (b, m) v) as [b1 m1].
    destruct Hstep as (Hok1 & Hk1 & He1).
    specialize (IH b1 m1 Hok1).
    destruct (fold_left RuleGraph.minimal_vertex_step vs (b1, m1)) as [b' m'].
    assert (IH' : map_ok b' m'
                  /\ keys m' = keys m1 ++ map vid (filter (fun v => RuleGraph.is_relabeled
                                                                    (RuleGraph.VertexElement v)) vs)
                  /\ (forall a c, present b' (Edge a c) = present b1 (Edge a c))).
    { apply IH.
    + rewrite Hk1.
      destruct (RuleGraph.is_relabeled (RuleGraph.VertexElement v)).
      * rewrite <- app_assoc. exact Hnd.
      * rewrite app_nil_r. now apply NoDup_remove_1 in Hnd.
    + intros x Hx. apply Hdeg. now right. }
    destruct IH' as (Hok' & Hk' & He').
    split; [exact Hok'|]. split.
    + rewrite Hk', Hk1. destruct (RuleGraph.is_relabeled (RuleGraph.VertexElement v));
        cbn [map]; rewrite <- app_assoc; reflexivity.
    + intros a c. now rewrite He', He1.
Qed.

Lemma dict_get_app_l d k v x : In x (keys d) -> dict_get (d ++ [(k, v)]) x = dict_get d x.
Proof.
  induction d as [|[k' v'] d IH]; simpl; [tauto|].
  intros H. destruct (Nat.eqb_spec k' x) as [->|N]; [reflexivity|].
  apply IH. destruct H; congruence.
Qed.

Lemma dict_get_app_r d k v : ~ In k (keys d) -> dict_get (d ++ [(k, v)]) k = Some v.
Proof.
  induction d as [|[k' v'] d IH]; simpl; intros H.
  - now rewrite Nat.eqb_refl.
  - destruct (Nat.eqb_spec k' k) as [->|N]; [tauto|]. apply IH. tauto.
Qed.

Lemma dict_get_keys d k v : dict_get d k = Some v -> In k (keys d).
Proof.
  intros H. destruct (in_dec Nat.eq_dec k (keys d)) as [Hin|Hn]; [exact Hin|].
  apply dict_get_none in Hn. congruence.
Qed.

Lemma endpoint_spec b m id :
  map_ok b m ->
  let '(b', m') := RuleGraph.minimal_endpoint (b, m) id in
  map_ok b' m'
  /\ (forall v, In v (keys m') <-> In v (keys m) \/ v = id)
  /\ (forall x, In x (keys m) -> dict_get m' x = dict_get m x)
  /\ (forall a c, present b' (Edge a c) = present b (Edge a c)).
Proof.
  intros Hok. unfold RuleGraph.minimal_endpoint.
  destruct (dict_get m id) as [s|] eqn:E.
  - split; [exact Hok|]. split; [|auto].
    intros v. split; [tauto|]. intros [H| ->]; [exact H|]. eapply dict_get_keys; eauto.
  - apply dict_get_none in E. rewrite (map_ok_next _ _ Hok).
    destruct (map_ok_extend b (add_context_vertex b (List.length m) "*") m id Hok E)
      as [Hok' Hkeys].
    { intros n. rewrite present_add_context_vertex, orb_true_iff.
      replace (element_eqb (Node (List.length m)) (Node n)) with (Nat.eqb (List.length m) n)
        by reflexivity.
      rewrite Nat.eqb_eq. intuition. }
    split; [exact Hok'|]. split; [|split].
    + intros v. rewrite Hkeys, in_app_iff. simpl. intuition.
    + intros x Hx. rewrite (dict_set_fresh _ _ _ E). now apply dict_get_app_l.
    + intros a c. now rewrite present_add_context_vertex.
Qed.

Lemma edge_step_spec b m e b' m' :
  map_ok b m ->
  (RuleGraph.is_relabeled (RuleGraph.EdgeElement e) = true -> nondegenerate (elabel e)) ->
  RuleGraph.minimal_edge_step (b, m) e = Some (b', m') ->
  map_ok b' m'
  /\ (forall v, In v (keys m') <->
                In v (keys m)
                \/ (RuleGraph.is_relabeled (RuleGraph.EdgeElement e) = true
                    /\ (v = source e \/ v = target e)))
  /\ (forall x, In x (keys m) -> dict_get m' x = dict_get m x)
  /\ (forall a c, present b' (Edge a c) = true <->
                  present b (Edge a c) = true
                  \/ (RuleGraph.is_relabeled (RuleGraph.EdgeElement e) = true
                      /\ exists s t_, dict_get m' (source e) = Some s
                                      /\ dict_get m' (target e) = Some t_
                                      /\ Edge a c = EdgeTuple s t_)).
Proof.
  intros Hok Hnd. unfold RuleGraph.minimal_edge_step.
  destruct (RuleGraph.is_relabeled (RuleGraph.EdgeElement e)) eqn:Erel; cbn [negb].
  2:{ intros [= <- <-]. split; [exact Hok|]. split; [|split; [auto|]].
      - intros v. split; [tauto|]. intros [H|[[=] _]]. exact H.
      - intros a c. split; [tauto|]. intros [H|[[=] _]]. exact H. }
  specialize (Hnd eq_refl). unfold nondegenerate in Hnd.
  pose proof (endpoint_spec b m (source e) Hok) as H1.
  destruct (RuleGraph.minimal_endpoint (b, m) (source e)) as [b1 m1].
  destruct H1 as (Hok1 & Hk1 & Hs1 & He1).
  pose proof (endpoint_spec b1 m1 (target e) Hok1) as H2.
  destruct (RuleGraph.minimal_endpoint (b1, m1) (target e)) as [b2 m2].
  destruct H2 as (Hok2 & Hk2 & Hs2 & He2).
  unfold RuleGraph.split_element_label. cbn [RuleGraph.stringLabel].
  destruct (Labels._split_label (elabel e)) as [left_label right_label] eqn:Esplit.
  assert (Hsrc : In (source e) (keys m2)) by (apply Hk2; left; apply Hk1; now right).
  assert (Htgt : In (target e) (keys m2)) by (apply Hk2; now right).
  destruct (dict_get_some _ _ Hsrc) as (s & Es & _).
  destruct (dict_get_some _ _ Htgt) as (t_ & Et & _).
  rewrite Es, Et. cbn [bind].
  set (b3 := if PyStr.otruthy left_label then add_left_edge b2 s t_ "*" else b2).
  intros [= <- <-].
  assert (Ps : present b2 (Node s) = true)
    by (apply (ok_present _ _ Hok2); eapply dict_get_bound; eauto).
  assert (Pt : present b2 (Node t_) = true)
    by (apply (ok_present _ _ Hok2); eapply dict_get_bound; eauto).
  assert (H3 : forall x, present b3 x = true <->
                         (PyStr.otruthy left_label = true /\ x = EdgeTuple s t_)
                         \/ present b2 x = true).
  { intros x. unfold b3. destruct (PyStr.otruthy left_label).
    - rewrite (present_add_left_edge b2 s t_ "*" x Ps Pt). tauto.
    - split; [tauto|]. intros [[[=] _]|H]. exact H. }
  assert (Ps3 : present b3 (Node s) = true) by (apply H3; now right).
  assert (Pt3 : present b3 (Node t_) = true) by (apply H3; now right).
  set (b4 := match right_label with
             | Some r => if PyStr.truthy r then add_right_edge b3 s t_ r else b3
             | None => b3
             end).
  assert (H4 : forall x, present b4 x = true <->
                         (PyStr.otruthy right_label = true /\ x = EdgeTuple s t_)
                         \/ present b3 x = true).
  { intros x. unfold b4. destruct right_label as [r|]; simpl.
    - destruct (PyStr.truthy r).
      + rewrite (present_add_right_edge b3 s t_ r x Ps3 Pt3). tauto.
      + split; [tauto|]. intros [[[=] _]|H]. exact H.
    - split; [tauto|]. intros [[[=] _]|H]. exact H. }
  assert (Hsome : PyStr.otruthy left_label = true \/ PyStr.otruthy right_label = true).
  { destruct (split_label_halves _ _ _ Esplit) as [Hl Hr].
    destruct left_label as [l|]; [left; now apply (Hl l)|].
    destruct right_label as [r|]; [right; now apply (Hr r)|].
    now destruct Hnd. }
  assert (Hnode : forall n, EdgeTuple s t_ <> Node n)
    by (intros n; unfold EdgeTuple; destruct (Nat.ltb t_ s); discriminate).
  split; [|split; [|split]].
  - apply (map_ok_same_vertices b2); [exact Hok2|].
    intros n. rewrite H4, H3. split; [|tauto].
    intros [[_ E]|[[_ E]|H]]; try exact H; symmetry in E; now apply Hnode in E.
  - intros v. rewrite Hk2, Hk1. intuition.
  - intros x Hx. rewrite Hs2, Hs1; auto. apply Hk1. now left.
  - intros a c. rewrite H4, H3, <- He1, <- He2. split.
    + intros [[_ E]|[[_ E]|H]]; [right|right|now left]; split; auto; exists s, t_; auto.
    + intros [H|(_ & s' & t' & Es' & Et' & E)]; [tauto|].
      rewrite Es in Es'. rewrite Et in Et'. injection Es' as <-. injection Et' as <-.
      destruct Hsome as [Hl|Hr]; [right; left|left]; auto.
Qed.

End MinimalSubruleEdges.


Section MinimalSubrule.
Import PyData Mod.
Import RuleBuilder.
Context {O : Oracle}.

Lemma edge_loop_spec es : forall b m b' m',
  map_ok b m ->
  (forall e, In e es -> RuleGraph.is_relabeled (RuleGraph.EdgeElement e) = true ->
             nondegenerate (elabel e)) ->
  RuleGraph.foldM RuleGraph.minimal_edge_step es (b, m) = Some (b', m') ->
  map_ok b' m'
  /\ (forall v, In v (keys m') <->
                In v (keys m)
                \/ exists e, In e es /\ RuleGraph.is_relabeled (RuleGraph.EdgeElement e) = true
                             /\ (v = source e \/ v = target e))
  /\ (forall x, In x (keys m) -> dict_get m' x = dict_get m x)
  /\ (forall a c, present b' (Edge a c) = true <->
                  present b (Edge a c) = true
                  \/ exists e, In e es
                       /\ RuleGraph.is_relabeled (RuleGraph.EdgeElement e) = true
                       /\ exists s t_, dict_get m' (source e) = Some s
                                       /\ dict_get m' (target e) = Some t_
                                       /\ Edge a c = EdgeTuple s t_).
Proof.
  induction es as [|e es IH]; cbn [RuleGraph.foldM]; intros b m b' m' Hok Hnd H.
  - injection H as <- <-. split; [exact Hok|]. split; [|split; [auto|]].
    + intros v. split; [tauto|]. intros [Hv|(? & [] & _)]. exact Hv.
    + intros a c. split; [tauto|]. intros [Hv|(? & [] & _)]. exact Hv.
  - destruct (RuleGraph.minimal_edge_step (b, m) e) as [[b1 m1]|] eqn:E1; [|discriminate].
    cbn [bind] in H.
    destruct (edge_step_spec _ _ _ _ _ Hok (Hnd e (or_introl eq_refl)) E1)
      as (Hok1 & Hk1 & Hs1 & He1).
    destruct (IH _ _ _ _ Hok1 (fun x Hx => Hnd x (or_intror Hx)) H)
      as (Hok' & Hk' & Hs' & He').
    split; [exact Hok'|]. split; [|split].
    + intros v. rewrite Hk', Hk1. split.
      * intros [[Hv|[Hr Hv]]|(x & Hx & Hr & Hv)]; [now left|right|right].
        -- exists e. split; [now left|auto].
        -- exists x. split; [now right|auto].
      * intros [Hv|(x & [<-|Hx] & Hr & Hv)]; [now left; left|left; right; auto|right].
        exists x. auto.
    + intros x Hx. rewrite Hs', Hs1; auto. apply Hk1. now left.
    + intros a c. rewrite He', He1. split.
      * intros [[Hp|(Hr & s & t_ & Es & Et & Eq)]|(x & Hx & Hr & Hrest)];
          [now left|right|right].
        -- exists e. split; [now left|]. split; [exact Hr|]. exists s, t_.
           rewrite !Hs'; auto; eapply dict_get_keys; eauto.
        -- exists x. split; [now right|auto].
      * intros [Hp|(x & [<-|Hx] & Hr & s & t_ & Es & Et & Eq)]; [now left; left|left; right|right].
        -- split; [exact Hr|]. exists s, t_.
           assert (Hsrc : In (source e) (keys m1)) by (apply Hk1; right; auto).
           assert (Htgt : In (target e) (keys m1)) by (apply Hk1; right; auto).
           rewrite <- (Hs' _ Hsrc), <- (Hs' _ Htgt). auto.
        -- exists x. split; [exact Hx|]. split; [exact Hr|]. exists s, t_. auto.
Qed.

(** The vertices of the pattern loaded from a rule are the vertices of the
    rule, under their ids. *)
Lemma set_node_fresh l n label : ~ In n (map fst l) -> NX.set_node_in l n label = l ++ [(n, label)].
Proof.
  induction l as [|[m old] l IH]; simpl; intros H; [reflexivity|].
  destruct (Nat.eqb_spec m n) as [->|N]; [tauto|]. rewrite IH; tauto.
Qed.

Lemma fold_add_node_ids {A} (id : A -> Vertex) (label : A -> string) vs : forall nx,
  NoDup (NX.node_ids nx ++ map id vs) ->
  NX.node_ids (fold_left (fun nx v => NX.add_node nx (id v) (label v)) vs nx)
  = NX.node_ids nx ++ map id vs.
Proof.
  induction vs as [|v vs IH]; simpl; intros nx H; [now rewrite app_nil_r|].
  rewrite IH.
  - unfold NX.node_ids, NX.add_node. simpl.
    rewrite set_node_fresh, map_app, <- app_assoc; [reflexivity|].
    apply NoDup_remove_2 in H. intros Hin. apply H, in_app_iff. now left.
  - unfold NX.node_ids, NX.add_node in *. simpl.
    rewrite set_node_fresh, map_app, <- app_assoc; [exact H|].
    apply NoDup_remove_2 in H. intros Hin. apply H, in_app_iff. now left.
Qed.

Lemma fold_add_edge_nodes {A} (f : NX.Graph -> A -> NX.Graph) es :
  (forall nx e, NX.nodes (f nx e) = NX.nodes nx) ->
  forall nx, NX.nodes (fold_left f es nx) = NX.nodes nx.
Proof.
  intros Hf. induction es as [|e es IH]; simpl; intros nx; [reflexivity|].
  now rewrite IH, Hf.
Qed.

Lemma link_components_nodes components : forall nx principal nx',
  RuleGraph.link_components nx components principal = Some nx' ->
  NX.nodes nx' = NX.nodes nx.
Proof.
  induction components as [|c cs IH]; simpl; intros nx principal nx' H.
  - now injection H as <-.
  - destruct (Nat.eqb _ 0); [discriminate|]. apply IH in H. rewrite H.
    apply fold_add_edge_nodes. intros g v. apply fold_add_edge_nodes. reflexivity.
Qed.

Lemma from_rule_vertices rule S :
  NoDup (map ModRule.rid (ModRule.vertices rule)) ->
  RuleGraph.from_rule rule = Some S ->
  map vid (RuleGraph.vertices S) = map ModRule.rid (ModRule.vertices rule).
Proof.
  intros ND. unfold RuleGraph.from_rule, RuleGraph._nx_graph_to_mod_graph.
  set (nx0 := RuleGraph._rule_to_nx_graph rule).
  assert (Hids : NX.node_ids nx0 = map ModRule.rid (ModRule.vertices rule)).
  { unfold nx0, RuleGraph._rule_to_nx_graph, NX.node_ids.
    rewrite fold_add_edge_nodes by reflexivity.
    apply (fold_add_node_ids ModRule.rid
             (fun v => RuleGraph._combine_element_labels (ModRule.rleft v) (ModRule.rright v))
             (ModRule.vertices rule) NX.empty).
    exact ND. }
  destruct (if Nat.ltb 1 _ then _ else Some nx0) as [nx'|] eqn:E; [|discriminate].
  simpl. intros [= <-]. unfold RuleGraph.vertices. simpl.
  rewrite map_map. simpl. rewrite <- Hids. unfold NX.node_ids.
  destruct (Nat.ltb 1 _).
  - apply link_components_nodes in E. now rewrite E.
  - now injection E as <-.
Qed.

Lemma insert_id_perm n l : Permutation (n :: l) (insert_id n l).
Proof.
  induction l as [|m l IH]; simpl; [reflexivity|].
  destruct (Nat.ltb m n); [|reflexivity]. rewrite perm_swap. now constructor.
Qed.

Lemma sort_ids_perm l : Permutation l (sort_ids l).
Proof.
  induction l as [|n l IH]; simpl; [constructor|].
  rewrite <- insert_id_perm. now constructor.
Qed.

Lemma union_edges_in more : forall seen e,
  In e (union_edges seen more) <-> In e seen \/ In e more.
Proof.
  induction more as [|m more IH]; simpl; intros seen e; [tauto|].
  match goal with |- context [existsb ?f seen] => destruct (existsb f seen) eqn:E end.
  - rewrite IH. split; [tauto|]. intros [H|[<-|H]]; auto.
    apply existsb_exists in E as ([a c] & Hin & Heq). left.
    apply andb_true_iff in Heq as [E1 E2]. apply Nat.eqb_eq in E1, E2. simpl in *.
    destruct m. simpl in *. now subst.
  - rewrite IH, in_app_iff. simpl. tauto.
Qed.

Lemma side_edges_in s a c : In (a, c) (side_edges s) <-> has_element s (Edge a c) = true.
Proof.
  unfold side_edges, has_element. induction s as [|[x l] s IH]; simpl.
  - split; [tauto|discriminate].
  - rewrite in_app_iff, IH. destruct x as [m|a' c']; simpl; [tauto|].
    destruct (Nat.eqb_spec a' a) as [->|N]; simpl.
    + destruct (Nat.eqb_spec c' c) as [->|N]; [tauto|].
      split; [intros [[E|[]]|H]; [congruence|exact H]|tauto].
    + split; [intros [[E|[]]|H]; [congruence|exact H]|tauto].
Qed.

Lemma edges_in b a c : In (a, c) (edges b) <-> present b (Edge a c) = true.
Proof.
  unfold edges, present. rewrite !union_edges_in, !side_edges_in, !orb_true_iff.
  simpl. tauto.
Qed.

End MinimalSubrule.


Section MinimalSubruleMain.
Import PyData Mod.
Import RuleBuilder.
Context {O : Oracle}.

Lemma get_vertex_vid g id v : RuleGraph.get_vertex g id = Some v -> vid v = id.
Proof.
  unfold RuleGraph.get_vertex. intros H. apply find_some in H as [_ H].
  now apply Nat.eqb_eq in H.
Qed.

Lemma swap_combine (m : list Item) : map swap_item m = combine (map snd m) (map fst m).
Proof. induction m as [|[k v] m IH]; simpl; [reflexivity|]. now rewrite IH. Qed.

Lemma in_swap (m : list Item) s v : In (s, v) (map swap_item m) <-> In (v, s) m.
Proof.
  rewrite in_map_iff. split.
  - intros ([k w] & [= <- <-] & H). exact H.
  - intros H. exists (v, s). auto.
Qed.

Lemma keys_swap (m : list Item) : keys (map swap_item m) = map snd m.
Proof. unfold keys. rewrite map_map. reflexivity. Qed.

(** The anchor read at a new id gives the old vertex the id was handed to. *)
Lemma getitem_swap (m : list Item) s v :
  NoDup (keys m) -> NoDup (map snd m) ->
  (dict_get (map swap_item m) s = Some v <-> dict_get m v = Some s).
Proof.
  intros N1 N2. split; intros H.
  - apply dict_get_in; [exact N1|]. apply in_swap.
    assert (Hk : In s (keys (map swap_item m))) by (eapply dict_get_keys; eauto).
    destruct (dict_get_some _ _ Hk) as (w & E & Hin). congruence.
  - apply dict_get_in; [now rewrite keys_swap|]. apply in_swap.
    assert (Hk : In v (keys m)) by (eapply dict_get_keys; eauto).
    destruct (dict_get_some _ _ Hk) as (w & E & Hin). congruence.
Qed.

Lemma map_ok_init name : map_ok (RuleBuilder.init name) [].
Proof.
  split; [reflexivity|constructor|].
  intros n. simpl. split; [discriminate|lia].
Qed.

(** C5, the counterexample: in the pattern [C -(-;=)- O] only the edge carries
    a left/right distinction, yet the minimal subrule has two vertices (the
    wildcard context ends of that edge), anchored on [C] and [O]. *)
Lemma minimal_subrule_keeps_context_endpoints :
  filter (fun v => RuleGraph.is_relabeled (RuleGraph.VertexElement v))
         (RuleGraph.vertices Examples.bond_only)
  = []
  /\ option_map (fun r => (RuleGraph.vertices (fst r), RuleGraph.edges (fst r),
                           Morphism.items (snd r)))
                (@RuleGraph.get_minimal_subrule Exhaustive.oracle Examples.bond_only)
     = Some ([mkVertex 0 "*"; mkVertex 1 "*"], [mkEdge 0 1 "*;="], [(0, 0); (1, 1)]).
Proof. split; reflexivity. Qed.

End MinimalSubruleMain.


(** * Runs on the example data *)

Section Runs.
Import PyData Mod Examples.
#[local] Existing Instance Exhaustive.oracle.

Ltac distinct_ids := repeat (constructor; [simpl; intuition discriminate|]); constructor.

(** C6, the counterexample: in the star, the pattern with two edges at the
    centre is produced twice; the embeddings yielded for it hold the
    morphisms [{0: 0, 1: 1, 2: 2}], [{0: 0, 1: 1, 2: 3}] and
    [{0: 0, 1: 3, 2: 1}].  The pattern has the automorphism that exchanges
    its leaves, and its composition with the first morphism,
    [{0: 0, 1: 2, 2: 1}], embeds the pattern in the host but is not among
    the yielded morphisms. *)
Lemma extensions_orbit_incomplete :
  let yielded :=
    map Embedding._morphism
        (filter (fun e => RuleGraph.eqb (Embedding.pattern e) star_pattern) star_extensions) in
  let exchanged := Morphism.init [(0, 0); (1, 2); (2, 1)] in
  @Embedding.extensions Exhaustive.oracle star_embedding = Some star_extensions
  /\ map (fun q => RuleGraph.eqb (fst q) star_pattern) star_generator
     = [false; false; false; true; true]
  /\ map Morphism.items yielded
     = [[(0, 0); (1, 1); (2, 2)]; [(0, 0); (1, 1); (2, 3)]; [(0, 0); (1, 3); (2, 1)]]
  /\ existsb (Morphism.eqb exchanged) (RuleGraph.isomorphisms star_pattern star_pattern) = true
  /\ Morphism.add exchanged (Morphism.init [(0, 0); (1, 1); (2, 2)]) = Some exchanged
  /\ existsb (Morphism.eqb exchanged)
             (RuleGraph.embed (Transition.maximal_subrule star_host) star_pattern) = true
  /\ existsb (Morphism.eqb exchanged) yielded = false.
Proof. repeat split; vm_compute; reflexivity. Qed.

(** On the two reference transitions the search descends from the
    one-vertex pattern, through its first successor, to a root with the same
    coverage; the root, whose cache of successors is filled, is returned at
    once; and the root without its cache is returned again, with its two
    successors cached, since neither has its coverage. *)
Lemma maximum_common_subrule_keeps_coverage_witness :
  @LatticeNode.get_maximum_common_subrule Exhaustive.oracle 4 start_node = Some root_node
  /\ LatticeNode.coverage_eqb (LatticeNode.coverage root_node)
                              (LatticeNode.coverage start_node) = true
  /\ @LatticeNode.get_maximum_common_subrule Exhaustive.oracle 1 root_node = Some root_node
  /\ @LatticeNode.get_maximum_common_subrule Exhaustive.oracle 4 start_node
     = @LatticeNode.get_maximum_common_subrule Exhaustive.oracle 3
         (LatticeNode.coverage_read (hd start_node start_children))
  /\ exists children,
       @LatticeNode.get_maximum_common_subrule Exhaustive.oracle 1
         (LatticeNode.mk (LatticeNode._embeddings root_node) (LatticeNode._pattern root_node)
                         (LatticeNode._coverage root_node) None)
       = Some (LatticeNode.mk (LatticeNode._embeddings root_node)
                 (LatticeNode._pattern root_node)
                 (Some (LatticeNode.coverage root_node))
                 (Some (map LatticeNode.coverage_read children)))
       /\ List.length children = 2.
Proof.
  assert (H : @LatticeNode.get_maximum_common_subrule Exhaustive.oracle 4 start_node
              = Some root_node) by (vm_compute; reflexivity).
  split; [exact H|].
  split; [exact (proj1 (@maximum_common_subrule_keeps_coverage Exhaustive.oracle start_node)
                       4 root_node H)|].
  split; [|split].
  - clear H. destruct (LatticeNode._successors root_node) as [[|c cs]|] eqn:E;
      try (vm_compute in E; discriminate).
    exact (proj1 (proj2 (@maximum_common_subrule_keeps_coverage Exhaustive.oracle root_node))
                 0 c cs E).
  - clear H.
    assert (S : @LatticeNode.successors Exhaustive.oracle start_node
                = Some ([] ++ hd start_node start_children :: tl start_children))
      by (vm_compute; reflexivity).
    assert (C : LatticeNode.coverage_eqb
                  (LatticeNode.coverage (hd start_node start_children))
                  (LatticeNode.coverage start_node) = true) by (vm_compute; reflexivity).
    pose proof (proj1 (proj2 (proj2 (proj2 (@maximum_common_subrule_keeps_coverage
                                             Exhaustive.oracle start_node))))
                      3 [] (hd start_node start_children) (tl start_children)
                      (or_introl eq_refl) S (fun c' (F : In c' []) => match F with end) C)
      as D.
    exact D.
  - clear H.
    set (N := LatticeNode.mk (LatticeNode._embeddings root_node)
                (LatticeNode._pattern root_node) (LatticeNode._coverage root_node) None).
    destruct (@LatticeNode.successors Exhaustive.oracle N) as [[|c1 [|c2 [|c3 cs]]]|] eqn:E;
      try (vm_compute in E; discriminate).
    exists [c1; c2]. split; [|reflexivity].
    assert (A : forall c, In c [c1; c2] ->
              LatticeNode.coverage_eqb (LatticeNode.coverage c) (LatticeNode.coverage N) = false).
    { vm_compute in E. injection E as <- <-.
      intros c [<-|[<-|[]]]; vm_compute; reflexivity. }
    pose proof (proj1 (proj2 (proj2 (@maximum_common_subrule_keeps_coverage
                                       Exhaustive.oracle N)))
                      0 [c1; c2] (or_introl eq_refl) E A) as D.
    cbn [LatticeNode._embeddings LatticeNode._pattern N] in D.
    exact D.
Defined.

(** The root found for the reference transitions is returned again by a
    second call. *)
Lemma maximum_common_subrule_idempotent_witness :
  @LatticeNode.get_maximum_common_subrule Exhaustive.oracle 4 start_node = Some root_node
  /\ @LatticeNode.get_maximum_common_subrule Exhaustive.oracle 1 root_node = Some root_node.
Proof.
  assert (H : @LatticeNode.get_maximum_common_subrule Exhaustive.oracle 4 start_node
              = Some root_node) by (vm_compute; reflexivity).
  split; [exact H|].
  exact (@maximum_common_subrule_idempotent Exhaustive.oracle 4 start_node root_node H 0).
Defined.


(** A morphism of the wildcard triangle, whose generators are the exchanges
    (0 1) and (1 2): the result is below the morphism and below its
    composition with the exchange (0 1), which is itself strictly below the
    morphism. *)
Lemma canonicalise_smallest_witness :
  let m := Morphism.init [(0, 2); (1, 1); (2, 0)] in
  morphism_between m wildcard_triangle host_triangle
  /\ exists c x,
       Morphism.canonicalise m wildcard_triangle host_triangle = Some c
       /\ Morphism.leb c m = true
       /\ composite (graph_of (transposition 0 1) [0; 1; 2]) m (graph_of (fun v => v) [0; 1; 2])
          = Some x
       /\ Morphism.leb c x = true
       /\ Morphism.ltb x m = true.
Proof.
  intros m.
  assert (H : morphism_between m wildcard_triangle host_triangle).
  { split; [split; [reflexivity|distinct_ids]|].
    split; [distinct_ids|]. split; [distinct_ids|].
    split; [intros v; vm_compute; tauto|].
    split; [intros v; vm_compute; tauto|].
    intros g v [<-|[<-|[]]] [<-|[<-|[<-|[]]]]; vm_compute; tauto. }
  split; [exact H|].
  destruct (canonicalise_smallest m wildcard_triangle host_triangle H)
    as (c & Hc & _ & Hall & Hle).
  destruct (Hall (transposition 0 1) (fun v => v)) as (x & Hx & _ & _ & Hcx).
  { simpl. auto. }
  { simpl. auto. }
  exists c, x. split; [exact Hc|]. split; [exact Hle|].
  split; [exact Hx|]. split; [exact Hcx|].
  vm_compute in Hx. injection Hx as <-. reflexivity.
Defined.

(** The wildcard edge has the exchange of its ends as only generator; the
    generator and the identity are closed under composition with it. *)
Lemma canonicalise_generator_invariant_witness :
  let m := Morphism.init [(0, 0); (1, 1)] in
  morphism_between m wildcard_edge host_edge
  /\ generator_closed (transposition 0 1) wildcard_edge
  /\ exists gm c1 c2,
       Morphism.add (Morphism._from_automorphism (CanonicalGraph.graph wildcard_edge)
                                                 (transposition 0 1)) m = Some gm
       /\ Morphism.canonicalise gm wildcard_edge host_edge = Some c1
       /\ Morphism.canonicalise m wildcard_edge host_edge = Some c2
       /\ Morphism.eqb c1 c2 = true.
Proof.
  intros m.
  assert (H : morphism_between m wildcard_edge host_edge).
  { split; [split; [reflexivity|distinct_ids]|].
    split; [distinct_ids|]. split; [distinct_ids|].
    split; [intros v; vm_compute; tauto|].
    split; [intros v; vm_compute; tauto|].
    intros g v [<-|[]] [<-|[<-|[]]]; vm_compute; tauto. }
  assert (C : generator_closed (transposition 0 1) wildcard_edge).
  { split.
    - intros a [<-|[<-|[]]].
      + exists (fun v => v). split; [simpl; auto|].
        intros v [<-|[<-|[]]]; reflexivity.
      + exists (transposition 0 1). split; [simpl; auto|].
        intros v [<-|[<-|[]]]; reflexivity.
    - intros a [<-|[<-|[]]].
      + exists (fun v => v). split; [simpl; auto|].
        intros v [<-|[<-|[]]]; reflexivity.
      + exists (transposition 0 1). split; [simpl; auto|].
        intros v [<-|[<-|[]]]; reflexivity. }
  split; [exact H|]. split; [exact C|].
  exact (canonicalise_generator_invariant m wildcard_edge host_edge (transposition 0 1) H
           (or_introl eq_refl) C).
Defined.

(** In the star the two-edge pattern is produced by the fourth and by the
    fifth step of the generator. *)
Lemma extensions_transport_later_morphisms_witness :
  @Embedding.extension_generator Exhaustive.oracle star_embedding
  = Some (firstn 3 star_generator
            ++ (fst star_first, snd star_first) :: [] ++ [(fst star_second, snd star_second)])
  /\ RuleGraph.eqb (fst star_first) (fst star_second) = true
  /\ In (Embedding.mk (Embedding.host_transition star_embedding) (fst star_first)
                      (snd star_first))
        star_extensions.
Proof.
  assert (H : @Embedding.extension_generator Exhaustive.oracle star_embedding
              = Some (firstn 3 star_generator
                        ++ (fst star_first, snd star_first)
                           :: [] ++ [(fst star_second, snd star_second)]))
    by (vm_compute; reflexivity).
  assert (E : RuleGraph.eqb (fst star_first) (fst star_second) = true)
    by (vm_compute; reflexivity).
  split; [exact H|]. split; [exact E|].
  refine (proj1 (@extensions_transport_later_morphisms Exhaustive.oracle star_embedding
                   _ _ _ _ _ _ _ star_extensions H _ _ E)).
  - vm_compute. reflexivity.
  - intros q [<-|[<-|[<-|[]]]]; vm_compute; reflexivity.
Defined.

(** The extensions of the star embedding stay on the star; the children
    of the start node stay on the two reference transitions. *)
Lemma extensions_keep_host_witness :
  @Embedding.extensions Exhaustive.oracle star_embedding = Some star_extensions
  /\ @LatticeNode.fresh_successors Exhaustive.oracle start_node = Some start_children
  /\ (forall e', In e' star_extensions ->
                 Embedding.host_transition e' = Embedding.host_transition star_embedding)
  /\ (forall child t, In child start_children ->
        In t (LatticeNode.host_transitions child) ->
        existsb (Transition.eqb t) (LatticeNode.host_transitions start_node) = true).
Proof.
  assert (H1 : @Embedding.extensions Exhaustive.oracle star_embedding = Some star_extensions)
    by (vm_compute; reflexivity).
  assert (H2 : @LatticeNode.fresh_successors Exhaustive.oracle start_node = Some start_children)
    by (vm_compute; reflexivity).
  split; [exact H1|]. split; [exact H2|].
  destruct (@extensions_keep_host Exhaustive.oracle star_embedding star_extensions
              start_node start_children H1 H2) as (K1 & _ & K3).
  split; [exact K1|exact K3].
Defined.

(** Two nodes with different embeddings, each over two patterns. *)
Lemma mixed_nodes_equal_witness :
  let es1 := minimal_embedding reference_AB ++ [star_embedding] in
  let es2 := star_embedding :: minimal_embedding reference_AC
             ++ minimal_embedding spurious_AD in
  LatticeNode.pattern (LatticeNode.init es1) = None
  /\ LatticeNode.eq (LatticeNode.init es1) (LatticeNode.init es2) = Some true
  /\ LatticeNode.hash (fun _ => 1%Z) 0%Z (LatticeNode.init es1)
     = LatticeNode.hash (fun _ => 1%Z) 0%Z (LatticeNode.init es2).
Proof.
  intros es1 es2.
  destruct (mixed_nodes_equal es1 es2
              (hd star_embedding (minimal_embedding reference_AB)) star_embedding
              star_embedding (hd star_embedding (minimal_embedding reference_AC))
              (fun _ => 1%Z) 0%Z)
    as (K1 & _ & K3 & K4 & _).
  - left. reflexivity.
  - right. left. reflexivity.
  - vm_compute. reflexivity.
  - left. reflexivity.
  - right. left. reflexivity.
  - vm_compute. reflexivity.
  - auto.
Defined.

End Runs.


(** * More on the label algebra *)

Section LabelAlgebra.
Import PyStr Labels.

Lemma both_combined_comb sup sub : both_combined sup sub = comb sub && comb sup.
Proof.
  unfold both_combined, comb. destruct sub as [b|]; [|reflexivity].
  destruct sup as [a|]; [|now rewrite andb_false_r].
  destruct (truthy b), (truthy a), (_is_combined b), (_is_combined a); reflexivity.
Qed.

Lemma split_pieces_free c s x : In x (split c s) -> contains c x = false.
Proof.
  revert x. induction s as [|d r IH]; simpl; intros x H.
  - destruct H as [<-|[]]. reflexivity.
  - destruct (Ascii.eqb d c) eqn:E.
    + destruct H as [<-|H]; [reflexivity|now apply IH].
    + pose proof (split_nonempty c r) as Hne.
      destruct (split c r) as [|p ps]; [congruence|].
      destruct H as [<-|H].
      * simpl. rewrite E. apply IH. now left.
      * apply IH. now right.
Qed.

(** The halves [_split_label] returns never take the recursive branch. *)
Lemma comb_split_label l :
  comb (fst (_split_label l)) = false /\ comb (snd (_split_label l)) = false.
Proof.
  unfold _split_label.
  pose proof (split_pieces_free semicolon l) as H.
  assert (C : forall p, In p (split semicolon l) ->
                        comb (if truthy p then Some p else None) = false).
  { intros p Hp. destruct (truthy p); [|reflexivity]. simpl.
    unfold _is_combined. rewrite (H p Hp). apply andb_false_r. }
  destruct (split semicolon l) as [|p0 [|p1 ps]]; simpl.
  - auto.
  - split; [|reflexivity]. apply C. now left.
  - split; apply C; simpl; auto.
Qed.

Lemma comb_split_of o :
  comb (fst (split_of o)) = false /\ comb (snd (split_of o)) = false.
Proof. destruct o; [apply comb_split_label|split; reflexivity]. Qed.

Lemma compare_not_comb_r sup sub :
  comb sub = false -> _compare_labels sup sub = compare_plain sup sub.
Proof.
  intros H. apply compare_labels_plain. now rewrite both_combined_comb, H.
Qed.

Lemma compare_not_comb_l sup sub :
  comb sup = false -> _compare_labels sup sub = compare_plain sup sub.
Proof.
  intros H. apply compare_labels_plain. now rewrite both_combined_comb, H, andb_false_r.
Qed.

Lemma compare_comb sup sub :
  comb sup = true -> comb sub = true ->
  _compare_labels sup sub
  = compare_plain (fst (split_of sup)) (fst (split_of sub))
    && compare_plain (snd (split_of sup)) (snd (split_of sub)).
Proof.
  intros H1 H2. rewrite compare_labels_combined by now rewrite both_combined_comb, H1, H2.
  destruct (comb_split_of sub) as [A B].
  now rewrite !compare_not_comb_r.
Qed.

Lemma compare_plain_refl l : compare_plain l l = true.
Proof.
  unfold compare_plain. destruct (otruthy l); simpl; [|reflexivity].
  destruct (oeqb l (Some "*")); [reflexivity|apply oeqb_refl].
Qed.

Lemma oeqb_eq a b : oeqb a b = true -> a = b.
Proof.
  destruct a, b; simpl; try discriminate; [|reflexivity].
  intros H. apply String.eqb_eq in H. now subst.
Qed.

Lemma compare_plain_trans a b c :
  compare_plain a b = true -> compare_plain b c = true -> compare_plain a c = true.
Proof.
  unfold compare_plain. destruct (otruthy a) eqn:Ta; simpl.
  - destruct (oeqb b (Some "*")) eqn:Eb.
    + apply oeqb_eq in Eb. subst b. simpl. intros _ H.
      assert (Ec : oeqb c (Some "*") = true) by now destruct (oeqb c (Some "*")).
      now rewrite Ec.
    + intros H. apply oeqb_eq in H. subst b. now rewrite Ta.
  - intros H. apply negb_true_iff in H. rewrite H. simpl. tauto.
Qed.

Lemma comb_truthy o : comb o = true -> otruthy o = true.
Proof. destruct o; simpl; [|discriminate]. now destruct (truthy s). Qed.

(** A label of the recursive branch is only matched by such a label or by
    the wildcard. *)
Lemma compare_plain_comb_r a b :
  comb a = false -> comb b = true -> compare_plain a b = false.
Proof.
  intros Ha Hb. unfold compare_plain.
  pose proof (comb_truthy _ Hb) as Tb.
  destruct (otruthy a) eqn:Ta; simpl; [|now rewrite Tb].
  destruct (oeqb b (Some "*")) eqn:E1.
  { apply oeqb_eq in E1. subst b. discriminate. }
  destruct (oeqb b a) eqn:E2; [|reflexivity].
  apply oeqb_eq in E2. subst b. congruence.
Qed.

Lemma compare_plain_comb_l a b :
  comb a = true -> comb b = false -> compare_plain a b = true -> b = Some "*"%string.
Proof.
  intros Ha Hb. unfold compare_plain. rewrite (comb_truthy _ Ha). simpl.
  destruct (oeqb b (Some "*")) eqn:E1; [intros _; now apply oeqb_eq|].
  intros E2. apply oeqb_eq in E2. subst b. congruence.
Qed.

Lemma compare_labels_refl (label : option string) : _compare_labels label label = true.
Proof.
  destruct (comb label) eqn:C.
  - rewrite compare_comb by assumption. now rewrite !compare_plain_refl.
  - rewrite compare_not_comb_r by assumption. apply compare_plain_refl.
Qed.

Lemma compare_labels_trans (a b c : option string) :
  _compare_labels a b = true -> _compare_labels b c = true ->
  _compare_labels a c = true.
Proof.
  destruct (comb a) eqn:Ca, (comb b) eqn:Cb, (comb c) eqn:Cc.
  - rewrite !compare_comb by assumption.
    intros H1 H2. apply andb_prop in H1 as [L1 R1]. apply andb_prop in H2 as [L2 R2].
    now rewrite (compare_plain_trans _ _ _ L1 L2), (compare_plain_trans _ _ _ R1 R2).
  - intros _. rewrite !(compare_not_comb_r _ c) by assumption.
    intros H. rewrite (compare_plain_comb_l b c Cb Cc H).
    unfold compare_plain. now rewrite (comb_truthy _ Ca).
  - rewrite (compare_not_comb_r a b) by assumption. intros H.
    rewrite (compare_plain_comb_l a b Ca Cb H).
    rewrite (compare_not_comb_l (Some "*"%string) c) by reflexivity.
    now rewrite (compare_plain_comb_r (Some "*"%string) c eq_refl Cc).
  - rewrite !(compare_not_comb_r _ b), !(compare_not_comb_r _ c) by assumption.
    apply compare_plain_trans.
  - rewrite (compare_not_comb_l a b) by assumption.
    now rewrite (compare_plain_comb_r a b Ca Cb).
  - rewrite (compare_not_comb_l a b) by assumption.
    now rewrite (compare_plain_comb_r a b Ca Cb).
  - intros _. rewrite (compare_not_comb_l b c) by assumption.
    now rewrite (compare_plain_comb_r b c Cb Cc).
  - rewrite !(compare_not_comb_r _ b), !(compare_not_comb_r _ c) by assumption.
    apply compare_plain_trans.
Qed.

(** X1: Every label, combined or not, absent or empty, is compatible with
    itself. *)
Theorem compare_labels_reflexive (label : option string) :
  _compare_labels label label = true.
Proof.
  destruct (comb label) eqn:C.
  - rewrite compare_comb by assumption. now rewrite !compare_plain_refl.
  - rewrite compare_not_comb_r by assumption. apply compare_plain_refl.
Qed.

(** X2: Compatibility of labels composes: when [b] is compatible with the
    super-pattern label [a] and [c] with [b], then [c] is compatible with
    [a]. *)
Theorem compare_labels_transitive (a b c : option string) :
  _compare_labels a b = true -> _compare_labels b c = true ->
  _compare_labels a c = true.
Proof. apply compare_labels_trans. Qed.

(** A relabelled vertex, a pattern that keeps its left label, and the
    wildcard. *)
Lemma compare_labels_transitive_witness :
  _compare_labels (Some "C;O"%string) (Some "C;*"%string) = true
  /\ _compare_labels (Some "C;*"%string) (Some "*"%string) = true
  /\ _compare_labels (Some "C;O"%string) (Some "*"%string) = true.
Proof.
  assert (H1 : _compare_labels (Some "C;O"%string) (Some "C;*"%string) = true)
    by (rewrite compare_comb by reflexivity; reflexivity).
  assert (H2 : _compare_labels (Some "C;*"%string) (Some "*"%string) = true)
    by (rewrite compare_not_comb_r by reflexivity; reflexivity).
  split; [exact H1|]. split; [exact H2|].
  exact (compare_labels_transitive _ _ _ H1 H2).
Defined.

(** X3: The wildcard sub-pattern label is compatible with exactly the labels
    that are present (neither [None] nor empty), and an absent label is
    compatible, either way round, with absent labels only. *)
Theorem compare_labels_wildcard_and_absence (label : option string) :
  _compare_labels label (Some "*") = otruthy label
  /\ _compare_labels None label = negb (otruthy label)
  /\ _compare_labels (Some "") label = negb (otruthy label)
  /\ _compare_labels label None = negb (otruthy label)
  /\ _compare_labels label (Some "") = negb (otruthy label).
Proof.
  split; [|split; [|split; [|split]]].
  - rewrite compare_not_comb_r by reflexivity.
    unfold compare_plain. now destruct (otruthy label).
  - now rewrite compare_not_comb_l.
  - now rewrite compare_not_comb_l.
  - rewrite compare_not_comb_r by reflexivity.
    unfold compare_plain. destruct (otruthy label) eqn:T; simpl; [|reflexivity].
    destruct label as [s|]; [|discriminate]. reflexivity.
  - rewrite compare_not_comb_r by reflexivity.
    unfold compare_plain. destruct (otruthy label) eqn:T; simpl; [|reflexivity].
    destruct label as [s|]; [|discriminate]. simpl.
    destruct s; [discriminate|reflexivity].
Qed.

Lemma half_of_is_half h : is_half h -> h = half (match h with Some s => s | None => "" end).
Proof.
  destruct h as [s|]; simpl; [|reflexivity]. intros [T _]. unfold half. now rewrite T.
Qed.

(** [_split_label] returns halves, never an empty string. *)
Lemma split_label_is_half l :
  is_half (fst (_split_label l)) /\ is_half (snd (_split_label l)).
Proof.
  unfold _split_label.
  pose proof (split_pieces_free semicolon l) as H.
  assert (C : forall p, In p (split semicolon l) ->
                        is_half (if truthy p then Some p else None)).
  { intros p Hp. destruct (truthy p) eqn:T; simpl; [|exact I].
    split; [exact T|]. now apply H. }
  destruct (split semicolon l) as [|p0 [|p1 ps]]; simpl.
  - auto.
  - split; [|exact I]. apply C. now left.
  - split; apply C; simpl; auto.
Qed.

(** X4: Splitting the combination of two different halves gives the halves
    back; [_combine_labels] marks the result as combined. *)
Theorem split_combine_labels (left_label right_label : option string) :
  is_half left_label -> is_half right_label ->
  left_label <> right_label ->
  _split_label (_combine_labels left_label right_label) = (left_label, right_label)
  /\ _is_combined (_combine_labels left_label right_label) = true.
Proof.
  intros Hl Hr Hne.
  set (x := match left_label with Some s => s | None => "" end).
  set (y := match right_label with Some s => s | None => "" end).
  assert (Ex : _is_combined x = false) by (destruct left_label; simpl in *; tauto).
  assert (Ey : _is_combined y = false) by (destruct right_label; simpl in *; tauto).
  assert (El : left_label = half x) by now apply half_of_is_half.
  assert (Er : right_label = half y) by now apply half_of_is_half.
  assert (Hc : _combine_labels left_label right_label = (x ++ ";" ++ y)%string).
  { unfold _combine_labels.
    assert (L : (if otruthy left_label
                 then match left_label with Some l => l | None => "" end else "") = x).
    { destruct left_label as [s|]; simpl; [|reflexivity]. now destruct s. }
    assert (R : (if otruthy right_label
                 then match right_label with Some r => r | None => "" end else "") = y).
    { destruct right_label as [s|]; simpl; [|reflexivity]. now destruct s. }
    rewrite L, R. destruct (String.eqb_spec x y) as [E|N]; [|reflexivity].
    exfalso. apply Hne. rewrite El, Er. now rewrite E. }
  rewrite Hc. split.
  - rewrite (split_label_pair x y Ex Ey). now rewrite <- El, <- Er.
  - unfold _is_combined. change (x ++ ";" ++ y)%string with (x ++ String semicolon y)%string.
    apply contains_app_separator.
Qed.

(** The halves [a] and [b]. *)
Lemma split_combine_labels_witness :
  _split_label (_combine_labels (Some "a") (Some "b")) = (Some "a", Some "b")
  /\ _split_label (_combine_labels None (Some "b")) = (None, Some "b").
Proof.
  split.
  - apply (split_combine_labels (Some "a") (Some "b")); simpl; auto; discriminate.
  - apply (split_combine_labels None (Some "b")); simpl; auto; discriminate.
Defined.

(** X5: Two equal halves are not told apart: their combination is the plain
    label, which splits into a left half alone. *)
Theorem combine_equal_halves (s : string) :
  truthy s = true -> _is_combined s = false ->
  _combine_labels (Some s) (Some s) = s
  /\ _split_label (_combine_labels (Some s) (Some s)) = (Some s, None).
Proof.
  intros T C.
  assert (E : _combine_labels (Some s) (Some s) = s).
  { unfold _combine_labels. simpl. rewrite T, String.eqb_refl. reflexivity. }
  rewrite E. split; [reflexivity|].
  unfold _split_label. unfold _is_combined in C. rewrite (split_no_separator _ _ C).
  now rewrite T.
Qed.

Lemma combine_equal_halves_witness :
  _split_label (_combine_labels (Some "C") (Some "C")) = (Some "C", None).
Proof. apply (combine_equal_halves "C"); reflexivity. Defined.

End LabelAlgebra.

(** * More on morphisms: order, composition, inverse *)

Section TupleOrder.
Import PyData.

Lemma item_gtb_ltb a b : item_gtb a b = item_ltb b a.
Proof.
  unfold item_gtb, item_ltb. rewrite (Nat.eqb_sym (fst b) (fst a)). reflexivity.
Qed.

Lemma item_geb_ltb a b : item_geb a b = negb (item_ltb a b).
Proof.
  unfold item_geb, item_ltb.
  destruct (Nat.eqb (fst a) (fst b)); apply Nat.leb_antisym.
Qed.

Lemma tuple_gtb_ltb a b : tuple_gtb a b = tuple_ltb b a.
Proof.
  revert b. induction a as [|x a IH]; intros [|y b]; simpl; try reflexivity.
  rewrite (item_eqb_sym y x). destruct (item_eqb x y); [apply IH|apply item_gtb_ltb].
Qed.

Lemma tuple_geb_ltb a b : tuple_geb a b = negb (tuple_ltb a b).
Proof.
  revert b. induction a as [|x a IH]; intros [|y b]; simpl; try reflexivity.
  destruct (item_eqb x y); [apply IH|apply item_geb_ltb].
Qed.

Lemma tuple_ltb_asym a b : tuple_ltb a b = true -> tuple_ltb b a = false.
Proof.
  intros H. destruct (tuple_ltb b a) eqn:E; [|reflexivity].
  pose proof (tuple_ltb_trans _ _ _ H E) as C. now rewrite tuple_ltb_irrefl in C.
Qed.

Lemma tuple_leb_cases a b : tuple_leb a b = tuple_ltb a b || tuple_eqb a b.
Proof.
  rewrite tuple_leb_ltb.
  destruct (tuple_ltb a b) eqn:L; simpl.
  - now rewrite (tuple_ltb_asym _ _ L).
  - destruct (tuple_ltb b a) eqn:G; simpl.
    + symmetry. apply not_true_is_false. intros E. apply tuple_eqb_eq in E. subst b.
      now rewrite tuple_ltb_irrefl in G.
    + symmetry. apply tuple_eqb_eq. now apply tuple_total.
Qed.

Lemma tuple_trichotomy x y :
  (tuple_ltb x y = true /\ tuple_eqb x y = false /\ tuple_ltb y x = false)
  \/ (tuple_ltb x y = false /\ tuple_eqb x y = true /\ tuple_ltb y x = false)
  \/ (tuple_ltb x y = false /\ tuple_eqb x y = false /\ tuple_ltb y x = true).
Proof.
  destruct (tuple_ltb x y) eqn:L.
  - left. split; [reflexivity|]. split; [|now apply tuple_ltb_asym].
    apply not_true_is_false. intros E. apply tuple_eqb_eq in E. subst y.
    now rewrite tuple_ltb_irrefl in L.
  - destruct (tuple_ltb y x) eqn:G.
    + right. right. split; [reflexivity|]. split; [|reflexivity].
      apply not_true_is_false. intros E. apply tuple_eqb_eq in E. subst y.
      now rewrite tuple_ltb_irrefl in G.
    + right. left. split; [reflexivity|]. split; [|reflexivity].
      apply tuple_eqb_eq. now apply tuple_total.
Qed.

End TupleOrder.

Section MorphismAlgebra.
Import PyData Mod.

(** X6: The six comparison operators of [Morphism] agree with one another:
    exactly one of [a < b], [a == b], [a > b] holds, [<=] is [<] or [==],
    [>=] is the negation of [<], and [a > b] is [b < a]. *)
Theorem morphism_comparisons (a b : Morphism.t) :
  (Morphism.ltb a b = true /\ Morphism.eqb a b = false /\ Morphism.gtb a b = false
   \/ Morphism.ltb a b = false /\ Morphism.eqb a b = true /\ Morphism.gtb a b = false
   \/ Morphism.ltb a b = false /\ Morphism.eqb a b = false /\ Morphism.gtb a b = true)
  /\ Morphism.leb a b = Morphism.ltb a b || Morphism.eqb a b
  /\ Morphism.geb a b = negb (Morphism.ltb a b)
  /\ Morphism.gtb a b = Morphism.ltb b a
  /\ Morphism.geb a b = Morphism.leb b a.
Proof.
  unfold Morphism.ltb, Morphism.eqb, Morphism.gtb, Morphism.leb, Morphism.geb.
  generalize (Morphism._fingerprint a) (Morphism._fingerprint b). intros x y.
  rewrite tuple_gtb_ltb, tuple_geb_ltb, (tuple_leb_ltb y x).
  split; [|split; [apply tuple_leb_cases|auto]].
  destruct (tuple_trichotomy x y) as [(L & E & G)|[(L & E & G)|(L & E & G)]];
    rewrite L, E, G; auto.
Qed.

(** X7: Two morphisms are [==] exactly when their dictionaries hold the same
    items, in whatever order they were inserted. *)
Theorem morphism_eq_ignores_order (l1 l2 : list Item) :
  Morphism.eqb (Morphism.init l1) (Morphism.init l2) = true <-> Permutation l1 l2.
Proof.
  unfold Morphism.eqb. simpl. rewrite tuple_eqb_eq. split.
  - intros H. rewrite (sorted_perm l1), (sorted_perm l2). now rewrite H.
  - apply sorted_permutation.
Qed.

Lemma add_mapM_keys n (l : list Item) its :
  mapM (fun ri => bind (Morphism.getitem n (snd ri)) (fun j => Some (fst ri, j))) l = Some its ->
  its = map (fun ri => (fst ri, apply n (snd ri))) l.
Proof.
  revert its. induction l as [|[k i] l IH]; simpl; intros its H.
  - now injection H as <-.
  - unfold apply at 1. simpl.
    destruct (Morphism.getitem n i) as [j|]; [|discriminate]. simpl in H.
    match type of H with
    | bind ?x _ = _ => destruct x as [its'|] eqn:E; [|discriminate]
    end.
    simpl in H. injection H as <-. f_equal. now apply IH.
Qed.

Lemma keys_map_snd (f : Vertex -> Vertex) (l : list Item) :
  keys (map (fun ri => (fst ri, f (snd ri))) l) = keys l.
Proof. unfold keys. rewrite map_map. reflexivity. Qed.

(** The value of a defined sum. *)
Lemma add_items m n x :
  NoDup (keys (Morphism.items m)) ->
  Morphism.add m n = Some x ->
  x = Morphism.init (map (fun ri => (fst ri, apply n (snd ri))) (Morphism.items m)).
Proof.
  intros ND H. unfold Morphism.add in H.
  match type of H with
  | bind ?x _ = _ => destruct x as [its|] eqn:E; [|discriminate]
  end.
  simpl in H. injection H as <-.
  rewrite (add_mapM_keys _ _ _ E). f_equal.
  apply dict_of_nodup. now rewrite keys_map_snd.
Qed.

Lemma add_defined m n :
  (forall ri, In ri (Morphism.items m) -> exists j, Morphism.getitem n (snd ri) = Some j) ->
  exists x, Morphism.add m n = Some x.
Proof.
  intros H. unfold Morphism.add.
  destruct (mapM_total (fun ri => bind (Morphism.getitem n (snd ri))
                                       (fun j => Some (fst ri, j)))
              (Morphism.items m)) as [its ->].
  - intros ri Hri. destruct (H ri Hri) as [j ->]. simpl. eauto.
  - simpl. eauto.
Qed.

Lemma dict_get_map_snd (f : Vertex -> Vertex) l r :
  dict_get (map (fun ri => (fst ri, f (snd ri))) l) r
  = match dict_get l r with Some i => Some (f i) | None => None end.
Proof.
  induction l as [|[k i] l IH]; simpl; [reflexivity|].
  destruct (Nat.eqb k r); [reflexivity|apply IH].
Qed.

Lemma dict_get_value l r i : dict_get l r = Some i -> In (r, i) l.
Proof.
  induction l as [|[k v] l IH]; simpl; [discriminate|].
  destruct (Nat.eqb_spec k r) as [->|N].
  - intros [= ->]. now left.
  - intros H. right. now apply IH.
Qed.

Lemma add_spec (m n : Morphism.t) :
  NoDup (keys (Morphism.items m)) ->
  ((exists x, Morphism.add m n = Some x)
   <-> forall ri, In ri (Morphism.items m) -> Morphism.getitem n (snd ri) <> None)
  /\ (forall x, Morphism.add m n = Some x ->
        keys (Morphism.items x) = keys (Morphism.items m)
        /\ forall r, Morphism.getitem x r
                     = bind (Morphism.getitem m r) (Morphism.getitem n)).
Proof.
  intros ND. split.
  - split.
    + intros [x H] ri Hri. unfold Morphism.add in H.
      match type of H with
      | bind ?x _ = _ => destruct x as [its|] eqn:E; [|discriminate]
      end.
      destruct (mapM_In _ _ _ _ E Hri) as (y & Hy & _).
      destruct (Morphism.getitem n (snd ri)); [discriminate|discriminate].
    + intros H. apply add_defined. intros ri Hri. specialize (H ri Hri).
      destruct (Morphism.getitem n (snd ri)) as [j|]; [eauto|congruence].
  - intros x H. pose proof H as H0. apply add_items in H; [|exact ND]. subst x.
    unfold Morphism.items, Morphism.getitem. simpl. split; [apply keys_map_snd|].
    intros r. rewrite dict_get_map_snd.
    destruct (dict_get (Morphism._vertex_map m) r) as [i|] eqn:E; [|reflexivity].
    simpl. unfold Morphism.add in H0.
    match type of H0 with
    | bind ?x _ = _ => destruct x as [its|] eqn:E'; [|discriminate]
    end.
    destruct (mapM_In _ _ _ _ E' (dict_get_value _ _ _ E)) as (y & Hy & _).
    simpl in Hy. unfold apply.
    destruct (Morphism.getitem n i) as [j|] eqn:Ej; [|discriminate].
    unfold Morphism.getitem in Ej. now rewrite Ej.
Qed.

(** X8: [m + n] is defined exactly when every image vertex of [m] is a key of
    [n] (otherwise the sum raises [KeyError]); the sum then has the keys of
    [m] and maps [r] to [n[m[r]]]. *)
Theorem add_composes (m n : Morphism.t) :
  NoDup (keys (Morphism.items m)) ->
  ((exists x, Morphism.add m n = Some x)
   <-> forall ri, In ri (Morphism.items m) -> Morphism.getitem n (snd ri) <> None)
  /\ (forall x, Morphism.add m n = Some x ->
        keys (Morphism.items x) = keys (Morphism.items m)
        /\ forall r, Morphism.getitem x r
                     = bind (Morphism.getitem m r) (Morphism.getitem n)).
Proof. apply add_spec. Qed.

(** The sum of [{0: 1, 1: 0}] and [{0: 5, 1: 6}]; the sum with [{0: 5}]
    raises. *)
Lemma add_composes_witness :
  Morphism.getitem
    (match Morphism.add (Morphism.init [(0, 1); (1, 0)]) (Morphism.init [(0, 5); (1, 6)]) with
     | Some x => x
     | None => Morphism.init []
     end) 0 = Some 6
  /\ Morphism.add (Morphism.init [(0, 1); (1, 0)]) (Morphism.init [(0, 5)]) = None.
Proof.
  assert (ND : NoDup (keys (Morphism.items (Morphism.init [(0, 1); (1, 0)]))))
    by (repeat (constructor; [simpl; intuition discriminate|]); constructor).
  split.
  - exact (proj2 (proj2 (add_composes (Morphism.init [(0, 1); (1, 0)])
                                      (Morphism.init [(0, 5); (1, 6)]) ND)
                        _ eq_refl) 0).
  - reflexivity.
Defined.

Lemma apply_add m n x v :
  NoDup (keys (Morphism.items m)) -> Morphism.add m n = Some x ->
  In v (keys (Morphism.items m)) -> apply x v = apply n (apply m v).
Proof.
  intros ND H Hv. apply add_items in H; [|exact ND]. subst x.
  destruct (dict_get_some _ _ Hv) as (i & E & _). unfold Morphism.items in E.
  assert (Em : apply m v = i) by (unfold apply, Morphism.getitem; now rewrite E).
  rewrite Em. unfold apply at 1. unfold Morphism.getitem, Morphism.items. simpl.
  now rewrite dict_get_map_snd, E.
Qed.

(** X9: Sums associate: when [a + (b + c)] is defined, so is [(a + b) + c], and
    the two are the same morphism. *)
Theorem add_associative (a b c bc x : Morphism.t) :
  NoDup (keys (Morphism.items a)) -> NoDup (keys (Morphism.items b)) ->
  Morphism.add b c = Some bc -> Morphism.add a bc = Some x ->
  exists ab, Morphism.add a b = Some ab /\ Morphism.add ab c = Some x.
Proof.
  intros NDa NDb Hbc Hx.
  destruct (add_spec b c NDb) as [[Dbc _] Gbc].
  destruct (Gbc bc Hbc) as [Kbc Lbc].
  destruct (add_spec a bc NDa) as [[Dx _] _].
  pose proof (Dx (ex_intro _ x Hx)) as Ia.
  pose proof (Dbc (ex_intro _ bc Hbc)) as Ib.
  assert (Hab : exists ab, Morphism.add a b = Some ab).
  { apply add_defined. intros ri Hri. specialize (Ia ri Hri).
    rewrite Lbc in Ia.
    destruct (Morphism.getitem b (snd ri)) as [j|]; [eauto|]. now simpl in Ia. }
  destruct Hab as [ab Hab]. exists ab. split; [exact Hab|].
  pose proof (add_items _ _ _ NDa Hab) as Eab.
  pose proof (add_items _ _ _ NDa Hx) as Ex.
  assert (NDab : NoDup (keys (Morphism.items ab)))
    by (subst ab; unfold Morphism.items; simpl; now rewrite keys_map_snd).
  assert (Hy : exists y, Morphism.add ab c = Some y).
  { apply add_defined. intros ri Hri. subst ab. unfold Morphism.items in Hri. simpl in Hri.
    apply in_map_iff in Hri as ([k i] & <- & Hki). simpl.
    specialize (Ia (k, i) Hki). simpl in Ia. rewrite Lbc in Ia.
    unfold apply. destruct (Morphism.getitem b i) as [j|] eqn:Ej; [|now simpl in Ia].
    simpl in Ia. destruct (Morphism.getitem c j); [eauto|congruence]. }
  destruct Hy as [y Hy]. rewrite Hy. f_equal.
  pose proof (add_items _ _ _ NDab Hy) as Ey.
  rewrite Ey, Ex. f_equal. rewrite Eab. unfold Morphism.items. simpl.
  rewrite map_map. apply map_ext_in. intros [k i] Hki. simpl. f_equal.
  specialize (Ia (k, i) Hki). simpl in Ia. symmetry.
  assert (Eb : apply bc i = apply c (apply b i)); [|exact Eb].
  unfold apply at 1. rewrite Lbc in Ia |- *.
  destruct (Morphism.getitem b i) as [j|] eqn:Ej; [|now simpl in Ia].
  simpl in Ia |- *. unfold apply at 2. rewrite Ej. unfold apply.
  destruct (Morphism.getitem c j); [reflexivity|congruence].
Qed.

(** Three maps on two vertices. *)
Lemma add_associative_witness :
  exists ab, Morphism.add (Morphism.init [(0, 1); (1, 0)]) (Morphism.init [(0, 1); (1, 0)])
             = Some ab
             /\ Morphism.add ab (Morphism.init [(0, 7); (1, 8)])
                = Some (Morphism.init [(0, 7); (1, 8)]).
Proof.
  apply (add_associative (Morphism.init [(0, 1); (1, 0)]) (Morphism.init [(0, 1); (1, 0)])
           (Morphism.init [(0, 7); (1, 8)]) (Morphism.init [(0, 8); (1, 7)])).
  - repeat (constructor; [simpl; intuition discriminate|]); constructor.
  - repeat (constructor; [simpl; intuition discriminate|]); constructor.
  - reflexivity.
  - reflexivity.
Defined.

Lemma map_swap_swap (l : list Item) :
  map (fun ri => (snd ri, fst ri)) (map (fun ri : Item => (snd ri, fst ri)) l) = l.
Proof.
  rewrite map_map. rewrite <- (map_id l) at 2. apply map_ext. now intros [k i].
Qed.

Lemma keys_swap_values (l : list Item) :
  keys (map (fun ri : Item => (snd ri, fst ri)) l) = values l.
Proof. unfold keys, values. now rewrite map_map. Qed.

Lemma neg_items m :
  NoDup (values (Morphism.items m)) ->
  Morphism.items (Morphism.neg m) = map (fun ri => (snd ri, fst ri)) (Morphism.items m).
Proof.
  intros ND. unfold Morphism.neg, Morphism.items at 1. simpl.
  apply dict_of_nodup. now rewrite keys_swap_values.
Qed.

(** X10: For an injective morphism (no two keys with the same image), negating
    twice gives the morphism back, and [m + (-m)] is the identity on the
    keys of [m]. *)
Theorem neg_inverts (m : Morphism.t) :
  morphism_wf m -> NoDup (values (Morphism.items m)) ->
  Morphism.neg (Morphism.neg m) = m
  /\ Morphism.add m (Morphism.neg m)
     = Some (graph_of (fun v => v) (keys (Morphism.items m))).
Proof.
  intros [Hfp NDk] NDv. split.
  - unfold Morphism.neg at 1. rewrite (neg_items m NDv), map_swap_swap.
    unfold Morphism.items. rewrite (dict_of_nodup _ NDk).
    destruct m as [vm fp]. simpl in *. unfold Morphism.init. now rewrite Hfp.
  - destruct (add_defined m (Morphism.neg m)) as [x Hx].
    + intros [k i] Hki. simpl. exists k. unfold Morphism.getitem.
      change (Morphism._vertex_map (Morphism.neg m)) with (Morphism.items (Morphism.neg m)).
      rewrite (neg_items m NDv). apply dict_get_in.
      * now rewrite keys_swap_values.
      * apply in_map_iff. exists (k, i). auto.
    + rewrite Hx. f_equal. rewrite (add_items _ _ _ NDk Hx).
      unfold graph_of. f_equal. unfold keys. rewrite map_map.
      apply map_ext_in. intros [k i] Hki. simpl. f_equal.
      unfold apply, Morphism.getitem.
      change (Morphism._vertex_map (Morphism.neg m)) with (Morphism.items (Morphism.neg m)).
      rewrite (neg_items m NDv).
      rewrite (dict_get_in _ i k); [reflexivity| |].
      * now rewrite keys_swap_values.
      * apply in_map_iff. exists (k, i). auto.
Qed.

(** The morphism [{0: 4, 1: 3}]. *)
Lemma neg_inverts_witness :
  Morphism.neg (Morphism.neg (Morphism.init [(0, 4); (1, 3)])) = Morphism.init [(0, 4); (1, 3)].
Proof.
  apply (neg_inverts (Morphism.init [(0, 4); (1, 3)])).
  - split; [reflexivity|].
    repeat (constructor; [simpl; intuition discriminate|]); constructor.
  - repeat (constructor; [simpl; intuition discriminate|]); constructor.
Defined.

Lemma dict_set_length d k v : List.length (dict_set d k v) <= S (List.length d).
Proof.
  induction d as [|[k' v'] d IH]; simpl; [lia|].
  destruct (Nat.eqb k' k); simpl; lia.
Qed.

Lemma dict_of_length l : List.length (dict_of l) <= List.length l.
Proof.
  unfold dict_of.
  assert (G : forall l acc,
            List.length (fold_left (fun d kv => dict_set d (fst kv) (snd kv)) l acc)
            <= List.length acc + List.length l).
  { clear. induction l as [|[k v] l IH]; intros acc; simpl; [lia|].
    specialize (IH (dict_set acc k v)). pose proof (dict_set_length acc k v). lia. }
  apply (G l []).
Qed.

(** Negation never adds entries: [-m] has at most as many entries as [m]
    (fewer when two keys of [m] share an image). *)
Lemma neg_shrinks (m : Morphism.t) :
  Morphism.len (Morphism.neg m) <= List.length (Morphism.items m).
Proof.
  unfold Morphism.len, Morphism.neg. simpl.
  rewrite <- (Permutation_length (sorted_perm _)).
  etransitivity; [apply dict_of_length|]. now rewrite length_map.
Qed.

Lemma identity_graph g :
  NoDup (vertex_ids g) -> Morphism._identity g = graph_of (fun v => v) (vertex_ids g).
Proof. intros ND. exact (from_automorphism_graph g (fun v => v) ND). Qed.

(** X11: The identity morphisms of the two graphs are neutral: for a morphism
    [m] from [R] to [I], [identity(R) + m] and [m + identity(I)] are defined
    and [==] to [m]. *)
Theorem identity_neutral (m : Morphism.t) (R I : CanonicalGraph.t) :
  morphism_between m R I ->
  (exists x, Morphism.add (Morphism._identity (CanonicalGraph.graph R)) m = Some x
             /\ Morphism.eqb x m = true)
  /\ Morphism.add m (Morphism._identity (CanonicalGraph.graph I)) = Some m.
Proof.
  intros Hb. pose proof Hb as ((Hfp & NDk) & NR & NI & Hk & Hv & Hg).
  split.
  - rewrite (identity_graph _ NR).
    exists (graph_of (fun v => apply m v) (vertex_ids (CanonicalGraph.graph R))).
    split.
    + apply (add_graph (fun v => v) _ m (apply m) NR).
      intros v Hi. apply getitem_apply. now apply Hk.
    + unfold Morphism.eqb. apply tuple_eqb_eq. symmetry.
      apply tuple_eqb_eq. exact (identity_candidate m R I Hb).
  - destruct (add_defined m (Morphism._identity (CanonicalGraph.graph I))) as [y Hy].
    + intros [k i] Hki. simpl. exists i. rewrite (identity_graph _ NI).
      apply getitem_graph. apply Hv. unfold values.
      change i with (snd (k, i)). now apply in_map.
    + rewrite Hy. f_equal. rewrite (add_items _ _ _ NDk Hy).
      assert (E : map (fun ri => (fst ri, apply (Morphism._identity (CanonicalGraph.graph I))
                                            (snd ri))) (Morphism.items m)
                  = Morphism.items m).
      { rewrite <- (map_id (Morphism.items m)) at 2. apply map_ext_in.
        intros [k i] Hki. simpl. f_equal. rewrite (identity_graph _ NI).
        unfold apply. rewrite getitem_graph; [reflexivity|].
        apply Hv. unfold values. change i with (snd (k, i)). now apply in_map. }
      rewrite E. destruct m as [vm fp]. simpl in *. unfold Morphism.init.
      unfold Morphism.items. simpl. now rewrite Hfp.
Qed.

(** A morphism from the wildcard edge to its host, between the two
    identities. *)
Lemma identity_neutral_witness :
  let m := Morphism.init [(0, 1); (1, 0)] in
  morphism_between m Examples.wildcard_edge Examples.host_edge
  /\ (exists x, Morphism.add (Morphism._identity (CanonicalGraph.graph Examples.wildcard_edge)) m
                = Some x
                /\ Morphism.eqb x m = true)
  /\ Morphism.add m (Morphism._identity (CanonicalGraph.graph Examples.host_edge)) = Some m.
Proof.
  intros m.
  assert (H : morphism_between m Examples.wildcard_edge Examples.host_edge).
  { split; [split; [reflexivity|repeat constructor; simpl; intuition discriminate]|].
    split; [repeat constructor; simpl; intuition discriminate|].
    split; [repeat constructor; simpl; intuition discriminate|].
    split; [intros v; vm_compute; tauto|].
    split; [intros v; vm_compute; tauto|].
    intros g v [<-|[]] [<-|[<-|[]]]; vm_compute; tauto. }
  split; [exact H|]. exact (identity_neutral m _ _ H).
Defined.

End MorphismAlgebra.

(** * Order of strings, and of the classes compared by their canonical form *)

Section StringOrder.

Lemma string_compare_OT a b : String_as_OT.compare a b = String.compare a b.
Proof.
  revert b. induction a as [|c a IH]; intros [|d b]; simpl; reflexivity.
Qed.

Lemma string_ltb_lt a b : String.ltb a b = true <-> String_as_OT.lt a b.
Proof.
  unfold String_as_OT.lt. pose proof (string_compare_OT a b) as E.
  unfold String.ltb. split; intros H.
  - rewrite E. destruct (String.compare a b); congruence.
  - rewrite E in H. now rewrite H.
Qed.

Lemma string_ltb_irrefl a : String.ltb a a = false.
Proof.
  apply not_true_is_false. rewrite string_ltb_lt.
  apply (StrictOrder_Irreflexive (R := String_as_OT.lt)).
Qed.

Lemma string_ltb_trans a b c :
  String.ltb a b = true -> String.ltb b c = true -> String.ltb a c = true.
Proof.
  rewrite !string_ltb_lt. apply (StrictOrder_Transitive (R := String_as_OT.lt)).
Qed.

Lemma string_ltb_asym a b : String.ltb a b = true -> String.ltb b a = false.
Proof.
  intros H. destruct (String.ltb b a) eqn:E; [|reflexivity].
  pose proof (string_ltb_trans _ _ _ H E) as C. now rewrite string_ltb_irrefl in C.
Qed.

Lemma string_total a b : String.ltb a b = false -> String.ltb b a = false -> a = b.
Proof.
  unfold String.ltb. rewrite (String.compare_antisym b a).
  destruct (String.compare a b) eqn:E; simpl; try discriminate.
  intros _ _. now apply String.compare_eq_iff.
Qed.

Lemma string_leb_ltb a b : String.leb a b = negb (String.ltb b a).
Proof.
  unfold String.leb, String.ltb. rewrite (String.compare_antisym a b).
  destruct (String.compare b a); reflexivity.
Qed.

Lemma string_eqb_ltb a b : String.eqb a b = true -> String.ltb a b = false.
Proof. intros H. apply String.eqb_eq in H. subst b. apply string_ltb_irrefl. Qed.

End StringOrder.

Section CanonicalOrder.
Import PyData Mod.

Lemma string_trichotomy a b :
  (String.ltb a b = true /\ String.eqb a b = false /\ String.ltb b a = false)
  \/ (String.ltb a b = false /\ String.eqb a b = true /\ String.ltb b a = false)
  \/ (String.ltb a b = false /\ String.eqb a b = false /\ String.ltb b a = true).
Proof.
  destruct (String.ltb a b) eqn:L.
  - left. split; [reflexivity|]. split; [|now apply string_ltb_asym].
    apply not_true_is_false. intros E. now rewrite (string_eqb_ltb _ _ E) in L.
  - destruct (String.ltb b a) eqn:G.
    + right. right. split; [reflexivity|]. split; [|reflexivity].
      apply not_true_is_false. intros E. rewrite String.eqb_sym in E.
      now rewrite (string_eqb_ltb _ _ E) in G.
    + right. left. split; [reflexivity|]. split; [|reflexivity].
      apply String.eqb_eq. now apply string_total.
Qed.

(** X12: The comparison operators of [Transition] (and, below it, of
    [RuleGraph] and [CanonicalGraph], which it delegates to) order the
    transitions by canonical form: exactly one of [a < b], [a == b], [b < a]
    holds, [<] is transitive, [a > b] is [b < a], [a >= b] is [b <= a], and
    the operators of the three classes agree. *)
Theorem transition_comparisons (a b c : Transition.t) :
  ((Transition.ltb a b = true /\ Transition.eqb a b = false /\ Transition.ltb b a = false)
   \/ (Transition.ltb a b = false /\ Transition.eqb a b = true /\ Transition.ltb b a = false)
   \/ (Transition.ltb a b = false /\ Transition.eqb a b = false /\ Transition.ltb b a = true))
  /\ (Transition.ltb a b = true -> Transition.ltb b c = true -> Transition.ltb a c = true)
  /\ Transition.gtb a b = Transition.ltb b a
  /\ Transition.geb a b = Transition.leb b a
  /\ Transition.leb a b
     = CanonicalGraph.leb (RuleGraph.graph (Transition.maximal_subrule a))
                          (RuleGraph.graph (Transition.maximal_subrule b))
  /\ Transition.geb a b
     = CanonicalGraph.geb (RuleGraph.graph (Transition.maximal_subrule a))
                          (RuleGraph.graph (Transition.maximal_subrule b))
  /\ Transition.gtb a b
     = CanonicalGraph.gtb (RuleGraph.graph (Transition.maximal_subrule a))
                          (RuleGraph.graph (Transition.maximal_subrule b)).
Proof.
  unfold Transition.gtb, Transition.geb, Transition.leb, Transition.ltb, Transition.eqb,
    Transition.maximal_subrule, RuleGraph.ltb, RuleGraph.eqb, RuleGraph.graph,
    CanonicalGraph.geb, CanonicalGraph.gtb, CanonicalGraph.ltb, CanonicalGraph.eqb,
    CanonicalGraph.leb.
  set (x := CanonicalGraph.canonical_smiles (RuleGraph._graph (Transition._maximal_subrule a))).
  set (y := CanonicalGraph.canonical_smiles (RuleGraph._graph (Transition._maximal_subrule b))).
  set (z := CanonicalGraph.canonical_smiles (RuleGraph._graph (Transition._maximal_subrule c))).
  clearbody x y z.
  split; [apply string_trichotomy|]. split; [apply string_ltb_trans|].
  rewrite (String.eqb_sym y x), (string_leb_ltb x y).
  destruct (string_trichotomy x y) as [(L & E & G)|[(L & E & G)|(L & E & G)]];
    rewrite L, E, G; simpl; auto 10.
Qed.

(** Where [Embedding.__lt__] answers [True]: by the canonical form of the
    host, then of the pattern, then by the morphism. *)
Lemma embedding_ltb_lex a b :
  let h x := CanonicalGraph.canonical_smiles
               (RuleGraph._graph (Transition._maximal_subrule (Embedding._host_transition x))) in
  let p x := CanonicalGraph.canonical_smiles (RuleGraph._graph (Embedding._pattern x)) in
  Embedding.ltb a b
  = String.ltb (h a) (h b)
    || (String.eqb (h a) (h b)
        && (String.ltb (p a) (p b)
            || (String.eqb (p a) (p b)
                && Morphism.ltb (Embedding._morphism a) (Embedding._morphism b)))).
Proof.
  intros h p. unfold Embedding.ltb, Transition.gtb, Transition.leb, Transition.ltb,
    Transition.eqb, RuleGraph.gtb, RuleGraph.leb, RuleGraph.ltb, RuleGraph.eqb,
    CanonicalGraph.ltb, CanonicalGraph.eqb.
  fold (h a) (h b) (p a) (p b).
  destruct (string_trichotomy (h a) (h b)) as [(L & E & G)|[(L & E & G)|(L & E & G)]];
    rewrite L, E; simpl; try reflexivity.
  destruct (string_trichotomy (p a) (p b)) as [(L' & E' & G')|[(L' & E' & G')|(L' & E' & G')]];
    rewrite L', E'; reflexivity.
Qed.

Lemma embedding_eqb_lex a b :
  let h x := CanonicalGraph.canonical_smiles
               (RuleGraph._graph (Transition._maximal_subrule (Embedding._host_transition x))) in
  let p x := CanonicalGraph.canonical_smiles (RuleGraph._graph (Embedding._pattern x)) in
  Embedding.eqb a b
  = String.eqb (h a) (h b) && String.eqb (p a) (p b)
    && Morphism.eqb (Embedding._morphism a) (Embedding._morphism b).
Proof. reflexivity. Qed.

Lemma tuple_eqb_sym (x y : list Item) : tuple_eqb x y = tuple_eqb y x.
Proof.
  destruct (tuple_eqb x y) eqn:X.
  - apply tuple_eqb_eq in X. subst y. symmetry. apply tuple_eqb_refl.
  - symmetry. apply not_true_is_false. intros Y. apply tuple_eqb_eq in Y. subst y.
    now rewrite tuple_eqb_refl in X.
Qed.

Lemma embedding_eqb_sym a b : Embedding.eqb a b = Embedding.eqb b a.
Proof.
  unfold Embedding.eqb, Transition.eqb, RuleGraph.eqb, CanonicalGraph.eqb, Morphism.eqb.
  now rewrite String.eqb_sym, (String.eqb_sym (CanonicalGraph.canonical_smiles
                                                 (RuleGraph._graph (Embedding._pattern a)))),
    tuple_eqb_sym.
Qed.

(** X13: [Embedding.__lt__] is a strict total order up to [==]: exactly one of
    [a < b], [a == b], [b < a] holds, [<] is transitive, and the derived
    operators are its mirror images ([a > b] is [b < a], [a >= b] is
    [b <= a]). *)
Theorem embedding_comparisons (a b c : Embedding.t) :
  ((Embedding.ltb a b = true /\ Embedding.eqb a b = false /\ Embedding.ltb b a = false)
   \/ (Embedding.ltb a b = false /\ Embedding.eqb a b = true /\ Embedding.ltb b a = false)
   \/ (Embedding.ltb a b = false /\ Embedding.eqb a b = false /\ Embedding.ltb b a = true))
  /\ (Embedding.ltb a b = true -> Embedding.ltb b c = true -> Embedding.ltb a c = true)
  /\ Embedding.gtb a b = Embedding.ltb b a
  /\ Embedding.geb a b = Embedding.leb b a.
Proof.
  assert (T : (Embedding.ltb a b = true /\ Embedding.eqb a b = false
               /\ Embedding.ltb b a = false)
              \/ (Embedding.ltb a b = false /\ Embedding.eqb a b = true
                  /\ Embedding.ltb b a = false)
              \/ (Embedding.ltb a b = false /\ Embedding.eqb a b = false
                  /\ Embedding.ltb b a = true)).
  { rewrite (embedding_ltb_lex a b), (embedding_ltb_lex b a), (embedding_eqb_lex a b).
    cbv zeta.
    set (ha := CanonicalGraph.canonical_smiles _). set (hb := CanonicalGraph.canonical_smiles _).
    set (pa := CanonicalGraph.canonical_smiles _). set (pb := CanonicalGraph.canonical_smiles _).
    rewrite (String.eqb_sym hb ha), (String.eqb_sym pb pa).
    destruct (string_trichotomy ha hb) as [(L & E & G)|[(L & E & G)|(L & E & G)]];
      rewrite L, E, G; simpl; auto.
    destruct (string_trichotomy pa pb) as [(L' & E' & G')|[(L' & E' & G')|(L' & E' & G')]];
      rewrite L', E', G'; simpl; auto.
    exact (tuple_trichotomy (Morphism._fingerprint (Embedding._morphism a))
                            (Morphism._fingerprint (Embedding._morphism b))). }
  split; [exact T|]. split; [|split].
  - rewrite (embedding_ltb_lex a b), (embedding_ltb_lex b c), (embedding_ltb_lex a c).
    cbv zeta.
    set (ha := CanonicalGraph.canonical_smiles
                 (RuleGraph._graph (Transition._maximal_subrule (Embedding._host_transition a)))).
    set (hb := CanonicalGraph.canonical_smiles
                 (RuleGraph._graph (Transition._maximal_subrule (Embedding._host_transition b)))).
    set (hc := CanonicalGraph.canonical_smiles
                 (RuleGraph._graph (Transition._maximal_subrule (Embedding._host_transition c)))).
    set (pa := CanonicalGraph.canonical_smiles (RuleGraph._graph (Embedding._pattern a))).
    set (pb := CanonicalGraph.canonical_smiles (RuleGraph._graph (Embedding._pattern b))).
    set (pc := CanonicalGraph.canonical_smiles (RuleGraph._graph (Embedding._pattern c))).
    clearbody ha hb hc pa pb pc.
    intros H1 H2.
    apply orb_prop in H1 as [H1|H1]; apply orb_prop in H2 as [H2|H2].
    + now rewrite (string_ltb_trans _ _ _ H1 H2).
    + apply andb_prop in H2 as [E2 _]. apply String.eqb_eq in E2. subst hc. now rewrite H1.
    + apply andb_prop in H1 as [E1 _]. apply String.eqb_eq in E1. subst hb. now rewrite H2.
    + apply andb_prop in H1 as [E1 H1]. apply andb_prop in H2 as [E2 H2].
      apply String.eqb_eq in E1, E2. subst hb hc. rewrite String.eqb_refl. simpl.
      apply orb_true_intro. right.
      apply orb_prop in H1 as [H1|H1]; apply orb_prop in H2 as [H2|H2].
      * now rewrite (string_ltb_trans _ _ _ H1 H2).
      * apply andb_prop in H2 as [E2 _]. apply String.eqb_eq in E2. subst pc. now rewrite H1.
      * apply andb_prop in H1 as [E1 _]. apply String.eqb_eq in E1. subst pb. now rewrite H2.
      * apply andb_prop in H1 as [E1 H1]. apply andb_prop in H2 as [E2 H2].
        apply String.eqb_eq in E1, E2. subst pb pc. rewrite String.eqb_refl. simpl.
        apply orb_true_intro. right.
        exact (tuple_ltb_trans _ _ _ H1 H2).
  - unfold Embedding.gtb, Embedding.leb.
    destruct T as [(L & E & G)|[(L & E & G)|(L & E & G)]]; now rewrite L, E, G.
  - unfold Embedding.geb, Embedding.leb.
    assert (Es : Embedding.eqb b a = Embedding.eqb a b) by apply embedding_eqb_sym.
    rewrite Es.
    destruct T as [(L & E & G)|[(L & E & G)|(L & E & G)]]; now rewrite L, E, G.
Qed.

End CanonicalOrder.

(** * The coverage of a lattice node *)

Section CoverageFacts.
Import PyData Mod.

Lemma transition_eqb_key a b : Transition.eqb a b = String.eqb (key a) (key b).
Proof. reflexivity. Qed.

Lemma transition_ltb_key a b : Transition.ltb a b = String.ltb (key a) (key b).
Proof. reflexivity. Qed.

Lemma keys_insert_transition x l :
  map key (LatticeNode.insert_transition x l) = insert_key (key x) (map key l).
Proof.
  induction l as [|y l IH]; simpl; [reflexivity|].
  rewrite transition_ltb_key. destruct (String.ltb (key y) (key x)); simpl; congruence.
Qed.

Lemma keys_sorted_transitions l :
  map key (LatticeNode.sorted_transitions l) = sort_keys (map key l).
Proof.
  induction l as [|x l IH]; simpl; [reflexivity|].
  unfold LatticeNode.sorted_transitions in *. simpl.
  now rewrite keys_insert_transition, IH.
Qed.

Ltac order_facts :=
  repeat match goal with
         | H : String.ltb ?a ?a = true |- _ => rewrite string_ltb_irrefl in H; discriminate
         | H1 : String.ltb ?a ?b = true, H2 : String.ltb ?b ?a = true |- _ =>
             rewrite (string_ltb_asym _ _ H1) in H2; discriminate
         | H1 : String.ltb ?a ?b = true, H2 : String.ltb ?b ?c = true,
           H3 : String.ltb ?a ?c = false |- _ =>
             rewrite (string_ltb_trans _ _ _ H1 H2) in H3; discriminate
         end.

Ltac trichotomy a b :=
  let L := fresh "L" in let E := fresh "E" in let G := fresh "G" in
  destruct (string_trichotomy a b) as [(L & E & G)|[(L & E & G)|(L & E & G)]];
  [|apply String.eqb_eq in E|].

Lemma insert_key_comm x y l :
  insert_key x (insert_key y l) = insert_key y (insert_key x l).
Proof.
  induction l as [|z l IH]; simpl.
  - trichotomy x y; subst; rewrite ?string_ltb_irrefl in *;
      repeat match goal with H : String.ltb _ _ = _ |- _ => rewrite H end; reflexivity.
  - trichotomy x y; trichotomy z x; trichotomy z y; subst;
      rewrite ?string_ltb_irrefl in *;
      repeat (match goal with H : String.ltb _ _ = _ |- _ => rewrite H end; simpl);
      rewrite ?string_ltb_irrefl; simpl;
      try reflexivity; try (now rewrite IH); try order_facts; try congruence.
Qed.

Lemma sort_keys_permutation l1 l2 : Permutation l1 l2 -> sort_keys l1 = sort_keys l2.
Proof.
  induction 1; simpl; try congruence. apply insert_key_comm.
Qed.

Lemma coverage_eqb_keys a : forall b,
  LatticeNode.coverage_eqb a b = true <-> map key a = map key b.
Proof.
  induction a as [|x a IH]; intros [|y b]; simpl; try (split; congruence).
  rewrite andb_true_iff, transition_eqb_key, String.eqb_eq, IH.
  split; [intros [-> ->]; reflexivity|intros [= -> ->]; auto].
Qed.

Lemma existsb_key t l : existsb (Transition.eqb t) l = true <-> In (key t) (map key l).
Proof.
  rewrite existsb_exists, in_map_iff. split.
  - intros (x & Hx & E). rewrite transition_eqb_key in E. apply String.eqb_eq in E. eauto.
  - intros (x & E & Hx). exists x. split; [exact Hx|].
    rewrite transition_eqb_key, E. apply String.eqb_refl.
Qed.

(** The set of host transitions holds every key once. *)
Lemma distinct_transitions_keys more : forall seen,
  NoDup (map key seen) ->
  NoDup (map key (LatticeNode.distinct_transitions seen more))
  /\ forall k, In k (map key (LatticeNode.distinct_transitions seen more))
               <-> In k (map key seen) \/ In k (map key more).
Proof.
  induction more as [|x more IH]; simpl; intros seen ND.
  - split; [exact ND|]. tauto.
  - destruct (existsb (Transition.eqb x) seen) eqn:E.
    + destruct (IH seen ND) as [N1 N2]. split; [exact N1|].
      intros k. rewrite N2. apply existsb_key in E.
      split; [tauto|]. intros [H|[<-|H]]; auto.
    + assert (ND' : NoDup (map key (seen ++ [x]))).
      { rewrite map_app. simpl. apply NoDup_app; [exact ND|repeat constructor; simpl; tauto|].
        intros k Hk [<-|[]].
        apply existsb_key in Hk. congruence. }
      destruct (IH _ ND') as [N1 N2]. split; [exact N1|].
      intros k. rewrite N2, map_app, in_app_iff. simpl. tauto.
Qed.

Lemma insert_key_in x l k : In k (insert_key x l) <-> k = x \/ In k l.
Proof.
  induction l as [|y l IH]; simpl; [intuition|].
  destruct (String.ltb y x); simpl; rewrite ?IH; intuition.
Qed.

Lemma insert_key_sorted x l :
  ~ In x l ->
  StronglySorted (fun a b => String.ltb a b = true) l ->
  StronglySorted (fun a b => String.ltb a b = true) (insert_key x l).
Proof.
  induction l as [|y l IH]; simpl; intros Hn Hs.
  - repeat constructor.
  - inversion Hs as [|? ? Hs' Hall]; subst.
    destruct (String.ltb y x) eqn:L.
    + constructor; [apply IH; tauto|].
      apply Forall_forall. intros k Hk. apply insert_key_in in Hk as [->|Hk]; [exact L|].
      rewrite Forall_forall in Hall. auto.
    + assert (G : String.ltb x y = true).
      { destruct (String.ltb x y) eqn:G; [reflexivity|].
        exfalso. apply Hn. left. symmetry. now apply string_total. }
      constructor; [exact Hs|]. constructor; [exact G|].
      rewrite Forall_forall in Hall |- *. intros k Hk.
      exact (string_ltb_trans _ _ _ G (Hall k Hk)).
Qed.

Lemma sort_keys_in l k : In k (sort_keys l) <-> In k l.
Proof.
  induction l as [|x l IH]; simpl; [tauto|]. rewrite insert_key_in, IH. intuition.
Qed.

Lemma sort_keys_sorted l :
  NoDup l -> StronglySorted (fun a b => String.ltb a b = true) (sort_keys l).
Proof.
  induction 1 as [|x l Hn ND IH]; simpl; [constructor|].
  apply insert_key_sorted; [|exact IH]. now rewrite sort_keys_in.
Qed.

Lemma sorted_map_key l :
  StronglySorted (fun a b => String.ltb a b = true) (map key l) ->
  StronglySorted (fun a b => Transition.ltb a b = true) l.
Proof.
  induction l as [|x l IH]; simpl; intros H; [constructor|].
  inversion H as [|? ? Hs Hall]; subst. constructor; [now apply IH|].
  rewrite Forall_forall in Hall |- *. intros t Ht.
  rewrite transition_ltb_key. apply Hall. now apply in_map.
Qed.

Lemma insert_transition_in x l t :
  In t (LatticeNode.insert_transition x l) <-> t = x \/ In t l.
Proof.
  induction l as [|y l IH]; simpl; [intuition|].
  destruct (Transition.ltb y x); simpl; rewrite ?IH; intuition.
Qed.

Lemma sorted_transitions_in l t : In t (LatticeNode.sorted_transitions l) <-> In t l.
Proof.
  unfold LatticeNode.sorted_transitions.
  induction l as [|x l IH]; simpl; [tauto|]. rewrite insert_transition_in, IH. intuition.
Qed.

Lemma coverage_init es :
  LatticeNode.coverage (LatticeNode.init es)
  = LatticeNode.sorted_transitions
      (LatticeNode.distinct_transitions [] (map Embedding.host_transition es)).
Proof. reflexivity. Qed.

(** X14: The coverage of a new node lists the host transitions of its
    embeddings, each canonical form once, in strictly increasing order of
    [<]: every host transition is [==] to a member, and every member is the
    host transition of an embedding. *)
Theorem coverage_sorted_distinct (es : list Embedding.t) :
  let coverage := LatticeNode.coverage (LatticeNode.init es) in
  StronglySorted (fun a b => Transition.ltb a b = true) coverage
  /\ (forall e, In e es ->
        existsb (Transition.eqb (Embedding.host_transition e)) coverage = true)
  /\ (forall t, In t coverage -> exists e, In e es /\ t = Embedding.host_transition e).
Proof.
  cbv zeta. rewrite coverage_init.
  set (hosts := map Embedding.host_transition es).
  destruct (distinct_transitions_keys hosts [] (NoDup_nil _)) as [ND Hk].
  split; [|split].
  - apply sorted_map_key. rewrite keys_sorted_transitions. now apply sort_keys_sorted.
  - intros e He. apply existsb_key. rewrite keys_sorted_transitions, sort_keys_in, Hk.
    right. apply in_map. unfold hosts. now apply in_map.
  - intros t Ht. apply (proj1 (sorted_transitions_in _ _)) in Ht.
    destruct (distinct_transitions_subset _ _ _ Ht) as [[]|Hin].
    unfold hosts in Hin. apply in_map_iff in Hin as (e & <- & He). eauto.
Qed.

(** X15: The coverage depends on the set of host transitions only: two nodes
    whose embeddings have the same host transitions up to [==], in whatever
    order and multiplicity, have [==] coverages. *)
Theorem coverage_order_independent (es1 es2 : list Embedding.t) :
  (forall e1, In e1 es1 ->
     exists e2, In e2 es2
                /\ Transition.eqb (Embedding.host_transition e1)
                                  (Embedding.host_transition e2) = true) ->
  (forall e2, In e2 es2 ->
     exists e1, In e1 es1
                /\ Transition.eqb (Embedding.host_transition e2)
                                  (Embedding.host_transition e1) = true) ->
  LatticeNode.coverage_eqb (LatticeNode.coverage (LatticeNode.init es1))
                           (LatticeNode.coverage (LatticeNode.init es2)) = true.
Proof.
  intros H12 H21. apply coverage_eqb_keys. rewrite !coverage_init, !keys_sorted_transitions.
  apply sort_keys_permutation.
  destruct (distinct_transitions_keys (map Embedding.host_transition es1) []
              (NoDup_nil _)) as [N1 K1].
  destruct (distinct_transitions_keys (map Embedding.host_transition es2) []
              (NoDup_nil _)) as [N2 K2].
  apply NoDup_Permutation; [exact N1|exact N2|].
  assert (G : forall a b,
            (forall e1, In e1 a ->
               exists e2, In e2 b
                          /\ Transition.eqb (Embedding.host_transition e1)
                                            (Embedding.host_transition e2) = true) ->
            forall k, In k (map key (map Embedding.host_transition a)) ->
                      In k (map key (map Embedding.host_transition b))).
  { intros a b H k Hk. apply in_map_iff in Hk as (t & <- & Ht).
    apply in_map_iff in Ht as (e & <- & He). destruct (H e He) as (e2 & He2 & E).
    rewrite transition_eqb_key in E. apply String.eqb_eq in E. rewrite E.
    apply in_map. now apply in_map. }
  intros k. rewrite K1, K2. simpl. split; intros [[]|H]; right; eapply G; eauto.
Qed.

(** The embeddings of the two reference transitions, in both orders. *)
Lemma coverage_order_independent_witness :
  LatticeNode.coverage_eqb
    (LatticeNode.coverage
       (LatticeNode.init (Examples.minimal_embedding Examples.reference_AB
                          ++ Examples.minimal_embedding Examples.reference_AC)))
    (LatticeNode.coverage
       (LatticeNode.init (Examples.minimal_embedding Examples.reference_AC
                          ++ Examples.minimal_embedding Examples.reference_AB
                          ++ Examples.minimal_embedding Examples.reference_AC))) = true.
Proof.
  apply coverage_order_independent.
  - intros e1 [<-|[<-|[]]]; eexists; (split; [|apply transition_eqb_refl]);
      vm_compute; tauto.
  - intros e2 [<-|[<-|[<-|[]]]]; eexists; (split; [|apply transition_eqb_refl]);
      vm_compute; tauto.
Defined.

End CoverageFacts.

(** * More on the rule lattice: what the search keeps, and merging *)

Section SearchInvariant.
Import PyData Mod.
Context {O : Oracle}.

(** What [_add_node] does to the candidates, the queue, the roots and the
    seen nodes. *)
Lemma add_node_queue fuel L node parent L' r :
  RuleLattice._add_node fuel L node parent = Some (L', r) ->
  RuleLattice._roots L' = RuleLattice._roots L
  /\ (forall n, RuleLattice.member n (RuleLattice._seen_nodes L) = true ->
                RuleLattice.member n (RuleLattice._seen_nodes L') = true)
  /\ ((r = None
       /\ RuleLattice._node_queue L' = RuleLattice._node_queue L
       /\ RuleLattice._candidates L' = RuleLattice._candidates L)
      \/ exists mcs cP d,
           r = Some mcs
           /\ RuleLattice.has_key (RuleLattice._candidates L) mcs = false
           /\ RuleLattice.lookup (RuleLattice._candidates L) parent = Some cP
           /\ RuleLattice.embeddable (LatticeNode.pattern mcs) (CandidateRule.distortion cP)
              = Some d
           /\ RuleLattice._candidates L'
              = RuleLattice.store (RuleLattice._candidates L) mcs (CandidateRule.init mcs d)
           /\ RuleLattice._node_queue L'
              = if Nat.ltb 0 (List.length d)
                then RuleLattice._node_queue L ++ [mcs]
                else RuleLattice._node_queue L).
Proof.
  unfold RuleLattice._add_node.
  destruct (RuleLattice.member node (RuleLattice._seen_nodes L)) eqn:Eseen.
  { intros [= <- <-]. split; [reflexivity|]. split; [auto|]. left. auto. }
  assert (Hseen : forall n, RuleLattice.member n (RuleLattice._seen_nodes L) = true ->
            RuleLattice.member n (RuleLattice.set_add (RuleLattice._seen_nodes L) node) = true).
  { intros n Hn. now rewrite member_set_add, Hn. }
  destruct (LatticeNode.get_maximum_common_subrule fuel node) as [mcs|]; [|discriminate].
  simpl. destruct (RuleLattice.lookup (RuleLattice._nodes L) parent) as [children|];
    [|discriminate].
  simpl. destruct (RuleLattice.has_key (RuleLattice._candidates L) mcs) eqn:Ekey.
  { intros [= <- <-]. simpl. split; [reflexivity|]. split; [exact Hseen|]. left. auto. }
  destruct (RuleLattice.lookup (RuleLattice._candidates L) parent) as [cP|] eqn:EcP;
    [|discriminate].
  simpl. destruct (RuleLattice.embeddable _ _) as [d|] eqn:Eemb; [|discriminate].
  simpl. intros [= <- <-]. simpl. split; [reflexivity|]. split; [exact Hseen|].
  right. exists mcs, cP, d. auto 10.
Qed.

Lemma kept_init root spurious : kept root spurious (RuleLattice.init root spurious).
Proof.
  unfold kept, rooted, RuleLattice.init, RuleLattice.member.
  cbn [RuleLattice._roots RuleLattice._candidates RuleLattice._node_queue
       RuleLattice._seen_nodes RuleLattice.lookup existsb].
  rewrite same_key_refl.
  split; [split; [reflexivity|split; [reflexivity|]]|split; [|reflexivity]].
  - intros k c. destruct (RuleLattice.same_key root k); [|discriminate].
    intros [= <-]. simpl. apply incl_refl.
  - intros n Hn. unfold CandidateRule.amount_of_distortion in Hn. simpl in Hn.
    destruct (Nat.ltb_spec 0 (List.length spurious)) as [Hl|Hl]; [|destruct Hn].
    destruct Hn as [<-|[]]. rewrite same_key_refl.
    eexists. split; [reflexivity|exact Hl].
Qed.

Lemma kept_popped root spurious L : kept root spurious L -> kept root spurious (popped L).
Proof.
  intros (HR & Hq & Hs). split; [exact HR|]. split; [|exact Hs].
  intros n Hn. apply Hq. simpl in Hn.
  destruct (RuleLattice._node_queue L); [destruct Hn|now right].
Qed.

Lemma kept_add_node root spurious fuel L node parent L' r :
  kept root spurious L ->
  RuleLattice._add_node fuel L node parent = Some (L', r) ->
  kept root spurious L'.
Proof.
  intros ((Hr & Hc & Hd) & Hq & Hs) Hadd.
  destruct (add_node_queue _ _ _ _ _ _ Hadd) as (Er & Hseen & Hcase).
  unfold kept, rooted. rewrite Er.
  destruct Hcase as [(_ & Eq & Ec)|(mcs & cP & d & _ & Hkey & HcP & Hemb & Ec & Eq)].
  - rewrite Ec, Eq. auto 10.
  - assert (Hother : forall k c, RuleLattice.lookup (RuleLattice._candidates L) k = Some c ->
              RuleLattice.same_key mcs k = false)
      by (intros k c; now apply lookup_none_not_same_key).
    destruct (embeddable_filter _ _ _ Hemb) as [Hincl _].
    rewrite Ec. split; [split; [exact Hr|split]|split].
    + rewrite lookup_store, (Hother _ _ Hc). exact Hc.
    + intros k c. rewrite lookup_store.
      destruct (RuleLattice.same_key mcs k); [|apply Hd].
      intros [= <-]. simpl. intros t Ht. apply (Hd _ _ HcP). now apply Hincl.
    + intros n Hn. rewrite Eq in Hn. rewrite lookup_store.
      assert (Hold : In n (RuleLattice._node_queue L) ->
                exists c, (if RuleLattice.same_key mcs n
                           then Some (CandidateRule.init mcs d)
                           else RuleLattice.lookup (RuleLattice._candidates L) n) = Some c
                          /\ 0 < CandidateRule.amount_of_distortion c).
      { intros Hin. destruct (Hq n Hin) as (c & Hl & Hpos).
        rewrite (Hother _ _ Hl). eauto. }
      destruct (Nat.ltb_spec 0 (List.length d)) as [Hl|Hl]; [|auto].
      apply in_app_iff in Hn as [Hn|[<-|[]]]; [auto|].
      rewrite same_key_refl. eexists. split; [reflexivity|exact Hl].
    + auto.
Qed.

Lemma kept_add_children root spurious fuel children active : forall L L',
  kept root spurious L ->
  RuleLattice.add_children fuel L children active = Some L' ->
  kept root spurious L'.
Proof.
  induction children as [|child rest IH]; simpl; intros L L' HK H.
  - now injection H as <-.
  - destruct (RuleLattice._add_node fuel L child active) as [[L1 r]|] eqn:E; [|discriminate].
    simpl in H. eapply IH; [|exact H]. eapply kept_add_node; eauto.
Qed.

Lemma kept_resolve_node root spurious fuel L L' :
  kept root spurious L -> RuleLattice.resolve_node fuel L = Some L' ->
  kept root spurious L'.
Proof.
  intros HK. unfold RuleLattice.resolve_node.
  destruct (RuleLattice.active_node L) as [active|].
  - destruct (LatticeNode.successors active) as [children|]; [|discriminate]. simpl.
    apply kept_add_children. now apply kept_popped.
  - intros [= <-]. now apply kept_popped.
Qed.

(** The loop of the search stays within the lattices of the search. *)
Lemma resolve_all_searched root spurious rounds fuel : forall L L',
  searched root spurious L -> RuleLattice.resolve_all rounds fuel L = Some L' ->
  searched root spurious L'.
Proof.
  induction rounds as [|rounds IH]; simpl; intros L L' HS H.
  - destruct (RuleLattice.active_node L); [discriminate|]. now injection H as <-.
  - destruct (RuleLattice.active_node L).
    + destruct (RuleLattice.resolve_node fuel L) as [L1|] eqn:E; [|discriminate].
      simpl in H. eapply IH; [|exact H]. eapply searched_resolve; eauto.
    + now injection H as <-.
Qed.

(** X16: Every lattice that a search started with [RuleLattice(root, spurious)]
    goes through, by [resolve_node] and [_add_node], has [root] as its one
    root, with the candidate it was given at the start; every candidate's
    distortion is part of [spurious]; the queue holds only nodes that have a
    candidate with a non-empty distortion; and [root] stays among the seen
    nodes. *)
Theorem search_keeps (root : LatticeNode.t) (spurious : list Transition.t)
    (L : RuleLattice.t) :
  searched root spurious L ->
  RuleLattice._roots L = [root]
  /\ RuleLattice.lookup (RuleLattice._candidates L) root
     = Some (CandidateRule.init root spurious)
  /\ (forall k c, RuleLattice.lookup (RuleLattice._candidates L) k = Some c ->
                  incl (CandidateRule.distortion c) spurious)
  /\ (forall n, In n (RuleLattice._node_queue L) ->
        exists c, RuleLattice.lookup (RuleLattice._candidates L) n = Some c
                  /\ 0 < CandidateRule.amount_of_distortion c)
  /\ RuleLattice.member root (RuleLattice._seen_nodes L) = true.
Proof.
  intros HS.
  assert (HK : kept root spurious L).
  { induction HS as [|L _ IH|L fuel node parent L' r _ IH Hadd|L fuel L' _ IH Hres].
    - apply kept_init.
    - now apply kept_popped.
    - eapply kept_add_node; eauto.
    - eapply kept_resolve_node; eauto. }
  destruct HK as ((Hr & Hc & Hd) & Hq & Hs). auto.
Qed.

End SearchInvariant.

Section SearchInvariantRun.
Import PyData Mod Examples.
#[local] Existing Instance Exhaustive.oracle.

(** The example lattice after its first registration, and after the whole
    search: the root is still the root the lattice was made with, under the
    candidate made from the spurious transition. *)
Lemma search_keeps_witness :
  (RuleLattice._roots (fst first_registration) = [root_node]
   /\ RuleLattice.lookup (RuleLattice._candidates (fst first_registration)) root_node
      = Some (CandidateRule.init root_node [spurious_AD]))
  /\ exists L, RuleLattice.resolve_all 8 8 root_lattice = Some L
               /\ RuleLattice._roots L = [root_node]
               /\ RuleLattice.lookup (RuleLattice._candidates L) root_node
                  = Some (CandidateRule.init root_node [spurious_AD]).
Proof.
  assert (H : @RuleLattice._add_node Exhaustive.oracle 4 root_lattice first_child root_node
              = Some (fst first_registration, Some first_candidate))
    by (vm_compute; reflexivity).
  split.
  - destruct (@search_keeps Exhaustive.oracle root_node [spurious_AD] _
                (searched_add root_node [spurious_AD] root_lattice 4 first_child root_node _ _
                   (searched_init root_node [spurious_AD]) H))
      as (H1 & H2 & _).
    auto.
  - destruct (RuleLattice.resolve_all 8 8 root_lattice) as [L|] eqn:E;
      [|vm_compute in E; discriminate].
    exists L. split; [reflexivity|].
    destruct (@search_keeps Exhaustive.oracle root_node [spurious_AD] L
                (resolve_all_searched root_node [spurious_AD] 8 8 root_lattice L
                   (searched_init root_node [spurious_AD]) E))
      as (H1 & H2 & _).
    auto.
Defined.

End SearchInvariantRun.

Section MergeFacts.
Import PyData Mod.














End MergeFacts.

Section MergeRun.
Import PyData Mod Examples.
#[local] Existing Instance Exhaustive.oracle.


End MergeRun.

(** * More on the rule builder: the three sections *)

Section BuilderSections.
Import PyData.
Import RuleBuilder.

Lemma has_element_find s x : has_element s x = false <-> find_label s x = None.
Proof. unfold has_element. destruct (find_label s x); split; congruence. Qed.

Lemma has_element_find_some s x :
  has_element s x = true <-> exists l, find_label s x = Some l.
Proof.
  unfold has_element. destruct (find_label s x) as [l|]; split; try congruence; eauto.
  intros [l' H]. discriminate.
Qed.

(** What [_add_side_element] does to the labels: the element gets [label]
    on the side, keeps its label on the opposite side, is in the context
    exactly when the two agree, and no other element is touched. *)
Lemma add_side_element_labels x label c s o :
  (has_element c x = true -> has_element s x = false /\ has_element o x = false) ->
  let '(c', s', o') := _add_side_element x label c s o in
  (match find_label s' x with Some v => Some v | None => find_label c' x end = Some label)
  /\ (match find_label o' x with Some v => Some v | None => find_label c' x end
      = match find_label o x with Some v => Some v | None => find_label c x end)
  /\ (has_element c' x = true
      <-> match find_label o x with Some v => Some v | None => find_label c x end = Some label)
  /\ (has_element c' x = true -> has_element s' x = false /\ has_element o' x = false)
  /\ (forall y, y <> x ->
        find_label c' y = find_label c y /\ find_label s' y = find_label s y
        /\ find_label o' y = find_label o y).
Proof.
  intros Hsep. unfold _add_side_element.
  assert (Hne : forall y, y <> x -> element_eqb x y = false)
    by (intros y Hy; apply element_eqb_neq; congruence).
  destruct (find_label c x) as [cl|] eqn:Ec.
  - destruct (Hsep (has_find _ _ _ Ec)) as [Hs Ho].
    apply has_element_find in Hs, Ho.
    destruct (String.eqb_spec cl label) as [->|Hl].
    + rewrite ?Hs, ?Ho, ?Ec. split; [reflexivity|]. split; [reflexivity|].
      split; [split; [reflexivity|intros _; now apply (has_find _ _ label)]|].
      split; [intros _; split; now apply has_element_find|]. auto.
    + rewrite ?find_label_add, ?find_label_remove, ?element_eqb_refl, ?Ho.
      split; [reflexivity|]. split; [reflexivity|].
      split; [|split].
      * rewrite has_remove, element_eqb_refl. simpl. split; [discriminate|congruence].
      * rewrite has_remove, element_eqb_refl. discriminate.
      * intros y Hy. rewrite !find_label_add, find_label_remove, (Hne y Hy). auto.
  - destruct (find_label o x) as [ol|] eqn:Eo.
    + destruct (String.eqb_spec ol label) as [->|Hl].
      * rewrite ?find_label_add, ?find_label_remove, ?element_eqb_refl.
        assert (Hs' : find_label (if has_element s x then remove_element s x else s) x = None).
        { destruct (has_element s x) eqn:Hs.
          - now rewrite find_label_remove, element_eqb_refl.
          - now apply has_element_find. }
        rewrite Hs'. split; [reflexivity|]. split; [reflexivity|].
        split; [rewrite has_add, element_eqb_refl; tauto|].
        split.
        -- intros _. split; [now apply has_element_find|].
           rewrite has_remove, element_eqb_refl. reflexivity.
        -- intros y Hy. rewrite find_label_add, find_label_remove, (Hne y Hy).
           split; [reflexivity|]. split; [|reflexivity].
           destruct (has_element s x); [|reflexivity].
           now rewrite find_label_remove, (Hne y Hy).
      * rewrite ?find_label_add, ?element_eqb_refl, ?Eo, ?Ec.
        split; [reflexivity|]. split; [reflexivity|].
        assert (Hc : has_element c x = false) by now apply has_element_find.
        rewrite Hc. split; [split; [discriminate|congruence]|].
        split; [discriminate|].
        intros y Hy. rewrite find_label_add, (Hne y Hy). auto.
    + rewrite ?find_label_add, ?element_eqb_refl, ?Eo, ?Ec.
      split; [reflexivity|]. split; [reflexivity|].
      assert (Hc : has_element c x = false) by now apply has_element_find.
      rewrite Hc. split; [split; discriminate|].
      split; [discriminate|].
      intros y Hy. rewrite find_label_add, (Hne y Hy). auto.
Qed.

Lemma separated_at b x :
  separated b ->
  has_element (_context b) x = true ->
  has_element (_left b) x = false /\ has_element (_right b) x = false.
Proof. intros H. apply H. Qed.

Lemma has_element_ext s s' y :
  find_label s' y = find_label s y -> has_element s' y = has_element s y.
Proof. unfold has_element. now intros ->. Qed.

(** [_add_left_element] on a builder with separate sections. *)
Lemma add_left_element_labels b x label :
  separated b ->
  let b' := _add_left_element b x label in
  left_label b' x = Some label
  /\ right_label b' x = right_label b x
  /\ (has_element (_context b') x = true <-> right_label b x = Some label)
  /\ (forall y, y <> x -> left_label b' y = left_label b y
                          /\ right_label b' y = right_label b y)
  /\ separated b'.
Proof.
  intros Hsep. cbv zeta. unfold _add_left_element, left_label, right_label.
  pose proof (add_side_element_labels x label (_context b) (_left b) (_right b)
                (separated_at b x Hsep)) as H.
  destruct (_add_side_element x label (_context b) (_left b) (_right b)) as [[c' s'] o'].
  destruct H as (H1 & H2 & H3 & H4 & H5). simpl.
  split; [exact H1|]. split; [exact H2|]. split; [exact H3|]. split.
  - intros y Hy. destruct (H5 y Hy) as (-> & -> & ->). auto.
  - intros y Hy. simpl in *. destruct (element_eqb_eq y x) as [_ Hyx].
    destruct (element_eqb y x) eqn:E.
    + apply element_eqb_eq in E. subst y. destruct (H4 Hy). auto.
    + assert (Hne : y <> x) by (intros ->; now rewrite element_eqb_refl in E).
      destruct (H5 y Hne) as (Ec & Es & Eo).
      rewrite (has_element_ext _ _ _ Ec) in Hy.
      rewrite (has_element_ext _ _ _ Es), (has_element_ext _ _ _ Eo).
      now apply Hsep.
Qed.

Lemma add_right_element_labels b x label :
  separated b ->
  let b' := _add_right_element b x label in
  right_label b' x = Some label
  /\ left_label b' x = left_label b x
  /\ (has_element (_context b') x = true <-> left_label b x = Some label)
  /\ (forall y, y <> x -> left_label b' y = left_label b y
                          /\ right_label b' y = right_label b y)
  /\ separated b'.
Proof.
  intros Hsep. cbv zeta. unfold _add_right_element, left_label, right_label.
  assert (Hx : has_element (_context b) x = true ->
               has_element (_right b) x = false /\ has_element (_left b) x = false)
    by (intros H; destruct (Hsep x H); auto).
  pose proof (add_side_element_labels x label (_context b) (_right b) (_left b) Hx) as H.
  destruct (_add_side_element x label (_context b) (_right b) (_left b)) as [[c' s'] o'].
  destruct H as (H1 & H2 & H3 & H4 & H5). simpl.
  split; [exact H1|]. split; [exact H2|]. split; [exact H3|]. split.
  - intros y Hy. destruct (H5 y Hy) as (-> & -> & ->). auto.
  - intros y Hy. simpl in *.
    destruct (element_eqb y x) eqn:E.
    + apply element_eqb_eq in E. subst y. destruct (H4 Hy). auto.
    + assert (Hne : y <> x) by (intros ->; now rewrite element_eqb_refl in E).
      destruct (H5 y Hne) as (Ec & Es & Eo).
      rewrite (has_element_ext _ _ _ Ec) in Hy.
      rewrite (has_element_ext _ _ _ Es), (has_element_ext _ _ _ Eo).
      destruct (Hsep y Hy). auto.
Qed.

(** X18: Adding the left and the right label of a vertex, on a builder whose
    context and side sections are separate: the loaded rule has the new
    label on the side it was added to and the old label on the other side;
    the vertex is kept in the context section exactly when the two labels
    agree; no other element changes; and the sections stay separate. *)
Theorem add_vertex_labels (b : RuleBuilder.t) (id : Vertex) (label : string) :
  separated b ->
  (left_label (add_left_vertex b id label) (Node id) = Some label
   /\ right_label (add_left_vertex b id label) (Node id) = right_label b (Node id)
   /\ (has_element (_context (add_left_vertex b id label)) (Node id) = true
       <-> right_label b (Node id) = Some label)
   /\ (forall y, y <> Node id ->
         left_label (add_left_vertex b id label) y = left_label b y
         /\ right_label (add_left_vertex b id label) y = right_label b y)
   /\ separated (add_left_vertex b id label))
  /\ (right_label (add_right_vertex b id label) (Node id) = Some label
      /\ left_label (add_right_vertex b id label) (Node id) = left_label b (Node id)
      /\ (has_element (_context (add_right_vertex b id label)) (Node id) = true
          <-> left_label b (Node id) = Some label)
      /\ (forall y, y <> Node id ->
            left_label (add_right_vertex b id label) y = left_label b y
            /\ right_label (add_right_vertex b id label) y = right_label b y)
      /\ separated (add_right_vertex b id label)).
Proof.
  intros Hsep. split.
  - exact (add_left_element_labels b (Node id) label Hsep).
  - exact (add_right_element_labels b (Node id) label Hsep).
Qed.

Lemma separated_init name : separated (init name).
Proof. intros x H. discriminate. Qed.

(** A vertex given the same label on both sides ends in the context. *)
Lemma add_vertex_labels_witness :
  has_element (_context (add_right_vertex (add_left_vertex (init "r") 0 "C") 0 "C")) (Node 0)
  = true
  /\ left_label (add_right_vertex (add_left_vertex (init "r") 0 "C") 0 "N") (Node 0)
     = Some "C".
Proof.
  assert (S0 : separated (init "r")) by apply separated_init.
  destruct (add_vertex_labels (init "r") 0 "C" S0) as [(L1 & _ & _ & _ & S1) _].
  split.
  - apply (proj1 (proj2 (proj2 (proj2 (add_vertex_labels _ 0 "C" S1))))). exact L1.
  - rewrite (proj1 (proj2 (proj2 (add_vertex_labels _ 0 "N" S1)))). exact L1.
Defined.


Lemma find_edge_vertex_step ctx tg v y :
  find_label (edge_vertex_step [ctx] tg v) y
  = if element_eqb (Node v) y && negb (has_element tg (Node v))
       && negb (has_element ctx (Node v))
    then Some "*"%string else find_label tg y.
Proof.
  unfold edge_vertex_step. cbn [List.length Nat.eqb existsb orb]. rewrite orb_false_r.
  destruct (has_element tg (Node v)) eqn:Ht, (has_element ctx (Node v)) eqn:Hc;
    cbn [negb andb]; rewrite ?andb_false_r, ?andb_true_r; try reflexivity.
  apply find_label_add.
Qed.

Lemma side_with_end ctx tg v y :
  match find_label (edge_vertex_step [ctx] tg v) y with
  | Some l => Some l
  | None => find_label ctx y
  end
  = match match find_label tg y with Some l => Some l | None => find_label ctx y end with
    | Some l => Some l
    | None => if element_eqb (Node v) y then Some "*"%string else None
    end.
Proof.
  rewrite find_edge_vertex_step. destruct (element_eqb (Node v) y) eqn:E.
  - apply element_eqb_eq in E. subst y. unfold has_element.
    destruct (find_label tg (Node v)); cbn [negb andb]; [reflexivity|].
    destruct (find_label ctx (Node v)); reflexivity.
  - cbn [andb]. destruct (find_label tg y); [reflexivity|].
    destruct (find_label ctx y); reflexivity.
Qed.

(** The side section after its missing end vertices were added: an end
    vertex without a label on this side (in the section or in the context)
    gets the wildcard, nothing else changes. *)
Lemma side_with_ends ctx tg a c y :
  match find_label (_add_edge_vertices (Edge a c) tg [ctx]) y with
  | Some l => Some l
  | None => find_label ctx y
  end
  = match match find_label tg y with Some l => Some l | None => find_label ctx y end with
    | Some l => Some l
    | None => if element_eqb (Node a) y || element_eqb (Node c) y
              then Some "*"%string else None
    end.
Proof.
  rewrite add_edge_vertices_steps, side_with_end, side_with_end.
  destruct (match find_label tg y with Some l => Some l | None => find_label ctx y end);
    [reflexivity|].
  destruct (element_eqb (Node a) y), (element_eqb (Node c) y); reflexivity.
Qed.

(** The added end vertices are not in the context. *)
Lemma ends_outside_context ctx tg a c y :
  has_element ctx y = true ->
  has_element (_add_edge_vertices (Edge a c) tg [ctx]) y = has_element tg y.
Proof.
  intros Hc. rewrite add_edge_vertices_steps. unfold has_element.
  rewrite !find_edge_vertex_step.
  destruct (element_eqb (Node c) y) eqn:Ec.
  - apply element_eqb_eq in Ec. subst y. rewrite Hc, !andb_false_r.
    destruct (element_eqb (Node a) (Node c)) eqn:Ea; [|reflexivity].
    apply element_eqb_eq in Ea. rewrite Ea, Hc, !andb_false_r. reflexivity.
  - cbn [andb]. destruct (element_eqb (Node a) y) eqn:Ea; [|reflexivity].
    apply element_eqb_eq in Ea. subst y. now rewrite Hc, !andb_false_r.
Qed.

Lemma EdgeTuple_cases s t_ :
  (EdgeTuple s t_ = Edge s t_) \/ (EdgeTuple s t_ = Edge t_ s).
Proof. unfold EdgeTuple. destruct (Nat.ltb t_ s); auto. Qed.

Lemma add_left_edge_spec (b : RuleBuilder.t) (source target : Vertex) (label : string) :
  separated b ->
  let b' := add_left_edge b source target label in
  left_label b' (EdgeTuple source target) = Some label
  /\ right_label b' (EdgeTuple source target) = right_label b (EdgeTuple source target)
  /\ (forall v,
        left_label b' (Node v)
        = match left_label b (Node v) with
          | Some l => Some l
          | None => if Nat.eqb v source || Nat.eqb v target then Some "*"%string else None
          end)
  /\ (forall v, right_label b' (Node v) = right_label b (Node v))
  /\ separated b'.
Proof.
  intros Hsep. cbv zeta. unfold add_left_edge.
  set (e := EdgeTuple source target).
  set (b1 := mk (_id b) (_add_edge_vertices e (_left b) [_context b]) (_context b) (_right b)).
  assert (He : exists a c, e = Edge a c
                           /\ forall v, Nat.eqb v source || Nat.eqb v target
                                        = Nat.eqb a v || Nat.eqb c v).
  { unfold e. destruct (EdgeTuple_cases source target) as [-> | ->]; do 2 eexists;
      (split; [reflexivity|]); intros v;
      rewrite (Nat.eqb_sym v source), (Nat.eqb_sym v target); [reflexivity|apply orb_comm]. }
  destruct He as (a & c & Ee & Hends).
  assert (S1 : separated b1).
  { intros y Hy. simpl in *. rewrite Ee, (ends_outside_context _ _ _ _ _ Hy). now apply Hsep. }
  assert (L1 : forall y, left_label b1 y
                         = match left_label b y with
                           | Some l => Some l
                           | None => if element_eqb (Node a) y || element_eqb (Node c) y
                                     then Some "*"%string else None
                           end).
  { intros y. unfold left_label, b1. simpl. rewrite Ee. apply side_with_ends. }
  assert (R1 : forall y, right_label b1 y = right_label b y) by reflexivity.
  destruct (add_left_element_labels b1 e label S1) as (H1 & H2 & _ & H4 & H5).
  cbv zeta in H1, H2, H4, H5.
  split; [exact H1|]. split; [now rewrite H2, R1|]. split; [|split; [|exact H5]].
  - intros v. assert (Hne : Node v <> e) by (rewrite Ee; discriminate).
    rewrite (proj1 (H4 _ Hne)), L1, Hends. reflexivity.
  - intros v. assert (Hne : Node v <> e) by (rewrite Ee; discriminate).
    now rewrite (proj2 (H4 _ Hne)), R1.
Qed.

Lemma add_right_edge_spec (b : RuleBuilder.t) (source target : Vertex) (label : string) :
  separated b ->
  let b' := add_right_edge b source target label in
  right_label b' (EdgeTuple source target) = Some label
  /\ left_label b' (EdgeTuple source target) = left_label b (EdgeTuple source target)
  /\ (forall v,
        right_label b' (Node v)
        = match right_label b (Node v) with
          | Some l => Some l
          | None => if Nat.eqb v source || Nat.eqb v target then Some "*"%string else None
          end)
  /\ (forall v, left_label b' (Node v) = left_label b (Node v))
  /\ separated b'.
Proof.
  intros Hsep. cbv zeta. unfold add_right_edge.
  set (e := EdgeTuple source target).
  set (b1 := mk (_id b) (_left b) (_context b) (_add_edge_vertices e (_right b) [_context b])).
  assert (He : exists a c, e = Edge a c
                           /\ forall v, Nat.eqb v source || Nat.eqb v target
                                        = Nat.eqb a v || Nat.eqb c v).
  { unfold e. destruct (EdgeTuple_cases source target) as [-> | ->]; do 2 eexists;
      (split; [reflexivity|]); intros v;
      rewrite (Nat.eqb_sym v source), (Nat.eqb_sym v target); [reflexivity|apply orb_comm]. }
  destruct He as (a & c & Ee & Hends).
  assert (S1 : separated b1).
  { intros y Hy. simpl in *. rewrite Ee, (ends_outside_context _ _ _ _ _ Hy). now apply Hsep. }
  assert (R1 : forall y, right_label b1 y
                         = match right_label b y with
                           | Some l => Some l
                           | None => if element_eqb (Node a) y || element_eqb (Node c) y
                                     then Some "*"%string else None
                           end).
  { intros y. unfold right_label, b1. simpl. rewrite Ee. apply side_with_ends. }
  assert (L1 : forall y, left_label b1 y = left_label b y) by reflexivity.
  destruct (add_right_element_labels b1 e label S1) as (H1 & H2 & _ & H4 & H5).
  cbv zeta in H1, H2, H4, H5.
  split; [exact H1|]. split; [now rewrite H2, L1|]. split; [|split; [|exact H5]].
  - intros v. assert (Hne : Node v <> e) by (rewrite Ee; discriminate).
    rewrite (proj2 (H4 _ Hne)), R1, Hends. reflexivity.
  - intros v. assert (Hne : Node v <> e) by (rewrite Ee; discriminate).
    now rewrite (proj1 (H4 _ Hne)), L1.
Qed.

(** X19: Adding a left or a right edge on a builder with separate sections: the
    edge gets its label on that side and keeps its label on the other; an
    end vertex that has no label on that side yet gets the wildcard there;
    no other label of a vertex changes; and the sections stay separate. *)
Theorem add_edge_labels (b : RuleBuilder.t) (source target : Vertex) (label : string) :
  separated b ->
  (let b' := add_left_edge b source target label in
   left_label b' (EdgeTuple source target) = Some label
   /\ right_label b' (EdgeTuple source target) = right_label b (EdgeTuple source target)
   /\ (forall v,
         left_label b' (Node v)
         = match left_label b (Node v) with
           | Some l => Some l
           | None => if Nat.eqb v source || Nat.eqb v target then Some "*"%string else None
           end)
   /\ (forall v, right_label b' (Node v) = right_label b (Node v))
   /\ separated b')
  /\ (let b' := add_right_edge b source target label in
      right_label b' (EdgeTuple source target) = Some label
      /\ left_label b' (EdgeTuple source target) = left_label b (EdgeTuple source target)
      /\ (forall v,
            right_label b' (Node v)
            = match right_label b (Node v) with
              | Some l => Some l
              | None => if Nat.eqb v source || Nat.eqb v target then Some "*"%string else None
              end)
      /\ (forall v, left_label b' (Node v) = left_label b (Node v))
      /\ separated b').
Proof.
  intros Hsep. split; [now apply add_left_edge_spec|now apply add_right_edge_spec].
Qed.

(** A left edge between a vertex of the left side and a vertex not added
    yet: the missing end becomes a wildcard on the left. *)
Lemma add_edge_labels_witness :
  separated (add_left_vertex (init "r") 0 "C")
  /\ left_label (add_left_edge (add_left_vertex (init "r") 0 "C") 0 1 "-") (Node 1) = Some "*"
  /\ left_label (add_left_edge (add_left_vertex (init "r") 0 "C") 0 1 "-") (Node 0) = Some "C".
Proof.
  assert (S1 : separated (add_left_vertex (init "r") 0 "C"))
    by exact (proj2 (proj2 (proj2 (proj2
                (add_left_element_labels (init "r") (Node 0) "C" (separated_init "r")))))).
  split; [exact S1|]. split.
  - rewrite (proj1 (proj2 (proj2 (proj1 (add_edge_labels _ 0 1 "-" S1)))) 1). reflexivity.
  - rewrite (proj1 (proj2 (proj2 (proj1 (add_edge_labels _ 0 1 "-" S1)))) 0). reflexivity.
Defined.

(** X20: Adding a context vertex on a builder with separate sections: the vertex
    gets the label on both sides, whatever labels it had; no other element
    changes; and the sections stay separate. *)
Theorem add_context_vertex_labels (b : RuleBuilder.t) (id : Vertex) (label : string) :
  separated b ->
  let b' := add_context_vertex b id label in
  left_label b' (Node id) = Some label
  /\ right_label b' (Node id) = Some label
  /\ (forall y, y <> Node id ->
        left_label b' y = left_label b y /\ right_label b' y = right_label b y)
  /\ separated b'.
Proof.
  intros Hsep. cbv zeta. unfold add_context_vertex, _add_context_element.
  set (x := Node id).
  assert (Hne : forall y, y <> x -> element_eqb x y = false)
    by (intros y Hy; apply element_eqb_neq; congruence).
  assert (Hrem : forall s y,
             find_label (if has_element s x then remove_element s x else s) y
             = if element_eqb x y then None else find_label s y).
  { intros s y. destruct (has_element s x) eqn:Hs.
    - apply find_label_remove.
    - destruct (element_eqb x y) eqn:E; [|reflexivity].
      apply element_eqb_eq in E. subst y. now apply has_element_find. }
  unfold left_label, right_label. cbn [_left _right _context].
  rewrite !Hrem, !find_label_add, !element_eqb_refl.
  split; [reflexivity|]. split; [reflexivity|]. split.
  - intros y Hy. now rewrite !Hrem, !find_label_add, (Hne y Hy).
  - intros y Hy. cbn [_left _right _context] in *. unfold has_element in *.
    rewrite !Hrem. rewrite find_label_add in Hy.
    destruct (element_eqb x y) eqn:E; [auto|].
    destruct (Hsep y Hy) as [Hl Hr]. unfold has_element in Hl, Hr. auto.
Qed.

(** A vertex of the left side made a context vertex. *)
Lemma add_context_vertex_labels_witness :
  separated (add_left_vertex (init "r") 0 "C")
  /\ left_label (add_context_vertex (add_left_vertex (init "r") 0 "C") 0 "N") (Node 0)
     = Some "N"
  /\ right_label (add_context_vertex (add_left_vertex (init "r") 0 "C") 0 "N") (Node 0)
     = Some "N".
Proof.
  assert (S1 : separated (add_left_vertex (init "r") 0 "C"))
    by exact (proj2 (proj2 (proj2 (proj2
                (add_left_element_labels (init "r") (Node 0) "C" (separated_init "r")))))).
  split; [exact S1|].
  destruct (add_context_vertex_labels _ 0 "N" S1) as (H1 & H2 & _). auto.
Defined.

End BuilderSections.

(** * The [networkx] view of a pattern, and embeddings *)

Section NxView.
Import PyData Mod.

Ltac eqb_cases :=
  repeat match goal with
  | |- context [Nat.eqb ?a ?b] => destruct (Nat.eqb_spec a b); subst
  | H : context [Nat.eqb ?a ?b] |- _ => destruct (Nat.eqb_spec a b); subst
  end; simpl in *; try congruence; try reflexivity.

Lemma joins_swap u v a b l l' : NX.joins u v (a, b, l) = NX.joins a b (u, v, l').
Proof. unfold NX.joins. eqb_cases. Qed.

(** [g.edges[x, y]["label"]] after [g.add_edge(u, v, label=label)]. *)
Lemma edge_label_add_edge g u v label x y :
  NX.edge_label (NX.add_edge g u v label) x y
  = if NX.joins x y (u, v, label) then Some label else NX.edge_label g x y.
Proof.
  unfold NX.edge_label, NX.add_edge. simpl NX.edges.
  induction (NX.edges g) as [|e es IH].
  - cbn [NX.set_edge_in find]. destruct (NX.joins x y (u, v, label)); reflexivity.
  - cbn [NX.set_edge_in]. destruct e as [[a b] l]. cbn [fst snd].
    destruct (NX.joins u v (a, b, l)) eqn:J; cbn [find].
    + remember (find (NX.joins x y) es) as F. clear IH HeqF.
      unfold NX.joins in *. eqb_cases.
    + remember (find (NX.joins x y) es) as F.
      remember (find (NX.joins x y) (NX.set_edge_in es u v label)) as F'.
      clear HeqF HeqF'.
      destruct (NX.joins x y (a, b, l)) eqn:J1.
      * assert (J2 : NX.joins x y (u, v, label) = false)
          by (clear IH; unfold NX.joins in *; eqb_cases).
        now rewrite J2.
      * exact IH.
Qed.

Lemma set_edge_in_ends es u v label e :
  In e (NX.set_edge_in es u v label) ->
  (exists e0, In e0 es /\ fst e = fst e0) \/ e = (u, v, label).
Proof.
  induction es as [|e0 es IH]; simpl.
  - intros [<-|[]]. now right.
  - destruct e0 as [[a b] l]. cbn [fst snd]. destruct (NX.joins u v (a, b, l)).
    + intros [<-|H]; left; [exists (a, b, l)|exists e]; simpl; auto.
    + intros [<-|H]; [left; exists (a, b, l); simpl; auto|].
      destruct (IH H) as [(e1 & H1 & E)|E]; [left; exists e1; auto|now right].
Qed.

Lemma joins_fst x y e e' : fst e = fst e' -> NX.joins x y e = NX.joins x y e'.
Proof. destruct e as [[a b] l], e' as [[a' b'] l']. simpl. now intros [= -> ->]. Qed.

Lemma set_edge_in_simple es u v label :
  edges_simple es -> edges_simple (NX.set_edge_in es u v label).
Proof.
  induction es as [|e es IH]; simpl.
  - intros _. split; [intros e' []|exact I].
  - intros [Hall Hs]. destruct (NX.joins u v e) eqn:J; simpl.
    + split; [exact Hall|exact Hs].
    + split; [|now apply IH].
      intros e' He'. destruct (set_edge_in_ends _ _ _ _ _ He') as [(e1 & H1 & E) | ->].
      * rewrite (joins_fst _ _ _ _ E). now apply Hall.
      * destruct e as [[a b] l]. simpl fst. simpl snd.
        rewrite (joins_swap a b u v label l). exact J.
Qed.

Lemma set_edge_in_labels (P : string -> Prop) es u v label :
  (forall e, In e es -> P (snd e)) -> P label ->
  forall e, In e (NX.set_edge_in es u v label) -> P (snd e).
Proof.
  intros Hall Hl. induction es as [|e0 es IH]; simpl.
  - intros e [<-|[]]. exact Hl.
  - destruct (NX.joins u v e0).
    + intros e [<-|H]; [exact Hl|]. apply Hall. now right.
    + intros e [<-|H]; [apply Hall; now left|].
      apply IH; [|exact H]. intros e1 H1. apply Hall. now right.
Qed.

Lemma set_node_in_ids l n label :
  map fst (NX.set_node_in l n label)
  = if NX.mem n (map fst l) then map fst l else map fst l ++ [n].
Proof.
  induction l as [|[m old] l IH]; simpl; [reflexivity|].
  unfold NX.mem in *. simpl. rewrite (Nat.eqb_sym n m).
  destruct (Nat.eqb m n) eqn:E; simpl.
  - apply Nat.eqb_eq in E. now subst.
  - rewrite IH. now destruct (existsb (Nat.eqb n) (map fst l)).
Qed.

Lemma add_node_ids nx n label :
  NoDup (NX.node_ids nx) ->
  NoDup (NX.node_ids (NX.add_node nx n label))
  /\ forall m, In m (NX.node_ids (NX.add_node nx n label)) <-> In m (NX.node_ids nx) \/ m = n.
Proof.
  intros ND. unfold NX.node_ids, NX.add_node. simpl. rewrite set_node_in_ids.
  destruct (NX.mem n (map fst (NX.nodes nx))) eqn:E.
  - split; [exact ND|]. intros m. apply mem_In in E. split; [tauto|].
    intros [H | ->]; auto.
  - split.
    + apply NoDup_app; [exact ND|repeat constructor; simpl; tauto|].
      intros m Hm [<-|[]]. apply mem_In in Hm. congruence.
    + intros m. rewrite in_app_iff. simpl. intuition.
Qed.

Lemma fold_add_nodes vs : forall nx,
  NoDup (NX.node_ids nx) ->
  let nx' := fold_left (fun nx v => NX.add_node nx (vid v) (vlabel v)) vs nx in
  NoDup (NX.node_ids nx')
  /\ (forall m, In m (NX.node_ids nx') <-> In m (NX.node_ids nx) \/ In m (map vid vs))
  /\ NX.edges nx' = NX.edges nx.
Proof.
  induction vs as [|v vs IH]; intros nx ND; cbv zeta; simpl.
  - split; [exact ND|]. split; [tauto|reflexivity].
  - destruct (add_node_ids nx (vid v) (vlabel v) ND) as [ND1 H1].
    destruct (IH _ ND1) as (ND2 & H2 & E2). cbv zeta in ND2, H2, E2.
    split; [exact ND2|]. split; [|exact E2].
    intros m. rewrite H2, H1. intuition.
Qed.

(** The loop of [graph_to_nx_graph] over the edges. *)
Lemma fold_add_edges es : forall nx,
  edges_simple (NX.edges nx) ->
  (forall e, In e (NX.edges nx) -> snd e <> "no_edge"%string) ->
  let nx' := fold_left (fun nx e => if String.eqb (elabel e) "no_edge" then nx
                                    else NX.add_edge nx (source e) (target e) (elabel e))
                       es nx in
  NX.nodes nx' = NX.nodes nx
  /\ edges_simple (NX.edges nx')
  /\ (forall e, In e (NX.edges nx') -> snd e <> "no_edge"%string)
  /\ (forall u v,
        NX.edge_label nx' u v <> None
        <-> NX.edge_label nx u v <> None
            \/ exists e, In e es /\ elabel e <> "no_edge"%string
                         /\ NX.joins u v (source e, target e, elabel e) = true).
Proof.
  induction es as [|e es IH]; intros nx Hs Hl; cbv zeta; simpl.
  - split; [reflexivity|]. split; [exact Hs|]. split; [exact Hl|].
    intros u v. split; [tauto|]. intros [H|(e & [] & _)]. exact H.
  - destruct (String.eqb_spec (elabel e) "no_edge") as [E|E].
    + destruct (IH nx Hs Hl) as (N & S' & L' & X). cbv zeta in N, S', L', X.
      split; [exact N|]. split; [exact S'|]. split; [exact L'|].
      intros u v. rewrite X. split.
      * intros [H|(e' & H1 & H2)]; [now left|right; exists e'; tauto].
      * intros [H|(e' & [<-|H1] & H2 & H3)]; [now left|congruence|].
        right. exists e'. tauto.
    + assert (Hs1 : edges_simple (NX.edges (NX.add_edge nx (source e) (target e) (elabel e))))
        by now apply set_edge_in_simple.
      assert (Hl1 : forall e', In e' (NX.edges (NX.add_edge nx (source e) (target e)
                                                            (elabel e))) ->
                               snd e' <> "no_edge"%string)
        by (apply (set_edge_in_labels (fun l => l <> "no_edge"%string)); assumption).
      destruct (IH _ Hs1 Hl1) as (N & S' & L' & X). cbv zeta in N, S', L', X.
      split; [exact N|]. split; [exact S'|]. split; [exact L'|].
      intros u v. rewrite X, edge_label_add_edge. split.
      * intros [H|(e' & H1 & H2)]; [|right; exists e'; tauto].
        destruct (NX.joins u v (source e, target e, elabel e)) eqn:J; [|now left].
        right. exists e. split; [now left|]. split; [exact E|exact J].
      * intros [H|(e' & [<-|H1] & H2 & H3)].
        -- left. now destruct (NX.joins u v (source e, target e, elabel e)).
        -- left. unfold NX.joins. rewrite H3. discriminate.
        -- right. exists e'. tauto.
Qed.

Lemma fold_add_edges_ends (Q : Vertex * Vertex -> Prop) es : forall nx,
  (forall e, In e (NX.edges nx) -> Q (fst e)) ->
  (forall e0, In e0 es -> Q (source e0, target e0)) ->
  forall e, In e (NX.edges (fold_left
                              (fun nx e => if String.eqb (elabel e) "no_edge" then nx
                                           else NX.add_edge nx (source e) (target e) (elabel e))
                              es nx)) -> Q (fst e).
Proof.
  induction es as [|e0 es IH]; intros nx Hnx Hes; simpl; [exact Hnx|].
  apply IH; [|intros e1 H1; apply Hes; now right].
  destruct (String.eqb (elabel e0) "no_edge"); [exact Hnx|].
  intros e He. simpl in He.
  destruct (set_edge_in_ends _ _ _ _ _ He) as [(e1 & H1 & E) | ->].
  - rewrite E. now apply Hnx.
  - simpl. apply Hes. now left.
Qed.

(** Between vertices: the edges of the [networkx] graph of a [mod] graph. *)
Lemma nx_edge_ends g a b l :
  ends_are_vertices g ->
  In (a, b, l) (NX.edges (RuleGraph.graph_to_nx_graph g)) ->
  In a (vertex_ids g) /\ In b (vertex_ids g).
Proof.
  intros Hg Hi. unfold RuleGraph.graph_to_nx_graph in Hi.
  apply (fold_add_edges_ends (fun ab => In (fst ab) (vertex_ids g) /\ In (snd ab) (vertex_ids g)))
    in Hi; [exact Hi| |exact Hg].
  destruct (fold_add_nodes (vertices g) NX.empty (NoDup_nil _)) as (_ & _ & He).
  cbv zeta in He. rewrite He. intros e [].
Qed.

Lemma has_edge_label g u v : NX.has_edge g u v = true <-> NX.edge_label g u v <> None.
Proof.
  unfold NX.has_edge, NX.edge_label. induction (NX.edges g) as [|e es IH]; simpl.
  - split; [discriminate|congruence].
  - destruct (NX.joins u v e); simpl; [|exact IH].
    destruct e as [[a b] l]. split; [discriminate|reflexivity].
Qed.

Lemma nx_nodes g :
  NoDup (NX.node_ids (RuleGraph.graph_to_nx_graph g))
  /\ forall n, In n (NX.node_ids (RuleGraph.graph_to_nx_graph g)) <-> In n (vertex_ids g).
Proof.
  unfold RuleGraph.graph_to_nx_graph.
  destruct (fold_add_nodes (vertices g) NX.empty (NoDup_nil _)) as (ND & Hn & He).
  cbv zeta in ND, Hn, He.
  set (nx0 := fold_left (fun nx v => NX.add_node nx (vid v) (vlabel v)) (vertices g) NX.empty)
    in *.
  assert (Hs0 : edges_simple (NX.edges nx0)) by (rewrite He; exact I).
  assert (Hl0 : forall e, In e (NX.edges nx0) -> snd e <> "no_edge"%string)
    by (rewrite He; intros e []).
  destruct (fold_add_edges (edges g) nx0 Hs0 Hl0) as (N & _).
  cbv zeta in N. unfold NX.node_ids in *. rewrite N.
  split; [exact ND|]. intros n. rewrite Hn. simpl. unfold vertex_ids. tauto.
Qed.

Lemma nx_edges_simple g : edges_simple (NX.edges (RuleGraph.graph_to_nx_graph g)).
Proof.
  unfold RuleGraph.graph_to_nx_graph.
  destruct (fold_add_nodes (vertices g) NX.empty (NoDup_nil _)) as (ND & Hn & He).
  cbv zeta in ND, Hn, He.
  set (nx0 := fold_left (fun nx v => NX.add_node nx (vid v) (vlabel v)) (vertices g) NX.empty)
    in *.
  assert (Hs0 : edges_simple (NX.edges nx0)) by (rewrite He; exact I).
  assert (Hl0 : forall e, In e (NX.edges nx0) -> snd e <> "no_edge"%string)
    by (rewrite He; intros e []).
  destruct (fold_add_edges (edges g) nx0 Hs0 Hl0) as (_ & S' & _). exact S'.
Qed.

(** X21: The [networkx] graph kept for a pattern holds every vertex of the
    pattern and no node twice; it has at most one edge between two nodes and
    no edge labelled ["no_edge"]; two nodes are adjacent in it exactly when
    the pattern has an edge between them that is not labelled ["no_edge"]. *)
Theorem nx_graph_of_pattern (g : Graph) :
  let nx := RuleGraph.graph_to_nx_graph g in
  NoDup (NX.node_ids nx)
  /\ (forall n, In n (vertex_ids g) -> In n (NX.node_ids nx))
  /\ edges_simple (NX.edges nx)
  /\ (forall e, In e (NX.edges nx) -> snd e <> "no_edge"%string)
  /\ (forall u v,
        NX.has_edge nx u v = true
        <-> exists e, In e (edges g) /\ elabel e <> "no_edge"%string
                      /\ NX.joins u v (source e, target e, elabel e) = true).
Proof.
  cbv zeta. unfold RuleGraph.graph_to_nx_graph.
  destruct (fold_add_nodes (vertices g) NX.empty (NoDup_nil _)) as (ND & Hn & He).
  cbv zeta in ND, Hn, He.
  set (nx0 := fold_left (fun nx v => NX.add_node nx (vid v) (vlabel v)) (vertices g) NX.empty)
    in *.
  assert (Hs0 : edges_simple (NX.edges nx0)) by (rewrite He; exact I).
  assert (Hl0 : forall e, In e (NX.edges nx0) -> snd e <> "no_edge"%string)
    by (rewrite He; intros e []).
  destruct (fold_add_edges (edges g) nx0 Hs0 Hl0) as (N & S' & L' & X).
  cbv zeta in N, S', L', X.
  unfold NX.node_ids in *. rewrite N.
  split; [exact ND|]. split; [|split; [exact S'|split; [exact L'|]]].
  - intros n Hi. apply Hn. right. exact Hi.
  - intros u v. rewrite has_edge_label, X. split.
    + intros [H|H]; [|exact H]. exfalso. apply H. unfold NX.edge_label. now rewrite He.
    + intros H. now right.
Qed.

End NxView.

(** * Embeddings of patterns *)

Section Matching.
Import PyStr Labels PyData Mod.

Lemma remove_one_in c l x : NoDup l -> (In x (NX.remove_one c l) <-> In x l /\ x <> c).
Proof.
  induction l as [|a l IH]; simpl; [tauto|].
  intros ND. inversion ND as [|? ? Ha ND']; subst.
  destruct (Nat.eqb_spec a c) as [->|N].
  - split.
    + intros Hx. split; [now right|]. intros ->. contradiction.
    + intros [[->|Hx] Hn]; [congruence|exact Hx].
  - simpl. rewrite (IH ND'). split.
    + intros [->|[Hx Hn]]; [split; [now left|congruence]|split; [now right|exact Hn]].
    + intros [[->|Hx] Hn]; [now left|right; tauto].
Qed.

Lemma remove_one_nodup c l : NoDup l -> NoDup (NX.remove_one c l).
Proof.
  induction l as [|a l IH]; simpl; [auto|].
  intros ND. inversion ND as [|? ? Ha ND']; subst.
  destruct (Nat.eqb a c); [exact ND'|].
  constructor; [|now apply IH].
  intros Hi. apply (remove_one_in c l a ND') in Hi. tauto.
Qed.

(** The matches tried by the matcher: the injective maps from [dom] into
    [cod]. *)
Lemma injections_spec dom : forall cod f,
  NoDup cod ->
  (In f (NX.injections dom cod)
   <-> map fst f = dom /\ NoDup (map snd f) /\ incl (map snd f) cod).
Proof.
  induction dom as [|d dom IH]; intros cod f ND; simpl.
  - split.
    + intros [<-|[]]. simpl. split; [reflexivity|]. split; [constructor|intros x []].
    + intros (E & _). destruct f; [now left|discriminate].
  - rewrite in_flat_map. split.
    + intros (c & Hc & Hf). apply in_map_iff in Hf as (f' & <- & Hf').
      apply (IH _ _ (remove_one_nodup c cod ND)) in Hf' as (E & NDf & Hincl).
      simpl. split; [now rewrite E|]. split.
      * constructor; [|exact NDf]. intros Hi. apply Hincl in Hi.
        apply (remove_one_in c cod c ND) in Hi. tauto.
      * intros x [<-|Hx]; [exact Hc|].
        apply Hincl in Hx. apply (remove_one_in c cod x ND) in Hx. tauto.
    + intros (E & NDf & Hincl). destruct f as [|[d' c] f']; [discriminate|].
      simpl in E, NDf, Hincl. injection E as -> E.
      inversion NDf as [|? ? Hc NDf']; subst.
      exists c. split; [apply Hincl; now left|].
      apply in_map. apply (IH _ _ (remove_one_nodup c cod ND)).
      split; [reflexivity|]. split; [exact NDf'|].
      intros x Hx. apply (remove_one_in c cod x ND). split.
      * apply Hincl. now right.
      * intros ->. contradiction.
Qed.

End Matching.

Section Embeddings.
Import PyStr Labels PyData Mod.

Lemma map_swap_fst (f : list Item) : map fst (map (fun p : Vertex * Vertex => (snd p, fst p)) f) = map snd f.
Proof. rewrite map_map. reflexivity. Qed.

Lemma map_swap_snd (f : list Item) : map snd (map (fun p : Vertex * Vertex => (snd p, fst p)) f) = map fst f.
Proof. rewrite map_map. reflexivity. Qed.

Lemma map_swap_invol (f : list Item) : map (fun p : Vertex * Vertex => (snd p, fst p)) (map (fun p : Vertex * Vertex => (snd p, fst p)) f) = f.
Proof.
  rewrite map_map. rewrite <- (map_id f) at 2. apply map_ext. now intros [a b].
Qed.

(** The morphism read off a match: the match with its pairs turned round. *)
Lemma neg_match (f : list Item) :
  NoDup (map fst f) -> NoDup (map snd f) ->
  Morphism.neg (Morphism.init (dict_of (map (fun p : Vertex * Vertex => (snd p, fst p)) f))) = Morphism.init f.
Proof.
  intros Nk Nv. unfold Morphism.neg, Morphism.items. simpl.
  rewrite (dict_of_nodup (map (fun p : Vertex * Vertex => (snd p, fst p)) f)) by (unfold keys; now rewrite map_swap_fst).
  rewrite map_swap_invol. now rewrite dict_of_nodup.
Qed.

(** The test the matcher applies to an injective map. *)
Lemma placement_check (compare : string -> string -> bool) (G1 G2 : NX.Graph) (f : list Item) :
  NX.nodes_match compare G1 G2 (map (fun p : Vertex * Vertex => (snd p, fst p)) f)
  && forallb (fun e => let '(a, b, l2) := e in
                       match NX.edge_label G1 (NX.image_of f a) (NX.image_of f b) with
                       | Some l1 => compare l1 l2
                       | None => false
                       end) (NX.edges G2) = true
  <-> (forall p h, In (p, h) f ->
         exists lp lh, NX.node_label G2 p = Some lp /\ NX.node_label G1 h = Some lh
                       /\ compare lh lp = true)
      /\ (forall a b l, In (a, b, l) (NX.edges G2) ->
            exists l', NX.edge_label G1 (NX.image_of f a) (NX.image_of f b) = Some l'
                       /\ compare l' l = true).
Proof.
  rewrite andb_true_iff. unfold NX.nodes_match. rewrite !forallb_forall.
  split; intros [Hn He]; split.
  - intros p h Hi. specialize (Hn (h, p)). simpl in Hn.
    assert (Hs : In (h, p) (map (fun p : Vertex * Vertex => (snd p, fst p)) f)).
    { apply in_map_iff. exists (p, h). auto. }
    specialize (Hn Hs).
    destruct (NX.node_label G1 h) as [lh|]; [|discriminate].
    destruct (NX.node_label G2 p) as [lp|]; [|discriminate].
    exists lp, lh. auto.
  - intros a b l Hi. specialize (He _ Hi). simpl in He.
    destruct (NX.edge_label G1 (NX.image_of f a) (NX.image_of f b)) as [l'|]; [|discriminate].
    exists l'. auto.
  - intros [h p] Hi. apply in_map_iff in Hi as ([p' h'] & E & Hi). simpl in E.
    injection E as <- <-. simpl.
    destruct (Hn _ _ Hi) as (lp & lh & -> & -> & C). exact C.
  - intros [[a b] l] Hi. destruct (He _ _ _ Hi) as (l' & -> & C). exact C.
Qed.

Lemma embed_placement (self subgraph : RuleGraph.t) (m : Morphism.t) :
  In m (RuleGraph.embed self subgraph)
  <-> m = Morphism.init (Morphism.items m)
      /\ map fst (Morphism.items m) = NX.node_ids (RuleGraph._nx_graph subgraph)
      /\ placement RuleGraph._compare_elements (Morphism.items m)
                   (RuleGraph._nx_graph subgraph) (RuleGraph._nx_graph self).
Proof.
  unfold RuleGraph.embed, NX.subgraph_monomorphisms_iter, RuleGraph._match_to_morphism.
  rewrite map_map, in_map_iff.
  destruct (nx_nodes (CanonicalGraph.graph (RuleGraph._graph self))) as [ND1 _].
  destruct (nx_nodes (CanonicalGraph.graph (RuleGraph._graph subgraph))) as [ND2 _].
  fold (RuleGraph._nx_graph self) in ND1. fold (RuleGraph._nx_graph subgraph) in ND2.
  split.
  - intros (f & E & Hf). cbv beta in E. subst m. apply filter_In in Hf as [Hi Hc].
    apply (injections_spec _ _ _ ND1) in Hi as (Ek & Nv & Hincl).
    apply placement_check in Hc as [Hn He].
    assert (Nk : NoDup (map fst f)) by now rewrite Ek.
    rewrite (neg_match f Nk Nv). unfold Morphism.items. simpl.
    split; [reflexivity|]. split; [exact Ek|].
    split; [exact Nk|]. split; [intros n; now rewrite Ek|]. repeat split; assumption.
  - intros (Em & Ek & Nk & _ & Nv & Hincl & Hn & He).
    exists (Morphism.items m).
    split; [cbv beta; rewrite (neg_match _ Nk Nv); now symmetry|].
    apply filter_In. split.
    + apply (injections_spec _ _ _ ND1). auto.
    + apply placement_check. auto.
Qed.

Lemma edge_label_simple es a b l :
  edges_simple es -> In (a, b, l) es ->
  match find (NX.joins a b) es with
  | Some (_, _, label) => Some label
  | None => None
  end = Some l.
Proof.
  induction es as [|e es IH]; simpl; [tauto|].
  intros [Hall Hs] [->|Hi].
  - simpl. now rewrite !Nat.eqb_refl.
  - destruct (NX.joins a b e) eqn:J; [|now apply IH].
    exfalso. specialize (Hall _ Hi). destruct e as [[x y] l0]. simpl fst in Hall.
    simpl snd in Hall. rewrite (joins_swap x y a b l l0) in Hall. congruence.
Qed.

Lemma node_label_defined G n :
  In n (NX.node_ids G) -> exists l, NX.node_label G n = Some l.
Proof.
  unfold NX.node_ids, NX.node_label. induction (NX.nodes G) as [|[m l] ns IH]; simpl; [tauto|].
  intros [->|Hi].
  - rewrite Nat.eqb_refl. eauto.
  - destruct (Nat.eqb m n); eauto.
Qed.

Lemma image_of_identity l a : NX.image_of (map (fun n => (n, n)) l) a = a.
Proof.
  unfold NX.image_of. induction l as [|n l IH]; simpl; [reflexivity|].
  destruct (Nat.eqb_spec n a) as [->|N]; [reflexivity|exact IH].
Qed.

Lemma compare_elements_refl l : RuleGraph._compare_elements l l = true.
Proof. unfold RuleGraph._compare_elements. apply compare_labels_refl. Qed.

Lemma identity_placement (p : RuleGraph.t) :
  placement RuleGraph._compare_elements
            (map (fun n => (n, n)) (NX.node_ids (RuleGraph._nx_graph p)))
            (RuleGraph._nx_graph p) (RuleGraph._nx_graph p).
Proof.
  destruct (nx_nodes (CanonicalGraph.graph (RuleGraph._graph p))) as [ND _].
  fold (RuleGraph._nx_graph p) in ND.
  assert (E1 : forall l : list Vertex, map fst (map (fun n => (n, n)) l) = l).
  { intros l. rewrite map_map. apply map_id. }
  assert (E2 : forall l : list Vertex, map snd (map (fun n => (n, n)) l) = l).
  { intros l. rewrite map_map. apply map_id. }
  unfold placement. rewrite E1. split; [exact ND|]. split; [tauto|].
  rewrite E2. split; [exact ND|]. split; [apply incl_refl|]. split.
  - intros v h Hi. apply in_map_iff in Hi as (n & [= <- <-] & Hn).
    destruct (node_label_defined _ _ Hn) as [l Hl].
    exists l, l. split; [exact Hl|]. split; [exact Hl|apply compare_elements_refl].
  - intros a b l Hi. rewrite !image_of_identity. exists l.
    split; [|apply compare_elements_refl].
    unfold NX.edge_label. apply edge_label_simple; [|exact Hi].
    apply nx_edges_simple.
Qed.

Lemma sorted_length l : List.length (sorted l) = List.length l.
Proof. symmetry. apply Permutation_length. apply sorted_perm. Qed.

(** X22: A transition can embed its own pattern, unless the pattern has no
    vertex: the only morphism [embed] yields for a pattern without vertices
    is the empty one, which [any] takes for false. *)
Theorem can_embed_own_pattern (t : Transition.t) :
  Transition.can_embed t (Transition.maximal_subrule t)
  = negb (Nat.eqb (List.length (RuleGraph.vertices (Transition.maximal_subrule t))) 0).
Proof.
  unfold Transition.can_embed, Transition.maximal_subrule.
  set (p := Transition._maximal_subrule t).
  destruct (nx_nodes (CanonicalGraph.graph (RuleGraph._graph p))) as [ND Hn].
  fold (RuleGraph._nx_graph p) in ND, Hn.
  destruct (RuleGraph.vertices p) as [|v vs] eqn:V; simpl.
  - apply not_true_is_false. intros H. apply existsb_exists in H as (m & Hm & L).
    apply embed_placement in Hm as (Em & Ek & _).
    assert (E : NX.node_ids (RuleGraph._nx_graph p) = []).
    { destruct (NX.node_ids (RuleGraph._nx_graph p)) as [|n ns]; [reflexivity|].
      exfalso. assert (Hi : In n (vertex_ids (CanonicalGraph.graph (RuleGraph._graph p))))
        by (apply Hn; now left).
      unfold vertex_ids in Hi. unfold RuleGraph.vertices in V. rewrite V in Hi. exact Hi. }
    rewrite E in Ek. apply map_eq_nil in Ek.
    rewrite Em in L. unfold Morphism.len in L. simpl in L. rewrite Ek in L. discriminate.
  - apply existsb_exists.
    exists (Morphism.init (map (fun n => (n, n)) (NX.node_ids (RuleGraph._nx_graph p)))).
    split.
    + apply embed_placement. split; [reflexivity|].
      split; [|apply identity_placement].
      unfold Morphism.items. simpl. rewrite map_map. apply map_id.
    + unfold Morphism.len. simpl. rewrite sorted_length, length_map.
      assert (Hi : In (vid v) (NX.node_ids (RuleGraph._nx_graph p))).
      { apply Hn. unfold vertex_ids. unfold RuleGraph.vertices in V. rewrite V. now left. }
      destruct (NX.node_ids (RuleGraph._nx_graph p)) as [|n ns]; [destruct Hi|reflexivity].
Qed.

End Embeddings.

Section EmbeddingComposition.
Import PyStr Labels PyData Mod.

Lemma dict_get_injective f x y c :
  NoDup (map snd f) -> dict_get f x = Some c -> dict_get f y = Some c -> x = y.
Proof.
  induction f as [|[k v] f IH]; simpl; [discriminate|].
  intros ND Hx Hy. inversion ND as [|? ? Hv ND']; subst.
  destruct (Nat.eqb_spec k x) as [Ex|Nx], (Nat.eqb_spec k y) as [Ey|Ny].
  - congruence.
  - injection Hx as ->. apply dict_get_value in Hy.
    exfalso. apply Hv. change c with (snd (y, c)). now apply in_map.
  - injection Hy as ->. apply dict_get_value in Hx.
    exfalso. apply Hv. change c with (snd (x, c)). now apply in_map.
  - now apply IH.
Qed.

Lemma image_of_key f x :
  In x (map fst f) -> dict_get f x = Some (NX.image_of f x) /\ In (x, NX.image_of f x) f.
Proof.
  intros H. destruct (dict_get_some f x H) as (c & E & Hi).
  unfold NX.image_of. rewrite E. auto.
Qed.

Lemma image_of_nodup f l :
  NoDup (map snd f) -> NoDup l -> incl l (map fst f) -> NoDup (map (NX.image_of f) l).
Proof.
  intros Nv. induction l as [|a l IH]; simpl; intros ND Hincl; [constructor|].
  inversion ND as [|? ? Ha ND']; subst.
  constructor.
  - intros Hi. apply in_map_iff in Hi as (x & E & Hx).
    destruct (image_of_key f a (Hincl a (or_introl eq_refl))) as [Ea _].
    destruct (image_of_key f x (Hincl x (or_intror Hx))) as [Ex _].
    rewrite E in Ex. rewrite (dict_get_injective f x a _ Nv Ex Ea) in Hx. contradiction.
  - apply IH; [exact ND'|]. intros x Hx. apply Hincl. now right.
Qed.

Lemma find_joins_sym es u v : find (NX.joins u v) es = find (NX.joins v u) es.
Proof.
  induction es as [|e es IH]; simpl; [reflexivity|].
  assert (J : NX.joins u v e = NX.joins v u e)
    by (destruct e as [[a b] l]; simpl; apply orb_comm).
  rewrite J. now rewrite IH.
Qed.

Lemma edge_label_sym G u v : NX.edge_label G u v = NX.edge_label G v u.
Proof. unfold NX.edge_label. now rewrite find_joins_sym. Qed.

Lemma edge_label_some G u v l :
  NX.edge_label G u v = Some l ->
  exists x y, In (x, y, l) (NX.edges G) /\ ((x = u /\ y = v) \/ (x = v /\ y = u)).
Proof.
  unfold NX.edge_label. destruct (find (NX.joins u v) (NX.edges G)) as [[[x y] l0]|] eqn:F;
    [|discriminate].
  intros [= ->]. apply find_some in F as [Hi J]. exists x, y. split; [exact Hi|].
  simpl in J. apply orb_prop in J as [J|J]; apply andb_prop in J as [A B];
    apply Nat.eqb_eq in A, B; auto.
Qed.

(** Two placements, one after the other. *)
Lemma placement_compose (compare : string -> string -> bool) f1 f2 A B C :
  (forall x y z, compare x y = true -> compare y z = true -> compare x z = true) ->
  (forall a b l, In (a, b, l) (NX.edges A) -> In a (NX.node_ids A) /\ In b (NX.node_ids A)) ->
  placement compare f1 A B -> placement compare f2 B C ->
  placement compare (map (fun ri => (fst ri, NX.image_of f2 (snd ri))) f1) A C.
Proof.
  intros Tr Hends (Nk1 & K1 & V1 & I1 & N1 & E1) (Nk2 & K2 & V2 & I2 & N2 & E2).
  set (f3 := map (fun ri => (fst ri, NX.image_of f2 (snd ri))) f1).
  assert (Hk : map fst f3 = map fst f1) by (unfold f3; now rewrite map_map).
  assert (Hv : map snd f3 = map (NX.image_of f2) (map snd f1))
    by (unfold f3; now rewrite !map_map).
  assert (Himg : forall a, In a (map fst f1) ->
                           NX.image_of f3 a = NX.image_of f2 (NX.image_of f1 a)).
  { intros a Ha. destruct (image_of_key f1 a Ha) as [Ea _].
    unfold NX.image_of at 1. unfold f3. rewrite dict_get_map_snd, Ea. reflexivity. }
  assert (Hin2 : forall h, In h (map snd f1) -> In h (map fst f2))
    by (intros h Hh; apply K2, I1, Hh).
  unfold placement. rewrite Hk. split; [exact Nk1|]. split; [exact K1|].
  split; [|split; [|split]].
  - rewrite Hv. apply image_of_nodup; [exact V2|exact V1|exact Hin2].
  - rewrite Hv. intros c Hc. apply in_map_iff in Hc as (h & <- & Hh).
    apply I2. destruct (image_of_key f2 h (Hin2 h Hh)) as [_ Hi].
    change (NX.image_of f2 h) with (snd (h, NX.image_of f2 h)). now apply in_map.
  - intros p c Hi. apply in_map_iff in Hi as ([p' h] & [= <- <-] & Hi). simpl.
    destruct (N1 _ _ Hi) as (lp & lh & Lp & Lh & C1).
    assert (Hh : In h (map fst f2)).
    { apply Hin2. change h with (snd (p', h)). now apply in_map. }
    destruct (image_of_key f2 h Hh) as [_ Hi2].
    destruct (N2 _ _ Hi2) as (lh' & lc & Lh' & Lc & C2).
    exists lp, lc. split; [exact Lp|]. split; [exact Lc|].
    rewrite Lh in Lh'. injection Lh' as <-. exact (Tr _ _ _ C2 C1).
  - intros a b l Hi. destruct (Hends _ _ _ Hi) as [Ha Hb]. apply K1 in Ha, Hb.
    rewrite (Himg a Ha), (Himg b Hb).
    destruct (E1 _ _ _ Hi) as (l1 & L1 & C1).
    destruct (edge_label_some _ _ _ _ L1) as (x & y & Hxy & [[-> ->]|[-> ->]]).
    + destruct (E2 _ _ _ Hxy) as (l2 & L2 & C2). exists l2. split; [exact L2|].
      exact (Tr _ _ _ C2 C1).
    + destruct (E2 _ _ _ Hxy) as (l2 & L2 & C2). exists l2.
      split; [now rewrite edge_label_sym|]. exact (Tr _ _ _ C2 C1).
Qed.

(** A placement with its items in the order of the nodes. *)
Lemma placement_in_node_order (compare : string -> string -> bool) f P H :
  NoDup (NX.node_ids P) ->
  placement compare f P H ->
  let f0 := map (fun n => (n, NX.image_of f n)) (NX.node_ids P) in
  map fst f0 = NX.node_ids P /\ placement compare f0 P H /\ Permutation f0 f.
Proof.
  intros ND (Nk & K & V & I & N & E). cbv zeta.
  set (f0 := map (fun n => (n, NX.image_of f n)) (NX.node_ids P)).
  assert (Hk : map fst f0 = NX.node_ids P) by (unfold f0; rewrite map_map; apply map_id).
  assert (Hv : map snd f0 = map (NX.image_of f) (NX.node_ids P))
    by (unfold f0; now rewrite map_map).
  assert (Hsame : forall p h, In (p, h) f0 <-> In (p, h) f).
  { intros p h. unfold f0. rewrite in_map_iff. split.
    - intros (n & [= <- <-] & Hn). apply image_of_key. now apply K.
    - intros Hi. exists p. assert (Hp : In p (map fst f))
        by (change p with (fst (p, h)); now apply in_map).
      split; [|now apply K]. f_equal.
      unfold NX.image_of. now rewrite (dict_get_in f p h Nk Hi). }
  assert (Himg : forall a, NX.image_of f0 a = NX.image_of f a).
  { intros a. unfold NX.image_of at 1. unfold f0.
    destruct (dict_get f a) as [c|] eqn:G.
    - assert (Ha : In a (NX.node_ids P)).
      { apply K. apply dict_get_value in G. change a with (fst (a, c)). now apply in_map. }
      rewrite <- Hk in Ha. destruct (image_of_key f0 a Ha) as [G0 Hi0]. fold f0.
      rewrite G0. apply Hsame in Hi0. symmetry.
      unfold NX.image_of. now rewrite (dict_get_in f a _ Nk Hi0).
    - fold f0. destruct (dict_get f0 a) as [c|] eqn:G0.
      + apply dict_get_value in G0. apply Hsame in G0.
        rewrite (dict_get_in f a c Nk G0) in G. discriminate.
      + unfold NX.image_of. now rewrite G. }
  split; [exact Hk|]. split.
  - unfold placement. rewrite Hk. split; [exact ND|]. split; [tauto|]. split; [|split; [|split]].
    + rewrite Hv. apply image_of_nodup; [exact V|exact ND|]. intros n Hn. now apply K.
    + rewrite Hv. intros c Hc. apply in_map_iff in Hc as (n & <- & Hn).
      apply I. destruct (image_of_key f n (proj2 (K n) Hn)) as [_ Hi].
      change (NX.image_of f n) with (snd (n, NX.image_of f n)). now apply in_map.
    + intros p h Hi. apply N. now apply Hsame.
    + intros a b l Hi. rewrite !Himg. now apply E.
  - apply NoDup_Permutation.
    + apply (NoDup_map_inv fst). now rewrite Hk.
    + apply (NoDup_map_inv fst). exact Nk.
    + intros [p h]. apply Hsame.
Qed.

(** X23: [RuleGraph.embed] yields the placements of the sub-pattern, and, up to
    [==], all of them: a morphism it yields maps the nodes of [subgraph]
    injectively to nodes of [self], with the label of every node of
    [subgraph] compatible with the label of its image and every edge of
    [subgraph] carried to an edge of [self] with a compatible label; and
    for every such map it yields a morphism [==] to it. *)
Theorem embed_yields_placements (self subgraph : RuleGraph.t) :
  (forall m, In m (RuleGraph.embed self subgraph) ->
     m = Morphism.init (Morphism.items m)
     /\ placement RuleGraph._compare_elements (Morphism.items m)
                  (RuleGraph._nx_graph subgraph) (RuleGraph._nx_graph self))
  /\ (forall f, placement RuleGraph._compare_elements f
                          (RuleGraph._nx_graph subgraph) (RuleGraph._nx_graph self) ->
        exists m, In m (RuleGraph.embed self subgraph)
                  /\ Morphism.eqb m (Morphism.init f) = true).
Proof.
  split.
  - intros m Hm. apply embed_placement in Hm as (Em & _ & P). auto.
  - intros f P.
    destruct (nx_nodes (CanonicalGraph.graph (RuleGraph._graph subgraph))) as [ND _].
    fold (RuleGraph._nx_graph subgraph) in ND.
    destruct (placement_in_node_order _ f _ _ ND P) as (Hk & P0 & Hperm).
    exists (Morphism.init (map (fun n => (n, NX.image_of f n))
                               (NX.node_ids (RuleGraph._nx_graph subgraph)))).
    split.
    + apply embed_placement. unfold Morphism.items. simpl. auto.
    + unfold Morphism.eqb. simpl. apply tuple_eqb_eq. now apply sorted_permutation.
Qed.

Lemma compare_elements_trans x y z :
  RuleGraph._compare_elements x y = true -> RuleGraph._compare_elements y z = true ->
  RuleGraph._compare_elements x z = true.
Proof. unfold RuleGraph._compare_elements. apply compare_labels_trans. Qed.

Lemma embed_add (A B C : RuleGraph.t) (m1 m2 : Morphism.t) :
  ends_are_vertices (CanonicalGraph.graph (RuleGraph.graph A)) ->
  In m1 (RuleGraph.embed B A) -> In m2 (RuleGraph.embed C B) ->
  exists m, Morphism.add m1 m2 = Some m /\ In m (RuleGraph.embed C A)
            /\ Morphism.len m = Morphism.len m1.
Proof.
  intros Hends H1 H2.
  apply embed_placement in H1 as (E1 & K1 & P1).
  apply embed_placement in H2 as (E2 & K2 & P2).
  destruct (nx_nodes (CanonicalGraph.graph (RuleGraph._graph A))) as [NA HA].
  fold (RuleGraph._nx_graph A) in NA, HA.
  pose proof P1 as (_ & _ & V1 & I1 & _).
  assert (Nk : NoDup (keys (Morphism.items m1))) by (unfold keys; now rewrite K1).
  destruct (add_defined m1 m2) as [m Hm].
  { intros ri Hri. assert (Hs : In (snd ri) (map fst (Morphism.items m2))).
    { rewrite K2. apply I1. now apply in_map. }
    destruct (dict_get_some _ _ Hs) as (j & Ej & _). exists j. exact Ej. }
  exists m. split; [exact Hm|].
  pose proof (add_items m1 m2 m Nk Hm) as Em.
  assert (P3 : placement RuleGraph._compare_elements
                         (map (fun ri => (fst ri, NX.image_of (Morphism.items m2) (snd ri)))
                              (Morphism.items m1))
                         (RuleGraph._nx_graph A) (RuleGraph._nx_graph C)).
  { apply (placement_compose _ _ _ _ (RuleGraph._nx_graph B)); try assumption.
    - exact compare_elements_trans.
    - intros a b l Hi. destruct (nx_edge_ends _ _ _ _ Hends Hi) as [Ha Hb].
      split; apply HA; assumption. }
  split.
  - apply embed_placement. rewrite Em. unfold Morphism.items at 1 3 4. simpl.
    split; [reflexivity|]. split; [|exact P3].
    rewrite map_map. simpl. exact K1.
  - rewrite Em, E1. unfold Morphism.len. simpl. rewrite !sorted_length. apply length_map.
Qed.

(** X24: Embeddings compose: when [m1] embeds the pattern [A] in the pattern [B]
    and [m2] embeds [B] in [C], the sum [m1 + m2] is defined and [==] to one
    of the embeddings of [A] in [C]. *)
Theorem embed_composes (A B C : RuleGraph.t) (m1 m2 : Morphism.t) :
  ends_are_vertices (CanonicalGraph.graph (RuleGraph.graph A)) ->
  In m1 (RuleGraph.embed B A) -> In m2 (RuleGraph.embed C B) ->
  exists m, Morphism.add m1 m2 = Some m
            /\ exists m', In m' (RuleGraph.embed C A) /\ Morphism.eqb m' m = true.
Proof.
  intros Hends H1 H2. destruct (embed_add A B C m1 m2 Hends H1 H2) as (m & Hm & Hi & _).
  exists m. split; [exact Hm|]. exists m. split; [exact Hi|].
  unfold Morphism.eqb. apply tuple_eqb_refl.
Qed.


End EmbeddingComposition.

Section EmbeddingRuns.
Import PyStr Labels PyData Mod Examples.

(** The pattern of the star embedding in the pattern with two leaves, and
    that in the star. *)
Lemma embed_composes_witness :
  let A := Embedding.pattern star_embedding in
  let B := star_pattern in
  let C := Transition.maximal_subrule star_host in
  let m1 := Morphism.init [(0, 0); (1, 1)] in
  let m2 := Morphism.init [(0, 0); (1, 1); (2, 2)] in
  ends_are_vertices (CanonicalGraph.graph (RuleGraph.graph A))
  /\ In m1 (RuleGraph.embed B A)
  /\ In m2 (RuleGraph.embed C B)
  /\ exists m, Morphism.add m1 m2 = Some m
               /\ exists m', In m' (RuleGraph.embed C A) /\ Morphism.eqb m' m = true.
Proof.
  intros A B C m1 m2.
  assert (He : ends_are_vertices (CanonicalGraph.graph (RuleGraph.graph A)))
    by (intros e [<-|[]]; vm_compute; tauto).
  assert (H1 : In m1 (RuleGraph.embed B A)) by (vm_compute; auto 10).
  assert (H2 : In m2 (RuleGraph.embed C B)) by (vm_compute; auto 10).
  split; [exact He|]. split; [exact H1|]. split; [exact H2|].
  exact (embed_composes A B C m1 m2 He H1 H2).
Defined.


End EmbeddingRuns.

Section Isomorphisms.
Import PyStr Labels PyData Mod.

(** X26: Every isomorphism from [other] to [self] is [==] to one of the
    embeddings of [other] in [self]: equal labels are compatible labels. *)
Theorem isomorphisms_are_embeddings (self other : RuleGraph.t) (m : Morphism.t) :
  In m (RuleGraph.isomorphisms self other) ->
  exists m', In m' (RuleGraph.embed self other) /\ Morphism.eqb m' m = true.
Proof.
  intros H. exists m. split; [|unfold Morphism.eqb; apply tuple_eqb_refl]. revert H.
  unfold RuleGraph.isomorphisms, RuleGraph._match_to_morphism, NX.isomorphisms_iter.
  intros H. apply in_map_iff in H as (f & <- & Hf).
  destruct (negb _); [destruct Hf|].
  apply filter_In in Hf as [Hi Hc].
  destruct (nx_nodes (CanonicalGraph.graph (RuleGraph._graph self))) as [ND1 _].
  destruct (nx_nodes (CanonicalGraph.graph (RuleGraph._graph other))) as [ND2 _].
  fold (RuleGraph._nx_graph self) in ND1. fold (RuleGraph._nx_graph other) in ND2.
  apply (injections_spec _ _ _ ND1) in Hi as (Ek & Nv & Hincl).
  rewrite dict_of_nodup by (unfold keys; now rewrite Ek).
  apply embed_placement. split; [reflexivity|].
  unfold Morphism.items. simpl.
  apply andb_prop in Hc as [Hn He]. unfold NX.nodes_match in Hn.
  rewrite forallb_forall in Hn, He.
  split; [exact Ek|].
  split; [now rewrite Ek|]. split; [intros n; now rewrite Ek|].
  split; [exact Nv|]. split; [exact Hincl|]. split.
  - intros p h Hph. specialize (Hn _ Hph). simpl in Hn.
    destruct (NX.node_label (RuleGraph._nx_graph other) p) as [l1|]; [|discriminate].
    destruct (NX.node_label (RuleGraph._nx_graph self) h) as [l2|]; [|discriminate].
    apply String.eqb_eq in Hn. subst l2. exists l1, l1.
    split; [reflexivity|]. split; [reflexivity|apply compare_elements_refl].
  - intros a b l Hab. specialize (He _ Hab). simpl in He.
    destruct (NX.edge_label (RuleGraph._nx_graph self) (NX.image_of f a) (NX.image_of f b))
      as [l2|]; [|discriminate].
    apply String.eqb_eq in He. subst l2. exists l.
    split; [reflexivity|apply compare_elements_refl].
Qed.

(** The identity of a bond is an isomorphism, hence an embedding. *)
Lemma isomorphisms_are_embeddings_witness :
  let m := Morphism.init [(0, 0); (1, 1)] in
  In m (RuleGraph.isomorphisms Examples.bond_only Examples.bond_only)
  /\ exists m', In m' (RuleGraph.embed Examples.bond_only Examples.bond_only)
                /\ Morphism.eqb m' m = true.
Proof.
  intros m.
  assert (H : In m (RuleGraph.isomorphisms Examples.bond_only Examples.bond_only))
    by (vm_compute; auto 10).
  split; [exact H|]. exact (isomorphisms_are_embeddings _ _ m H).
Defined.

End Isomorphisms.

(** * The label database of the canonicaliser *)

Section LabelDatabase.
Import PyData.

Lemma append_C_inj s1 s2 : (s1 ++ "C")%string = (s2 ++ "C")%string -> s1 = s2.
Proof.
  revert s2. induction s1 as [|a s1 IH]; intros [|b s2]; simpl; intros H.
  - reflexivity.
  - injection H as _ H. destruct s2; discriminate.
  - injection H as _ H. destruct s1; discriminate.
  - injection H as -> H. f_equal. now apply IH.
Qed.

Lemma to_uint_nonnil n : Nat.to_uint n <> Decimal.Nil.
Proof.
  pose proof (DecimalNat.Unsigned.to_of (Nat.to_uint n)) as E.
  rewrite DecimalNat.Unsigned.of_to in E. rewrite E. apply DecimalFacts.unorm_nonnil.
Qed.

(** [str] of a number: different numbers, different numerals. *)
Lemma str_inj a b : RuleGraph.str a = RuleGraph.str b -> a = b.
Proof.
  unfold RuleGraph.str. intros H.
  pose proof (DecimalString.NilZero.usu _ (to_uint_nonnil a)) as Ha.
  pose proof (DecimalString.NilZero.usu _ (to_uint_nonnil b)) as Hb.
  rewrite H, Hb in Ha. injection Ha as E.
  symmetry. now apply DecimalNat.Unsigned.to_uint_inj.
Qed.

Lemma db_get_in (db : GraphCanonicaliser.t) l c :
  PyDict.get String.eqb db l = Some c -> In (l, c) db.
Proof.
  induction db as [|[k v] db IH]; simpl; [discriminate|].
  destruct (String.eqb_spec k l) as [->|N].
  - intros [= ->]. now left.
  - intros H. right. now apply IH.
Qed.

Lemma db_get_none (db : GraphCanonicaliser.t) l :
  PyDict.get String.eqb db l = None -> ~ In l (map fst db).
Proof.
  induction db as [|[k v] db IH]; simpl; [tauto|].
  destruct (String.eqb_spec k l) as [->|N]; [discriminate|].
  intros H [E|Hi]; [congruence|]. now apply IH.
Qed.

Lemma db_get_app_l (db more : GraphCanonicaliser.t) l c :
  PyDict.get String.eqb db l = Some c -> PyDict.get String.eqb (db ++ more) l = Some c.
Proof.
  induction db as [|[k v] db IH]; simpl; [discriminate|].
  destruct (String.eqb k l); [auto|exact IH].
Qed.

Lemma db_get_app_new (db : GraphCanonicaliser.t) l c :
  PyDict.get String.eqb db l = None -> PyDict.get String.eqb (db ++ [(l, c)]) l = Some c.
Proof.
  induction db as [|[k v] db IH]; simpl.
  - now rewrite String.eqb_refl.
  - destruct (String.eqb k l); [discriminate|exact IH].
Qed.

Lemma codes_nodup n m :
  NoDup (map (fun k => (RuleGraph.str k ++ "C")%string) (seq n m)).
Proof.
  revert n. induction m as [|m IH]; intros n; simpl; constructor; [|apply IH].
  intros Hi. apply in_map_iff in Hi as (k & E & Hk).
  apply append_C_inj, str_inj in E. subst k. apply in_seq in Hk. lia.
Qed.

Lemma same_code_same_label (db : GraphCanonicaliser.t) l1 l2 c :
  NoDup (map snd db) -> In (l1, c) db -> In (l2, c) db -> l1 = l2.
Proof.
  induction db as [|[k v] db IH]; simpl; [tauto|].
  intros ND H1 H2. inversion ND as [|? ? Hv ND']; subst.
  destruct H1 as [E1|H1], H2 as [E2|H2].
  - congruence.
  - injection E1 as -> ->. exfalso. apply Hv. change c with (snd (l2, c)). now apply in_map.
  - injection E2 as -> ->. exfalso. apply Hv. change c with (snd (l1, c)). now apply in_map.
  - now apply IH.
Qed.

Lemma relabel_step db label :
  numbered db ->
  let (code, db') := GraphCanonicaliser._relabel_via_database db label in
  numbered db'
  /\ PyDict.get String.eqb db' label = Some code
  /\ (forall l c, PyDict.get String.eqb db l = Some c -> PyDict.get String.eqb db' l = Some c)
  /\ (forall l, In l (map fst db') <-> In l (map fst db) \/ l = label).
Proof.
  intros [Hc Hk]. unfold GraphCanonicaliser._relabel_via_database.
  destruct (PyDict.get String.eqb db label) as [code|] eqn:G.
  - split; [split; assumption|]. split; [exact G|]. split; [auto|].
    intros l. split; [tauto|]. intros [H | ->]; [exact H|].
    apply db_get_in in G. change label with (fst (label, code)). now apply in_map.
  - split; [split|split; [|split]].
    + rewrite map_app, length_app, Hc. simpl. rewrite Nat.add_1_r, seq_S, map_app. simpl.
      reflexivity.
    + rewrite map_app. simpl. apply NoDup_app; [exact Hk|repeat constructor; simpl; tauto|].
      intros x Hx [<-|[]]. now apply db_get_none in G.
    + now apply db_get_app_new.
    + intros l c. apply db_get_app_l.
    + intros l. rewrite map_app, in_app_iff. simpl. intuition.
Qed.

Lemma relabel_run labels : forall db,
  numbered db ->
  let (codes, db') := relabel_all db labels in
  numbered db'
  /\ (forall l c, PyDict.get String.eqb db l = Some c -> PyDict.get String.eqb db' l = Some c)
  /\ Forall2 (fun l c => PyDict.get String.eqb db' l = Some c) labels codes
  /\ (forall l, In l (map fst db') <-> In l (map fst db) \/ In l labels).
Proof.
  induction labels as [|label labels IH]; intros db Hdb; simpl.
  - split; [exact Hdb|]. split; [auto|]. split; [constructor|tauto].
  - pose proof (relabel_step db label Hdb) as S1.
    destruct (GraphCanonicaliser._relabel_via_database db label) as [code db1].
    destruct S1 as (N1 & G1 & K1 & M1).
    specialize (IH db1 N1). destruct (relabel_all db1 labels) as [codes db2].
    destruct IH as (N2 & K2 & F2 & M2).
    split; [exact N2|]. split; [auto|]. split; [constructor; [auto|exact F2]|].
    intros l. rewrite M2, M1. intuition.
Qed.

Lemma Forall2_combine {A B} (P : A -> B -> Prop) l1 l2 a b :
  Forall2 P l1 l2 -> In (a, b) (combine l1 l2) -> P a b.
Proof.
  induction 1 as [|x y l1 l2 Hxy _ IH]; simpl; [tauto|].
  intros [[= -> ->]|Hi]; auto.
Qed.

Lemma filter_filter {A} (f g : A -> bool) l :
  filter f (filter g l) = filter (fun x => g x && f x) l.
Proof.
  induction l as [|x l IH]; simpl; [reflexivity|].
  destruct (g x); simpl; [destruct (f x); now rewrite IH|exact IH].
Qed.

Lemma db_get_some_iff (db : GraphCanonicaliser.t) l :
  existsb (String.eqb l) (map fst db) = true <-> PyDict.get String.eqb db l <> None.
Proof.
  induction db as [|[k v] db IH]; simpl; [split; [discriminate|congruence]|].
  rewrite (String.eqb_sym l k). destruct (String.eqb k l); simpl; [|exact IH].
  split; [discriminate|reflexivity].
Qed.

(** The keys of the database after a run: the old keys, then the new labels
    in the order of their first use. *)
Lemma relabel_run_keys labels : forall db,
  map fst (snd (relabel_all db labels))
  = map fst db
    ++ filter (fun l => negb (existsb (String.eqb l) (map fst db))) (first_uses labels).
Proof.
  induction labels as [|label labels IH]; intros db; simpl.
  - now rewrite app_nil_r.
  - unfold GraphCanonicaliser._relabel_via_database.
    destruct (PyDict.get String.eqb db label) as [code|] eqn:G.
    + specialize (IH db). destruct (relabel_all db labels) as [codes db2]. simpl in *.
      assert (E : existsb (String.eqb label) (map fst db) = true)
        by (apply db_get_some_iff; congruence).
      rewrite E. simpl. rewrite IH, filter_filter. f_equal. apply filter_ext.
      intros l. destruct (String.eqb_spec l label) as [->|N]; simpl; [now rewrite E|reflexivity].
    + specialize (IH (db ++ [(label, (RuleGraph.str (List.length db + 1) ++ "C")%string)])).
      destruct (relabel_all _ labels) as [codes db2]. simpl in *.
      assert (E : existsb (String.eqb label) (map fst db) = false).
      { apply not_true_is_false. intros H. apply db_get_some_iff in H. congruence. }
      rewrite E. simpl. rewrite IH, map_app, <- app_assoc. simpl. do 2 f_equal.
      rewrite filter_filter. apply filter_ext. intros l.
      rewrite existsb_app. simpl. rewrite orb_false_r.
      destruct (existsb (String.eqb l) (map fst db)), (String.eqb l label); reflexivity.
Qed.

Lemma relabel_all_app l1 : forall l2 db,
  relabel_all db (l1 ++ l2)
  = (fst (relabel_all db l1) ++ fst (relabel_all (snd (relabel_all db l1)) l2),
     snd (relabel_all (snd (relabel_all db l1)) l2)).
Proof.
  induction l1 as [|label l1 IH]; intros l2 db; simpl.
  - now destruct (relabel_all db l2).
  - destruct (GraphCanonicaliser._relabel_via_database db label) as [code db1].
    rewrite IH. destruct (relabel_all db1 l1) as [codes1 db2]. simpl.
    now destruct (relabel_all db2 l2).
Qed.

Lemma first_uses_in labels l : In l (first_uses labels) <-> In l labels.
Proof.
  induction labels as [|label labels IH]; simpl; [tauto|].
  rewrite filter_In, IH. destruct (String.eqb_spec l label) as [->|N]; simpl.
  - split; [tauto|]. intros _. now left.
  - split; [intros [E|[H _]]; auto|]. intros [E|H]; [congruence|auto].
Qed.

Lemma numbered_combine (db : GraphCanonicaliser.t) :
  numbered db ->
  db = combine (map fst db)
               (map (fun k => (RuleGraph.str k ++ "C")%string)
                    (seq 1 (List.length (map fst db)))).
Proof.
  intros [Hc _]. rewrite length_map, <- Hc. clear Hc.
  induction db as [|[k v] db IH]; simpl; [reflexivity|]. now rewrite <- IH.
Qed.

(** X27: On a fresh canonicaliser, whatever labels are asked for and in whatever
    order: every call returns a code; two calls return the same code exactly
    when they ask for the same label; the database ends up holding the
    labels asked for, each once, in the order in which they were first asked
    for, under the codes [1C], [2C], ... in this order; the code a call
    returns is the code the database holds for its label; and a label that
    is first asked for after [k] different labels gets the code [(k+1)C]. *)
Theorem relabel_codes_identify_labels (labels : list string) :
  let (codes, db) := relabel_all GraphCanonicaliser.init labels in
  List.length codes = List.length labels
  /\ (forall l1 c1 l2 c2,
        In (l1, c1) (combine labels codes) -> In (l2, c2) (combine labels codes) ->
        (c1 = c2 <-> l1 = l2))
  /\ numbered db
  /\ (forall l, In l (map fst db) <-> In l labels)
  /\ db = combine (first_uses labels)
                  (map (fun k => (RuleGraph.str k ++ "C")%string)
                       (seq 1 (List.length (first_uses labels))))
  /\ Forall2 (fun l c => PyDict.get String.eqb db l = Some c) labels codes
  /\ (forall before label after,
        labels = before ++ label :: after -> ~ In label before ->
        nth (List.length before) codes ""%string
        = (RuleGraph.str (List.length (first_uses before) + 1) ++ "C")%string).
Proof.
  assert (N0 : numbered GraphCanonicaliser.init) by (split; [reflexivity|constructor]).
  pose proof (relabel_run labels _ N0) as R.
  pose proof (relabel_run_keys labels GraphCanonicaliser.init) as K.
  assert (A : forall before label after,
            labels = before ++ label :: after -> ~ In label before ->
            nth (List.length before) (fst (relabel_all GraphCanonicaliser.init labels))
                ""%string
            = (RuleGraph.str (List.length (first_uses before) + 1) ++ "C")%string).
  { intros before label after -> Hn. rewrite relabel_all_app. cbn [fst].
    pose proof (relabel_run before _ N0) as R1.
    pose proof (relabel_run_keys before GraphCanonicaliser.init) as K1.
    destruct (relabel_all GraphCanonicaliser.init before) as [codes1 db1].
    destruct R1 as (_ & _ & F1 & M1). cbn [fst snd] in *.
    rewrite app_nth2; rewrite <- (Forall2_length F1); [|lia]. rewrite Nat.sub_diag.
    simpl in K1. rewrite filter_true in K1.
    cbn [relabel_all]. unfold GraphCanonicaliser._relabel_via_database.
    destruct (PyDict.get String.eqb db1 label) as [code|] eqn:G.
    - exfalso. apply Hn. apply first_uses_in. rewrite <- K1.
      apply db_get_in in G. change label with (fst (label, code)). now apply in_map.
    - destruct (relabel_all _ after). simpl.
      now rewrite <- K1, length_map. }
  destruct (relabel_all GraphCanonicaliser.init labels) as [codes db].
  destruct R as (N & _ & F & M). cbn [fst snd] in *.
  simpl in K. rewrite filter_true in K.
  split; [symmetry; exact (Forall2_length F)|]. split; [|split; [exact N|]].
  - intros l1 c1 l2 c2 H1 H2.
    pose proof (Forall2_combine _ _ _ _ _ F H1) as G1.
    pose proof (Forall2_combine _ _ _ _ _ F H2) as G2.
    split.
    + intros <-. apply db_get_in in G1, G2.
      apply (same_code_same_label db l1 l2 c1); try assumption.
      destruct N as [Hc _]. rewrite Hc. apply codes_nodup.
    + intros <-. congruence.
  - split; [intros l; rewrite M; simpl; tauto|].
    split; [rewrite <- K; now apply numbered_combine|]. split; [exact F|exact A].
Qed.

End LabelDatabase.

(** * Grouping by key: the minimal rules and the collections of the ILP *)

Section DictionaryOfLists.
Context {K V : Type} (key_eqb : K -> K -> bool).
Hypothesis key_sym : forall a b, key_eqb a b = key_eqb b a.
Hypothesis key_trans :
  forall a b c, key_eqb a b = true -> key_eqb b c = true -> key_eqb a c = true.

Lemma key_rewrite a b c : key_eqb a b = true -> key_eqb a c = key_eqb b c.
Proof.
  intros E. destruct (key_eqb b c) eqn:B.
  - exact (key_trans _ _ _ E B).
  - destruct (key_eqb a c) eqn:A; [|reflexivity].
    rewrite key_sym in E. now rewrite (key_trans _ _ _ E A) in B.
Qed.

Lemma get_append_to (d : list (K * list V)) k v k' :
  PyDict.get key_eqb (PyDict.append_to key_eqb d k v) k'
  = if key_eqb k k'
    then Some (match PyDict.get key_eqb d k' with
               | Some values => values ++ [v]
               | None => [v]
               end)
    else PyDict.get key_eqb d k'.
Proof.
  induction d as [|[k0 vs] d IH]; simpl.
  - now destruct (key_eqb k k').
  - destruct (key_eqb k0 k) eqn:E0; simpl.
    + rewrite (key_rewrite _ _ k' E0). now destruct (key_eqb k k').
    + destruct (key_eqb k0 k') eqn:E1; [|exact IH].
      destruct (key_eqb k k') eqn:E2; [|reflexivity].
      rewrite (key_sym k k') in E2. now rewrite (key_trans _ _ _ E1 E2) in E0.
Qed.

Lemma get_fold_append (pairs : list (K * V)) : forall d k',
  PyDict.get key_eqb
             (fold_left (fun d kv => PyDict.append_to key_eqb d (fst kv) (snd kv)) pairs d) k'
  = match PyDict.get key_eqb d k' with
    | Some values => Some (values ++ filed key_eqb pairs k')
    | None => entry (filed key_eqb pairs k')
    end.
Proof.
  induction pairs as [|[k v] pairs IH]; intros d k'; simpl.
  - unfold filed. simpl. destruct (PyDict.get key_eqb d k'); [now rewrite app_nil_r|reflexivity].
  - rewrite IH, get_append_to. unfold filed. simpl.
    destruct (key_eqb k k'); simpl; [|reflexivity].
    destruct (PyDict.get key_eqb d k'); [now rewrite <- app_assoc|reflexivity].
Qed.

Lemma append_to_length (d : list (K * list V)) k v :
  List.length (PyDict.append_to key_eqb d k v) <= S (List.length d).
Proof.
  induction d as [|[k0 vs] d IH]; simpl; [lia|].
  destruct (key_eqb k0 k); simpl; lia.
Qed.

Lemma fold_append_length (pairs : list (K * V)) : forall d,
  List.length (fold_left (fun d kv => PyDict.append_to key_eqb d (fst kv) (snd kv)) pairs d)
  <= List.length d + List.length pairs.
Proof.
  induction pairs as [|[k v] pairs IH]; intros d; simpl; [lia|].
  specialize (IH (PyDict.append_to key_eqb d k v)).
  pose proof (append_to_length d k v). lia.
Qed.

End DictionaryOfLists.

Section MinimalRules.
Import PyData Mod.
Context {O : Oracle}.

Lemma has_transition_set transitions t :
  existsb (Transition.eqb t) (LatticeNode.distinct_transitions [] transitions)
  = existsb (Transition.eqb t) transitions.
Proof.
  destruct (existsb (Transition.eqb t) transitions) eqn:E.
  - apply existsb_exists in E as (t' & Hi & Et).
    assert (C : existsb (Transition.eqb t') (LatticeNode.distinct_transitions [] transitions)
                = true) by (apply distinct_transitions_covers; now right).
    apply existsb_exists in C as (t'' & Hi' & Et').
    apply existsb_exists. exists t''. split; [exact Hi'|].
    exact (transition_eqb_trans _ _ _ Et Et').
  - apply not_true_is_false. intros H. apply existsb_exists in H as (t' & Hi & Et).
    apply distinct_transitions_subset in Hi as [[]|Hi].
    assert (C : existsb (Transition.eqb t) transitions = true)
      by (apply existsb_exists; eauto).
    congruence.
Qed.

Lemma distinct_transitions_length more : forall seen,
  List.length (LatticeNode.distinct_transitions seen more)
  <= List.length seen + List.length more.
Proof.
  induction more as [|x more IH]; intros seen; simpl; [lia|].
  destruct (existsb (Transition.eqb x) seen).
  - specialize (IH seen). lia.
  - specialize (IH (seen ++ [x])). rewrite length_app in IH. simpl in IH. lia.
Qed.

(** The loop of [IteratedMap.__init__] over the transitions. *)
Lemma minimal_rules_loop ts : forall d d',
  RuleGraph.foldM
    (fun minimal_rules transition =>
       bind (Transition.minimal_subrule transition) (fun minimal_subrule =>
       Some (PyDict.append_to RuleGraph.eqb minimal_rules minimal_subrule transition)))
    ts d = Some d' ->
  (forall t, In t ts -> exists r, Transition.minimal_subrule t = Some r)
  /\ exists pairs,
       List.length pairs = List.length ts
       /\ d' = fold_left (fun d kv => PyDict.append_to RuleGraph.eqb d (fst kv) (snd kv)) pairs d
       /\ forall r, filed RuleGraph.eqb pairs r
                    = filter (fun t => match Transition.minimal_subrule t with
                                       | Some r' => RuleGraph.eqb r' r
                                       | None => false
                                       end) ts.
Proof.
  induction ts as [|t ts IH]; intros d d'; cbn [RuleGraph.foldM].
  - intros [= <-]. split; [intros t []|]. exists []. auto.
  - destruct (Transition.minimal_subrule t) as [r0|] eqn:Et; [|discriminate].
    cbn [bind]. intros H. destruct (IH _ _ H) as (Hall & pairs & Hl & Hd & Hf).
    split.
    + intros t' [<-|Hi]; [eauto|auto].
    + exists ((r0, t) :: pairs). split; [cbn [List.length]; now rewrite Hl|].
      split; [exact Hd|].
      intros r. unfold filed. cbn [filter map fst snd]. rewrite Et.
      destruct (RuleGraph.eqb r0 r); cbn [map snd]; [f_equal|]; apply Hf.
Qed.

(** X28: [IteratedMap] files every transition under its minimal subrule: the
    entry of a rule in [minimal_rules] lists exactly the transitions of the
    set whose minimal subrule is [==] to it, and a rule with no such
    transition has no entry.  [has_transition] finds exactly the
    transitions [==] to one handed in, and there are no more minimal rules
    than transitions. *)
Theorem minimal_rules_group_transitions (input_graphs : list CanonicalGraph.t)
    (transitions : list Transition.t) (M : IteratedMap.t) :
  IteratedMap.init input_graphs transitions = Some M ->
  (forall t, IteratedMap.has_transition M t = existsb (Transition.eqb t) transitions)
  /\ (forall t, In t (IteratedMap._transitions M) ->
                exists r, Transition.minimal_subrule t = Some r)
  /\ (forall r, PyDict.get RuleGraph.eqb (IteratedMap.minimal_rules M) r
                = entry (filter (fun t => match Transition.minimal_subrule t with
                                          | Some r' => RuleGraph.eqb r' r
                                          | None => false
                                          end) (IteratedMap._transitions M)))
  /\ IteratedMap.number_of_minimal_rules M <= List.length (IteratedMap._transitions M)
  /\ List.length (IteratedMap._transitions M) <= List.length transitions.
Proof.
  unfold IteratedMap.init. intros H.
  match type of H with
  | bind ?x _ = _ => destruct x as [d|] eqn:E; [|discriminate]
  end.
  simpl in H. injection H as <-.
  unfold IteratedMap.has_transition, IteratedMap.minimal_rules,
    IteratedMap.number_of_minimal_rules. simpl.
  destruct (minimal_rules_loop _ _ _ E) as (Hall & pairs & Hl & Hd & Hf).
  split; [intros t; apply has_transition_set|]. split; [exact Hall|]. split; [|split].
  - intros r. rewrite Hd.
    rewrite (get_fold_append RuleGraph.eqb rulegraph_eqb_sym rulegraph_eqb_trans). simpl.
    now rewrite Hf.
  - rewrite Hd, <- Hl.
    exact (fold_append_length RuleGraph.eqb pairs []).
  - exact (distinct_transitions_length transitions []).
Qed.

End MinimalRules.

Section MinimalRulesRun.
Import PyData Mod Examples.
#[local] Existing Instance Exhaustive.oracle.

(** The transitions [A-B], [A-C] and [A-B] again. *)
Lemma minimal_rules_group_transitions_witness :
  exists M, IteratedMap.init [] [reference_AB; reference_AC; reference_AB] = Some M
            /\ IteratedMap.number_of_minimal_rules M <= List.length (IteratedMap._transitions M)
            /\ List.length (IteratedMap._transitions M) <= 3.
Proof.
  destruct (IteratedMap.init [] [reference_AB; reference_AC; reference_AB]) as [M|] eqn:E;
    [|vm_compute in E; discriminate].
  exists M. split; [reflexivity|].
  exact (proj2 (proj2 (proj2 (minimal_rules_group_transitions _ _ M E)))).
Defined.

End MinimalRulesRun.

Section IlpCollections.
Import PyData Mod.

Lemma fold_append_pairs {K V} (key_eqb : K -> K -> bool) (v : V) (ks : list K) : forall d,
  fold_left (fun d k => PyDict.append_to key_eqb d k v) ks d
  = fold_left (fun d kv => PyDict.append_to key_eqb d (fst kv) (snd kv))
              (map (fun k => (k, v)) ks) d.
Proof. induction ks as [|k ks IH]; intros d; simpl; [reflexivity|apply IH]. Qed.

Lemma from_candidates_loop (side1 side2 : CandidateRule.t -> list Transition.t) candidates :
  forall rules d1 d2,
  fold_left
    (fun state candidate =>
       let '(candidate_rules, reference_transitions, spurious_transitions) := state in
       (candidate_rules ++ [CandidateRule.rule candidate],
        fold_left (fun d transition =>
                     PyDict.append_to Transition.eqb d transition (CandidateRule.rule candidate))
                  (side1 candidate) reference_transitions,
        fold_left (fun d transition =>
                     PyDict.append_to Transition.eqb d transition (CandidateRule.rule candidate))
                  (side2 candidate) spurious_transitions))
    candidates (rules, d1, d2)
  = (rules ++ map CandidateRule.rule candidates,
     fold_left (fun d kv => PyDict.append_to Transition.eqb d (fst kv) (snd kv))
               (flat_map (fun c => map (fun t => (t, CandidateRule.rule c)) (side1 c))
                         candidates) d1,
     fold_left (fun d kv => PyDict.append_to Transition.eqb d (fst kv) (snd kv))
               (flat_map (fun c => map (fun t => (t, CandidateRule.rule c)) (side2 c))
                         candidates) d2).
Proof.
  induction candidates as [|c cs IH]; intros rules d1 d2; simpl.
  - now rewrite app_nil_r.
  - rewrite IH, !fold_left_app, <- !fold_append_pairs, <- app_assoc. reflexivity.
Qed.

Lemma filed_pairs (side : CandidateRule.t -> list Transition.t) candidates t :
  filed Transition.eqb
        (flat_map (fun c => map (fun t => (t, CandidateRule.rule c)) (side c)) candidates) t
  = rules_with side candidates t.
Proof.
  unfold filed, rules_with. induction candidates as [|c cs IH]; simpl; [reflexivity|].
  rewrite filter_app, map_app, IH. f_equal.
  induction (side c) as [|t' ts IHt]; simpl; [reflexivity|].
  destruct (Transition.eqb t' t); simpl; now rewrite IHt.
Qed.

(** X29: The collections [from_candidates] hands to the ILP model: the rules of
    the candidates in order, and two dictionaries in which a transition is
    filed with the rule of every candidate that has it in its coverage
    (respectively in its distortion), and with no other rule; a transition
    that no candidate has is no key. *)
Theorem from_candidates_collects (candidates : list CandidateRule.t) :
  let '(candidate_rules, reference_transitions, spurious_transitions) :=
    ILPModel.from_candidates candidates in
  candidate_rules = map CandidateRule.rule candidates
  /\ (forall t, PyDict.get Transition.eqb reference_transitions t
                = entry (rules_with CandidateRule.coverage candidates t))
  /\ (forall t, PyDict.get Transition.eqb spurious_transitions t
                = entry (rules_with CandidateRule.distortion candidates t)).
Proof.
  unfold ILPModel.from_candidates.
  rewrite (from_candidates_loop CandidateRule.coverage CandidateRule.distortion).
  cbv beta iota. split; [reflexivity|].
  split; intros t;
    rewrite (get_fold_append (V := option RuleGraph.t) Transition.eqb
               transition_eqb_sym transition_eqb_trans);
    simpl; now rewrite filed_pairs.
Qed.

End IlpCollections.

(** * The lattice returned by the search *)

Section LatticeResult.
Import PyData Mod.
Context {O : Oracle}.

Lemma mcs_coverage fuel : forall N X,
  LatticeNode.get_maximum_common_subrule fuel N = Some X ->
  LatticeNode.coverage_eqb (LatticeNode.coverage X) (LatticeNode.coverage N) = true.
Proof.
  induction fuel as [|fuel IH]; simpl; intros N X H; [discriminate|].
  assert (Hscan : forall children,
            LatticeNode.scan_children (LatticeNode.get_maximum_common_subrule fuel)
              N children [] = Some X ->
            LatticeNode.coverage_eqb (LatticeNode.coverage X) (LatticeNode.coverage N) = true).
  { intros children Hs.
    destruct (scan_children_cases _ _ _ _ _ Hs) as [(c & Hc & Ec & Hr)|[_ ->]].
    - apply IH in Hr. rewrite coverage_read_coverage in Hr.
      eapply coverage_eqb_trans; eauto.
    - rewrite coverage_of_collected. apply coverage_eqb_refl. }
  destruct (LatticeNode._successors N) as [[|c cs]|] eqn:Es.
  - destruct (LatticeNode.successors N); [|discriminate]. simpl in H. eauto.
  - injection H as <-. apply coverage_eqb_refl.
  - destruct (LatticeNode.successors N); [|discriminate]. simpl in H. eauto.
Qed.

Lemma coverage_eqb_existsb t a : forall b,
  LatticeNode.coverage_eqb a b = true ->
  existsb (Transition.eqb t) a = existsb (Transition.eqb t) b.
Proof.
  induction a as [|x a IH]; intros [|y b]; simpl; try congruence.
  intros H. apply andb_prop in H as [E H]. rewrite (IH _ H). f_equal.
  destruct (Transition.eqb t y) eqn:Ey.
  - apply (transition_eqb_trans _ y); [exact Ey|]. now rewrite transition_eqb_sym.
  - destruct (Transition.eqb t x) eqn:Ex; [|reflexivity].
    now rewrite (transition_eqb_trans _ _ _ Ex E) in Ey.
Qed.

Lemma rooted_init root spurious : rooted root spurious (RuleLattice.init root spurious).
Proof.
  unfold rooted, RuleLattice.init.
  cbn [RuleLattice._roots RuleLattice._candidates RuleLattice.lookup].
  rewrite same_key_refl. split; [reflexivity|]. split; [reflexivity|].
  intros k c. destruct (RuleLattice.same_key root k); [|discriminate].
  intros [= <-]. apply incl_refl.
Qed.

Lemma rooted_add_node root spurious fuel L node parent L' r :
  rooted root spurious L ->
  RuleLattice._add_node fuel L node parent = Some (L', r) ->
  rooted root spurious L'.
Proof.
  intros (Hr & Hc & Hd) Hadd.
  destruct (add_node_queue _ _ _ _ _ _ Hadd) as (Er & _ & Hcase).
  split; [congruence|].
  destruct Hcase as [(_ & _ & Ec)|(mcs & cP & d & _ & Hkey & HcP & Hemb & Ec & _)].
  - rewrite Ec. auto.
  - rewrite Ec. destruct (embeddable_filter _ _ _ Hemb) as [Hincl _]. split.
    + rewrite lookup_store, (lookup_none_not_same_key _ _ _ _ Hkey Hc). exact Hc.
    + intros k c. rewrite lookup_store. destruct (RuleLattice.same_key mcs k); [|apply Hd].
      intros [= <-]. simpl. intros t Ht. apply (Hd _ _ HcP). now apply Hincl.
Qed.

Lemma rooted_add_children root spurious fuel children active : forall L L',
  rooted root spurious L ->
  RuleLattice.add_children fuel L children active = Some L' ->
  rooted root spurious L'.
Proof.
  induction children as [|child rest IH]; simpl; intros L L' HR H.
  - now injection H as <-.
  - destruct (RuleLattice._add_node fuel L child active) as [[L1 r]|] eqn:E; [|discriminate].
    simpl in H. eapply IH; [|exact H]. eapply rooted_add_node; eauto.
Qed.

Lemma rooted_resolve_node root spurious fuel L L' :
  rooted root spurious L -> RuleLattice.resolve_node fuel L = Some L' ->
  rooted root spurious L'.
Proof.
  intros HR. unfold RuleLattice.resolve_node.
  destruct (RuleLattice.active_node L) as [active|].
  - destruct (LatticeNode.successors active) as [children|]; [|discriminate]. simpl.
    apply rooted_add_children. exact HR.
  - intros [= <-]. exact HR.
Qed.

Lemma resolve_all_result root spurious rounds fuel : forall L L',
  rooted root spurious L -> RuleLattice.resolve_all rounds fuel L = Some L' ->
  rooted root spurious L' /\ RuleLattice._node_queue L' = [].
Proof.
  induction rounds as [|rounds IH]; simpl; intros L L' HR H.
  - unfold RuleLattice.active_node in H.
    destruct (RuleLattice._node_queue L) eqn:Q; [|discriminate]. injection H as <-. auto.
  - unfold RuleLattice.active_node in H.
    destruct (RuleLattice._node_queue L) eqn:Q.
    + injection H as <-. auto.
    + destruct (RuleLattice.resolve_node fuel L) as [L1|] eqn:E; [|discriminate].
      simpl in H. eapply IH; [|exact H]. eapply rooted_resolve_node; eauto.
Qed.

Lemma minimal_embeddings_hosts reference :
  forall es,
  mapM (fun transition =>
          bind (Transition.minimal_subrule transition) (fun minimal =>
          bind (Transition.minimal_subrule_anchor transition) (fun anchor =>
          Some (Embedding.mk transition minimal anchor))))
       reference = Some es ->
  map Embedding.host_transition es = reference.
Proof.
  induction reference as [|t ts IH]; simpl; intros es H.
  - now injection H as <-.
  - destruct (Transition.minimal_subrule t) as [m|]; [|discriminate]. simpl in H.
    destruct (Transition.minimal_subrule_anchor t) as [a|]; [|discriminate]. simpl in H.
    match type of H with
    | bind ?x _ = _ => destruct x as [es'|] eqn:E; [|discriminate]
    end.
    simpl in H. injection H as <-. simpl. f_equal. now apply IH.
Qed.

(** X30: The lattice that [build_minimal_rule_lattice] returns has an empty
    queue and one root; the coverage of the root holds the reference
    transitions and nothing else (up to [==]); the candidate of the root has
    as distortion the spurious transitions that can embed the pattern of the
    root; and the distortion of every candidate is part of it. *)
Theorem build_minimal_rule_lattice_result (rounds fuel : nat)
    (reference spurious : list Transition.t) (L : RuleLattice.t) :
  RuleLattice.build_minimal_rule_lattice rounds fuel reference spurious = Some L ->
  RuleLattice._node_queue L = []
  /\ exists root distortion,
       RuleLattice._roots L = [root]
       /\ (forall t, existsb (Transition.eqb t) (LatticeNode.coverage root)
                     = existsb (Transition.eqb t) reference)
       /\ RuleLattice.embeddable (LatticeNode.pattern root) spurious = Some distortion
       /\ RuleLattice.lookup (RuleLattice._candidates L) root
          = Some (CandidateRule.init root distortion)
       /\ forall k c, RuleLattice.lookup (RuleLattice._candidates L) k = Some c ->
                      incl (CandidateRule.distortion c) distortion.
Proof.
  unfold RuleLattice.build_minimal_rule_lattice. intros H.
  match type of H with
  | bind ?x _ = _ => destruct x as [es|] eqn:Ees; [|discriminate]
  end.
  simpl in H.
  destruct (LatticeNode.get_maximum_common_subrule fuel (LatticeNode.init es)) as [root|] eqn:Er;
    [|discriminate].
  simpl in H.
  destruct (RuleLattice.embeddable (LatticeNode.pattern root) spurious) as [sp|] eqn:Esp;
    [|discriminate].
  simpl in H.
  destruct (resolve_all_result root sp _ _ _ _ (rooted_init root sp) H) as [(R1 & R2 & R3) Q].
  split; [exact Q|]. exists root, sp.
  split; [exact R1|]. split; [|auto].
  intros t. rewrite (coverage_eqb_existsb t _ _ (mcs_coverage _ _ _ Er)), coverage_init.
  rewrite (minimal_embeddings_hosts _ _ Ees).
  destruct (existsb (Transition.eqb t) reference) eqn:E.
  - apply existsb_exists in E as (t' & Hi & Et).
    assert (C : existsb (Transition.eqb t')
                  (LatticeNode.sorted_transitions
                     (LatticeNode.distinct_transitions [] reference)) = true).
    { assert (C0 : existsb (Transition.eqb t') (LatticeNode.distinct_transitions [] reference)
                   = true) by (apply distinct_transitions_covers; now right).
      apply existsb_exists in C0 as (t'' & Hi' & Et').
      apply existsb_exists. exists t''. split; [|exact Et'].
      now apply (proj2 (sorted_transitions_in _ _)). }
    apply existsb_exists in C as (t'' & Hi' & Et').
    apply existsb_exists. exists t''. split; [exact Hi'|].
    exact (transition_eqb_trans _ _ _ Et Et').
  - apply not_true_is_false. intros C. apply existsb_exists in C as (t' & Hi & Et).
    apply (proj1 (sorted_transitions_in _ _)) in Hi.
    apply distinct_transitions_subset in Hi as [[]|Hi].
    assert (C : existsb (Transition.eqb t) reference = true)
      by (apply existsb_exists; eauto).
    congruence.
Qed.

End LatticeResult.

Section LatticeResultRun.
Import PyData Mod Examples.
#[local] Existing Instance Exhaustive.oracle.

(** The search over the reference transitions [A-B] and [A-C], with the
    spurious transition [A-D]. *)
Lemma build_minimal_rule_lattice_result_witness :
  exists L, RuleLattice.build_minimal_rule_lattice 8 8 [reference_AB; reference_AC] [spurious_AD]
            = Some L
            /\ RuleLattice._node_queue L = [].
Proof.
  destruct (RuleLattice.build_minimal_rule_lattice 8 8 [reference_AB; reference_AC]
              [spurious_AD]) as [L|] eqn:E; [|vm_compute in E; discriminate].
  exists L. split; [reflexivity|].
  exact (proj1 (build_minimal_rule_lattice_result _ _ _ _ L E)).
Defined.

End LatticeResultRun.

(** * The minimal subrule: the graph loaded from the rule *)

Section Components.
Import PyData.

Lemma adjacent_sym es x y : adjacent es x y -> adjacent es y x.
Proof. intros [l H]. exists l. tauto. Qed.

Lemma adjacent_to_spec g seen n :
  NX.adjacent_to g seen n = true <-> exists x, In x seen /\ adjacent (NX.edges g) x n.
Proof.
  unfold NX.adjacent_to. rewrite existsb_exists. split.
  - intros ([[a b] l] & Hin & H). apply orb_true_iff in H as [H|H];
      apply andb_true_iff in H as [E M]; apply Nat.eqb_eq in E; apply mem_In in M; subst.
    + exists b. split; [exact M|]. exists l. now right.
    + exists a. split; [exact M|]. exists l. now left.
  - intros (x & Hx & l & [H|H]).
    + exists (x, n, l). split; [exact H|]. apply orb_true_iff. right.
      rewrite Nat.eqb_refl. simpl. now apply mem_In.
    + exists (n, x, l). split; [exact H|]. apply orb_true_iff. left.
      rewrite Nat.eqb_refl. simpl. now apply mem_In.
Qed.

Lemma expand_in g seen y :
  In y (NX.expand g seen)
  <-> In y (NX.node_ids g)
      /\ (In y seen \/ exists x, In x seen /\ adjacent (NX.edges g) x y).
Proof.
  unfold NX.expand. rewrite filter_In, orb_true_iff, mem_In, adjacent_to_spec. tauto.
Qed.

Lemma expand_monotone g s s' : incl s s' -> incl (NX.expand g s) (NX.expand g s').
Proof.
  intros H y Hy. apply expand_in in Hy as [Hn [Hs|(x & Hx & Ha)]]; apply expand_in.
  - split; [exact Hn|]. left. now apply H.
  - split; [exact Hn|]. right. exists x. split; [now apply H|exact Ha].
Qed.

(** The search stays within every closed set that holds its start. *)
Lemma closure_least g nodes : closed g nodes ->
  forall k seen, incl seen nodes -> incl (NX.closure g k seen) nodes.
Proof.
  intros Hc. induction k as [|k IH]; simpl; intros seen Hs; [exact Hs|].
  apply IH. intros y Hy. apply expand_in in Hy as [Hn [H|(x & Hx & Ha)]].
  - now apply Hs.
  - apply (Hc x y); auto.
Qed.

Lemma filter_length_le {A} (f h : A -> bool) l :
  (forall x, In x l -> f x = true -> h x = true) ->
  List.length (filter f l) <= List.length (filter h l).
Proof.
  induction l as [|x l IH]; simpl; intros H; [lia|].
  assert (IH' : List.length (filter f l) <= List.length (filter h l))
    by (apply IH; intros y Hy; apply H; now right).
  destruct (f x) eqn:Ef.
  - rewrite (H x (or_introl eq_refl) Ef). simpl. lia.
  - destruct (h x); simpl; lia.
Qed.

Lemma filter_same_length {A} (f h : A -> bool) l :
  (forall x, In x l -> f x = true -> h x = true) ->
  List.length (filter h l) <= List.length (filter f l) ->
  filter f l = filter h l.
Proof.
  induction l as [|x l IH]; simpl; intros H Hl; [reflexivity|].
  assert (Hle : List.length (filter f l) <= List.length (filter h l))
    by (apply filter_length_le; intros y Hy; apply H; now right).
  destruct (f x) eqn:Ef.
  - rewrite (H x (or_introl eq_refl) Ef) in *. simpl in Hl. f_equal.
    apply IH; [intros y Hy; apply H; now right|lia].
  - destruct (h x); simpl in Hl; [lia|].
    apply IH; [intros y Hy; apply H; now right|lia].
Qed.

Lemma filter_full {A} (f : A -> bool) l :
  List.length l <= List.length (filter f l) -> filter f l = l.
Proof.
  intros H. rewrite <- (filter_true l) at 2.
  apply filter_same_length; [reflexivity|]. now rewrite filter_true.
Qed.

Lemma closure_fixed g s : NX.expand g s = s -> forall k, NX.closure g k s = s.
Proof. intros H. induction k as [|k IH]; simpl; [reflexivity|]. now rewrite H. Qed.

(** A search from a set of the form [filter f nodes] that holds its own
    start either comes to rest or grows in every round. *)
Lemma closure_grows g : forall k s f,
  s = filter f (NX.node_ids g) -> incl s (NX.expand g s) ->
  (NX.expand g (NX.closure g k s) = NX.closure g k s
   \/ List.length s + k <= List.length (NX.closure g k s))
  /\ exists f', NX.closure g k s = filter f' (NX.node_ids g).
Proof.
  induction k as [|k IH]; simpl; intros s f Es Hinc.
  - split; [right; lia|eauto].
  - assert (Hmono : forall x, In x (NX.node_ids g) -> f x = true ->
              NX.mem x s || NX.adjacent_to g s x = true).
    { intros x Hx Hf. apply orb_true_iff. left. apply mem_In.
      rewrite Es. apply filter_In. auto. }
    destruct (IH (NX.expand g s) _ eq_refl (expand_monotone _ _ _ Hinc)) as [[Hfix|Hlen] Hform].
    + split; [now left|exact Hform].
    + split; [|exact Hform].
      destruct (Nat.le_gt_cases (List.length (NX.expand g s)) (List.length s)) as [Hle|Hgt].
      * left. assert (E : s = NX.expand g s).
        { rewrite Es at 1. unfold NX.expand. apply filter_same_length; [exact Hmono|].
          unfold NX.expand in Hle. now rewrite <- Es. }
        rewrite <- E. rewrite (closure_fixed g s (eq_sym E)). now symmetry.
      * right. lia.
Qed.

Lemma expand_fixed_closed g s : incl (NX.expand g s) s -> closed g s.
Proof.
  intros H x y Hx Hy Ha. apply H, expand_in. split; [exact Hy|]. right. eauto.
Qed.

(** The component of a node is closed, lies within the nodes, and within
    every closed set that holds the node. *)
Lemma component_closed g n :
  In n (NX.node_ids g) ->
  closed g (NX.component_of g n)
  /\ incl (NX.component_of g n) (NX.node_ids g).
Proof.
  intros Hn. unfold NX.component_of.
  assert (El : List.length (NX.nodes g) = List.length (NX.node_ids g))
    by (unfold NX.node_ids; now rewrite length_map).
  rewrite El.
  destruct (List.length (NX.node_ids g)) as [|k] eqn:Ek.
  { destruct (NX.node_ids g); [destruct Hn|discriminate]. }
  cbn [NX.closure].
  assert (H1 : In n (NX.expand g [n]))
    by (apply expand_in; split; [exact Hn|left; now left]).
  assert (Hinc : incl (NX.expand g [n]) (NX.expand g (NX.expand g [n]))).
  { intros y Hy. apply expand_in. split; [|now left].
    now apply expand_in in Hy as [Hy _]. }
  destruct (closure_grows g k (NX.expand g [n]) _ eq_refl Hinc) as [[Hfix|Hlen] [f' Hform]].
  - split.
    + apply expand_fixed_closed. rewrite Hfix. apply incl_refl.
    + rewrite Hform. intros y Hy. now apply filter_In in Hy.
  - assert (Hall : NX.closure g k (NX.expand g [n]) = NX.node_ids g).
    { rewrite Hform. apply filter_full. rewrite <- Hform, Ek.
      destruct (NX.expand g [n]); [destruct H1|]. simpl in Hlen. lia. }
    rewrite Hall. split; [|apply incl_refl]. intros x y _ Hy _. exact Hy.
Qed.

Lemma complement_closed g seen :
  closed g seen ->
  closed g (filter (fun x => negb (NX.mem x seen)) (NX.node_ids g)).
Proof.
  intros Hc x y Hx Hy Ha. apply filter_In in Hx as [Hx Hm]. apply filter_In.
  split; [exact Hy|]. destruct (NX.mem y seen) eqn:E; [|reflexivity]. exfalso.
  apply mem_In in E. apply negb_true_iff in Hm.
  assert (In x seen) by (apply (Hc y x); auto using adjacent_sym).
  apply mem_In in H. congruence.
Qed.

Lemma closed_app g s1 s2 : closed g s1 -> closed g s2 -> closed g (s1 ++ s2).
Proof.
  intros H1 H2 x y Hx Hy Ha. apply in_app_iff in Hx as [Hx|Hx]; apply in_app_iff.
  - left. eapply H1; eauto.
  - right. eapply H2; eauto.
Qed.

(** No edge joins two of the components. *)
Lemma components_from_apart g : forall todo seen,
  closed g seen -> incl todo (NX.node_ids g) ->
  (forall c x, In c (NX.components_from g todo seen) -> In x c ->
               In x (NX.node_ids g) /\ ~ In x seen)
  /\ apart g (NX.components_from g todo seen).
Proof.
  induction todo as [|n todo IH]; simpl; intros seen Hc Ht.
  - split; [intros c x []|exact I].
  - assert (Ht' : incl todo (NX.node_ids g)) by (intros x Hx; apply Ht; now right).
    destruct (NX.mem n seen) eqn:Em; [now apply IH|].
    assert (Hn : In n (NX.node_ids g)) by (apply Ht; now left).
    destruct (component_closed g n Hn) as [Hcc Hcn].
    assert (Hout : forall x, In x (NX.component_of g n) -> ~ In x seen).
    { intros x Hx Hs.
      assert (Hin : In x (filter (fun x => negb (NX.mem x seen)) (NX.node_ids g))).
      { apply (closure_least g _ (complement_closed g seen Hc) (List.length (NX.nodes g)) [n]);
          [|exact Hx].
        intros y [<-|[]]. apply filter_In. split; [exact Hn|]. now rewrite Em. }
      apply filter_In in Hin as [_ Hm]. apply negb_true_iff in Hm.
      apply mem_In in Hs. congruence. }
    destruct (IH (NX.component_of g n ++ seen) (closed_app _ _ _ Hcc Hc) Ht') as [Hrest Hap].
    split; [|split; [|exact Hap]].
    + intros c x [<-|Hin] Hx.
      * split; [now apply Hcn|now apply Hout].
      * destruct (Hrest c x Hin Hx) as [Hx1 Hx2]. split; [exact Hx1|].
        intros Hs. apply Hx2, in_app_iff. now right.
    + intros p c' m Hp Hc' Hm Ha. destruct (Hrest c' m Hc' Hm) as [Hm1 Hm2].
      apply Hm2, in_app_iff. left. apply (Hcc p m); auto.
Qed.

End Components.

Section Linking.
Import PyData Mod.

Lemma set_edge_in_keeps es u v label e :
  In e es -> NX.joins u v e = false -> In e (NX.set_edge_in es u v label).
Proof.
  induction es as [|e0 es IH]; simpl; [tauto|].
  intros [->|H] J.
  - rewrite J. now left.
  - destruct (NX.joins u v e0); right; auto.
Qed.

Lemma set_edge_in_cases es u v label e :
  In e (NX.set_edge_in es u v label) -> In e es \/ snd e = label.
Proof.
  induction es as [|e0 es IH]; simpl.
  - intros [<-|[]]. now right.
  - destruct (NX.joins u v e0).
    + intros [<-|H]; [now right|left; now right].
    + intros [<-|H]; [left; now left|]. destruct (IH H); auto.
Qed.

Lemma joins_adjacent es u v e : In e es -> NX.joins u v e = true -> adjacent es u v.
Proof.
  destruct e as [[a b] l]. unfold NX.joins. intros Hin H.
  apply orb_true_iff in H as [H|H]; apply andb_true_iff in H as [E1 E2];
    apply Nat.eqb_eq in E1, E2; subst; exists l; auto.
Qed.

Lemma linked_refl g : linked g g.
Proof. split; [reflexivity|]. split; auto. Qed.

Lemma add_no_edge_linked g nx p n :
  linked g nx -> ~ adjacent (NX.edges g) p n -> linked g (NX.add_edge nx p n "no_edge").
Proof.
  intros (Hn & Hin & Hout) Ha. split; [exact Hn|]. split; simpl.
  - intros e He. apply set_edge_in_keeps; [now apply Hin|].
    destruct (NX.joins p n e) eqn:J; [|reflexivity].
    exfalso. apply Ha. eapply joins_adjacent; eauto.
  - intros e He. apply set_edge_in_cases in He as [He|He]; auto.
Qed.

Lemma link_principals g n : forall pr nx,
  linked g nx -> (forall p, In p pr -> ~ adjacent (NX.edges g) p n) ->
  linked g (fold_left (fun g0 p => NX.add_edge g0 p n "no_edge") pr nx).
Proof.
  induction pr as [|p pr IH]; simpl; intros nx H Ha; [exact H|].
  apply IH; [|intros q Hq; apply Ha; now right].
  apply add_no_edge_linked; [exact H|]. apply Ha. now left.
Qed.

Lemma link_modified g pr : forall ms nx,
  linked g nx -> (forall p n, In p pr -> In n ms -> ~ adjacent (NX.edges g) p n) ->
  linked g (fold_left (fun g0 n => fold_left (fun g1 p => NX.add_edge g1 p n "no_edge") pr g0)
                      ms nx).
Proof.
  induction ms as [|n ms IH]; simpl; intros nx H Ha; [exact H|].
  apply IH; [|intros p q Hp Hq; apply Ha; auto].
  apply link_principals; [exact H|]. intros p Hp. apply Ha; auto.
Qed.

(** Tying the components together adds edges labelled ["no_edge"] and
    changes no edge of the graph. *)
Lemma link_components_linked g : forall cs pr nx nx',
  linked g nx ->
  (forall p c n, In p pr -> In c cs -> In n c -> ~ adjacent (NX.edges g) p n) ->
  apart g cs ->
  RuleGraph.link_components nx cs pr = Some nx' ->
  linked g nx'.
Proof.
  induction cs as [|c cs IH]; simpl; intros pr nx nx' H Hpr Hap Hl.
  - now injection Hl as <-.
  - destruct (Nat.eqb _ 0); [discriminate|]. destruct Hap as [Hc Hap].
    assert (Hsub : forall n, In n (RuleGraph._find_modified_nodes nx c) -> In n c)
      by (intros n Hn; unfold RuleGraph._find_modified_nodes in Hn;
          now apply filter_In in Hn).
    pose proof (link_modified g pr (RuleGraph._find_modified_nodes nx c) nx H
                  (fun p n Hp Hn => Hpr p c n Hp (or_introl eq_refl) (Hsub n Hn))) as H1.
    refine (IH _ _ _ H1 _ Hap Hl).
    intros p c' n Hp Hc' Hn. apply in_app_iff in Hp as [Hp|Hp].
    + apply (Hpr p c' n); auto.
    + apply (Hc p c' n); auto.
Qed.

Lemma nx_graph_to_mod_graph_linked {O : Oracle} nx G :
  RuleGraph._nx_graph_to_mod_graph nx = Some G ->
  exists nx', linked nx nx' /\ CanonicalGraph.graph G = RuleGraph.graph_from_nx nx'.
Proof.
  unfold RuleGraph._nx_graph_to_mod_graph.
  destruct (Nat.ltb 1 _).
  - destruct (RuleGraph.link_components nx (NX.connected_components nx) []) as [nx'|] eqn:E;
      [|discriminate].
    simpl. intros [= <-]. exists nx'. split; [|reflexivity].
    refine (link_components_linked nx _ [] nx nx' (linked_refl nx) _ _ E);
      [intros p c n []|].
    apply components_from_apart; [intros x y []|apply incl_refl].
  - simpl. intros [= <-]. exists nx. split; [apply linked_refl|reflexivity].
Qed.

Lemma set_edge_fresh es u v label :
  (forall e, In e es -> NX.joins u v e = false) ->
  NX.set_edge_in es u v label = es ++ [(u, v, label)].
Proof.
  induction es as [|e es IH]; simpl; intros H; [reflexivity|].
  rewrite (H e (or_introl eq_refl)). f_equal. apply IH. intros x Hx. apply H. now right.
Qed.

Lemma fold_add_node_nodes {A} (id : A -> Vertex) (label : A -> string) vs : forall nx,
  NoDup (NX.node_ids nx ++ map id vs) ->
  NX.nodes (fold_left (fun nx v => NX.add_node nx (id v) (label v)) vs nx)
  = NX.nodes nx ++ map (fun v => (id v, label v)) vs.
Proof.
  induction vs as [|v vs IH]; simpl; intros nx H; [now rewrite app_nil_r|].
  assert (Hf : ~ In (id v) (map fst (NX.nodes nx))).
  { apply NoDup_remove_2 in H. intros Hin. apply H, in_app_iff. now left. }
  rewrite IH.
  - unfold NX.add_node. simpl. rewrite set_node_fresh by exact Hf.
    now rewrite <- app_assoc.
  - unfold NX.node_ids, NX.add_node in *. simpl.
    rewrite set_node_fresh by exact Hf. rewrite map_app, <- app_assoc. exact H.
Qed.

Lemma fold_add_node_edges {A} (id : A -> Vertex) (label : A -> string) vs : forall nx,
  NX.edges (fold_left (fun nx v => NX.add_node nx (id v) (label v)) vs nx) = NX.edges nx.
Proof. induction vs as [|v vs IH]; simpl; intros nx; [reflexivity|]. now rewrite IH. Qed.

Lemma edges_simple_earlier l : forall x rest,
  edges_simple (l ++ x :: rest) ->
  forall e, In e l -> NX.joins (fst (fst x)) (snd (fst x)) e = false.
Proof.
  induction l as [|y l IH]; simpl; intros x rest H e Hin; [destruct Hin|].
  destruct H as [Hy Hs]. destruct Hin as [<-|Hin]; [|eapply IH; eauto].
  specialize (Hy x). destruct y as [[a b] ly], x as [[u v] lx]. cbn [fst snd] in *.
  rewrite (joins_swap u v a b ly lx). apply Hy. apply in_app_iff. right. now left.
Qed.

Lemma fold_add_edge_edges {A} (src tgt : A -> Vertex) (label : A -> string) es : forall nx,
  edges_simple (NX.edges nx ++ map (fun e => (src e, tgt e, label e)) es) ->
  NX.nodes (fold_left (fun nx e => NX.add_edge nx (src e) (tgt e) (label e)) es nx)
  = NX.nodes nx
  /\ NX.edges (fold_left (fun nx e => NX.add_edge nx (src e) (tgt e) (label e)) es nx)
     = NX.edges nx ++ map (fun e => (src e, tgt e, label e)) es.
Proof.
  induction es as [|e es IH]; simpl; intros nx H; [now rewrite app_nil_r|].
  assert (E : NX.set_edge_in (NX.edges nx) (src e) (tgt e) (label e)
              = NX.edges nx ++ [(src e, tgt e, label e)]).
  { apply set_edge_fresh. intros x Hx.
    exact (edges_simple_earlier _ (src e, tgt e, label e) _ H x Hx). }
  destruct (IH (NX.add_edge nx (src e) (tgt e) (label e))) as [Hn He].
  - simpl. rewrite E, <- app_assoc. exact H.
  - split; [exact Hn|]. rewrite He. simpl. rewrite E, <- app_assoc. reflexivity.
Qed.

Lemma pairs_simple (label : Vertex * Vertex -> string) ps :
  NoDup ps -> (forall p, In p ps -> fst p <= snd p) ->
  edges_simple (map (fun p => (fst p, snd p, label p)) ps).
Proof.
  induction ps as [|p ps IH]; simpl; intros ND Hle; [exact I|].
  inversion ND as [|? ? Hn ND']; subst. split; [|apply IH; auto].
  intros e He. apply in_map_iff in He as (q & <- & Hq). unfold NX.joins.
  pose proof (Hle p (or_introl eq_refl)). pose proof (Hle q (or_intror Hq)).
  destruct p as [a c], q as [a' c']. simpl in *.
  destruct (Nat.eqb_spec a' a), (Nat.eqb_spec c' c), (Nat.eqb_spec a' c), (Nat.eqb_spec c' a);
    simpl; try reflexivity; exfalso; apply Hn; subst;
    try assumption; replace c with a in * by lia; assumption.
Qed.

Lemma union_edges_nodup more : forall seen,
  NoDup seen -> NoDup (RuleBuilder.union_edges seen more).
Proof.
  induction more as [|e more IH]; simpl; intros seen H; [exact H|].
  match goal with |- context [existsb ?f seen] => destruct (existsb f seen) eqn:E end;
    [now apply IH|].
  apply IH. apply NoDup_app; auto.
  - constructor; [intros []|constructor].
  - intros x Hx [<-|[]].
    assert (C : existsb (fun e' => Nat.eqb (fst e') (fst e) && Nat.eqb (snd e') (snd e)) seen
                = true).
    { apply existsb_exists. exists e. split; [exact Hx|]. now rewrite !Nat.eqb_refl. }
    congruence.
Qed.

Lemma builder_edges_nodup b : NoDup (RuleBuilder.edges b).
Proof. unfold RuleBuilder.edges. do 3 apply union_edges_nodup. constructor. Qed.

(** The pattern loaded from the rule of a builder whose edges are sorted
    pairs: its vertices are the vertices of the builder under the
    combination of their two labels, and its edges are the edges of the
    builder under the combination of their two labels, and further edges
    labelled ["no_edge"]. *)
Lemma from_builder {O : Oracle} (b : RuleBuilder.t) S :
  (forall a c, present b (RuleBuilder.Edge a c) = true -> a <= c) ->
  RuleGraph.from_rule (RuleBuilder.to_mod_rule b) = Some S ->
  RuleGraph.vertices S
  = map (fun n => mkVertex n (Labels._combine_labels
                                (RuleBuilder.left_label b (RuleBuilder.Node n))
                                (RuleBuilder.right_label b (RuleBuilder.Node n))))
        (RuleBuilder.sort_ids (RuleBuilder.vertices b))
  /\ (forall a c, present b (RuleBuilder.Edge a c) = true ->
        In (mkEdge a c (Labels._combine_labels
                          (RuleBuilder.left_label b (RuleBuilder.Edge a c))
                          (RuleBuilder.right_label b (RuleBuilder.Edge a c))))
           (RuleGraph.edges S))
  /\ (forall e, In e (RuleGraph.edges S) ->
        elabel e = "no_edge"%string
        \/ (present b (RuleBuilder.Edge (source e) (target e)) = true
            /\ elabel e
               = Labels._combine_labels
                   (RuleBuilder.left_label b (RuleBuilder.Edge (source e) (target e)))
                   (RuleBuilder.right_label b (RuleBuilder.Edge (source e) (target e))))).
Proof.
  intros Hsorted. unfold RuleGraph.from_rule.
  destruct (RuleGraph._nx_graph_to_mod_graph _) as [G|] eqn:EG; [|discriminate].
  intros [= <-]. destruct (nx_graph_to_mod_graph_linked _ _ EG) as (nx' & (Hn & Hin & Hout) & Eg).
  unfold RuleGraph.vertices, RuleGraph.edges. cbn [RuleGraph._graph]. rewrite Eg.
  unfold RuleGraph.graph_from_nx. cbn [vertices edges].
  set (vlab := fun n => Labels._combine_labels (RuleBuilder.left_label b (RuleBuilder.Node n))
                          (RuleBuilder.right_label b (RuleBuilder.Node n))).
  set (elab := fun p : Vertex * Vertex =>
                 Labels._combine_labels
                   (RuleBuilder.left_label b (RuleBuilder.Edge (fst p) (snd p)))
                   (RuleBuilder.right_label b (RuleBuilder.Edge (fst p) (snd p)))).
  assert (Hnodes0 : NX.nodes (fold_left
                      (fun nx v => NX.add_node nx (ModRule.rid v)
                         (RuleGraph._combine_element_labels (ModRule.rleft v) (ModRule.rright v)))
                      (ModRule.vertices (RuleBuilder.to_mod_rule b)) NX.empty)
                    = map (fun n => (n, vlab n)) (RuleBuilder.sort_ids (RuleBuilder.vertices b))).
  { rewrite fold_add_node_nodes.
    - simpl. rewrite map_map. reflexivity.
    - simpl. rewrite map_map. simpl. rewrite map_id.
      eapply Permutation_NoDup; [apply sort_ids_perm|apply vertices_nodup]. }
  assert (Hsimple : edges_simple (map (fun p => (fst p, snd p, elab p)) (RuleBuilder.edges b))).
  { apply pairs_simple; [apply builder_edges_nodup|].
    intros [a c] Hp. simpl. apply Hsorted. now apply edges_in. }
  destruct (fold_add_edge_edges ModRule.rsource ModRule.rtarget
              (fun e => RuleGraph._combine_element_labels (ModRule.eleft e) (ModRule.eright e))
              (ModRule.edges (RuleBuilder.to_mod_rule b))
              (fold_left
                 (fun nx v => NX.add_node nx (ModRule.rid v)
                    (RuleGraph._combine_element_labels (ModRule.rleft v) (ModRule.rright v)))
                 (ModRule.vertices (RuleBuilder.to_mod_rule b)) NX.empty))
    as [Hnodes Hedges].
  { rewrite fold_add_node_edges. simpl. rewrite map_map. exact Hsimple. }
  rewrite fold_add_node_edges in Hedges.
  fold (RuleGraph._rule_to_nx_graph (RuleBuilder.to_mod_rule b)) in Hnodes, Hedges.
  simpl in Hedges. rewrite map_map in Hedges. simpl in Hedges.
  rewrite Hnodes, Hnodes0 in Hn.
  split; [|split].
  - rewrite Hn, map_map. reflexivity.
  - intros a c Hp. apply in_map_iff. exists (a, c, elab (a, c)). split; [reflexivity|].
    apply Hin. rewrite Hedges. apply in_map_iff. exists (a, c). split; [reflexivity|].
    now apply edges_in.
  - intros e He. apply in_map_iff in He as ([[a c] l] & <- & He). simpl.
    destruct (Hout _ He) as [H|H]; [right|now left].
    rewrite Hedges in H. apply in_map_iff in H as ([a' c'] & [= <- <- <-] & Hp).
    split; [now apply edges_in|reflexivity].
Qed.

End Linking.

(** * The minimal subrule: the labels of its elements *)

Section MinimalLabels.
Import PyStr Labels PyData Mod.
Import RuleBuilder.

Lemma absent_labels b x :
  present b x = false -> left_label b x = None /\ right_label b x = None.
Proof.
  unfold present, left_label, right_label, has_element.
  destruct (find_label (_left b) x), (find_label (_context b) x), (find_label (_right b) x);
    simpl; try discriminate; auto.
Qed.

Lemma add_context_element_labels b x label :
  separated b ->
  let b' := _add_context_element b x label in
  left_label b' x = Some label
  /\ right_label b' x = Some label
  /\ (forall y, y <> x ->
        left_label b' y = left_label b y /\ right_label b' y = right_label b y)
  /\ separated b'.
Proof.
  intros Hsep. cbv zeta. unfold _add_context_element.
  assert (Hne : forall y, y <> x -> element_eqb x y = false)
    by (intros y Hy; apply element_eqb_neq; congruence).
  assert (Hrem : forall s y,
             find_label (if has_element s x then remove_element s x else s) y
             = if element_eqb x y then None else find_label s y).
  { intros s y. destruct (has_element s x) eqn:Hs.
    - apply find_label_remove.
    - destruct (element_eqb x y) eqn:E; [|reflexivity].
      apply element_eqb_eq in E. subst y. now apply has_element_find. }
  unfold left_label, right_label. cbn [_left _right _context].
  rewrite !Hrem, !find_label_add, !element_eqb_refl.
  split; [reflexivity|]. split; [reflexivity|]. split.
  - intros y Hy. now rewrite !Hrem, !find_label_add, (Hne y Hy).
  - intros y Hy. cbn [_left _right _context] in *. unfold has_element in *.
    rewrite !Hrem. rewrite find_label_add in Hy.
    destruct (element_eqb x y) eqn:E; [auto|].
    destruct (Hsep y Hy) as [Hl Hr]. unfold has_element in Hl, Hr. auto.
Qed.

(** Adding an edge changes the labels of no other edge. *)
Lemma add_left_edge_others b s t_ label a c :
  separated b -> Edge a c <> EdgeTuple s t_ ->
  left_label (add_left_edge b s t_ label) (Edge a c) = left_label b (Edge a c)
  /\ right_label (add_left_edge b s t_ label) (Edge a c) = right_label b (Edge a c).
Proof.
  intros Hsep Hne. unfold add_left_edge.
  set (e := EdgeTuple s t_) in *.
  set (b1 := mk (_id b) (_add_edge_vertices e (_left b) [_context b]) (_context b) (_right b)).
  assert (He : exists a' c', e = Edge a' c')
    by (unfold e; destruct (EdgeTuple_cases s t_) as [-> | ->]; eauto).
  destruct He as (a' & c' & Ee).
  assert (S1 : separated b1).
  { intros y Hy. simpl in *. rewrite Ee, (ends_outside_context _ _ _ _ _ Hy). now apply Hsep. }
  destruct (add_left_element_labels b1 e label S1) as (_ & _ & _ & H4 & _).
  cbv zeta in H4. destruct (H4 _ Hne) as [-> ->]. split; [|reflexivity].
  unfold left_label, b1. simpl. rewrite Ee, side_with_ends. simpl.
  now destruct (find_label (_left b) (Edge a c)), (find_label (_context b) (Edge a c)).
Qed.

Lemma add_right_edge_others b s t_ label a c :
  separated b -> Edge a c <> EdgeTuple s t_ ->
  left_label (add_right_edge b s t_ label) (Edge a c) = left_label b (Edge a c)
  /\ right_label (add_right_edge b s t_ label) (Edge a c) = right_label b (Edge a c).
Proof.
  intros Hsep Hne. unfold add_right_edge.
  set (e := EdgeTuple s t_) in *.
  set (b1 := mk (_id b) (_left b) (_context b) (_add_edge_vertices e (_right b) [_context b])).
  assert (He : exists a' c', e = Edge a' c')
    by (unfold e; destruct (EdgeTuple_cases s t_) as [-> | ->]; eauto).
  destruct He as (a' & c' & Ee).
  assert (S1 : separated b1).
  { intros y Hy. simpl in *. rewrite Ee, (ends_outside_context _ _ _ _ _ Hy). now apply Hsep. }
  destruct (add_right_element_labels b1 e label S1) as (_ & _ & _ & H4 & _).
  cbv zeta in H4. destruct (H4 _ Hne) as [-> ->]. split; [reflexivity|].
  unfold right_label, b1. simpl. rewrite Ee, side_with_ends. simpl.
  now destruct (find_label (_right b) (Edge a c)), (find_label (_context b) (Edge a c)).
Qed.

(** The new ids are handed out injectively. *)
Lemma dict_get_inj b m v v' s :
  map_ok b m -> dict_get m v = Some s -> dict_get m v' = Some s -> v = v'.
Proof.
  intros Hok H1 H2.
  assert (Hin : forall u, dict_get m u = Some s -> In (u, s) m).
  { intros u Hu. destruct (dict_get_some m u (dict_get_keys _ _ _ Hu)) as (w & E & Hi).
    congruence. }
  apply Hin in H1, H2.
  assert (ND : NoDup (map snd m)) by (rewrite (ok_values _ _ Hok); apply seq_NoDup).
  clear -H1 H2 ND. induction m as [|[k w] m IH]; simpl in *; [tauto|].
  inversion ND as [|? ? Hn ND']; subst.
  destruct H1 as [E1|H1], H2 as [E2|H2]; auto.
  - congruence.
  - injection E1 as -> ->. exfalso. apply Hn. change s with (snd (v', s)). now apply in_map.
  - injection E2 as -> ->. exfalso. apply Hn. change s with (snd (v, s)). now apply in_map.
Qed.

Lemma split_some_truthy label l r x :
  _split_label label = (l, r) -> r = Some x -> truthy x = true.
Proof.
  intros Hs ->. destruct (split_label_halves _ _ _ Hs) as [_ Hr].
  exact (Hr x eq_refl).
Qed.

(** One round of the first loop: the vertex gets the wildcard for its left
    half and keeps its right half; no other vertex changes. *)
Lemma vertex_step_labels b m v :
  map_ok b m -> separated b -> ~ In (vid v) (keys m) ->
  let '(b', m') := RuleGraph.minimal_vertex_step (b, m) v in
  separated b'
  /\ (forall u s, dict_get m u = Some s ->
        dict_get m' u = Some s
        /\ left_label b' (Node s) = left_label b (Node s)
        /\ right_label b' (Node s) = right_label b (Node s))
  /\ (RuleGraph.is_relabeled (RuleGraph.VertexElement v) = true ->
      exists s, dict_get m' (vid v) = Some s
                /\ left_label b' (Node s)
                   = wildcard_if (otruthy (fst (_split_label (vlabel v))))
                /\ right_label b' (Node s) = snd (_split_label (vlabel v))).
Proof.
  intros Hok Hsep Hfresh. unfold RuleGraph.minimal_vertex_step.
  destruct (RuleGraph.is_relabeled (RuleGraph.VertexElement v)) eqn:Erel; cbn [negb].
  2:{ split; [exact Hsep|]. split; [auto|discriminate]. }
  unfold RuleGraph.split_element_label. cbn [RuleGraph.stringLabel].
  destruct (_split_label (vlabel v)) as [left_label_ right_label_] eqn:Esplit.
  rewrite (map_ok_next _ _ Hok). cbn [fst snd].
  set (k := List.length m).
  assert (Hk : present b (Node k) = false).
  { destruct (present b (Node k)) eqn:E; [|reflexivity].
    apply (ok_present _ _ Hok) in E. unfold k in E. lia. }
  destruct (absent_labels _ _ Hk) as [Lk Rk].
  set (b1 := if otruthy left_label_ then add_left_vertex b k "*" else b).
  assert (H1 : separated b1
               /\ left_label b1 (Node k) = wildcard_if (otruthy left_label_)
               /\ right_label b1 (Node k) = None
               /\ forall y, y <> Node k -> left_label b1 y = left_label b y
                                           /\ right_label b1 y = right_label b y).
  { unfold b1. destruct (otruthy left_label_); simpl; [|auto].
    destruct (add_left_element_labels b (Node k) "*" Hsep) as (A1 & A2 & _ & A4 & A5).
    cbv zeta in A1, A2, A4, A5. unfold add_left_vertex. rewrite A2. auto. }
  destruct H1 as (S1 & L1 & R1 & O1).
  set (b2 := match right_label_ with
             | Some r => if truthy r then add_right_vertex b1 k r else b1
             | None => b1
             end).
  assert (H2 : separated b2
               /\ left_label b2 (Node k) = wildcard_if (otruthy left_label_)
               /\ right_label b2 (Node k) = right_label_
               /\ forall y, y <> Node k -> left_label b2 y = left_label b y
                                           /\ right_label b2 y = right_label b y).
  { unfold b2. destruct right_label_ as [r|]; [|auto].
    rewrite (split_some_truthy _ _ _ r Esplit eq_refl).
    destruct (add_right_element_labels b1 (Node k) r S1) as (A1 & A2 & _ & A4 & A5).
    cbv zeta in A1, A2, A4, A5. unfold add_right_vertex.
    split; [exact A5|]. split; [now rewrite A2|]. split; [exact A1|].
    intros y Hy. destruct (A4 y Hy) as [-> ->]. now apply O1. }
  destruct H2 as (S2 & L2 & R2 & O2).
  rewrite (dict_set_fresh _ _ _ Hfresh).
  split; [exact S2|]. split.
  - intros u s Hu. split.
    + rewrite dict_get_app_l; [exact Hu|]. eapply dict_get_keys; eauto.
    + apply O2. intros [= ->]. pose proof (dict_get_bound _ _ _ _ Hok Hu). unfold k in *. lia.
  - intros _. exists k. split; [now apply dict_get_app_r|]. auto.
Qed.

Lemma vertex_loop_labels vs : forall b m,
  map_ok b m -> separated b -> NoDup (keys m ++ map vid vs) ->
  (forall v, In v vs -> RuleGraph.is_relabeled (RuleGraph.VertexElement v) = true ->
             nondegenerate (vlabel v)) ->
  let '(b', m') := fold_left RuleGraph.minimal_vertex_step vs (b, m) in
  separated b'
  /\ (forall u s, dict_get m u = Some s ->
        dict_get m' u = Some s
        /\ left_label b' (Node s) = left_label b (Node s)
        /\ right_label b' (Node s) = right_label b (Node s))
  /\ (forall v, In v vs -> RuleGraph.is_relabeled (RuleGraph.VertexElement v) = true ->
      exists s, dict_get m' (vid v) = Some s
                /\ left_label b' (Node s)
                   = wildcard_if (otruthy (fst (_split_label (vlabel v))))
                /\ right_label b' (Node s) = snd (_split_label (vlabel v))).
Proof.
  induction vs as [|v vs IH]; cbn [fold_left map]; intros b m Hok Hsep Hnd Hdeg.
  - split; [exact Hsep|]. split; [auto|]. intros v [].
  - assert (Hfresh : ~ In (vid v) (keys m)).
    { intros Hin. apply NoDup_remove_2 in Hnd. apply Hnd. apply in_app_iff. now left. }
    pose proof (vertex_step_spec b m v Hok Hfresh (Hdeg v (or_introl eq_refl))) as Hstep.
    pose proof (vertex_step_labels b m v Hok Hsep Hfresh) as Hlab.
    destruct (RuleGraph.minimal_vertex_step (b, m) v) as [b1 m1].
    destruct Hstep as (Hok1 & Hk1 & _). destruct Hlab as (S1 & K1 & N1).
    specialize (IH b1 m1 Hok1 S1).
    destruct (fold_left RuleGraph.minimal_vertex_step vs (b1, m1)) as [b' m'].
    destruct IH as (S' & K' & N').
    { rewrite Hk1. destruct (RuleGraph.is_relabeled (RuleGraph.VertexElement v)).
      - rewrite <- app_assoc. exact Hnd.
      - rewrite app_nil_r. now apply NoDup_remove_1 in Hnd. }
    { intros x Hx. apply Hdeg. now right. }
    split; [exact S'|]. split.
    + intros u s Hu. destruct (K1 u s Hu) as (G1 & A1 & B1).
      destruct (K' u s G1) as (G2 & A2 & B2). split; [exact G2|]. split; congruence.
    + intros x [<-|Hx] Hr; [|now apply N'].
      destruct (N1 Hr) as (s & G & A & B).
      destruct (K' _ s G) as (G2 & A2 & B2). exists s. split; [exact G2|]. split; congruence.
Qed.

Lemma touches_app side l1 l2 v :
  touches side (l1 ++ l2) v = touches side l1 v || touches side l2 v.
Proof. unfold touches. apply existsb_app. Qed.

Lemma EdgeTuple_inj s t_ s' t' :
  EdgeTuple s t_ = EdgeTuple s' t' -> (s = s' /\ t_ = t') \/ (s = t' /\ t_ = s').
Proof.
  unfold EdgeTuple. destruct (Nat.ltb t_ s), (Nat.ltb t' s'); intros [= -> ->]; auto.
Qed.

Lemma EdgeTuple_not_node s t_ n : EdgeTuple s t_ <> Node n.
Proof. unfold EdgeTuple. destruct (Nat.ltb t_ s); discriminate. Qed.

(** New ids are equal exactly when the vertices they stand for are. *)
Lemma new_id_eqb b m u v s n :
  map_ok b m -> dict_get m u = Some s -> dict_get m v = Some n ->
  Nat.eqb n s = Nat.eqb u v.
Proof.
  intros Hok Hu Hv. destruct (Nat.eqb_spec n s) as [->|N], (Nat.eqb_spec u v) as [->|N'];
    try reflexivity.
  - exfalso. apply N'. eapply dict_get_inj; eauto.
  - exfalso. apply N. congruence.
Qed.

Lemma dict_get_app_other d k v x :
  ~ In x (keys d) -> dict_get (d ++ [(k, v)]) x = if Nat.eqb k x then Some v else None.
Proof.
  induction d as [|[k' v'] d IH]; simpl; intros H; [reflexivity|].
  destruct (Nat.eqb_spec k' x) as [->|N]; [tauto|]. apply IH. tauto.
Qed.

(** An end vertex that has no new id yet enters as a wildcard of the
    context. *)
Lemma endpoint_labels L0 R0 earlier b m id :
  labels_ok L0 R0 earlier b m ->
  let '(b', m') := RuleGraph.minimal_endpoint (b, m) id in
  labels_ok L0 R0 earlier b' m'
  /\ In id (keys m')
  /\ (forall x, In x (keys m) -> dict_get m' x = dict_get m x).
Proof.
  intros H. pose proof (endpoint_spec b m id (lo_map _ _ _ _ _ H)) as Hspec.
  unfold RuleGraph.minimal_endpoint in *.
  destruct (dict_get m id) as [s|] eqn:E.
  - destruct Hspec as (_ & Hk & _). split; [exact H|]. split; [|auto]. apply Hk. now right.
  - destruct H as [Hok Hsep Hfresh Hends Hv He Hp].
    destruct Hspec as (Hok' & Hk' & Hs' & Hp').
    apply dict_get_none in E. rewrite (map_ok_next _ _ Hok) in *.
    rewrite (dict_set_fresh _ _ _ E) in *.
    set (k := List.length m) in *.
    destruct (add_context_element_labels b (Node k) "*" Hsep) as (A1 & A2 & A3 & A4).
    cbv zeta in A1, A2, A3, A4. fold (add_context_vertex b k "*") in A1, A2, A3, A4.
    assert (Hold : forall v s, dict_get m v = Some s ->
              left_label (add_context_vertex b k "*") (Node s) = left_label b (Node s)
              /\ right_label (add_context_vertex b k "*") (Node s) = right_label b (Node s)).
    { intros v s Hg. apply A3. intros [= ->].
      pose proof (dict_get_bound _ _ _ _ Hok Hg). unfold k in *. lia. }
    split; [|split; [apply Hk'; now right|exact Hs']].
    split.
    + exact Hok'.
    + exact A4.
    + intros v Hn. apply Hfresh. intros Hin. apply Hn, Hk'. now left.
    + intros e Hin Hr. destruct (Hends e Hin Hr). split; apply Hk'; now left.
    + intros v s Hg. destruct (in_dec Nat.eq_dec v (keys m)) as [Hin|Hn].
      * rewrite (Hs' v Hin) in Hg. destruct (Hold v s Hg) as [-> ->]. now apply Hv.
      * rewrite (dict_get_app_other _ _ _ _ Hn) in Hg.
        destruct (Nat.eqb id v); [|discriminate]. injection Hg as <-.
        destruct (Hfresh v Hn) as [-> ->]. now rewrite A1, A2.
    + intros e s t_ Hin Hr Hgs Hgt. destruct (Hends e Hin Hr) as [Is It].
      rewrite (Hs' _ Is) in Hgs. rewrite (Hs' _ It) in Hgt.
      destruct (A3 (EdgeTuple s t_) (EdgeTuple_not_node s t_ k)) as [-> ->]. now apply He.
    + intros a c Hpr. rewrite Hp' in Hpr.
      destruct (Hp a c Hpr) as (e & s & t_ & Hin & Hr & Hgs & Hgt & Eq).
      exists e, s, t_. split; [exact Hin|]. split; [exact Hr|].
      rewrite !Hs' by (eapply dict_get_keys; eauto). auto.
Qed.

Lemma keep_some (o : option string) :
  match o with Some x => Some x | None => None end = o.
Proof. now destruct o. Qed.

(** Adding the left half of an edge, when there is one. *)
Lemma left_half_added b s t_ (l : option string) :
  separated b ->
  let b' := if otruthy l then add_left_edge b s t_ "*" else b in
  separated b'
  /\ (forall v, left_label b' (Node v)
                = match left_label b (Node v) with
                  | Some x => Some x
                  | None => if otruthy l && (Nat.eqb v s || Nat.eqb v t_)
                            then Some "*"%string else None
                  end)
  /\ (forall v, right_label b' (Node v) = right_label b (Node v))
  /\ left_label b' (EdgeTuple s t_)
     = (if otruthy l then Some "*"%string else left_label b (EdgeTuple s t_))
  /\ right_label b' (EdgeTuple s t_) = right_label b (EdgeTuple s t_)
  /\ (forall a c, Edge a c <> EdgeTuple s t_ ->
        left_label b' (Edge a c) = left_label b (Edge a c)
        /\ right_label b' (Edge a c) = right_label b (Edge a c)).
Proof.
  intros Hsep. cbv zeta. destruct (otruthy l); cbn [andb].
  - destruct (add_left_edge_spec b s t_ "*" Hsep) as (A1 & A2 & A3 & A4 & A5).
    cbv zeta in A1, A2, A3, A4, A5.
    split; [exact A5|]. split; [exact A3|]. split; [exact A4|]. split; [exact A1|].
    split; [exact A2|]. intros a c Hne. now apply add_left_edge_others.
  - split; [exact Hsep|]. split; [intros v; now rewrite keep_some|]. auto.
Qed.

(** Adding the right half of an edge, when there is one. *)
Lemma right_half_added b s t_ (r : option string) :
  separated b ->
  (forall x, r = Some x -> truthy x = true) ->
  let b' := match r with
            | Some x => if truthy x then add_right_edge b s t_ x else b
            | None => b
            end in
  separated b'
  /\ (forall v, right_label b' (Node v)
                = match right_label b (Node v) with
                  | Some x => Some x
                  | None => if otruthy r && (Nat.eqb v s || Nat.eqb v t_)
                            then Some "*"%string else None
                  end)
  /\ (forall v, left_label b' (Node v) = left_label b (Node v))
  /\ right_label b' (EdgeTuple s t_)
     = match r with
       | Some x => Some x
       | None => right_label b (EdgeTuple s t_)
       end
  /\ left_label b' (EdgeTuple s t_) = left_label b (EdgeTuple s t_)
  /\ (forall a c, Edge a c <> EdgeTuple s t_ ->
        left_label b' (Edge a c) = left_label b (Edge a c)
        /\ right_label b' (Edge a c) = right_label b (Edge a c)).
Proof.
  intros Hsep Hr. cbv zeta. destruct r as [x|]; cbn [otruthy andb].
  - rewrite (Hr x eq_refl). cbn [andb].
    destruct (add_right_edge_spec b s t_ x Hsep) as (A1 & A2 & A3 & A4 & A5).
    cbv zeta in A1, A2, A3, A4, A5.
    split; [exact A5|]. split; [exact A3|]. split; [exact A4|]. split; [exact A1|].
    split; [exact A2|]. intros a c Hne. now apply add_right_edge_others.
  - split; [exact Hsep|]. split; [intros v; now rewrite keep_some|]. auto.
Qed.

(** One round of the second loop. *)
Lemma edge_step_labels L0 R0 earlier b m e b' m' :
  labels_ok L0 R0 earlier b m ->
  (RuleGraph.is_relabeled (RuleGraph.EdgeElement e) = true -> nondegenerate (elabel e)) ->
  (forall e0, In e0 earlier -> same_ends e0 e = false) ->
  RuleGraph.minimal_edge_step (b, m) e = Some (b', m') ->
  labels_ok L0 R0 (earlier ++ [e]) b' m'.
Proof.
  intros H Hnd Hsimple Hstep.
  destruct (edge_step_spec _ _ _ _ _ (lo_map _ _ _ _ _ H) Hnd Hstep) as (Hok' & Hk' & Hs' & Hp').
  unfold RuleGraph.minimal_edge_step in Hstep.
  destruct (RuleGraph.is_relabeled (RuleGraph.EdgeElement e)) eqn:Erel; cbn [negb] in Hstep.
  2:{ injection Hstep as <- <-.
      assert (T : forall side v, touches side (earlier ++ [e]) v = touches side earlier v).
      { intros side v. rewrite touches_app. unfold touches at 2. simpl. rewrite Erel.
        simpl. apply orb_false_r. }
      destruct H as [Hok Hsep Hfresh Hends Hv He Hp]. split; auto.
      - intros e0 Hin Hr. apply in_app_iff in Hin as [Hin|[<-|[]]]; [auto|congruence].
      - intros v s Hg. rewrite !T. auto.
      - intros e0 s t_ Hin Hr. apply in_app_iff in Hin as [Hin|[<-|[]]]; [eauto|congruence].
      - intros a c Hpr. destruct (Hp a c Hpr) as (e0 & s & t_ & Hin & rest).
        exists e0, s, t_. split; [apply in_app_iff; now left|exact rest]. }
  pose proof (endpoint_labels L0 R0 earlier b m (source e) H) as H1.
  pose proof (endpoint_spec b m (source e) (lo_map _ _ _ _ _ H)) as Q1.
  destruct (RuleGraph.minimal_endpoint (b, m) (source e)) as [b1 m1].
  destruct H1 as (H1 & I1 & S1). destruct Q1 as (_ & _ & _ & P1).
  pose proof (endpoint_labels L0 R0 earlier b1 m1 (target e) H1) as H2.
  pose proof (endpoint_spec b1 m1 (target e) (lo_map _ _ _ _ _ H1)) as Q2.
  destruct (RuleGraph.minimal_endpoint (b1, m1) (target e)) as [b2 m2].
  destruct H2 as (H2 & I2 & S2). destruct Q2 as (_ & _ & _ & P2).
  unfold RuleGraph.split_element_label in Hstep. cbn [RuleGraph.stringLabel] in Hstep.
  destruct (_split_label (elabel e)) as [l r] eqn:Esplit.
  destruct (dict_get m2 (source e)) as [s|] eqn:Es; [|discriminate]. cbn [bind] in Hstep.
  destruct (dict_get m2 (target e)) as [t_|] eqn:Et; [|discriminate]. cbn [bind] in Hstep.
  destruct H2 as [Hok2 Hsep2 Hfresh2 Hends2 Hv2 He2 Hp2].
  assert (Hr : forall x, r = Some x -> truthy x = true)
    by (intros x; apply (split_some_truthy _ _ _ x Esplit)).
  destruct (left_half_added b2 s t_ l Hsep2) as (S3 & L3 & R3 & EL3 & ER3 & O3).
  cbv zeta in S3, L3, R3, EL3, ER3, O3.
  set (b3 := if otruthy l then add_left_edge b2 s t_ "*" else b2) in *.
  destruct (right_half_added b3 s t_ r S3 Hr) as (S4 & R4 & L4 & ER4 & EL4 & O4).
  cbv zeta in S4, R4, L4, ER4, EL4, O4.
  set (b4 := match r with
             | Some x => if truthy x then add_right_edge b3 s t_ x else b3
             | None => b3
             end) in *.
  injection Hstep as Eb Em. subst m'. subst b'.
  assert (T : forall side v,
            touches side (earlier ++ [e]) v
            = touches side earlier v
              || (otruthy (side (l, r)) && (Nat.eqb (source e) v || Nat.eqb (target e) v))).
  { intros side v. rewrite touches_app. unfold touches at 2. simpl.
    rewrite Erel, Esplit. simpl. now rewrite orb_false_r. }
  assert (Hdistinct : forall e0 s0 t0,
            In e0 earlier ->
            dict_get m2 (source e0) = Some s0 -> dict_get m2 (target e0) = Some t0 ->
            EdgeTuple s0 t0 <> EdgeTuple s t_).
  { intros e0 s0 t0 Hin G1 G2 Eq. specialize (Hsimple e0 Hin).
    unfold same_ends in Hsimple.
    apply EdgeTuple_inj in Eq as [[-> ->]|[-> ->]].
    - rewrite (dict_get_inj _ _ _ _ _ Hok2 G1 Es), (dict_get_inj _ _ _ _ _ Hok2 G2 Et),
        !Nat.eqb_refl in Hsimple. discriminate.
    - rewrite (dict_get_inj _ _ _ _ _ Hok2 G1 Et), (dict_get_inj _ _ _ _ _ Hok2 G2 Es),
        !Nat.eqb_refl in Hsimple. simpl in Hsimple. rewrite orb_true_r in Hsimple.
      discriminate. }
  assert (Hnew : present b2 (EdgeTuple s t_) = false).
  { destruct (present b2 (EdgeTuple s t_)) eqn:Epr; [|reflexivity]. exfalso.
    destruct (EdgeTuple_cases s t_) as [Ec|Ec]; rewrite Ec in Epr;
      destruct (Hp2 _ _ Epr) as (e0 & s0 & t0 & Hin & _ & G1 & G2 & Eq);
      apply (Hdistinct e0 s0 t0 Hin G1 G2); congruence. }
  destruct (absent_labels _ _ Hnew) as [Lnew Rnew].
  split.
  - exact Hok'.
  - exact S4.
  - exact Hfresh2.
  - intros e0 Hin Hrel. apply in_app_iff in Hin as [Hin|[<-|[]]]; [now apply Hends2|].
    split; eapply dict_get_keys; eauto.
  - intros v n Hg. destruct (Hv2 v n Hg) as [Lv Rv]. split.
    + rewrite L4, L3, Lv, (T fst). cbn [fst].
      rewrite (new_id_eqb _ _ _ _ _ _ Hok2 Es Hg), (new_id_eqb _ _ _ _ _ _ Hok2 Et Hg).
      destruct (L0 v); [reflexivity|].
      destruct (touches fst earlier v); [reflexivity|].
      cbn [orb wildcard_if].
      now destruct (otruthy l && (Nat.eqb (source e) v || Nat.eqb (target e) v)).
    + rewrite R4, R3, Rv, (T snd). cbn [snd].
      rewrite (new_id_eqb _ _ _ _ _ _ Hok2 Es Hg), (new_id_eqb _ _ _ _ _ _ Hok2 Et Hg).
      destruct (R0 v); [reflexivity|].
      destruct (touches snd earlier v); [reflexivity|].
      cbn [orb wildcard_if].
      now destruct (otruthy r && (Nat.eqb (source e) v || Nat.eqb (target e) v)).
  - intros e0 s0 t0 Hin Hrel G1 G2. apply in_app_iff in Hin as [Hin|[<-|[]]].
    + pose proof (Hdistinct e0 s0 t0 Hin G1 G2) as Hne.
      destruct (EdgeTuple_cases s0 t0) as [Ec|Ec]; rewrite Ec in Hne |- *;
        destruct (O4 _ _ Hne) as [-> ->]; destruct (O3 _ _ Hne) as [-> ->];
        rewrite <- Ec; now apply He2.
    + rewrite Es in G1. rewrite Et in G2. injection G1 as <-. injection G2 as <-.
      rewrite Esplit. cbn [fst snd]. split.
      * rewrite EL4, EL3, Lnew. now destruct (otruthy l).
      * rewrite ER4, ER3, Rnew. now destruct r.
  - intros a c Hpr. apply Hp' in Hpr as [Hpr|(_ & s0 & t0 & G1 & G2 & Eq)].
    + rewrite <- P1, <- P2 in Hpr.
      destruct (Hp2 a c Hpr) as (e0 & s0 & t0 & Hin & rest).
      exists e0, s0, t0. split; [apply in_app_iff; now left|exact rest].
    + exists e, s0, t0. split; [apply in_app_iff; right; now left|]. auto.
Qed.

Lemma simple_edges_earlier earlier : forall e es,
  simple_edges (earlier ++ e :: es) -> forall e0, In e0 earlier -> same_ends e0 e = false.
Proof.
  induction earlier as [|x earlier IH]; simpl; intros e es H e0 Hin; [destruct Hin|].
  destruct H as [Hx Hs]. destruct Hin as [<-|Hin].
  - apply Hx. apply in_app_iff. right. now left.
  - eapply IH; eauto.
Qed.

(** The second loop. *)
Lemma edge_loop_labels L0 R0 es : forall earlier b m b' m',
  labels_ok L0 R0 earlier b m ->
  (forall e, In e es -> RuleGraph.is_relabeled (RuleGraph.EdgeElement e) = true ->
             nondegenerate (elabel e)) ->
  simple_edges (earlier ++ es) ->
  RuleGraph.foldM RuleGraph.minimal_edge_step es (b, m) = Some (b', m') ->
  labels_ok L0 R0 (earlier ++ es) b' m'.
Proof.
  induction es as [|e es IH]; cbn [RuleGraph.foldM]; intros earlier b m b' m' H Hnd Hs Hf.
  - injection Hf as <- <-. now rewrite app_nil_r.
  - destruct (RuleGraph.minimal_edge_step (b, m) e) as [[b1 m1]|] eqn:E1; [|discriminate].
    cbn [bind] in Hf.
    pose proof (edge_step_labels L0 R0 earlier b m e b1 m1 H (Hnd e (or_introl eq_refl))
                  (simple_edges_earlier earlier e es Hs) E1) as H1.
    replace (earlier ++ e :: es) with ((earlier ++ [e]) ++ es) in *
      by (now rewrite <- app_assoc).
    apply (IH _ _ _ _ _ H1); auto. intros x Hx. apply Hnd. now right.
Qed.

End MinimalLabels.

(** * The minimal subrule: its vertices, its edges and their labels *)

Section MinimalSubruleElements.
Import PyStr Labels PyData Mod.
Import RuleBuilder.
Context {O : Oracle}.

Lemma EdgeTuple_sorted s t_ a c : Edge a c = EdgeTuple s t_ -> a <= c.
Proof.
  unfold EdgeTuple. destruct (Nat.ltb_spec t_ s); intros [= -> ->]; lia.
Qed.

Lemma vid_injective (vs : list GVertex) x y :
  NoDup (map vid vs) -> In x vs -> In y vs -> vid x = vid y -> x = y.
Proof.
  induction vs as [|v vs IH]; simpl; [tauto|].
  intros ND Hx Hy E. inversion ND as [|? ? Hn ND']; subst.
  destruct Hx as [->|Hx], Hy as [->|Hy]; auto.
  - exfalso. apply Hn. rewrite E. now apply in_map.
  - exfalso. apply Hn. rewrite <- E. now apply in_map.
Qed.

Lemma in_values_key (m : list Item) n : In n (map snd m) -> exists v, In (v, n) m.
Proof.
  intros H. apply in_map_iff in H as ([v w] & <- & Hin). eauto.
Qed.

Lemma minimal_edge_label_kept e : minimal_edge_label e <> "no_edge"%string.
Proof.
  unfold minimal_edge_label, _combine_labels, wildcard_if.
  destruct (otruthy (fst (_split_label (elabel e)))); cbn [otruthy truthy].
  - destruct (negb _); cbn; discriminate.
  - destruct (negb _); cbn; discriminate.
Qed.

(** C5, as the code has it: for a pattern [P] with distinct vertex ids, no
    two edges between the same two vertices, and combined labels that have
    a non-empty half, [get_minimal_subrule()] returns a pattern [S] and an
    anchor morphism such that: the vertices of [S] are numbered [0 .. k-1],
    and the anchor maps them one by one to the vertices of [P] that carry a
    combined label or are an end of an edge of [P] that carries one; the
    vertex of [S] that stands for the vertex [x] of [P] is labelled
    [minimal_vertex_label (edges P) x] (not with the label of [x]); the
    edges of [S] that are not labelled ["no_edge"] stand for relabelled edges
    of [P], under the label [minimal_edge_label e]; every relabelled edge
    of [P] has such an edge in [S]; and every other edge of [S] is labelled
    ["no_edge"]. *)
Theorem minimal_subrule_elements (P S : RuleGraph.t) (anchor : Morphism.t) :
  NoDup (map vid (RuleGraph.vertices P)) ->
  simple_edges (RuleGraph.edges P) ->
  (forall v, In v (RuleGraph.vertices P) ->
             RuleGraph.is_relabeled (RuleGraph.VertexElement v) = true ->
             nondegenerate (vlabel v)) ->
  (forall e, In e (RuleGraph.edges P) ->
             RuleGraph.is_relabeled (RuleGraph.EdgeElement e) = true ->
             nondegenerate (elabel e)) ->
  RuleGraph.get_minimal_subrule P = Some (S, anchor) ->
  exists kept : list Vertex,
    NoDup kept
    /\ (forall v, In v kept <->
          (exists x, In x (RuleGraph.vertices P) /\ vid x = v
                     /\ RuleGraph.is_relabeled (RuleGraph.VertexElement x) = true)
          \/ (exists e, In e (RuleGraph.edges P)
                        /\ RuleGraph.is_relabeled (RuleGraph.EdgeElement e) = true
                        /\ (v = source e \/ v = target e)))
    /\ Morphism.items anchor = combine (seq 0 (List.length kept)) kept
    /\ Permutation (map vid (RuleGraph.vertices S)) (seq 0 (List.length kept))
    /\ (forall y, In y (RuleGraph.vertices S) ->
          exists x, In x (RuleGraph.vertices P)
                    /\ Morphism.getitem anchor (vid y) = Some (vid x)
                    /\ vlabel y = minimal_vertex_label (RuleGraph.edges P) x)
    /\ (forall e', In e' (RuleGraph.edges S) -> elabel e' <> "no_edge"%string ->
          exists e, In e (RuleGraph.edges P)
                    /\ RuleGraph.is_relabeled (RuleGraph.EdgeElement e) = true
                    /\ stands_for anchor e' e
                    /\ elabel e' = minimal_edge_label e)
    /\ (forall e, In e (RuleGraph.edges P) ->
          RuleGraph.is_relabeled (RuleGraph.EdgeElement e) = true ->
          exists e', In e' (RuleGraph.edges S)
                     /\ stands_for anchor e' e
                     /\ elabel e' = minimal_edge_label e
                     /\ elabel e' <> "no_edge"%string).
Proof.
  intros ND Hsimple Hvnd Hend H. unfold RuleGraph.get_minimal_subrule in H.
  pose proof (vertex_loop_spec (RuleGraph.vertices P) _ []
                (map_ok_init ("min_" ++ RuleGraph._name P)%string) ND Hvnd) as Hv.
  pose proof (vertex_loop_labels (RuleGraph.vertices P) _ []
                (map_ok_init ("min_" ++ RuleGraph._name P)%string)
                (separated_init _) ND Hvnd) as Hvl.
  destruct (fold_left RuleGraph.minimal_vertex_step (RuleGraph.vertices P) _) as [b0 m0].
  destruct Hv as (Hok0 & Hk0 & He0). destruct Hvl as (Sep0 & _ & N0).
  destruct (RuleGraph.foldM RuleGraph.minimal_edge_step (RuleGraph.edges P) (b0, m0))
    as [[b m]|] eqn:Eloop; [|discriminate].
  cbn [bind] in H.
  destruct (edge_loop_spec _ _ _ _ _ Hok0 Hend Eloop) as (Hok & Hk & Hs & He).
  set (L0 := fun v => match dict_get m0 v with
                      | Some s => left_label b0 (Node s)
                      | None => Some "*"%string
                      end).
  set (R0 := fun v => match dict_get m0 v with
                      | Some s => right_label b0 (Node s)
                      | None => Some "*"%string
                      end).
  assert (Hinit : labels_ok L0 R0 [] b0 m0).
  { split.
    - exact Hok0.
    - exact Sep0.
    - intros v Hn. apply dict_get_none in Hn. unfold L0, R0. now rewrite Hn.
    - intros e [].
    - intros v s Hg. unfold L0, R0. rewrite Hg. cbn [touches existsb wildcard_if].
      now rewrite !keep_some.
    - intros e s t_ [].
    - intros a c Hp. rewrite He0 in Hp. discriminate. }
  pose proof (edge_loop_labels L0 R0 (RuleGraph.edges P) [] b0 m0 b m Hinit Hend Hsimple Eloop)
    as Hlab.
  cbn [app] in Hlab. destruct Hlab as [_ Sep Hfresh Hends Hlv Hle Hlp].
  destruct (RuleGraph.from_rule (to_mod_rule b)) as [S'|] eqn:Efrom; [|discriminate].
  cbn [bind] in H.
  match type of H with
  | bind ?x _ = _ => destruct x as [its|] eqn:Eits; [|discriminate]
  end.
  cbn [bind] in H. injection H as <- <-.
  assert (Hvert : forall v n, In (v, n) m -> exists x, In x (RuleGraph.vertices P) /\ vid x = v).
  { intros v n Hin. apply mapM_Forall2 in Eits. clear -Eits Hin.
    induction Eits as [|[k w] y l l' Hy _ IH]; [destruct Hin|].
    destruct Hin as [[= -> ->]|Hin]; [|now apply IH].
    simpl in Hy. destruct (RuleGraph.get_vertex P v) as [x|] eqn:Ex; [|discriminate].
    exists x. unfold RuleGraph.get_vertex in Ex. apply find_some in Ex as [Hx E].
    apply Nat.eqb_eq in E. auto. }
  assert (Hits : its = map swap_item m).
  { apply mapM_Forall2 in Eits. clear -Eits.
    induction Eits as [|[k v] y l l' Hy _ IH]; simpl; [reflexivity|].
    f_equal; [|exact IH]. simpl in Hy.
    destruct (RuleGraph.get_vertex P k) as [x|] eqn:Ex; [|discriminate]. simpl in Hy.
    destruct (RuleGraph.get_vertex S' v) as [z|] eqn:Ez; [|discriminate]. simpl in Hy.
    injection Hy as <-. apply get_vertex_vid in Ex, Ez. unfold swap_item. simpl. congruence. }
  assert (Nkeys : NoDup (keys m)) by apply (ok_keys _ _ Hok).
  assert (Nvals : NoDup (map snd m)) by (rewrite (ok_values _ _ Hok); apply seq_NoDup).
  assert (Hdict : dict_of its = its).
  { apply dict_of_nodup. rewrite Hits, keys_swap. exact Nvals. }
  assert (Hanchor : forall s v, Morphism.getitem (Morphism.init (dict_of its)) s = Some v
                                <-> dict_get m v = Some s).
  { intros s v. unfold Morphism.getitem. simpl Morphism._vertex_map.
    rewrite Hdict, Hits. now apply getitem_swap. }
  assert (Hsorted : forall a c, present b (Edge a c) = true -> a <= c).
  { intros a c Hp. destruct (Hlp a c Hp) as (e & s & t_ & _ & _ & _ & _ & Eq).
    eapply EdgeTuple_sorted; eauto. }
  destruct (from_builder b S' Hsorted Efrom) as (HSv & HSe1 & HSe2).
  assert (Hstands : forall e e' s t_,
            dict_get m (source e) = Some s -> dict_get m (target e) = Some t_ ->
            Edge (source e') (target e') = EdgeTuple s t_ ->
            stands_for (Morphism.init (dict_of its)) e' e).
  { intros e e' s t_ Gs Gt Eq. unfold stands_for.
    destruct (EdgeTuple_cases s t_) as [Ec|Ec]; rewrite Ec in Eq; injection Eq as -> ->;
      [left|right]; split; now apply Hanchor. }
  exists (keys m).
  split; [exact Nkeys|]. split; [|split; [|split; [|split; [|split]]]].
  - intros v. rewrite Hk, Hk0. simpl. rewrite in_map_iff. split.
    + intros [(x & <- & Hx)|Hv]; [left|right; exact Hv].
      apply filter_In in Hx as [Hx Hr]. eauto.
    + intros [(x & Hx & <- & Hr)|Hv]; [left|right; exact Hv].
      exists x. split; [reflexivity|]. apply filter_In. auto.
  - unfold Morphism.items. simpl. rewrite Hdict, Hits, swap_combine.
    unfold keys. rewrite length_map. f_equal. apply (ok_values _ _ Hok).
  - rewrite HSv, map_map. simpl. rewrite map_id, <- sort_ids_perm.
    apply NoDup_Permutation; [apply vertices_nodup|apply seq_NoDup|].
    intros n. rewrite vertices_in, (ok_present _ _ Hok), in_seq.
    unfold keys. rewrite length_map. unfold Item, Vertex in *. lia.
  - intros y Hy. rewrite HSv in Hy. apply in_map_iff in Hy as (n & <- & Hn).
    apply (Permutation_in _ (Permutation_sym (sort_ids_perm _))) in Hn.
    apply vertices_in, (ok_present _ _ Hok) in Hn.
    assert (Hnv : In n (map snd m)) by (rewrite (ok_values _ _ Hok); apply in_seq; lia).
    destruct (in_values_key m n Hnv) as (v & Hin).
    pose proof (dict_get_in _ _ _ Nkeys Hin) as Hg.
    destruct (Hvert v n Hin) as (x & Hx & Ex). subst v.
    exists x. split; [exact Hx|]. split; [now apply Hanchor|].
    cbn [vlabel]. destruct (Hlv _ _ Hg) as [-> ->].
    unfold minimal_vertex_label.
    destruct (RuleGraph.is_relabeled (RuleGraph.VertexElement x)) eqn:Erel.
    + destruct (N0 x Hx Erel) as (s0 & G0 & A0 & B0).
      unfold L0, R0. rewrite G0, A0, B0. f_equal.
      now destruct (otruthy (fst (_split_label (vlabel x)))).
    + assert (Hnone : dict_get m0 (vid x) = None).
      { apply dict_get_none. rewrite Hk0. simpl. intros Hi.
        apply in_map_iff in Hi as (x' & E' & Hx'). apply filter_In in Hx' as [Hx' Hr'].
        rewrite (vid_injective _ _ _ ND Hx' Hx E') in Hr'. congruence. }
      unfold L0, R0. rewrite Hnone. reflexivity.
  - intros e' He' Hne. destruct (HSe2 e' He') as [E|[Hp El]]; [congruence|].
    destruct (Hlp _ _ Hp) as (e & s & t_ & Hin & Hr & Gs & Gt & Eq).
    exists e. split; [exact Hin|]. split; [exact Hr|].
    split; [now apply (Hstands e e' s t_)|].
    rewrite El, Eq. destruct (Hle e s t_ Hin Hr Gs Gt) as [-> ->]. reflexivity.
  - intros e Hin Hr. destruct (Hends e Hin Hr) as [Is It].
    destruct (dict_get_some _ _ Is) as (s & Gs & _).
    destruct (dict_get_some _ _ It) as (t_ & Gt & _).
    assert (Hex : exists a c, Edge a c = EdgeTuple s t_)
      by (destruct (EdgeTuple_cases s t_) as [-> | ->]; eauto).
    destruct Hex as (a & c & Eq).
    assert (Hp : present b (Edge a c) = true).
    { apply He. right. exists e. split; [exact Hin|]. split; [exact Hr|]. exists s, t_. auto. }
    eexists. split; [apply (HSe1 a c Hp)|]. split.
    + apply (Hstands e _ s t_ Gs Gt). exact Eq.
    + assert (El : _combine_labels (left_label b (Edge a c)) (right_label b (Edge a c))
                   = minimal_edge_label e).
      { rewrite Eq. destruct (Hle e s t_ Hin Hr Gs Gt) as [-> ->]. reflexivity. }
      cbn [elabel]. rewrite El. split; [reflexivity|apply minimal_edge_label_kept].
Qed.

End MinimalSubruleElements.

Section MinimalSubruleRun.
Import PyStr Labels PyData Mod Examples.
#[local] Existing Instance Exhaustive.oracle.

(** The minimal subrule of [C -(-;=)- O;N]: both vertices are kept, the
    context vertex as an end of the relabelled edge and under the wildcard;
    the relabelled vertex keeps [N] on the right and has the wildcard on the
    left; and the edge keeps [=] on the right and has the wildcard on the
    left. *)
Lemma minimal_subrule_elements_witness :
  RuleGraph.get_minimal_subrule bond_pattern = Some (fst bond_minimal, snd bond_minimal)
  /\ (exists kept,
        NoDup kept
        /\ Morphism.items (snd bond_minimal) = combine (seq 0 (List.length kept)) kept
        /\ Permutation (map vid (RuleGraph.vertices (fst bond_minimal)))
                       (seq 0 (List.length kept)))
  /\ (forall y, In y (RuleGraph.vertices (fst bond_minimal)) ->
        exists x, In x (RuleGraph.vertices bond_pattern)
                  /\ Morphism.getitem (snd bond_minimal) (vid y) = Some (vid x)
                  /\ vlabel y = minimal_vertex_label (RuleGraph.edges bond_pattern) x)
  /\ (exists e', In e' (RuleGraph.edges (fst bond_minimal))
                 /\ stands_for (snd bond_minimal) e' (mkEdge 0 1 "-;=")
                 /\ elabel e' = "*;="%string)
  /\ minimal_vertex_label (RuleGraph.edges bond_pattern) (mkVertex 1 "O;N") = "*;N"%string
  /\ minimal_vertex_label (RuleGraph.edges bond_pattern) (mkVertex 0 "C") = "*"%string.
Proof.
  assert (H : RuleGraph.get_minimal_subrule bond_pattern
              = Some (fst bond_minimal, snd bond_minimal)) by (vm_compute; reflexivity).
  split; [exact H|].
  assert (ND : NoDup (map vid (RuleGraph.vertices bond_pattern)))
    by (repeat (constructor; [simpl; intuition discriminate|]); constructor).
  assert (SE : simple_edges (RuleGraph.edges bond_pattern))
    by (split; [intros e' []|exact I]).
  assert (NV : forall v, In v (RuleGraph.vertices bond_pattern) ->
                         RuleGraph.is_relabeled (RuleGraph.VertexElement v) = true ->
                         nondegenerate (vlabel v))
    by (intros v [<-|[<-|[]]] _; vm_compute; discriminate).
  assert (NE : forall e, In e (RuleGraph.edges bond_pattern) ->
                         RuleGraph.is_relabeled (RuleGraph.EdgeElement e) = true ->
                         nondegenerate (elabel e))
    by (intros e [<-|[]] _; vm_compute; discriminate).
  destruct (minimal_subrule_elements bond_pattern _ _ ND SE NV NE H)
    as (kept & K1 & _ & K2 & K3 & K4 & _ & K6).
  split; [exists kept; auto|]. split; [exact K4|]. split; [|split; reflexivity].
  destruct (K6 (mkEdge 0 1 "-;=") (or_introl eq_refl) eq_refl) as (e' & E1 & E2 & E3 & _).
  exists e'. auto.
Defined.

End MinimalSubruleRun.
